(** * A tick-indexed limit order book matching engine (hft-sim.cpp)

    Shallow embedding of the engine core of [src/hft-sim.cpp]: the order
    pool, the per-level ring buffers, the order book with its best-bid and
    best-ask caches, and the matching engine with its public operations
    [placeLimit], [placeMarket], [cancel] and [replace].

    Conventions.
    - [u64], [size_t], [i64] and [int] values are integers in [Z]. Unsigned
      arithmetic is written with its wrap-around ([u64]); signed [i64]
      arithmetic that leaves the 64-bit range is undefined behaviour in C++
      and is modelled as such ([i64]).
    - A [std::vector] is a list; reading or writing outside it is undefined
      behaviour ([vec_get], [vec_set] return [None]).
    - [std::unordered_map<u64,u64>] is a [gmap Z Z].
    - A [throw] keeps the mutations made before it: [Throw] carries the
      engine state at the point of the throw.
    - The [while] loops of the matching sweeps take an explicit fuel; the
      termination theorem shows that enough fuel always exists. *)

From Stdlib Require Import ZArith String.
From stdpp Require Import base numbers option list gmap.

Local Open Scope Z_scope.

(** ** Machine integers and vectors *)

(** Unsigned 64-bit wrap-around. *)
Definition u64 (z : Z) : Z := z mod 2 ^ 64.

Definition UINT64_MAX : Z := 2 ^ 64 - 1.

(** Signed 64-bit arithmetic: a result outside the range is undefined. *)
Definition i64 (z : Z) : option Z :=
  if decide (- 2 ^ 63 ≤ z < 2 ^ 63) then Some z else None.

(** [v[i]] read. *)
Definition vec_get {A : Type} (v : list A) (i : Z) : option A :=
  if decide (0 ≤ i) then v !! Z.to_nat i else None.

(** [v[i] = x] write. *)
Definition vec_set {A : Type} (v : list A) (i : Z) (x : A) : option (list A) :=
  if decide (0 ≤ i < Z.of_nat (length v)) then Some (<[Z.to_nat i := x]> v) else None.

(** Result of an operation of a component: a value, a thrown
    [runtime_error], or undefined behaviour. *)
Inductive res (A : Type) : Type :=
| Val (a : A)
| Exn (msg : string)
| UB.
Arguments Val {A} a.
Arguments Exn {A} msg.
Arguments UB {A}.

(** ** Configuration constants of the source *)

Definition PRICE_LEVELS : Z := 20001.
Definition ORDER_POOL_CAPACITY : Z := 3000000.
Definition RING_CAPACITY_PER_LEVEL : Z := 4096.

(** ** Enumerations *)

Inductive Side : Set := BUY | SELL.
Inductive OrderType : Set := LIMIT | MARKET.
Inductive TimeInForce : Set := GFD | IOC | FOK.

#[global] Instance Side_eq_dec : EqDecision Side.
Proof. solve_decision. Defined.
#[global] Instance OrderType_eq_dec : EqDecision OrderType.
Proof. solve_decision. Defined.
#[global] Instance TimeInForce_eq_dec : EqDecision TimeInForce.
Proof. solve_decision. Defined.

(** ** Order *)

Record Order : Type := mkOrder {
  clientId : Z;       (* externally visible id *)
  engineId : Z;       (* index in pool *)
  side : Side;
  type : OrderType;
  tif : TimeInForce;
  priceIdx : Z;       (* -1 for market *)
  qty : Z;            (* remaining qty *)
  ts : Z;             (* arrival timestamp *)
  active : bool       (* set when placed in book *)
}.

(** The default member initialisers of [struct Order]. *)
Definition Order_default : Order :=
  mkOrder 0 0 BUY LIMIT GFD (-1) 0 0 false.

Definition set_clientId (x : Z) (o : Order) : Order :=
  mkOrder x (engineId o) (side o) (type o) (tif o) (priceIdx o) (qty o) (ts o) (active o).
Definition set_engineId (x : Z) (o : Order) : Order :=
  mkOrder (clientId o) x (side o) (type o) (tif o) (priceIdx o) (qty o) (ts o) (active o).
Definition set_side (x : Side) (o : Order) : Order :=
  mkOrder (clientId o) (engineId o) x (type o) (tif o) (priceIdx o) (qty o) (ts o) (active o).
Definition set_type (x : OrderType) (o : Order) : Order :=
  mkOrder (clientId o) (engineId o) (side o) x (tif o) (priceIdx o) (qty o) (ts o) (active o).
Definition set_tif (x : TimeInForce) (o : Order) : Order :=
  mkOrder (clientId o) (engineId o) (side o) (type o) x (priceIdx o) (qty o) (ts o) (active o).
Definition set_priceIdx (x : Z) (o : Order) : Order :=
  mkOrder (clientId o) (engineId o) (side o) (type o) (tif o) x (qty o) (ts o) (active o).
Definition set_qty (x : Z) (o : Order) : Order :=
  mkOrder (clientId o) (engineId o) (side o) (type o) (tif o) (priceIdx o) x (ts o) (active o).
Definition set_ts (x : Z) (o : Order) : Order :=
  mkOrder (clientId o) (engineId o) (side o) (type o) (tif o) (priceIdx o) (qty o) x (active o).
Definition set_active (x : bool) (o : Order) : Order :=
  mkOrder (clientId o) (engineId o) (side o) (type o) (tif o) (priceIdx o) (qty o) (ts o) x.

(** ** Order pool *)

Module OrderPool.

Record t : Type := mk {
  pool : list Order;
  freeList : list Z
}.

(** [OrderPool(cap)]: [cap] default slots; the free list receives
    [cap-1-i] for [i = 0 .. cap-1], so that slot 0 is at its back. *)
Definition new (cap : Z) : t :=
  mk (replicate (Z.to_nat cap) Order_default)
     (map (fun i : nat => cap - 1 - Z.of_nat i) (seq 0 (Z.to_nat cap))).

(** [allocate(o)]: pops the back of the free list and copies [o] into
    that slot, with [engineId] the slot index and [active] set. *)
Definition allocate (o : Order) (p : t) : res (Z * t) :=
  match reverse (freeList p) with
  | [] => Exn "Order pool exhausted"
  | idx :: rest =>
      match vec_set (pool p) idx (set_active true (set_engineId idx o)) with
      | None => UB
      | Some pool' => Val (idx, mk pool' (reverse rest))
      end
  end.

(** [get(idx)]: the slot itself. *)
Definition get (p : t) (idx : Z) : option Order := vec_get (pool p) idx.

(** [free(idx)]: clears [active] and [qty], pushes [idx] on the free list. *)
Definition free (idx : Z) (p : t) : option t :=
  o ← get p idx;
  pool' ← vec_set (pool p) idx (set_qty 0 (set_active false o));
  Some (mk pool' (freeList p ++ [idx])).

(** Assignment through the reference returned by [get]. *)
Definition put (idx : Z) (o : Order) (p : t) : option t :=
  pool' ← vec_set (pool p) idx o;
  Some (mk pool' (freeList p)).

End OrderPool.

(** ** Fixed ring buffer of one price level *)

Module RingLevel.

Record t : Type := mk {
  data : list Z;     (* store engineId *)
  head : Z;          (* pop from head *)
  tail : Z;          (* push to tail *)
  totalQty : Z       (* aggregate outstanding qty *)
}.

Definition new (cap : Z) : t := mk (replicate (Z.to_nat cap) UINT64_MAX) 0 0 0.

(** [data.size()] *)
Definition size (r : t) : Z := Z.of_nat (length (data r)).

(** [(pos + 1) % data.size()] *)
Definition next (r : t) (pos : Z) : Z := u64 (pos + 1) mod size r.

Definition empty (r : t) : bool := bool_decide (head r = tail r).

Definition full (r : t) : bool := bool_decide (next r (tail r) = head r).

Definition push (eid q : Z) (r : t) : res t :=
  if full r then Exn "Price level ring full"
  else
    match vec_set (data r) (tail r) eid, i64 (totalQty r + q) with
    | Some data', Some tq => Val (mk data' (head r) (next r (tail r)) tq)
    | _, _ => UB
    end.

Definition front (r : t) : option Z := vec_get (data r) (head r).

Definition pop_front (q : Z) (r : t) : res t :=
  if empty r then Exn "pop from empty level"
  else
    match vec_set (data r) (head r) UINT64_MAX, i64 (totalQty r - q) with
    | Some data', Some tq => Val (mk data' (next r (head r)) (tail r) tq)
    | _, _ => UB
    end.

Definition set_totalQty (x : Z) (r : t) : t := mk (data r) (head r) (tail r) x.

End RingLevel.

(** ** Order book *)

Module OrderBook.

Record t : Type := mk {
  nlevels : Z;
  bids : list RingLevel.t;   (* index 0..n-1, higher price = larger idx *)
  asks : list RingLevel.t;
  bestBid : Z;
  bestAsk : Z
}.

Definition new (levels : Z) (ringcap : Z) : t :=
  mk levels
     (replicate (Z.to_nat levels) (RingLevel.new ringcap))
     (replicate (Z.to_nat levels) (RingLevel.new ringcap))
     (-1) (-1).

(** The level array and the best-price cache of one side. *)
Definition levels (s : Side) (b : t) : list RingLevel.t :=
  match s with BUY => bids b | SELL => asks b end.

Definition best (s : Side) (b : t) : Z :=
  match s with BUY => bestBid b | SELL => bestAsk b end.

Definition set_levels (s : Side) (v : list RingLevel.t) (b : t) : t :=
  match s with
  | BUY => mk (nlevels b) v (asks b) (bestBid b) (bestAsk b)
  | SELL => mk (nlevels b) (bids b) v (bestBid b) (bestAsk b)
  end.

Definition set_best (s : Side) (x : Z) (b : t) : t :=
  match s with
  | BUY => mk (nlevels b) (bids b) (asks b) x (bestAsk b)
  | SELL => mk (nlevels b) (bids b) (asks b) (bestBid b) x
  end.

Definition updateBestAfterAdd (s : Side) (idx : Z) (b : t) : t :=
  match s with
  | BUY => if bool_decide (bestBid b < idx) then set_best BUY idx b else b
  | SELL =>
      if bool_decide (bestAsk b = -1) || bool_decide (idx < bestAsk b)
      then set_best SELL idx b else b
  end.

(** [for (int i=idx; i>=0; --i) if (!bids[i].empty()) return i;] and then
    [-1]; [n] is the number of iterations left. *)
Fixpoint scanDown (v : list RingLevel.t) (n : nat) (i : Z) : option Z :=
  match n with
  | O => Some (-1)
  | S n' =>
      lvl ← vec_get v i;
      if negb (RingLevel.empty lvl) then Some i else scanDown v n' (i - 1)
  end.

(** [for (int i=idx; i<nlevels; ++i) if (!asks[i].empty()) return i;] and
    then [-1]. *)
Fixpoint scanUp (v : list RingLevel.t) (n : nat) (i : Z) : option Z :=
  match n with
  | O => Some (-1)
  | S n' =>
      lvl ← vec_get v i;
      if negb (RingLevel.empty lvl) then Some i else scanUp v n' (i + 1)
  end.

Definition updateBestAfterRemove (s : Side) (idx : Z) (b : t) : option t :=
  match s with
  | BUY =>
      if bool_decide (bestBid b ≠ idx) then Some b
      else i ← scanDown (bids b) (Z.to_nat (idx + 1)) idx; Some (set_best BUY i b)
  | SELL =>
      if bool_decide (bestAsk b ≠ idx) then Some b
      else i ← scanUp (asks b) (Z.to_nat (nlevels b - idx)) idx; Some (set_best SELL i b)
  end.

End OrderBook.

(** ** Trade *)

Module Trade.

Record t : Type := mk {
  takerClient : Z;
  makerClient : Z;
  qty : Z;
  priceIdx : Z;
  ts : Z
}.

End Trade.

(** Result of a bounded loop over a ring: a value, an out-of-range access,
    or a loop that never leaves. *)
Inductive loop (A : Type) : Type :=
| Done (a : A)
| Bad
| Spin.
Arguments Done {A} a.
Arguments Bad {A}.
Arguments Spin {A}.

(** ** Engine *)

Module Engine.

Record t : Type := mk {
  pool : OrderPool.t;
  book : OrderBook.t;
  clientToEngine : gmap Z Z;   (* clientId -> engineId *)
  trades : list Trade.t;
  nextClientId : Z
}.

(** Outcome of an engine operation: it returns [a] in state [s], it
    throws in state [s], it runs into undefined behaviour, or the fuel of
    a sweep is used up. *)
Inductive outcome (A : Type) : Type :=
| Ok (a : A) (s : t)
| Throw (msg : string) (s : t)
| Undefined
| OutOfFuel.
Arguments Ok {A} a s.
Arguments Throw {A} msg s.
Arguments Undefined {A}.
Arguments OutOfFuel {A}.

Definition obind {A B : Type} (o : outcome A) (k : A → t → outcome B) : outcome B :=
  match o with
  | Ok a s => k a s
  | Throw m s => Throw m s
  | Undefined => Undefined
  | OutOfFuel => OutOfFuel
  end.

Definition ubind {A B : Type} (o : option A) (k : A → outcome B) : outcome B :=
  match o with
  | Some a => k a
  | None => Undefined
  end.

Notation "x ←? y ; z" := (ubind y (λ x, z))
  (at level 20, y at level 100, z at level 200, only parsing).

(** [Engine()] of the source is [new ORDER_POOL_CAPACITY PRICE_LEVELS
    RING_CAPACITY_PER_LEVEL]. *)
Definition new (cap levels ringcap : Z) : t :=
  mk (OrderPool.new cap) (OrderBook.new levels ringcap) ∅ [] 1.

Definition set_pool (x : OrderPool.t) (s : t) : t :=
  mk x (book s) (clientToEngine s) (trades s) (nextClientId s).
Definition set_book (x : OrderBook.t) (s : t) : t :=
  mk (pool s) x (clientToEngine s) (trades s) (nextClientId s).
Definition set_clientToEngine (x : gmap Z Z) (s : t) : t :=
  mk (pool s) (book s) x (trades s) (nextClientId s).
Definition set_trades (x : list Trade.t) (s : t) : t :=
  mk (pool s) (book s) (clientToEngine s) x (nextClientId s).

Definition validIdx (idx : Z) (s : t) : bool :=
  bool_decide (0 ≤ idx) && bool_decide (idx < OrderBook.nlevels (book s)).

(** [book.bids[i]] or [book.asks[i]], read and written through the
    reference. *)
Definition level (sd : Side) (i : Z) (s : t) : option RingLevel.t :=
  vec_get (OrderBook.levels sd (book s)) i.

Definition put_level (sd : Side) (i : Z) (lvl : RingLevel.t) (s : t) : option t :=
  v ← vec_set (OrderBook.levels sd (book s)) i lvl;
  Some (set_book (OrderBook.set_levels sd v (book s)) s).

Definition put_order (eid : Z) (o : Order) (s : t) : option t :=
  p ← OrderPool.put eid o (pool s);
  Some (set_pool p s).

(** [if (pl.empty()) book.updateBestAfterRemove(sd, idx);] *)
Definition refreshBest (sd : Side) (idx : Z) (pl : RingLevel.t) (s : t) : option t :=
  if RingLevel.empty pl then
    bk ← OrderBook.updateBestAfterRemove sd idx (book s);
    Some (set_book bk s)
  else Some s.

Definition opposite (sd : Side) : Side :=
  match sd with BUY => SELL | SELL => BUY end.

Section WithClock.

(** [clock k] is the reading of [high_resolution_clock::now()] made by
    the [k]-th call of [emitTrade]. *)
Variable clock : nat → Z.

Definition emitTrade (taker maker : Order) (q p : Z) (s : t) : t :=
  set_trades
    (trades s ++ [Trade.mk (clientId taker) (clientId maker) q p
                           (u64 (clock (length (trades s))))])
    s.

(** The body of the four matching loops (lines 183-189, 197-203, 214-220
    and 224-230), which differ only in the side [opp] of the book that is
    swept. *)
Definition matchStep (opp : Side) (taker : Order) (s : t) : outcome Order :=
  let b := OrderBook.best opp (book s) in
  pl ←? level opp b s;
  if RingLevel.empty pl then
    bk ←? OrderBook.updateBestAfterRemove opp b (book s);
    Ok taker (set_book bk s)
  else
    makerEid ←? RingLevel.front pl;
    maker ←? OrderPool.get (pool s) makerEid;
    let fill := Z.min (qty maker) (qty taker) in
    let s1 := emitTrade taker maker fill (priceIdx maker) s in
    mq ←? i64 (qty maker - fill);
    tot ←? i64 (RingLevel.totalQty pl - fill);
    tq ←? i64 (qty taker - fill);
    let pl1 := RingLevel.set_totalQty tot pl in
    let taker1 := set_qty tq taker in
    s2 ←? put_order makerEid (set_qty mq maker) s1;
    s3 ←? put_level opp b pl1 s2;
    if bool_decide (mq = 0) then
      match RingLevel.pop_front 0 pl1 with
      | Exn m => Throw m s3
      | UB => Undefined
      | Val pl2 =>
          s4 ←? put_level opp b pl2 s3;
          p ←? OrderPool.free makerEid (pool s4);
          maker' ←? OrderPool.get p makerEid;
          let s5 := set_clientToEngine
                      (delete (clientId maker') (clientToEngine s4)) (set_pool p s4) in
          s6 ←? refreshBest opp b pl2 s5;
          Ok taker1 s6
      end
    else
      s4 ←? refreshBest opp b pl1 s3;
      Ok taker1 s4.

(** The loop conditions: [taker.qty>0 && best!=-1], and for a limit order
    ([priced]) also [bestAsk <= taker.priceIdx] when asks are swept,
    [bestBid >= taker.priceIdx] when bids are. *)
Definition crossing (priced : bool) (opp : Side) (bo p : Z) : bool :=
  if priced then
    match opp with
    | SELL => bool_decide (bo ≤ p)
    | BUY => bool_decide (p ≤ bo)
    end
  else true.

Definition guard (priced : bool) (opp : Side) (taker : Order) (s : t) : bool :=
  bool_decide (0 < qty taker)
  && bool_decide (OrderBook.best opp (book s) ≠ -1)
  && crossing priced opp (OrderBook.best opp (book s)) (priceIdx taker).

Fixpoint sweep (fuel : nat) (priced : bool) (opp : Side) (taker : Order) (s : t)
  : outcome Order :=
  if guard priced opp taker s then
    match fuel with
    | O => OutOfFuel
    | S fuel' =>
        obind (matchStep opp taker s) (λ taker' s', sweep fuel' priced opp taker' s')
    end
  else Ok taker s.

(** [u64 eid = pool.allocate(taker); book.<side>[taker.priceIdx].push(eid,
    taker.qty); book.updateBestAfterAdd(side, taker.priceIdx);
    clientToEngine[taker.clientId]=eid;] *)
Definition addPassive (sd : Side) (taker : Order) (s : t) : outcome unit :=
  match OrderPool.allocate taker (pool s) with
  | Exn m => Throw m s
  | UB => Undefined
  | Val (eid, p) =>
      let s1 := set_pool p s in
      lvl ←? level sd (priceIdx taker) s1;
      match RingLevel.push eid (qty taker) lvl with
      | Exn m => Throw m s1
      | UB => Undefined
      | Val lvl' =>
          s2 ←? put_level sd (priceIdx taker) lvl' s1;
          let s3 := set_book (OrderBook.updateBestAfterAdd sd (priceIdx taker) (book s2)) s2 in
          Ok tt (set_clientToEngine (<[clientId taker := eid]> (clientToEngine s3)) s3)
      end
  end.

Definition matchAndAdd (fuel : nat) (taker : Order) (s : t) : outcome unit :=
  match side taker with
  | BUY =>
      obind (sweep fuel true SELL taker s) (λ taker' s',
        if bool_decide (0 < qty taker') && bool_decide (type taker' = LIMIT)
        then addPassive BUY taker' s' else Ok tt s')
  | SELL =>
      obind (sweep fuel true BUY taker s) (λ taker' s',
        if bool_decide (0 < qty taker') && bool_decide (type taker' = LIMIT)
        then addPassive SELL taker' s' else Ok tt s')
  end.

Definition matchMarket (fuel : nat) (taker : Order) (s : t) : outcome unit :=
  match side taker with
  | BUY => obind (sweep fuel false SELL taker s) (λ _ s', Ok tt s')
  | SELL => obind (sweep fuel false BUY taker s) (λ _ s', Ok tt s')
  end.

(** place limit order (aggressive match then add passive remainder) *)
Definition placeLimit (fuel : nat) (cid : Z) (sd : Side) (pidx q now : Z)
    (tf : TimeInForce) (s : t) : outcome unit :=
  let taker :=
    set_tif tf (set_ts (u64 now) (set_qty q (set_priceIdx pidx (set_type LIMIT
      (set_side sd (set_clientId cid Order_default)))))) in
  matchAndAdd fuel taker s.

(** market order *)
Definition placeMarket (fuel : nat) (cid : Z) (sd : Side) (q now : Z) (s : t)
  : outcome unit :=
  let taker :=
    set_ts (u64 now) (set_qty q (set_priceIdx (-1) (set_type MARKET
      (set_side sd (set_clientId cid Order_default))))) in
  matchMarket fuel taker s.

(** [while (pos != lvl.tail) { if (lvl.data[pos]==eid) { found=true;
    break; } pos = (pos+1)%sz; ++idxpos; }]: [Done (Some pos)] when found
    at [pos], [Done None] when the scan reaches the tail. The position
    cycles through at most [sz] slots, so a scan that has not left after
    [sz] iterations never does. *)
Fixpoint findPos (n : nat) (lvl : RingLevel.t) (eid pos : Z) : loop (option Z) :=
  match n with
  | O => Spin
  | S n' =>
      if bool_decide (pos = RingLevel.tail lvl) then Done None
      else
        match vec_get (RingLevel.data lvl) pos with
        | None => Bad
        | Some x =>
            if bool_decide (x = eid) then Done (Some pos)
            else findPos n' lvl eid (u64 (pos + 1) mod RingLevel.size lvl)
        end
  end.

(** [size_t cur = pos; while (cur != (lvl.tail+sz-1)%sz) { size_t next =
    (cur+1)%sz; lvl.data[cur] = lvl.data[next]; cur = next; }] *)
Fixpoint shiftBack (n : nat) (sz last : Z) (d : list Z) (cur : Z) : loop (list Z) :=
  match n with
  | O => Spin
  | S n' =>
      if bool_decide (cur = last) then Done d
      else
        let nxt := u64 (cur + 1) mod sz in
        match vec_get d nxt with
        | None => Bad
        | Some x =>
            match vec_set d cur x with
            | None => Bad
            | Some d' => shiftBack n' sz last d' nxt
            end
        end
  end.

(** cancel: removes order by clientId if present *)
Definition cancel (cid : Z) (s : t) : outcome bool :=
  match clientToEngine s !! cid with
  | None => Ok false s
  | Some eid =>
      o ←? OrderPool.get (pool s) eid;
      if negb (active o) then
        Ok false (set_clientToEngine (delete cid (clientToEngine s)) s)
      else
        lvl ←? level (side o) (priceIdx o) s;
        let sz := RingLevel.size lvl in
        match findPos (S (length (RingLevel.data lvl))) lvl eid (RingLevel.head lvl) with
        | Spin => OutOfFuel
        | Bad => Undefined
        | Done None =>
            (* maybe already matched *)
            p ←? OrderPool.free eid (pool s);
            Ok false (set_clientToEngine (delete cid (clientToEngine s)) (set_pool p s))
        | Done (Some pos) =>
            let last := u64 (u64 (RingLevel.tail lvl + sz) - 1) mod sz in
            match shiftBack (S (length (RingLevel.data lvl))) sz last (RingLevel.data lvl) pos with
            | Spin => OutOfFuel
            | Bad => Undefined
            | Done d =>
                tq ←? i64 (RingLevel.totalQty lvl - qty o);
                let lvl' := RingLevel.mk d (RingLevel.head lvl) last tq in
                s1 ←? put_level (side o) (priceIdx o) lvl' s;
                p ←? OrderPool.free eid (pool s1);
                let s2 := set_clientToEngine (delete cid (clientToEngine s1)) (set_pool p s1) in
                o' ←? OrderPool.get p eid;
                s3 ←? refreshBest (side o') (priceIdx o') lvl' s2;
                Ok true s3
            end
        end
  end.

(** replace: cancel & place new. [old] is a reference into the pool: its
    [side] and [tif] are read after the cancel. *)
Definition replace (fuel : nat) (cid newPriceIdx newQty now : Z) (s : t) : outcome bool :=
  match clientToEngine s !! cid with
  | None => Ok false s
  | Some oldEid =>
      old ←? OrderPool.get (pool s) oldEid;
      if negb (active old) then Ok false s
      else
        obind (cancel cid s) (λ _ s1,
          old' ←? OrderPool.get (pool s1) oldEid;
          obind (placeLimit fuel cid (side old') newPriceIdx newQty now (tif old') s1)
                (λ _ s2, Ok true s2))
  end.

End WithClock.

End Engine.

(** * Specification-level definitions *)

Import Engine.

(** Two slots that agree on everything a [free] leaves alone. *)
Definition same_identity (o o' : Order) : Prop :=
  clientId o' = clientId o ∧ engineId o' = engineId o ∧ side o' = side o ∧
  type o' = type o ∧ tif o' = tif o ∧ priceIdx o' = priceIdx o ∧ ts o' = ts o.


(** The state an operation returns in. *)
Definition final {A : Type} (o : outcome A) : option Engine.t :=
  match o with
  | Ok _ s => Some s
  | _ => None
  end.

(** A small engine for the worked scenarios: a pool of 4 slots, 8 price
    levels, rings of 4 slots. The source fixes (3'000'000, 20001, 4096); no
    operation depends on the values, only on what fits. *)
Definition small_engine : Engine.t := Engine.new 4 8 4.

(** A clock for the worked scenarios. *)
Definition clock0 : nat → Z := λ _, 0.

(** The quantity a limit order of side [sd] at [pidx] can execute: the
    aggregate of the opposite levels at prices on or through [pidx]. *)
Definition executable (sd : Side) (pidx : Z) (s : Engine.t) : Z :=
  match sd with
  | BUY =>
      foldr Z.add 0 (RingLevel.totalQty <$> take (Z.to_nat (pidx + 1)) (OrderBook.asks (book s)))
  | SELL =>
      foldr Z.add 0 (RingLevel.totalQty <$> drop (Z.to_nat pidx) (OrderBook.bids (book s)))
  end.

(** Two engine states that differ at most in the [tif] recorded in pool
    slots, and two outcomes that do. *)
Definition eq_upto_tif (s1 s2 : Engine.t) : Prop :=
  book s1 = book s2 ∧ clientToEngine s1 = clientToEngine s2 ∧
  trades s1 = trades s2 ∧ nextClientId s1 = nextClientId s2 ∧
  OrderPool.freeList (pool s1) = OrderPool.freeList (pool s2) ∧
  Forall2 (λ o1 o2, set_tif GFD o1 = set_tif GFD o2)
          (OrderPool.pool (pool s1)) (OrderPool.pool (pool s2)).

Definition outcome_upto_tif {A : Type} (o1 o2 : outcome A) : Prop :=
  match o1, o2 with
  | Ok a1 s1, Ok a2 s2 => a1 = a2 ∧ eq_upto_tif s1 s2
  | Throw m1 s1, Throw m2 s2 => m1 = m2 ∧ eq_upto_tif s1 s2
  | Undefined, Undefined => True
  | OutOfFuel, OutOfFuel => True
  | _, _ => False
  end.

(** Replace as the specification words it: when the order is absent or
    inactive, false; otherwise cancel the existing order, then place a limit
    order with the same client id, side and tif and the new price and
    quantity. *)
Definition cancel_then_new (clock : nat → Z) (fuel : nat)
    (cid newPriceIdx newQty now : Z) (s : Engine.t) : outcome bool :=
  match clientToEngine s !! cid with
  | None => Ok false s
  | Some eid =>
      match OrderPool.get (pool s) eid with
      | None => Undefined
      | Some o =>
          if active o then
            obind (cancel cid s) (λ _ s1,
              obind (placeLimit clock fuel cid (side o) newPriceIdx newQty now (tif o) s1)
                    (λ _ s2, Ok true s2))
          else Ok false s
      end
  end.

(** The value an operation returns, mapped. *)
Definition map_ret {A B : Type} (f : A → B) (o : outcome A) : outcome B :=
  match o with
  | Ok a s => Ok (f a) s
  | Throw m s => Throw m s
  | Undefined => Undefined
  | OutOfFuel => OutOfFuel
  end.

(** ** The queue held by a ring *)

(** The ring slot [k] places after the head, the number of orders held,
    and the engine ids held, from head to tail. *)
Definition slot (r : RingLevel.t) (k : Z) : Z :=
  (RingLevel.head r + k) mod RingLevel.size r.

Definition count (r : RingLevel.t) : Z :=
  (RingLevel.tail r - RingLevel.head r) mod RingLevel.size r.

Definition contents (r : RingLevel.t) : list Z :=
  (λ k : nat, RingLevel.data r !!! Z.to_nat (slot r (Z.of_nat k)))
    <$> seq 0 (Z.to_nat (count r)).

(** The cursors of a ring are inside its buffer. *)
Definition ring_wf (r : RingLevel.t) : Prop :=
  0 < RingLevel.size r < 2 ^ 63 ∧
  0 ≤ RingLevel.head r < RingLevel.size r ∧
  0 ≤ RingLevel.tail r < RingLevel.size r.

(** ** Well-formed engine states *)

(** Slot [e] holds a resting order of side [sd] at level [i]. *)
Definition resting (p : OrderPool.t) (sd : Side) (i : Z) (e : Z) : Prop :=
  ∃ o, OrderPool.get p e = Some o ∧ active o = true ∧ side o = sd ∧
       priceIdx o = i ∧ 0 < qty o < 2 ^ 63.

(** The remaining quantity of slot [e], and the sum of the remaining
    quantities of the orders held by a ring. *)
Definition qty_at (p : OrderPool.t) (e : Z) : Z :=
  from_option qty 0 (OrderPool.get p e).

Definition sum_qty (p : OrderPool.t) (l : list Z) : Z :=
  foldr Z.add 0 (qty_at p <$> l).

Definition level_sum (p : OrderPool.t) (r : RingLevel.t) : Z :=
  sum_qty p (contents r).

Definition level_ok (p : OrderPool.t) (sd : Side) (i : nat) (r : RingLevel.t) : Prop :=
  ring_wf r ∧ NoDup (contents r) ∧
  (∀ e, e ∈ contents r → resting p sd (Z.of_nat i) e) ∧
  RingLevel.totalQty r = level_sum p r ∧
  RingLevel.totalQty r < 2 ^ 63.

Definition side_ok (sd : Side) (p : OrderPool.t) (b : OrderBook.t) : Prop :=
  Z.of_nat (length (OrderBook.levels sd b)) = OrderBook.nlevels b ∧
  (∀ i r, OrderBook.levels sd b !! i = Some r → level_ok p sd i r) ∧
  (OrderBook.best sd b = -1 ∨ 0 ≤ OrderBook.best sd b < OrderBook.nlevels b).

(** Free slots are inactive and listed once. *)
Definition pool_ok (p : OrderPool.t) : Prop :=
  NoDup (OrderPool.freeList p) ∧
  ∀ e, e ∈ OrderPool.freeList p → ∃ o, OrderPool.get p e = Some o ∧ active o = false.

Definition wf (s : Engine.t) : Prop :=
  pool_ok (pool s) ∧ side_ok BUY (pool s) (book s) ∧ side_ok SELL (pool s) (book s).

(** ** The best-price caches *)

Definition nonempty_at (v : list RingLevel.t) (i : Z) : Prop :=
  ∃ r, vec_get v i = Some r ∧ RingLevel.empty r = false.

Definition all_empty (v : list RingLevel.t) : Prop :=
  ∀ i, ¬ nonempty_at v i.

(** [b] is the maximum index with a non-empty level, or -1 if there is none. *)
Definition is_best_bid (v : list RingLevel.t) (b : Z) : Prop :=
  (b = -1 ∧ all_empty v) ∨ (nonempty_at v b ∧ ∀ i, b < i → ¬ nonempty_at v i).

(** [a] is the minimum index with a non-empty level, or -1 if there is none. *)
Definition is_best_ask (v : list RingLevel.t) (a : Z) : Prop :=
  (a = -1 ∧ all_empty v) ∨ (nonempty_at v a ∧ ∀ i, i < a → ¬ nonempty_at v i).

Definition is_best (sd : Side) (v : list RingLevel.t) (x : Z) : Prop :=
  match sd with
  | BUY => is_best_bid v x
  | SELL => is_best_ask v x
  end.

Definition best_ok (b : OrderBook.t) : Prop :=
  is_best_bid (OrderBook.bids b) (OrderBook.bestBid b) ∧
  is_best_ask (OrderBook.asks b) (OrderBook.bestAsk b) ∧
  (OrderBook.bestBid b ≠ -1 → OrderBook.bestAsk b ≠ -1 →
   OrderBook.bestBid b < OrderBook.bestAsk b).

(** What [updateBestAfterRemove] returns when the cache points at [idx]:
    the next non-empty level away from [idx], or -1. *)
Definition next_best (sd : Side) (v : list RingLevel.t) (idx x : Z) : Prop :=
  match sd with
  | BUY =>
      (x = -1 ∧ ∀ j, j ≤ idx → ¬ nonempty_at v j) ∨
      (0 ≤ x ≤ idx ∧ nonempty_at v x ∧ ∀ j, x < j ≤ idx → ¬ nonempty_at v j)
  | SELL =>
      (x = -1 ∧ ∀ j, idx ≤ j → ¬ nonempty_at v j) ∨
      (idx ≤ x ∧ nonempty_at v x ∧ ∀ j, idx ≤ j < x → ¬ nonempty_at v j)
  end.

(** ** Public operations and reachable states *)

Inductive op : Type :=
| PlaceLimit (cid : Z) (sd : Side) (pidx q now : Z) (tf : TimeInForce)
| PlaceMarket (cid : Z) (sd : Side) (q now : Z)
| Cancel (cid : Z)
| Replace (cid newPriceIdx newQty now : Z).

Definition run (clock : nat → Z) (fuel : nat) (o : op) (s : Engine.t) : outcome unit :=
  match o with
  | PlaceLimit cid sd pidx q now tf => placeLimit clock fuel cid sd pidx q now tf s
  | PlaceMarket cid sd q now => placeMarket clock fuel cid sd q now s
  | Cancel cid => map_ret (λ _, tt) (cancel cid s)
  | Replace cid p q now => map_ret (λ _, tt) (replace clock fuel cid p q now s)
  end.

(** The states an engine goes through: a fresh engine, then the state
    after each operation that returned, and the state left behind by each
    operation that threw. *)
Inductive reachable (clock : nat → Z) : Engine.t → Prop :=
| reach_new (cap levels ringcap : Z) :
    0 ≤ levels → 0 < ringcap < 2 ^ 63 →
    reachable clock (Engine.new cap levels ringcap)
| reach_return (fuel : nat) (o : op) (s s' : Engine.t) :
    reachable clock s → run clock fuel o s = Ok tt s' → reachable clock s'
| reach_throw (fuel : nat) (o : op) (s s' : Engine.t) (m : string) :
    reachable clock s → run clock fuel o s = Throw m s' → reachable clock s'.

(** ** Measures of a sweep *)

(** The number of orders resting on side [sd]. *)
Definition resting_count (sd : Side) (s : Engine.t) : Z :=
  foldr Z.add 0 ((λ r, Z.of_nat (length (contents r))) <$> OrderBook.levels sd (book s)).

(** The cache of side [sd] moves from [b] towards the sentinel -1: away from
    the top of the book, or onto the sentinel. *)
Definition advances (sd : Side) (b b' : Z) : Prop :=
  b ≠ -1 ∧ (b' = -1 ∨ match sd with BUY => b' < b | SELL => b < b' end).

(** The number of steps the cache of side [sd] can still advance. *)
Definition cache_room (sd : Side) (b : OrderBook.t) : Z :=
  if decide (OrderBook.best sd b = -1) then 0
  else match sd with
       | BUY => OrderBook.best sd b + 1
       | SELL => OrderBook.nlevels b - OrderBook.best sd b
       end.

(** An upper bound on the iterations of a sweep of side [opp]. *)
Definition sweep_bound (opp : Side) (s : Engine.t) : nat :=
  Z.to_nat (resting_count opp s + cache_room opp (book s) + 1).

(** ** Price/time priority *)

(** The levels of a side from its best price outwards: asks by increasing
    index, bids by decreasing index. *)
Definition by_priority (sd : Side) (v : list RingLevel.t) : list RingLevel.t :=
  match sd with
  | BUY => reverse v
  | SELL => v
  end.

(** The makers resting on side [sd] in price/time priority: the best level
    first, and each level from its head to its tail. *)
Definition queue (sd : Side) (s : Engine.t) : list Z :=
  concat (contents <$> by_priority sd (OrderBook.levels sd (book s))).

(** [consumes q es q']: the matches [es] are made against the queue [q]
    strictly from its head, and leave [q']. Each match is against the head,
    which stays when it is filled in part and leaves when it is filled. *)
Inductive consumes : list Z → list Z → list Z → Prop :=
| consumes_done (q : list Z) : consumes q [] q
| consumes_part (e : Z) (q es q' : list Z) :
    consumes (e :: q) es q' → consumes (e :: q) (e :: es) q'
| consumes_full (e : Z) (q es q' : list Z) :
    consumes q es q' → consumes (e :: q) (e :: es) q'.

(** The client id recorded in slot [e]. *)
Definition cid_at (p : OrderPool.t) (e : Z) : Z :=
  from_option clientId 0 (OrderPool.get p e).

(** Side [sd] holds a single queue: level [p] holds [q], every other level
    of the side is empty. *)
Definition single_queue (sd : Side) (p : nat) (q : list Z) (s : Engine.t) : Prop :=
  ∃ r, OrderBook.levels sd (book s) !! p = Some r ∧ contents r = q ∧
       ∀ i r', OrderBook.levels sd (book s) !! i = Some r' → i ≠ p → contents r' = [].

(** A new order of side [sd]. *)
Definition is_taker (sd : Side) (o : op) : Prop :=
  match o with
  | PlaceLimit _ sd' _ _ _ _ => sd' = sd
  | PlaceMarket _ sd' _ _ => sd' = sd
  | _ => False
  end.

(** A sequence of operations, each with the fuel of its sweep. *)
Fixpoint run_all (clock : nat → Z) (ops : list (nat * op)) (s : Engine.t) : outcome unit :=
  match ops with
  | [] => Ok tt s
  | (fuel, o) :: rest => obind (run clock fuel o s) (λ _ s', run_all clock rest s')
  end.

(** ** Definitions for the component and engine properties *)

(** One call of [allocate] for each order of [os], in order; the engine ids
    returned. The first call that throws ends the sequence. *)
Fixpoint allocate_each (os : list Order) (p : OrderPool.t) : res (list Z * OrderPool.t) :=
  match os with
  | [] => Val ([], p)
  | o :: rest =>
      match OrderPool.allocate o p with
      | Val (idx, p') =>
          match allocate_each rest p' with
          | Val (ids, p'') => Val (idx :: ids, p'')
          | Exn m => Exn m
          | UB => UB
          end
      | Exn m => Exn m
      | UB => UB
      end
  end.

(** One call of [push] for each pair (engine id, quantity) of [es]. *)
Fixpoint push_each (es : list (Z * Z)) (r : RingLevel.t) : res RingLevel.t :=
  match es with
  | [] => Val r
  | (e, q) :: rest =>
      match RingLevel.push e q r with
      | Val r' => push_each rest r'
      | Exn m => Exn m
      | UB => UB
      end
  end.

(** The quantity executed by a list of trades. *)
Definition traded (nt : list Trade.t) : Z := foldr Z.add 0 (Trade.qty <$> nt).

(** The aggregate quantity of side [sd]. *)
Definition available (sd : Side) (s : Engine.t) : Z :=
  foldr Z.add 0 (RingLevel.totalQty <$> OrderBook.levels sd (book s)).

(** The quantity a sweep of side [opp] can reach: for a limit order the
    aggregate of the levels on or through its price [p], for a market order
    that of all the levels. *)
Definition sweepable (priced : bool) (opp : Side) (p : Z) (s : Engine.t) : Z :=
  if priced then executable (opposite opp) p s else available opp s.

(** The client index is sound: each entry points at a slot that holds an
    active order of that client, which is queued in the ring of its level. *)
Definition index_ok (s : Engine.t) : Prop :=
  ∀ cid eid, clientToEngine s !! cid = Some eid →
    ∃ o lvl, OrderPool.get (pool s) eid = Some o ∧ active o = true ∧
             clientId o = cid ∧ level (side o) (priceIdx o) s = Some lvl ∧
             eid ∈ contents lvl.

(** What a trade made for an order of client [cid] with limit [p] in a
    sweep of side [opp] looks like: the taker's client id, a positive
    quantity, and the index of a level of the book that the limit allows
    (any level for a market order). *)
Definition trade_ok (priced : bool) (opp : Side) (cid p nlevels : Z)
    (tr : Trade.t) : Prop :=
  Trade.takerClient tr = cid ∧ 0 < Trade.qty tr ∧
  0 ≤ Trade.priceIdx tr < nlevels ∧
  crossing priced opp (Trade.priceIdx tr) p = true.

(** The state an operation leaves behind, whether it returns or throws. *)
Definition left_by {A : Type} (o : outcome A) : option Engine.t :=
  match o with
  | Ok _ s | Throw _ s => Some s
  | _ => None
  end.

(** The order built by [placeLimit] and the one built by [placeMarket]. *)
Definition limit_taker (cid : Z) (sd : Side) (pidx q now : Z) (tf : TimeInForce) : Order :=
  mkOrder cid 0 sd LIMIT tf pidx q (u64 now) false.

Definition market_taker (cid : Z) (sd : Side) (q now : Z) : Order :=
  mkOrder cid 0 sd MARKET GFD (-1) q (u64 now) false.

(** For a sweep of side [opp], price [b] is no better for the taker than
    price [a]: no lower when asks are swept, no higher when bids are. *)
Definition no_better (opp : Side) (a b : Z) : Prop :=
  match opp with
  | SELL => a ≤ b
  | BUY => b ≤ a
  end.

(** Every slot that holds no active order is on the free list. *)
Definition free_complete (p : OrderPool.t) : Prop :=
  ∀ e o, OrderPool.get p e = Some o → active o = false → e ∈ OrderPool.freeList p.

(** Engine id [e] is queued in a ring of the book. *)
Definition queued (e : Z) (s : Engine.t) : Prop :=
  ∃ sd i r, OrderBook.levels sd (book s) !! i = Some r ∧ e ∈ contents r.

(** No order queued in the book carries the client id [cid]. *)
Definition unused (cid : Z) (s : Engine.t) : Prop :=
  ∀ sd i r e o, OrderBook.levels sd (book s) !! i = Some r → e ∈ contents r →
                OrderPool.get (pool s) e = Some o → clientId o ≠ cid.

(** The client index is complete: every queued order is indexed under its
    client id. *)
Definition index_complete (s : Engine.t) : Prop :=
  ∀ sd i r e o, OrderBook.levels sd (book s) !! i = Some r → e ∈ contents r →
                OrderPool.get (pool s) e = Some o →
                clientToEngine s !! clientId o = Some e.

(** An operation that does not place a limit order under a client id an
    order of the book already carries. *)
Definition fresh_op (o : op) (s : Engine.t) : Prop :=
  match o with
  | PlaceLimit cid _ _ _ _ _ => unused cid s
  | _ => True
  end.

(** The states an engine goes through when its caller gives every new limit
    order a client id that no resting order carries, as a caller does that
    draws the ids from a counter. *)
Inductive reachable_fresh (clock : nat → Z) : Engine.t → Prop :=
| fresh_new (cap levels ringcap : Z) :
    0 ≤ levels → 0 < ringcap < 2 ^ 63 →
    reachable_fresh clock (Engine.new cap levels ringcap)
| fresh_step (fuel : nat) (o : op) (s s' : Engine.t) :
    reachable_fresh clock s → fresh_op o s →
    left_by (run clock fuel o s) = Some s' → reachable_fresh clock s'.

(** ** Price/time priority as a function *)

(** A resting order as a sweep sees it: its engine id, the client id, the
    price level and the remaining quantity that its pool slot records. In a
    list of fills, the quantity is the quantity filled. *)
Record maker : Type := mk_maker {
  m_eid : Z;
  m_cid : Z;
  m_price : Z;
  m_qty : Z
}.

Definition price_at (p : OrderPool.t) (e : Z) : Z :=
  from_option priceIdx 0 (OrderPool.get p e).

Definition maker_view (p : OrderPool.t) (e : Z) : maker :=
  mk_maker e (cid_at p e) (price_at p e) (qty_at p e).

(** The makers of side [sd] in price/time priority, with what their slots
    record. *)
Definition book_queue (sd : Side) (s : Engine.t) : list maker :=
  maker_view (pool s) <$> queue sd s.

(** Matching by price/time priority, as the specification words it: a taker
    of quantity [tq] (with limit [p] when [priced]) is matched against the
    head of the queue [q] for as long as it has quantity left and the head's
    price is within its limit. A head that the taker's quantity covers is
    filled and leaves the queue; otherwise the head is filled in part, stays
    at the head, and the taker is exhausted. The result: the fills in order,
    the queue left, the taker's quantity left. *)
Fixpoint priority_match (priced : bool) (opp : Side) (p tq : Z) (q : list maker)
  : list maker * list maker * Z :=
  match q with
  | [] => ([], [], tq)
  | m :: rest =>
      if bool_decide (0 < tq) && crossing priced opp (m_price m) p then
        if bool_decide (m_qty m ≤ tq) then
          let '(fs, q', tq') := priority_match priced opp p (tq - m_qty m) rest in
          (m :: fs, q', tq')
        else
          ([mk_maker (m_eid m) (m_cid m) (m_price m) tq],
           mk_maker (m_eid m) (m_cid m) (m_price m) (m_qty m - tq) :: rest, 0)
      else ([], q, tq)
  end.

(** What a trade records, its time stamp apart: taker's client id, maker's
    client id, price level, quantity. *)
Definition fill_of (tr : Trade.t) : Z * Z * Z * Z :=
  (Trade.takerClient tr, Trade.makerClient tr, Trade.priceIdx tr, Trade.qty tr).

(** The trade of client [cid] as taker that fills [m]. *)
Definition fill_for (cid : Z) (m : maker) : Z * Z * Z * Z :=
  (cid, m_cid m, m_price m, m_qty m).

(** The taker of a new order: whether it carries a limit, its client id,
    its limit and its quantity. *)
Definition taker_of (o : op) : option (bool * Z * Z * Z) :=
  match o with
  | PlaceLimit cid _ pidx q _ _ => Some (true, cid, pidx, q)
  | PlaceMarket cid _ q _ => Some (false, cid, -1, q)
  | _ => None
  end.

(** A sequence of new orders matched, one after the other, against the
    queue [q] of side [opp]: the fills in order and the queue left. *)
Fixpoint priority_match_all (opp : Side) (ops : list op) (q : list maker)
  : list (Z * Z * Z * Z) * list maker :=
  match ops with
  | [] => ([], q)
  | o :: rest =>
      match taker_of o with
      | Some (priced, cid, p, tq) =>
          let '(fs, q1, _) := priority_match priced opp p tq q in
          let '(fs', q') := priority_match_all opp rest q1 in
          ((fill_for cid <$> fs) ++ fs', q')
      | None => priority_match_all opp rest q
      end
  end.

(** The head of the priority queue of side [sd] is the FIFO head of the
    level under the cache of the side, and that level is the best one that
    holds an order. *)
Definition heads_best (sd : Side) (s : Engine.t) : Prop :=
  is_best sd (OrderBook.levels sd (book s)) (OrderBook.best sd (book s)) ∧
  head (queue sd s) =
    (level sd (OrderBook.best sd (book s)) s ≫= λ pl, head (contents pl)).

(** * Properties *)

(** ** Vectors *)

Lemma vec_get_Some {A : Type} (v : list A) (i : Z) (x : A) :
  vec_get v i = Some x ↔ 0 ≤ i ∧ v !! Z.to_nat i = Some x.
Proof.
  unfold vec_get. case_decide; split; try done.
  - by intros [_ ?].
  - by intros [? _].
Qed.

Lemma vec_get_range {A : Type} (v : list A) (i : Z) (x : A) :
  vec_get v i = Some x → 0 ≤ i < Z.of_nat (length v).
Proof. intros [? H%lookup_lt_Some]%vec_get_Some. lia. Qed.

Lemma vec_get_is_Some {A : Type} (v : list A) (i : Z) :
  0 ≤ i < Z.of_nat (length v) → is_Some (vec_get v i).
Proof.
  intros H. unfold vec_get. case_decide; [|lia].
  apply lookup_lt_is_Some. lia.
Qed.

Lemma vec_set_Some {A : Type} (v v' : list A) (i : Z) (x : A) :
  vec_set v i x = Some v' ↔
  0 ≤ i < Z.of_nat (length v) ∧ v' = <[Z.to_nat i := x]> v.
Proof.
  unfold vec_set. case_decide; split; try done.
  - by intros [= <-].
  - by intros [_ ->].
  - by intros [? _].
Qed.

Lemma vec_set_length {A : Type} (v v' : list A) (i : Z) (x : A) :
  vec_set v i x = Some v' → length v' = length v.
Proof. intros [_ ->]%vec_set_Some. apply length_insert. Qed.

Lemma vec_get_set_eq {A : Type} (v v' : list A) (i : Z) (x : A) :
  vec_set v i x = Some v' → vec_get v' i = Some x.
Proof.
  intros [Hi ->]%vec_set_Some. apply vec_get_Some. split; [lia|].
  apply list_lookup_insert_eq. lia.
Qed.

Lemma vec_get_set_ne {A : Type} (v v' : list A) (i j : Z) (x : A) :
  vec_set v i x = Some v' → i ≠ j → vec_get v' j = vec_get v j.
Proof.
  intros [Hi ->]%vec_set_Some Hne. unfold vec_get. case_decide; [|done].
  apply list_lookup_insert_ne. lia.
Qed.

Lemma vec_set_of_get {A : Type} (v : list A) (i : Z) (x y : A) :
  vec_get v i = Some x → vec_set v i y = Some (<[Z.to_nat i := y]> v).
Proof. intros H%vec_get_range. apply vec_set_Some. done. Qed.

(** ** The pool: what [free] touches *)

Lemma free_Some (idx : Z) (p p' : OrderPool.t) :
  OrderPool.free idx p = Some p' ↔
  ∃ o, OrderPool.get p idx = Some o ∧
       p' = OrderPool.mk (<[Z.to_nat idx := set_qty 0 (set_active false o)]> (OrderPool.pool p))
                         (OrderPool.freeList p ++ [idx]).
Proof.
  unfold OrderPool.free. split.
  - intros H. destruct (OrderPool.get p idx) as [o|] eqn:E; [|done]. simpl in H.
    unfold OrderPool.get in E. rewrite (vec_set_of_get _ _ o) in H by done.
    simpl in H. exists o. naive_solver.
  - intros (o & E & ->). rewrite E. simpl.
    unfold OrderPool.get in E. rewrite (vec_set_of_get _ _ o) by done. done.
Qed.

Lemma free_get_eq (idx : Z) (p p' : OrderPool.t) (o : Order) :
  OrderPool.free idx p = Some p' → OrderPool.get p idx = Some o →
  OrderPool.get p' idx = Some (set_qty 0 (set_active false o)).
Proof.
  intros (o' & E & ->)%free_Some E'. assert (o' = o) as -> by congruence.
  unfold OrderPool.get in *. simpl.
  eapply vec_get_set_eq, vec_set_of_get, E.
Qed.

Lemma free_get_ne (idx j : Z) (p p' : OrderPool.t) :
  OrderPool.free idx p = Some p' → idx ≠ j →
  OrderPool.get p' j = OrderPool.get p j.
Proof.
  intros (o' & E & ->)%free_Some Hne. unfold OrderPool.get in *. simpl.
  eapply vec_get_set_ne; [|done]. eapply vec_set_of_get, E.
Qed.

Lemma same_identity_refl (o : Order) : same_identity o o.
Proof. by repeat split. Qed.

Lemma same_identity_trans (o1 o2 o3 : Order) :
  same_identity o1 o2 → same_identity o2 o3 → same_identity o1 o3.
Proof. unfold same_identity. intros. intuition congruence. Qed.

Lemma free_same_identity (idx e : Z) (p p' : OrderPool.t) (o : Order) :
  OrderPool.free idx p = Some p' → OrderPool.get p e = Some o →
  ∃ o', OrderPool.get p' e = Some o' ∧ same_identity o o'.
Proof.
  intros Hf Hg. destruct (decide (idx = e)) as [->|Hne].
  - eexists. split; [by eapply free_get_eq|]. by repeat split.
  - exists o. split; [by erewrite free_get_ne|]. apply same_identity_refl.
Qed.

(** ** Operations that leave parts of the engine alone *)

Lemma refreshBest_frame (sd : Side) (i : Z) (pl : RingLevel.t) (s s' : Engine.t) :
  refreshBest sd i pl s = Some s' →
  pool s' = pool s ∧ clientToEngine s' = clientToEngine s ∧ trades s' = trades s.
Proof.
  unfold refreshBest. destruct (RingLevel.empty pl); [|naive_solver].
  destruct (OrderBook.updateBestAfterRemove sd i (book s)); simpl; naive_solver.
Qed.

Lemma put_level_frame (sd : Side) (i : Z) (pl : RingLevel.t) (s s' : Engine.t) :
  put_level sd i pl s = Some s' →
  pool s' = pool s ∧ clientToEngine s' = clientToEngine s ∧ trades s' = trades s.
Proof.
  unfold put_level. destruct (vec_set _ _ _); simpl; naive_solver.
Qed.

(** Case analysis on the next step of an operation that has completed. *)
Ltac step_in H :=
  match type of H with
  | ubind ?o _ = _ =>
      let E := fresh "E" in destruct o eqn:E; simpl in H; [|discriminate H]
  | obind ?o _ = _ =>
      let E := fresh "E" in destruct o eqn:E; simpl in H; try discriminate H
  | match ?o with _ => _ end = _ =>
      let E := fresh "E" in destruct o eqn:E; simpl in H; try discriminate H
  end.

Lemma cancel_erases (cid : Z) (s s' : Engine.t) (b : bool) :
  cancel cid s = Ok b s' → clientToEngine s' !! cid = None.
Proof.
  unfold cancel. intros H. repeat step_in H;
    repeat match goal with
    | H : Ok _ _ = Ok _ _ |- _ => injection H as ? ?; subst
    | H : refreshBest _ _ _ _ = Some _ |- _ =>
        apply refreshBest_frame in H as (_ & -> & _)
    | H : put_level _ _ _ _ = Some _ |- _ =>
        apply put_level_frame in H as (? & ? & ?)
    end; simpl; try done; try apply lookup_delete_eq.
Qed.

Lemma cancel_same_identity (cid e : Z) (s s' : Engine.t) (b : bool) (o : Order) :
  cancel cid s = Ok b s' → OrderPool.get (pool s) e = Some o →
  ∃ o', OrderPool.get (pool s') e = Some o' ∧ same_identity o o'.
Proof.
  unfold cancel. intros H Hg. repeat step_in H;
    repeat match goal with
    | H : Ok _ _ = Ok _ _ |- _ => injection H as ? ?; subst
    | H : refreshBest _ _ _ _ = Some _ |- _ =>
        apply refreshBest_frame in H as (-> & _ & _)
    | H : put_level _ _ _ _ = Some _ |- _ =>
        apply put_level_frame in H as (Hp & ? & ?)
    end; simpl;
    try (eexists; split; [eassumption|apply same_identity_refl]).
  - rewrite Hp in *. eapply free_same_identity; eauto.
  - eapply free_same_identity; eauto.
Qed.

(** ** Cancel, replace and the pool *)

(** C8. Cancel is idempotent: a [cancel(c)] that follows a completed
    [cancel(c)] returns false and leaves the whole engine state as it is. *)
Theorem cancel_idempotent (cid : Z) (s s' : Engine.t) (b : bool) :
  cancel cid s = Ok b s' → cancel cid s' = Ok false s'.
Proof.
  intros H%cancel_erases. unfold cancel. by rewrite H.
Qed.

Lemma cancel_idempotent_witness :
  ∃ s s', final (placeLimit clock0 1 7 BUY 5 2 0 GFD small_engine) = Some s ∧
          cancel 7 s = Ok true s' ∧ cancel 7 s' = Ok false s'.
Proof.
  eexists. eexists. split; [vm_compute; reflexivity|].
  match goal with
  | |- cancel 7 ?s = Ok true ?s' ∧ _ =>
      assert (H : cancel 7 s = Ok true s') by (vm_compute; reflexivity);
      split; [exact H | exact (cancel_idempotent 7 s s' true H)]
  end.
Defined.

(** C9. [OrderPool::free] clears [active] and [qty] of the freed slot and
    pushes the index on the free list; the slot's [clientId], [side], [tif]
    and [priceIdx] (and [engineId], [type], [ts]) stay, and so does every
    other slot. *)
Theorem free_keeps_identity (idx : Z) (p p' : OrderPool.t) :
  OrderPool.free idx p = Some p' →
  (∃ o, OrderPool.get p idx = Some o ∧
        OrderPool.get p' idx =
          Some (mkOrder (clientId o) (engineId o) (side o) (type o) (tif o)
                        (priceIdx o) 0 (ts o) false)) ∧
  (∀ j, j ≠ idx → OrderPool.get p' j = OrderPool.get p j) ∧
  length (OrderPool.pool p') = length (OrderPool.pool p) ∧
  OrderPool.freeList p' = OrderPool.freeList p ++ [idx].
Proof.
  intros Hf. pose proof Hf as (o & Hg & Hp)%free_Some. repeat split.
  - exists o. split; [done|]. by rewrite (free_get_eq _ _ _ _ Hf Hg).
  - intros j Hj. by eapply free_get_ne.
  - subst p'. simpl. apply length_insert.
  - by subst p'.
Qed.

Lemma free_keeps_identity_witness :
  let p := OrderPool.mk [Order_default; mkOrder 7 1 SELL LIMIT IOC 3 5 9 true] [0] in
  let p' := OrderPool.mk [Order_default; mkOrder 7 1 SELL LIMIT IOC 3 0 9 false] [0; 1] in
  OrderPool.free 1 p = Some p' ∧
  OrderPool.get p' 1 = Some (mkOrder 7 1 SELL LIMIT IOC 3 0 9 false) ∧
  OrderPool.get p' 0 = OrderPool.get p 0.
Proof.
  intros p p'. assert (Hf : OrderPool.free 1 p = Some p') by reflexivity.
  destruct (free_keeps_identity 1 p p' Hf) as ((o & Ho & Ho') & Hother & _ & _).
  split; [exact Hf|]. split.
  - injection Ho as <-. exact Ho'.
  - apply Hother. discriminate.
Defined.

Lemma replace_unfold (clock : nat → Z) (fuel : nat)
    (cid newPriceIdx newQty now : Z) (s : Engine.t) :
  replace clock fuel cid newPriceIdx newQty now s =
  cancel_then_new clock fuel cid newPriceIdx newQty now s.
Proof.
  unfold replace, cancel_then_new.
  destruct (clientToEngine s !! cid) as [eid|]; [|done].
  destruct (OrderPool.get (pool s) eid) as [o|] eqn:Hg; simpl; [|done].
  destruct (active o); simpl; [|done].
  destruct (cancel cid s) as [b s1| | |] eqn:Hc; simpl; try done.
  destruct (cancel_same_identity _ _ _ _ _ _ Hc Hg) as (o' & -> & Hid).
  simpl. destruct Hid as (_ & _ & -> & _ & -> & _). done.
Qed.

(** C7. Replace is cancel followed by new. [replace] is [cancel_then_new]:
    it returns false, and changes nothing, when the client id is absent or
    its order inactive; for an active order it is exactly [cancel] followed
    by [placeLimit] with the order's client id, side and tif and the new
    price and quantity, and returns true. The resulting states are equal,
    engine ids included. *)
Theorem replace_is_cancel_then_new (clock : nat → Z) (fuel : nat)
    (cid newPriceIdx newQty now : Z) (s : Engine.t) :
  replace clock fuel cid newPriceIdx newQty now s =
    cancel_then_new clock fuel cid newPriceIdx newQty now s ∧
  (clientToEngine s !! cid = None →
   replace clock fuel cid newPriceIdx newQty now s = Ok false s) ∧
  (∀ eid o,
     clientToEngine s !! cid = Some eid → OrderPool.get (pool s) eid = Some o →
     (active o = false → replace clock fuel cid newPriceIdx newQty now s = Ok false s) ∧
     (active o = true →
      replace clock fuel cid newPriceIdx newQty now s =
      obind (cancel cid s) (λ _ s1,
        obind (placeLimit clock fuel cid (side o) newPriceIdx newQty now (tif o) s1)
              (λ _ s2, Ok true s2)))).
Proof.
  split; [apply replace_unfold|]. split.
  - intros Hc. rewrite replace_unfold. unfold cancel_then_new. by rewrite Hc.
  - intros eid o Hc Hg. split; intros Ha;
      rewrite replace_unfold; unfold cancel_then_new; by rewrite Hc, Hg, Ha.
Qed.

(** ** Time in force is recorded and never consulted *)

Ltac case_step :=
  match goal with
  | |- context [ubind ?o _] => destruct o eqn:?; simpl
  | |- context [obind ?o _] => destruct o eqn:?; simpl
  | |- context [match ?o with _ => _ end] => destruct o eqn:?; simpl
  | |- context [if ?b then _ else _] => destruct b eqn:?; simpl
  end.

Lemma matchStep_tif (clock : nat → Z) (opp : Side) (x : TimeInForce)
    (taker : Order) (s : Engine.t) :
  matchStep clock opp (set_tif x taker) s =
  map_ret (set_tif x) (matchStep clock opp taker s).
Proof.
  unfold matchStep, emitTrade. simpl. repeat (case_step; try reflexivity).
Qed.

Lemma sweep_tif (clock : nat → Z) (fuel : nat) (priced : bool) (opp : Side)
    (x : TimeInForce) (taker : Order) (s : Engine.t) :
  sweep clock fuel priced opp (set_tif x taker) s =
  map_ret (set_tif x) (sweep clock fuel priced opp taker s).
Proof.
  assert (Hg : ∀ taker s, guard priced opp (set_tif x taker) s = guard priced opp taker s)
    by reflexivity.
  revert taker s. induction fuel as [|fuel IH]; intros taker s; simpl; rewrite Hg.
  - by destruct (guard priced opp taker s).
  - destruct (guard priced opp taker s); [|done].
    rewrite matchStep_tif. destruct (matchStep clock opp taker s); simpl; auto.
Qed.

Lemma Forall2_diag {A : Type} (R : A → A → Prop) (l : list A) :
  (∀ x, R x x) → Forall2 R l l.
Proof. intros HR. induction l; constructor; auto. Qed.

Lemma eq_upto_tif_refl (s : Engine.t) : eq_upto_tif s s.
Proof. repeat split; try done. by apply Forall2_diag. Qed.

Lemma outcome_upto_tif_refl {A : Type} (o : outcome A) : outcome_upto_tif o o.
Proof. destruct o; simpl; auto using eq_upto_tif_refl. Qed.

Lemma addPassive_tif (sd : Side) (x y : TimeInForce) (taker : Order) (s : Engine.t) :
  outcome_upto_tif (addPassive sd (set_tif x taker) s) (addPassive sd (set_tif y taker) s).
Proof.
  unfold addPassive, OrderPool.allocate.
  destruct (reverse (OrderPool.freeList (pool s))) as [|idx rest]; simpl.
  { split; [done|apply eq_upto_tif_refl]. }
  unfold vec_set. case_decide; simpl; [|done].
  unfold level. simpl.
  destruct (vec_get (OrderBook.levels sd (book s)) (priceIdx taker)) as [lvl|]; simpl; [|done].
  destruct (RingLevel.push idx (qty taker) lvl) as [lvl'| |]; simpl; try done.
  - unfold put_level. simpl.
    destruct (vec_set (OrderBook.levels sd (book s)) (priceIdx taker) lvl'); simpl; [|done].
    split; [done|]. repeat split; simpl; try done.
    apply Forall2_insert; [by apply Forall2_diag|done].
  - split; [done|]. repeat split; simpl; try done.
    apply Forall2_insert; [by apply Forall2_diag|done].
Qed.

Lemma matchAndAdd_tif (clock : nat → Z) (fuel : nat) (x y : TimeInForce)
    (taker : Order) (s : Engine.t) :
  outcome_upto_tif (matchAndAdd clock fuel (set_tif x taker) s)
                   (matchAndAdd clock fuel (set_tif y taker) s).
Proof.
  unfold matchAndAdd. simpl. destruct (side taker).
  - rewrite !sweep_tif.
    destruct (sweep clock fuel true SELL taker s) as [t' s'| | |]; simpl;
      auto using eq_upto_tif_refl.
    case_step; [apply addPassive_tif|]. split; [done|apply eq_upto_tif_refl].
  - rewrite !sweep_tif.
    destruct (sweep clock fuel true BUY taker s) as [t' s'| | |]; simpl;
      auto using eq_upto_tif_refl.
    case_step; [apply addPassive_tif|]. split; [done|apply eq_upto_tif_refl].
Qed.

(** The fill-or-kill check is missing in every state: [matchAndAdd] never
    reads [taker.tif] (lines 179-209), so a FOK order is swept and its
    residual rested exactly as the same order with GFD is, whatever quantity
    is executable. The two calls emit the same trades and leave the same
    book, client index and free list; the pools differ at most in the [tif]
    recorded in the slots. *)
Theorem placeLimit_FOK_as_GFD (clock : nat → Z) (fuel : nat) (cid : Z) (sd : Side)
    (pidx q now : Z) (s : Engine.t) :
  outcome_upto_tif (placeLimit clock fuel cid sd pidx q now FOK s)
                   (placeLimit clock fuel cid sd pidx q now GFD s).
Proof.
  unfold placeLimit. apply matchAndAdd_tif.
Qed.

(** C1 on the code: the FOK flag that the header of the source advertises
    (line 6) has no effect. With a sell of 3 resting at level 3, a FOK buy
    of 10 at level 3 can execute only 3 < 10, yet it is not rejected: it
    trades 3 against the resting order and its residual of 7 rests as the
    best bid under its client id. Trades, book, pool and client index all
    change, where fill-or-kill leaves the state as it was and emits no
    trade. *)
Lemma FOK_not_rejected :
  ∃ s0 s1,
    final (placeLimit clock0 1 1 SELL 3 3 0 GFD small_engine) = Some s0 ∧
    executable BUY 3 s0 = 3 ∧ trades s0 = [] ∧ clientToEngine s0 !! 30 = None ∧
    OrderBook.bestBid (book s0) = -1 ∧
    placeLimit clock0 1 30 BUY 3 10 0 FOK s0 = Ok tt s1 ∧
    trades s1 = [Trade.mk 30 1 3 3 0] ∧ clientToEngine s1 !! 30 = Some 0 ∧
    OrderBook.bestBid (book s1) = 3 ∧
    (RingLevel.totalQty <$> OrderBook.bids (book s1) !! 3%nat) = Some 7 ∧
    OrderPool.get (pool s1) 0 = Some (mkOrder 30 0 BUY LIMIT FOK 3 7 0 true) ∧
    trades s1 ≠ trades s0 ∧ book s1 ≠ book s0 ∧ pool s1 ≠ pool s0 ∧
    clientToEngine s1 ≠ clientToEngine s0.
Proof.
  eexists. eexists.
  repeat match goal with |- _ = _ ∧ _ => split; [vm_compute; reflexivity|] end.
  split_and!.
  - discriminate.
  - intros H. apply (f_equal OrderBook.bestBid) in H. vm_compute in H. discriminate.
  - intros H. apply (f_equal (λ p, OrderPool.get p 0)) in H. vm_compute in H. discriminate.
  - intros H. apply (f_equal (λ m : gmap Z Z, m !! 30)) in H. vm_compute in H. discriminate.
Qed.

(** ** Ring arithmetic *)

Lemma mod_once (a w : Z) :
  0 < w → 0 ≤ a < 2 * w → a mod w = if decide (a < w) then a else a - w.
Proof.
  intros Hw Ha. case_decide.
  - apply Z.mod_small. lia.
  - symmetry. apply (Z.mod_unique_pos a w 1 (a - w)); lia.
Qed.

Lemma mod_below (a w : Z) :
  0 < w → - w ≤ a < w → a mod w = if decide (0 ≤ a) then a else a + w.
Proof.
  intros Hw Ha. case_decide.
  - apply Z.mod_small. lia.
  - symmetry. apply (Z.mod_unique_pos a w (-1) (a + w)); lia.
Qed.

Lemma u64_small (z : Z) : 0 ≤ z < 2 ^ 64 → u64 z = z.
Proof. intros H. unfold u64. apply Z.mod_small. lia. Qed.

Section Ring.

Variable r : RingLevel.t.
Hypothesis Hwf : ring_wf r.

Let W := RingLevel.size r.
Let h := RingLevel.head r.
Let t := RingLevel.tail r.

Lemma count_eq : count r = if decide (h ≤ t) then t - h else t - h + W.
Proof.
  destruct Hwf as (? & ? & ?). unfold count. fold W h t.
  rewrite mod_below by (subst W h t; lia). repeat case_decide; lia.
Qed.

Lemma slot_eq (k : Z) :
  0 ≤ k ≤ W → slot r k = if decide (h + k < W) then h + k else h + k - W.
Proof.
  destruct Hwf as (? & ? & ?). intros Hk. unfold slot. fold W h.
  apply mod_once; subst W h; lia.
Qed.

Lemma count_range : 0 ≤ count r < W.
Proof. destruct Hwf as (? & ? & ?). rewrite count_eq. subst W h t. case_decide; lia. Qed.

Lemma slot_range (k : Z) : 0 ≤ slot r k < W.
Proof. destruct Hwf as (? & ? & ?). unfold slot. apply Z.mod_pos_bound. lia. Qed.

Lemma slot_inj (k k' : Z) :
  0 ≤ k < W → 0 ≤ k' < W → slot r k = slot r k' → k = k'.
Proof.
  destruct Hwf as (? & ? & ?). intros Hk Hk'. rewrite !slot_eq by lia.
  subst W h. repeat case_decide; lia.
Qed.

Lemma slot_0 : slot r 0 = h.
Proof. destruct Hwf as (? & ? & ?). rewrite slot_eq by (subst W; lia). subst W h. case_decide; lia. Qed.

Lemma slot_count : slot r (count r) = t.
Proof.
  destruct Hwf as (? & ? & ?). pose proof count_range.
  rewrite slot_eq by lia. rewrite count_eq. subst W h t. repeat case_decide; lia.
Qed.

Lemma next_slot (k : Z) :
  0 ≤ k < W → u64 (slot r k + 1) mod W = slot r (k + 1).
Proof.
  destruct Hwf as (? & ? & ?). intros Hk. pose proof (slot_range k).
  rewrite u64_small by (subst W; lia).
  rewrite mod_once by lia. rewrite !slot_eq by lia.
  subst W h. repeat case_decide; lia.
Qed.

Lemma empty_count : RingLevel.empty r = bool_decide (count r = 0).
Proof.
  destruct Hwf as (? & ? & ?). unfold RingLevel.empty. rewrite count_eq.
  apply bool_decide_ext. subst W h t. case_decide; lia.
Qed.

Lemma full_count : RingLevel.full r = bool_decide (count r = W - 1).
Proof.
  destruct Hwf as (? & ? & ?). unfold RingLevel.full, RingLevel.next. fold W h t.
  rewrite u64_small by (subst W t; lia). rewrite mod_once by (subst W t; lia).
  rewrite count_eq. apply bool_decide_ext. subst W h t. repeat case_decide; lia.
Qed.

Lemma length_contents : Z.of_nat (length (contents r)) = count r.
Proof.
  pose proof count_range. unfold contents. rewrite length_fmap, length_seq. lia.
Qed.

Lemma contents_lookup (k : nat) (x : Z) :
  contents r !! k = Some x ↔
  Z.of_nat k < count r ∧ vec_get (RingLevel.data r) (slot r (Z.of_nat k)) = Some x.
Proof.
  pose proof count_range as Hc. pose proof (slot_range (Z.of_nat k)) as Hs.
  unfold contents. rewrite list_lookup_fmap.
  split.
  - intros Hl. destruct (seq 0 (Z.to_nat (count r)) !! k) as [k'|] eqn:E; [|done].
    apply lookup_seq in E as [-> Hlt]. simpl in Hl. injection Hl as <-.
    split; [lia|]. apply vec_get_Some. split; [lia|].
    apply list_lookup_lookup_total_lt. subst W. unfold RingLevel.size in Hs. lia.
  - intros [Hlt Hg]. rewrite (lookup_seq_lt _ _ _) by lia. simpl. f_equal.
    apply vec_get_Some in Hg as [_ Hg]. by apply list_lookup_total_correct.
Qed.

End Ring.

(** ** Ring operations on the queue *)

Ltac rsimpl :=
  cbn [RingLevel.head RingLevel.tail RingLevel.data RingLevel.totalQty] in *.

Lemma next_eq (z w : Z) :
  0 < w < 2 ^ 63 → 0 ≤ z < w →
  u64 (z + 1) mod w = if decide (z + 1 < w) then z + 1 else 0.
Proof.
  intros Hw Hz. rewrite u64_small by lia. rewrite mod_once by lia.
  repeat case_decide; lia.
Qed.

Lemma and_iff_under (A B C : Prop) : (A → (B ↔ C)) → (A ∧ B ↔ A ∧ C).
Proof. tauto. Qed.

Lemma option_ext {A : Type} (o1 o2 : option A) :
  (∀ y, o1 = Some y ↔ o2 = Some y) → o1 = o2.
Proof.
  intros H. destruct o1 as [a|], o2 as [b|]; try done.
  - by apply H.
  - by destruct (proj1 (H a) eq_refl).
  - by apply H.
Qed.

Lemma contents_empty (r : RingLevel.t) :
  ring_wf r → (RingLevel.empty r = true ↔ contents r = []).
Proof.
  intros Hwf. rewrite empty_count by done. pose proof (length_contents r Hwf).
  rewrite bool_decide_eq_true. split.
  - intros Hc. apply length_zero_iff_nil. lia.
  - intros Hc. rewrite Hc in *. simpl in *. lia.
Qed.

Lemma front_contents (r : RingLevel.t) :
  ring_wf r → RingLevel.empty r = false →
  ∃ x rest, RingLevel.front r = Some x ∧ contents r = x :: rest.
Proof.
  intros Hwf He. rewrite empty_count in He by done. apply bool_decide_eq_false in He.
  pose proof (count_range r Hwf). pose proof (length_contents r Hwf) as Hl.
  destruct (contents r) as [|x rest] eqn:Hc; [simpl in Hl; lia|].
  exists x, rest. split; [|done].
  assert (contents r !! 0%nat = Some x) as Hx by (by rewrite Hc).
  apply contents_lookup in Hx as [_ Hx]; [|done].
  simpl in Hx. rewrite slot_0 in Hx by done. done.
Qed.

Lemma set_totalQty_contents (x : Z) (r : RingLevel.t) :
  contents (RingLevel.set_totalQty x r) = contents r.
Proof. done. Qed.

Lemma set_totalQty_wf (x : Z) (r : RingLevel.t) :
  ring_wf r → ring_wf (RingLevel.set_totalQty x r).
Proof. done. Qed.

Lemma i64_Some (z z' : Z) : i64 z = Some z' ↔ z' = z ∧ - 2 ^ 63 ≤ z < 2 ^ 63.
Proof.
  unfold i64. case_decide; split; try done.
  - by intros [= <-].
  - by intros [-> _].
  - by intros [_ ?].
Qed.

Lemma pop_front_Val (q : Z) (r r' : RingLevel.t) :
  ring_wf r → RingLevel.pop_front q r = Val r' →
  ring_wf r' ∧ RingLevel.size r' = RingLevel.size r ∧
  RingLevel.totalQty r' = RingLevel.totalQty r - q ∧
  - 2 ^ 63 ≤ RingLevel.totalQty r - q < 2 ^ 63 ∧
  ∃ x, RingLevel.front r = Some x ∧ contents r = x :: contents r'.
Proof.
  intros Hwf. unfold RingLevel.pop_front.
  destruct (RingLevel.empty r) eqn:He; [done|].
  destruct (vec_set _ _ _) as [d'|] eqn:Hd; [|done].
  destruct (i64 _) as [tq|] eqn:Ht; [|done]. intros [= <-].
  apply i64_Some in Ht as [-> Ht].
  pose proof Hd as Hlen%vec_set_length.
  assert (Hsz : RingLevel.size (RingLevel.mk d' (RingLevel.next r (RingLevel.head r))
                                 (RingLevel.tail r) (RingLevel.totalQty r - q))
                = RingLevel.size r).
  { unfold RingLevel.size. simpl. by rewrite Hlen. }
  pose proof Hwf as (HW & Hh & Ht').
  assert (Hn : RingLevel.next r (RingLevel.head r) =
               if decide (RingLevel.head r + 1 < RingLevel.size r)
               then RingLevel.head r + 1 else 0).
  { unfold RingLevel.next. by apply next_eq. }
  assert (Hwf' : ring_wf (RingLevel.mk d' (RingLevel.next r (RingLevel.head r))
                                 (RingLevel.tail r) (RingLevel.totalQty r - q))).
  { unfold ring_wf. rewrite Hsz. rsimpl. rewrite Hn. case_decide; lia. }
  split; [done|]. split; [done|]. split; [done|]. split; [done|].
  destruct (front_contents r Hwf He) as (x & rest & Hf & Hc).
  exists x. split; [done|]. rewrite Hc. f_equal.
  assert (Hcnt : count r ≠ 0).
  { rewrite empty_count in He by done. by apply bool_decide_eq_false in He. }
  pose proof (count_range r Hwf) as Hcr.
  assert (Hcnt' : count (RingLevel.mk d' (RingLevel.next r (RingLevel.head r))
                                 (RingLevel.tail r) (RingLevel.totalQty r - q))
                  = count r - 1).
  { rewrite count_eq by done. rewrite (count_eq r) in * by done. rsimpl.
    rewrite Hn. unfold RingLevel.size in *. rsimpl. rewrite ?Hlen.
    repeat case_decide; lia. }
  apply list_eq. intros i. apply option_ext. intros y.
  rewrite contents_lookup by done. rewrite Hcnt'.
  assert (rest !! i = contents r !! S i) as -> by (by rewrite Hc).
  rewrite contents_lookup by done.
  assert (Z.of_nat (S i) < count r ↔ Z.of_nat i < count r - 1) as -> by lia.
  apply and_iff_under. intros Hi.
  assert (Hs : slot (RingLevel.mk d' (RingLevel.next r (RingLevel.head r))
                        (RingLevel.tail r) (RingLevel.totalQty r - q)) (Z.of_nat i)
               = slot r (Z.of_nat (S i))).
  { rewrite slot_eq by (rewrite ?Hsz; done || lia). rewrite (slot_eq r) by (done || lia).
    rewrite Hsz. rsimpl. rewrite Hn. repeat case_decide; lia. }
  rewrite Hs. simpl RingLevel.data.
  rewrite (vec_get_set_ne _ _ _ _ _ Hd); [done|].
  rewrite <- (slot_0 r Hwf). intros Heq. apply slot_inj in Heq; [lia|done|lia|lia].
Qed.

Lemma push_Val (e q : Z) (r r' : RingLevel.t) :
  ring_wf r → RingLevel.push e q r = Val r' →
  ring_wf r' ∧ RingLevel.size r' = RingLevel.size r ∧
  RingLevel.totalQty r' = RingLevel.totalQty r + q ∧
  - 2 ^ 63 ≤ RingLevel.totalQty r + q < 2 ^ 63 ∧
  contents r' = contents r ++ [e].
Proof.
  intros Hwf. unfold RingLevel.push.
  destruct (RingLevel.full r) eqn:He; [done|].
  destruct (vec_set _ _ _) as [d'|] eqn:Hd; [|done].
  destruct (i64 _) as [tq|] eqn:Ht; [|done]. intros [= <-].
  apply i64_Some in Ht as [-> Ht].
  pose proof Hd as Hlen%vec_set_length.
  set (r' := RingLevel.mk d' (RingLevel.head r) (RingLevel.next r (RingLevel.tail r))
                          (RingLevel.totalQty r + q)).
  assert (Hsz : RingLevel.size r' = RingLevel.size r).
  { subst r'. unfold RingLevel.size. simpl. by rewrite Hlen. }
  pose proof Hwf as (HW & Hh & Ht').
  assert (Hn : RingLevel.next r (RingLevel.tail r) =
               if decide (RingLevel.tail r + 1 < RingLevel.size r)
               then RingLevel.tail r + 1 else 0).
  { unfold RingLevel.next. by apply next_eq. }
  assert (Hwf' : ring_wf r').
  { unfold ring_wf. rewrite Hsz. subst r'. rsimpl. rewrite Hn. case_decide; lia. }
  split; [done|]. split; [done|]. split; [done|]. split; [done|].
  rewrite full_count in He by done. apply bool_decide_eq_false in He.
  pose proof (count_range r Hwf) as Hcr.
  assert (Hcnt' : count r' = count r + 1).
  { rewrite count_eq by done. rewrite (count_eq r) in * by done. subst r'. rsimpl.
    rewrite Hn. unfold RingLevel.size in *. rsimpl. rewrite ?Hlen.
    repeat case_decide; lia. }
  assert (Hs : ∀ k, slot r' k = slot r k).
  { intros k. unfold slot. by rewrite Hsz. }
  pose proof (length_contents r Hwf) as Hl.
  apply list_eq. intros i. apply option_ext. intros y.
  rewrite contents_lookup by done. rewrite Hcnt', Hs.
  subst r'. rsimpl.
  destruct (decide (Z.of_nat i < count r)) as [Hi|Hi].
  - rewrite lookup_app_l by lia. rewrite contents_lookup by done.
    rewrite (vec_get_set_ne _ _ _ _ _ Hd); [intuition lia|].
    rewrite <- (slot_count r Hwf). intros Heq. apply slot_inj in Heq; [lia|done|lia|lia].
  - rewrite lookup_app_r by lia.
    destruct (decide (Z.of_nat i = count r)) as [Hi'|Hi'].
    + replace (i - length (contents r))%nat with 0%nat by lia. simpl.
      rewrite Hi', slot_count by done. rewrite (vec_get_set_eq _ _ _ _ Hd).
      split; [by intros [_ ?]|]. intros. split; [lia|done].
    + split; [lia|]. intros Hy%lookup_lt_Some. simpl in Hy. lia.
Qed.

(** ** Removing an order from the middle of a ring (cancel) *)

Lemma findPos_from (r : RingLevel.t) (eid : Z) :
  ring_wf r →
  ∀ (m k n : nat),
    Z.of_nat k + Z.of_nat m = count r → (m < n)%nat →
    (∀ j : nat, (j < k)%nat → contents r !! j ≠ Some eid) →
    (∃ k' : nat, Z.of_nat k' < count r ∧
       findPos n r eid (slot r (Z.of_nat k)) = Done (Some (slot r (Z.of_nat k'))) ∧
       contents r !! k' = Some eid ∧
       ∀ j : nat, (j < k')%nat → contents r !! j ≠ Some eid)
    ∨ (findPos n r eid (slot r (Z.of_nat k)) = Done None ∧ eid ∉ contents r).
Proof.
  intros Hwf. pose proof (count_range r Hwf) as Hcr.
  pose proof (length_contents r Hwf) as Hlen.
  induction m as [|m IH]; intros k n Hk Hn Hpre.
  - right. destruct n as [|n]; [lia|]. simpl.
    replace (Z.of_nat k) with (count r) by lia. rewrite slot_count by done.
    rewrite bool_decide_eq_true_2 by done. split; [done|].
    intros [j Hj]%list_elem_of_lookup_1. apply (Hpre j); [|done].
    apply lookup_lt_Some in Hj. lia.
  - destruct n as [|n]; [lia|]. simpl.
    rewrite bool_decide_eq_false_2.
    2:{ rewrite <- (slot_count r Hwf). intros Heq.
        apply slot_inj in Heq; [lia|done|lia|lia]. }
    destruct (contents r !! k) as [x|] eqn:Hx.
    2:{ apply lookup_ge_None in Hx. lia. }
    pose proof Hx as [_ Hg]%contents_lookup; [|done]. rewrite Hg.
    destruct (decide (x = eid)) as [->|Hne].
    + rewrite bool_decide_eq_true_2 by done. left. exists k.
      split; [lia|]. done.
    + rewrite bool_decide_eq_false_2 by done.
      fold (RingLevel.size r). rewrite next_slot by (done || lia).
      replace (Z.of_nat k + 1) with (Z.of_nat (S k)) by lia.
      apply IH; [lia|lia|]. intros j Hj.
      destruct (decide (j = k)) as [->|]; [congruence|]. apply Hpre. lia.
Qed.

Lemma last_slot (r : RingLevel.t) :
  ring_wf r → count r ≠ 0 →
  u64 (u64 (RingLevel.tail r + RingLevel.size r) - 1) mod RingLevel.size r
  = slot r (count r - 1).
Proof.
  intros Hwf Hc. pose proof Hwf as (? & ? & ?). pose proof (count_range r Hwf).
  rewrite !u64_small by (rewrite ?u64_small; lia).
  rewrite mod_once by lia. rewrite slot_eq by (done || lia).
  rewrite count_eq in * by done. repeat case_decide; lia.
Qed.

Lemma shiftBack_from (r : RingLevel.t) :
  ring_wf r →
  ∀ (m k n : nat) (d : list Z),
    length d = length (RingLevel.data r) →
    Z.of_nat k + Z.of_nat m = count r - 1 → (m < n)%nat →
    ∃ d', shiftBack n (RingLevel.size r) (slot r (count r - 1)) d (slot r (Z.of_nat k))
            = Done d' ∧
          length d' = length d ∧
          (∀ j : nat, (k ≤ j)%nat → Z.of_nat j < count r - 1 →
             vec_get d' (slot r (Z.of_nat j)) = vec_get d (slot r (Z.of_nat (S j)))) ∧
          (∀ p, (∀ j : nat, (k ≤ j)%nat → Z.of_nat j < count r - 1 → p ≠ slot r (Z.of_nat j)) →
             vec_get d' p = vec_get d p).
Proof.
  intros Hwf. pose proof (count_range r Hwf) as Hcr. pose proof Hwf as (HW & _ & _).
  induction m as [|m IH]; intros k n d Hd Hk Hn.
  - destruct n as [|n]; [lia|]. simpl.
    replace (Z.of_nat k) with (count r - 1) by lia.
    rewrite bool_decide_eq_true_2 by done. exists d.
    split; [done|]. split; [done|]. split; [|done]. intros j ??. lia.
  - destruct n as [|n]; [lia|]. simpl.
    rewrite bool_decide_eq_false_2.
    2:{ intros Heq. apply slot_inj in Heq; [lia|done|lia|lia]. }
    rewrite next_slot by (done || lia).
    replace (Z.of_nat k + 1) with (Z.of_nat (S k)) by lia.
    pose proof (slot_range r Hwf (Z.of_nat (S k))) as Hr1.
    pose proof (slot_range r Hwf (Z.of_nat k)) as Hr0.
    unfold RingLevel.size in Hr0, Hr1.
    destruct (vec_get_is_Some d (slot r (Z.of_nat (S k)))) as [x Hx]; [lia|].
    rewrite Hx.
    destruct (vec_set d (slot r (Z.of_nat k)) x) as [d1|] eqn:Hd1.
    2:{ unfold vec_set in Hd1. case_decide; [done|lia]. }
    destruct (IH (S k) n d1) as (d' & Hrun & Hlen' & Hshift & Hframe).
    { rewrite <- Hd. by eapply vec_set_length. }
    { lia. }
    { lia. }
    exists d'. split; [done|]. split.
    { rewrite Hlen'. by eapply vec_set_length. }
    split.
    + intros j Hj1 Hj2. destruct (decide (j = k)) as [->|Hjk].
      * rewrite Hframe.
        { rewrite Hx. by eapply vec_get_set_eq. }
        intros j' ?? Heq. apply slot_inj in Heq; [lia|done|lia|lia].
      * rewrite Hshift by lia. eapply vec_get_set_ne; [done|].
        intros Heq. apply slot_inj in Heq; [lia|done|lia|lia].
    + intros p Hp. rewrite Hframe.
      * eapply vec_get_set_ne; [done|]. intros <-. apply (Hp k); [lia|lia|done].
      * intros j ??. apply Hp; lia.
Qed.

(** The ring that [cancel] leaves: the data shifted back over position
    [k], the tail one slot back. *)
Lemma remove_contents (r : RingLevel.t) (d' : list Z) (k : nat) (tq : Z) :
  ring_wf r → Z.of_nat k < count r →
  length d' = length (RingLevel.data r) →
  (∀ j : nat, (k ≤ j)%nat → Z.of_nat j < count r - 1 →
     vec_get d' (slot r (Z.of_nat j)) = vec_get (RingLevel.data r) (slot r (Z.of_nat (S j)))) →
  (∀ p, (∀ j : nat, (k ≤ j)%nat → Z.of_nat j < count r - 1 → p ≠ slot r (Z.of_nat j)) →
     vec_get d' p = vec_get (RingLevel.data r) p) →
  let r' := RingLevel.mk d' (RingLevel.head r) (slot r (count r - 1)) tq in
  ring_wf r' ∧ RingLevel.size r' = RingLevel.size r ∧ contents r' = delete k (contents r).
Proof.
  intros Hwf Hk Hlen Hshift Hframe r'.
  pose proof (count_range r Hwf) as Hcr. pose proof Hwf as (HW & Hh & Ht).
  assert (Hsz : RingLevel.size r' = RingLevel.size r).
  { subst r'. unfold RingLevel.size. simpl. by rewrite Hlen. }
  assert (Hwf' : ring_wf r').
  { unfold ring_wf. rewrite Hsz. subst r'. cbn [RingLevel.head RingLevel.tail].
    pose proof (slot_range r Hwf (count r - 1)). lia. }
  assert (Hcnt : count r' = count r - 1).
  { rewrite count_eq by done. rewrite Hsz. subst r'. cbn [RingLevel.head RingLevel.tail].
    rewrite slot_eq by (done || lia). rewrite count_eq in * by done.
    repeat case_decide; lia. }
  assert (Hs : ∀ j, slot r' j = slot r j).
  { intros j. unfold slot. by rewrite Hsz. }
  split; [done|]. split; [done|].
  apply list_eq. intros i. apply option_ext. intros y.
  rewrite contents_lookup by done. rewrite Hcnt, Hs. subst r'. cbn [RingLevel.data].
  destruct (decide (i < k)%nat) as [Hik|Hik].
  - rewrite list_lookup_delete_lt by done. rewrite contents_lookup by done.
    rewrite Hframe; [intuition lia|].
    intros j ?? Heq. apply slot_inj in Heq; [lia|done|lia|lia].
  - rewrite list_lookup_delete_ge by lia. rewrite contents_lookup by done.
    assert (Z.of_nat (S i) < count r ↔ Z.of_nat i < count r - 1) as -> by lia.
    apply and_iff_under. intros Hi. rewrite Hshift by lia. done.
Qed.

(** ** Book and pool bookkeeping *)

Lemma put_level_Some (sd : Side) (i : Z) (lvl : RingLevel.t) (s s' : Engine.t) :
  put_level sd i lvl s = Some s' ↔
  0 ≤ i < Z.of_nat (length (OrderBook.levels sd (book s))) ∧
  s' = set_book (OrderBook.set_levels sd
                   (<[Z.to_nat i := lvl]> (OrderBook.levels sd (book s))) (book s)) s.
Proof.
  unfold put_level, vec_set. case_decide; simpl; split; try done.
  - by intros [= <-].
  - by intros [_ ->].
  - by intros [? _].
Qed.

Lemma put_order_Some (e : Z) (o : Order) (s s' : Engine.t) :
  put_order e o s = Some s' ↔
  0 ≤ e < Z.of_nat (length (OrderPool.pool (pool s))) ∧
  s' = set_pool (OrderPool.mk (<[Z.to_nat e := o]> (OrderPool.pool (pool s)))
                              (OrderPool.freeList (pool s))) s.
Proof.
  unfold put_order, OrderPool.put, vec_set. case_decide; simpl; split; try done.
  - by intros [= <-].
  - by intros [_ ->].
  - by intros [? _].
Qed.

Lemma levels_set_levels (sd sd' : Side) (v : list RingLevel.t) (b : OrderBook.t) :
  OrderBook.levels sd' (OrderBook.set_levels sd v b) =
  if decide (sd' = sd) then v else OrderBook.levels sd' b.
Proof. by destruct sd, sd'. Qed.

Lemma set_levels_twice (sd : Side) (v v' : list RingLevel.t) (b : OrderBook.t) :
  OrderBook.set_levels sd v' (OrderBook.set_levels sd v b) = OrderBook.set_levels sd v' b.
Proof. by destruct sd. Qed.

Lemma levels_set_best (sd sd' : Side) (x : Z) (b : OrderBook.t) :
  OrderBook.levels sd' (OrderBook.set_best sd x b) = OrderBook.levels sd' b.
Proof. by destruct sd, sd'. Qed.

Lemma best_set_levels (sd sd' : Side) (v : list RingLevel.t) (b : OrderBook.t) :
  OrderBook.best sd' (OrderBook.set_levels sd v b) = OrderBook.best sd' b.
Proof. by destruct sd, sd'. Qed.

Lemma best_set_best (sd sd' : Side) (x : Z) (b : OrderBook.t) :
  OrderBook.best sd' (OrderBook.set_best sd x b) =
  if decide (sd' = sd) then x else OrderBook.best sd' b.
Proof. by destruct sd, sd'. Qed.

Lemma nlevels_set_levels (sd : Side) (v : list RingLevel.t) (b : OrderBook.t) :
  OrderBook.nlevels (OrderBook.set_levels sd v b) = OrderBook.nlevels b.
Proof. by destruct sd. Qed.

Lemma nlevels_set_best (sd : Side) (x : Z) (b : OrderBook.t) :
  OrderBook.nlevels (OrderBook.set_best sd x b) = OrderBook.nlevels b.
Proof. by destruct sd. Qed.

(** *** The scans of [updateBestAfterRemove] *)

Lemma scanUp_Some (v : list RingLevel.t) (n : nat) (i x : Z) :
  OrderBook.scanUp v n i = Some x →
  (x = -1 ∧ ∀ j, i ≤ j < i + Z.of_nat n → ¬ nonempty_at v j) ∨
  (i ≤ x < i + Z.of_nat n ∧ nonempty_at v x ∧ ∀ j, i ≤ j < x → ¬ nonempty_at v j).
Proof.
  revert i. induction n as [|n IH]; intros i; simpl.
  - intros [= <-]. left. split; [done|]. intros j ?. lia.
  - destruct (vec_get v i) as [lvl|] eqn:Hl; simpl; [|done].
    destruct (RingLevel.empty lvl) eqn:He; simpl.
    + intros [(-> & Hall)|(Hx & Hne & Hall)]%IH.
      * left. split; [done|]. intros j Hj. destruct (decide (j = i)) as [->|].
        -- intros (r & Hr & Hr'). congruence.
        -- apply Hall. lia.
      * right. split; [lia|]. split; [done|]. intros j Hj.
        destruct (decide (j = i)) as [->|].
        -- intros (r & Hr & Hr'). congruence.
        -- apply Hall. lia.
    + intros [= <-]. right. split; [lia|]. split; [by exists lvl|]. intros j ?. lia.
Qed.

Lemma scanDown_Some (v : list RingLevel.t) (n : nat) (i x : Z) :
  OrderBook.scanDown v n i = Some x →
  (x = -1 ∧ ∀ j, i - Z.of_nat n < j ≤ i → ¬ nonempty_at v j) ∨
  (i - Z.of_nat n < x ≤ i ∧ nonempty_at v x ∧ ∀ j, x < j ≤ i → ¬ nonempty_at v j).
Proof.
  revert i. induction n as [|n IH]; intros i; simpl.
  - intros [= <-]. left. split; [done|]. intros j ?. lia.
  - destruct (vec_get v i) as [lvl|] eqn:Hl; simpl; [|done].
    destruct (RingLevel.empty lvl) eqn:He; simpl.
    + intros [(-> & Hall)|(Hx & Hne & Hall)]%IH.
      * left. split; [done|]. intros j Hj. destruct (decide (j = i)) as [->|].
        -- intros (r & Hr & Hr'). congruence.
        -- apply Hall. lia.
      * right. split; [lia|]. split; [done|]. intros j Hj.
        destruct (decide (j = i)) as [->|].
        -- intros (r & Hr & Hr'). congruence.
        -- apply Hall. lia.
    + intros [= <-]. right. split; [lia|]. split; [by exists lvl|]. intros j ?. lia.
Qed.

Lemma scanUp_is_Some (v : list RingLevel.t) (n : nat) (i : Z) :
  0 ≤ i → i + Z.of_nat n ≤ Z.of_nat (length v) → is_Some (OrderBook.scanUp v n i).
Proof.
  revert i. induction n as [|n IH]; intros i Hi Hn; simpl; [done|].
  destruct (vec_get_is_Some v i) as [lvl ->]; [lia|]. simpl.
  destruct (RingLevel.empty lvl); simpl; [|done]. apply IH; lia.
Qed.

Lemma scanDown_is_Some (v : list RingLevel.t) (n : nat) (i : Z) :
  Z.of_nat n ≤ i + 1 → i < Z.of_nat (length v) → is_Some (OrderBook.scanDown v n i).
Proof.
  revert i. induction n as [|n IH]; intros i Hi Hn; simpl; [done|].
  destruct (vec_get_is_Some v i) as [lvl ->]; [lia|]. simpl.
  destruct (RingLevel.empty lvl); simpl; [|done]. apply IH; lia.
Qed.

Lemma nonempty_at_range (v : list RingLevel.t) (i : Z) :
  nonempty_at v i → 0 ≤ i < Z.of_nat (length v).
Proof. intros (r & Hr%vec_get_range & _). done. Qed.

Lemma updateBestAfterRemove_at (sd : Side) (idx : Z) (b b' : OrderBook.t) :
  OrderBook.best sd b = idx →
  Z.of_nat (length (OrderBook.levels sd b)) = OrderBook.nlevels b →
  OrderBook.updateBestAfterRemove sd idx b = Some b' →
  ∃ x, b' = OrderBook.set_best sd x b ∧ next_best sd (OrderBook.levels sd b) idx x.
Proof.
  intros Hb Hlen. unfold OrderBook.updateBestAfterRemove. destruct sd; simpl in *.
  - rewrite bool_decide_eq_false_2 by (intros ?; done).
    destruct (OrderBook.scanDown _ _ _) as [x|] eqn:Hs; simpl; [|done].
    intros [= <-]. exists x. split; [done|].
    apply scanDown_Some in Hs as [(-> & Hall)|(Hx & Hne & Hall)].
    + left. split; [done|]. intros j Hj Hne. pose proof (nonempty_at_range _ _ Hne).
      apply (Hall j); [lia|done].
    + right. pose proof (nonempty_at_range _ _ Hne). split; [lia|]. done.
  - rewrite bool_decide_eq_false_2 by (intros ?; done).
    destruct (OrderBook.scanUp _ _ _) as [x|] eqn:Hs; simpl; [|done].
    intros [= <-]. exists x. split; [done|].
    apply scanUp_Some in Hs as [(-> & Hall)|(Hx & Hne & Hall)].
    + left. split; [done|]. intros j Hj Hne. pose proof (nonempty_at_range _ _ Hne).
      apply (Hall j); [lia|done].
    + right. split; [lia|]. done.
Qed.

Lemma updateBestAfterRemove_is_Some (sd : Side) (idx : Z) (b : OrderBook.t) :
  Z.of_nat (length (OrderBook.levels sd b)) = OrderBook.nlevels b →
  0 ≤ idx < OrderBook.nlevels b →
  is_Some (OrderBook.updateBestAfterRemove sd idx b).
Proof.
  intros Hlen Hidx. unfold OrderBook.updateBestAfterRemove. destruct sd; simpl in *.
  - case_bool_decide; [done|].
    destruct (scanDown_is_Some (OrderBook.bids b) (Z.to_nat (idx + 1)) idx) as [x ->];
      [lia|lia|done].
  - case_bool_decide; [done|].
    destruct (scanUp_is_Some (OrderBook.asks b) (Z.to_nat (OrderBook.nlevels b - idx)) idx)
      as [x ->]; [lia|lia|done].
Qed.

Lemma next_best_range (sd : Side) (v : list RingLevel.t) (idx x : Z) :
  next_best sd v idx x → x = -1 ∨ 0 ≤ x < Z.of_nat (length v).
Proof.
  destruct sd; simpl; intros [(-> & _)|(? & Hne%nonempty_at_range & _)]; auto.
Qed.

(** ** One iteration of a matching loop *)

Lemma level_wf (sd : Side) (i : Z) (pl : RingLevel.t) (s : Engine.t) :
  wf s → level sd i s = Some pl → level_ok (pool s) sd (Z.to_nat i) pl.
Proof.
  intros (_ & Hb & Ha) [Hi Hl]%vec_get_Some.
  destruct sd; [apply Hb|apply Ha]; done.
Qed.

Lemma free_after_put (e : Z) (o : Order) (v : list Order) (fl : list Z) (p' : OrderPool.t) :
  OrderPool.free e (OrderPool.mk (<[Z.to_nat e := o]> v) fl) = Some p' →
  0 ≤ e < Z.of_nat (length v) ∧
  p' = OrderPool.mk (<[Z.to_nat e := set_qty 0 (set_active false o)]> v) (fl ++ [e]).
Proof.
  intros (o' & Hg & ->)%free_Some. unfold OrderPool.get in Hg. simpl in *.
  pose proof (vec_get_range _ _ _ Hg) as Hr. rewrite length_insert in Hr.
  apply vec_get_Some in Hg as [_ Hg].
  rewrite list_lookup_insert_eq in Hg by lia. injection Hg as <-.
  by rewrite list_insert_insert_eq.
Qed.

Lemma get_insert (e j : Z) (o : Order) (v : list Order) (fl : list Z) :
  0 ≤ e < Z.of_nat (length v) →
  OrderPool.get (OrderPool.mk (<[Z.to_nat e := o]> v) fl) j =
  if decide (j = e) then Some o else OrderPool.get (OrderPool.mk v fl) j.
Proof.
  intros He. unfold OrderPool.get, vec_get. simpl.
  destruct (decide (j = e)) as [->|Hj].
  - rewrite decide_True by lia. apply list_lookup_insert_eq. lia.
  - case_decide; [|done]. apply list_lookup_insert_ne. lia.
Qed.

Lemma matchStep_Ok (clock : nat → Z) (opp : Side) (taker taker' : Order) (s s' : Engine.t) :
  wf s →
  matchStep clock opp taker s = Ok taker' s' →
  let b := OrderBook.best opp (book s) in
  ∃ pl, level opp b s = Some pl ∧
    ((RingLevel.empty pl = true ∧ taker' = taker ∧
      ∃ x, next_best opp (OrderBook.levels opp (book s)) b x ∧
           s' = set_book (OrderBook.set_best opp x (book s)) s)
     ∨
     (RingLevel.empty pl = false ∧
      ∃ e rest maker pl' x,
        contents pl = e :: rest ∧ OrderPool.get (pool s) e = Some maker ∧
        let fill := Z.min (qty maker) (qty taker) in
        let lv' := <[Z.to_nat b := pl']> (OrderBook.levels opp (book s)) in
        taker' = set_qty (qty taker - fill) taker ∧
        - 2 ^ 63 ≤ qty taker - fill < 2 ^ 63 ∧
        - 2 ^ 63 ≤ qty maker - fill < 2 ^ 63 ∧
        - 2 ^ 63 ≤ RingLevel.totalQty pl - fill < 2 ^ 63 ∧
        trades s' = trades s ++
          [Trade.mk (clientId taker) (clientId maker) fill (priceIdx maker)
                    (u64 (clock (length (trades s))))] ∧
        nextClientId s' = nextClientId s ∧
        book s' = OrderBook.set_best opp x (OrderBook.set_levels opp lv' (book s)) ∧
        ring_wf pl' ∧
        RingLevel.totalQty pl' = RingLevel.totalQty pl - fill ∧
        contents pl' = (if decide (qty maker ≤ qty taker) then rest else e :: rest) ∧
        (if RingLevel.empty pl' then next_best opp lv' b x else x = b) ∧
        pool s' = OrderPool.mk
          (<[Z.to_nat e := if decide (qty maker ≤ qty taker)
                           then set_qty 0 (set_active false maker)
                           else set_qty (qty maker - fill) maker]>
             (OrderPool.pool (pool s)))
          (OrderPool.freeList (pool s) ++
             if decide (qty maker ≤ qty taker) then [e] else []) ∧
        clientToEngine s' =
          (if decide (qty maker ≤ qty taker)
           then delete (clientId maker) (clientToEngine s) else clientToEngine s))).
Proof.
  intros Hwf H b. unfold matchStep in H. fold b in H.
  destruct (level opp b s) as [pl|] eqn:Hpl; simpl in H; [|done].
  exists pl. split; [done|].
  pose proof (level_wf _ _ _ _ Hwf Hpl) as (Hrwf & Hnd & Hrest & Hsum & Htot).
  pose proof Hwf as (_ & Hsb & Hsa).
  assert (Hlen : Z.of_nat (length (OrderBook.levels opp (book s))) = OrderBook.nlevels (book s)).
  { destruct opp; [apply Hsb|apply Hsa]. }
  destruct (RingLevel.empty pl) eqn:He.
  { left. split; [done|].
    destruct (OrderBook.updateBestAfterRemove opp b (book s)) as [bk|] eqn:Hu;
      simpl in H; [|done].
    injection H as <- <-. split; [done|].
    apply updateBestAfterRemove_at in Hu as (x & -> & Hx); [|done|done].
    by exists x. }
  right. split; [done|].
  destruct (front_contents pl Hrwf He) as (e & rest & Hf & Hc).
  rewrite Hf in H. simpl in H.
  destruct (OrderPool.get (pool s) e) as [maker|] eqn:Hm; simpl in H; [|done].
  destruct (i64 (qty maker - _)) as [mq|] eqn:Hmq; simpl in H; [|done].
  destruct (i64 (RingLevel.totalQty pl - _)) as [tot|] eqn:Htq; simpl in H; [|done].
  destruct (i64 (qty taker - _)) as [tq|] eqn:Htk; simpl in H; [|done].
  apply i64_Some in Hmq as [-> Hmq]. apply i64_Some in Htq as [-> Htq].
  apply i64_Some in Htk as [-> Htk].
  destruct (put_order _ _ _) as [s2|] eqn:Hs2; simpl in H; [|done].
  apply put_order_Some in Hs2 as [He_range ->].
  destruct (put_level _ _ _ _) as [s3|] eqn:Hs3; simpl in H; [|done].
  apply put_level_Some in Hs3 as [Hb_range ->]. simpl in Hb_range.
  set (fill := Z.min (qty maker) (qty taker)) in *.
  case_bool_decide as Hcons.
  - (* the maker is consumed *)
    destruct (RingLevel.pop_front 0 _) as [pl2| |] eqn:Hpop; simpl in H; try done.
    apply pop_front_Val in Hpop as (Hwf2 & Hsz2 & Htot2 & _ & y & Hy & Hc2); [|done].
    rewrite set_totalQty_contents, Hc in Hc2. injection Hc2 as <- Hrest2.
    destruct (put_level _ _ _ _) as [s4|] eqn:Hs4; simpl in H; [|done].
    apply put_level_Some in Hs4 as [_ ->]. simpl in H.
    destruct (OrderPool.free e _) as [p|] eqn:Hfree; simpl in H; [|done].
    apply free_after_put in Hfree as [_ ->].
    rewrite get_insert in H by done. rewrite decide_True in H by done. simpl in H.
    rewrite levels_set_levels, decide_True, list_insert_insert_eq in H by done.
    destruct (refreshBest _ _ _ _) as [s6|] eqn:Hs6; simpl in H; [|done].
    injection H as <- <-.
    assert (Hle : qty maker ≤ qty taker) by lia.
    unfold refreshBest in Hs6. simpl in Hs6. rewrite set_levels_twice in Hs6.
    destruct (RingLevel.empty pl2) eqn:He2.
    + destruct (OrderBook.updateBestAfterRemove _ _ _) as [bk|] eqn:Hu; simpl in Hs6; [|done].
      injection Hs6 as <-.
      apply updateBestAfterRemove_at in Hu as (x & -> & Hx).
      2:{ by rewrite best_set_levels. }
      2:{ rewrite levels_set_levels, decide_True, nlevels_set_levels, length_insert by done.
          done. }
      rewrite levels_set_levels, decide_True in Hx by done.
      exists e, rest, maker, pl2, x. cbv zeta. rewrite !decide_True by done. rewrite He2.
      simpl. rewrite Htot2. simpl. split_and!; try done; try lia.
    + injection Hs6 as <-.
      exists e, rest, maker, pl2, b. cbv zeta. rewrite !decide_True by done. rewrite He2.
      simpl. rewrite Htot2. simpl. split_and!; try done; try lia.
      destruct opp; simpl; by destruct (book s).
  - (* the maker stays at the head *)
    destruct (refreshBest _ _ _ _) as [s4|] eqn:Hs4; simpl in H; [|done].
    injection H as <- <-.
    assert (Hle : ¬ qty maker ≤ qty taker) by lia.
    unfold refreshBest in Hs4.
    replace (RingLevel.empty (RingLevel.set_totalQty (RingLevel.totalQty pl - fill) pl))
      with false in Hs4 by done.
    injection Hs4 as <-.
    exists e, rest, maker, (RingLevel.set_totalQty (RingLevel.totalQty pl - fill) pl), b.
    cbv zeta. rewrite !decide_False by done.
    replace (RingLevel.empty (RingLevel.set_totalQty (RingLevel.totalQty pl - fill) pl))
      with false by done.
    simpl. rewrite app_nil_r. split_and!; try done; try lia.
    destruct opp; simpl; by destruct (book s).
Qed.

(** ** Well-formedness is kept by the updates of one level and one slot *)

Lemma sum_qty_cons (p : OrderPool.t) (x : Z) (l : list Z) :
  sum_qty p (x :: l) = qty_at p x + sum_qty p l.
Proof. done. Qed.

Lemma sum_qty_agree (p p' : OrderPool.t) (l : list Z) :
  (∀ e, e ∈ l → OrderPool.get p' e = OrderPool.get p e) →
  sum_qty p' l = sum_qty p l.
Proof.
  induction l as [|x l IH]; intros H; [done|]. rewrite !sum_qty_cons.
  rewrite IH by (intros e He; apply H; by right).
  unfold qty_at. rewrite H by left. done.
Qed.

Lemma sum_qty_nonneg (p : OrderPool.t) (l : list Z) :
  (∀ e, e ∈ l → 0 ≤ qty_at p e) → 0 ≤ sum_qty p l.
Proof.
  induction l as [|x l IH]; intros H; [done|]. rewrite sum_qty_cons.
  pose proof (H x ltac:(left)). pose proof (IH ltac:(intros e He; apply H; by right)).
  lia.
Qed.

Lemma sum_qty_delete (p : OrderPool.t) (l : list Z) (k : nat) (e : Z) :
  l !! k = Some e → sum_qty p l = qty_at p e + sum_qty p (delete k l).
Proof.
  revert k. induction l as [|x l IH]; intros k Hk; [done|].
  destruct k as [|k]; simpl in *.
  - by injection Hk as ->.
  - rewrite !sum_qty_cons, (IH k Hk). lia.
Qed.

Lemma resting_qty (p : OrderPool.t) (sd : Side) (i e : Z) :
  resting p sd i e → 0 < qty_at p e < 2 ^ 63.
Proof. intros (o & Hg & _ & _ & _ & Hq). unfold qty_at. by rewrite Hg. Qed.

Lemma resting_agree (p p' : OrderPool.t) (sd : Side) (i e : Z) :
  OrderPool.get p' e = OrderPool.get p e → resting p sd i e → resting p' sd i e.
Proof. intros Hg (o & Ho & ?). exists o. by rewrite Hg. Qed.

Lemma resting_unique (p : OrderPool.t) (sd sd' : Side) (i i' e : Z) :
  resting p sd i e → resting p sd' i' e → sd = sd' ∧ i = i'.
Proof.
  intros (o & Ho & _ & <- & <- & _) (o' & Ho' & _ & <- & <- & _).
  by assert (o' = o) as -> by congruence.
Qed.

Lemma level_ok_agree (p p' : OrderPool.t) (sd : Side) (i : nat) (r : RingLevel.t) :
  level_ok p sd i r →
  (∀ e, e ∈ contents r → OrderPool.get p' e = OrderPool.get p e) →
  level_ok p' sd i r.
Proof.
  intros (Hwf & Hnd & Hrest & Hsum & Htot) Hag. split_and!; try done.
  - intros e He. eapply resting_agree; [by apply Hag|by apply Hrest].
  - rewrite Hsum. symmetry. by apply sum_qty_agree.
Qed.

Lemma level_ok_total_nonneg (p : OrderPool.t) (sd : Side) (i : nat) (r : RingLevel.t) :
  level_ok p sd i r → 0 ≤ RingLevel.totalQty r.
Proof.
  intros (_ & _ & Hrest & -> & _). apply sum_qty_nonneg.
  intros e He. pose proof (resting_qty _ _ _ _ (Hrest e He)). lia.
Qed.

Lemma pool_ok_active (p : OrderPool.t) (e : Z) (o : Order) :
  pool_ok p → OrderPool.get p e = Some o → active o = true → e ∉ OrderPool.freeList p.
Proof.
  intros [_ Hfl] Hg Ha Hin. destruct (Hfl e Hin) as (o' & Ho' & Ha'). congruence.
Qed.

(** Writing slot [e] and level [(sd, b)], and moving the cache of side
    [sd]: the other levels hold other slots, so their invariants stay. *)
Lemma wf_update (s s' : Engine.t) (sd : Side) (b : nat) (pl' : RingLevel.t)
    (e x : Z) (o' : Order) (fl' : list Z) :
  wf s →
  pool s' = OrderPool.mk (<[Z.to_nat e := o']> (OrderPool.pool (pool s))) fl' →
  book s' = OrderBook.set_best sd x
              (OrderBook.set_levels sd (<[b := pl']> (OrderBook.levels sd (book s))) (book s)) →
  0 ≤ e < Z.of_nat (length (OrderPool.pool (pool s))) →
  (∀ sd' i r, OrderBook.levels sd' (book s) !! i = Some r →
              (sd', i) ≠ (sd, b) → e ∉ contents r) →
  pool_ok (pool s') →
  level_ok (pool s') sd b pl' →
  (x = -1 ∨ 0 ≤ x < OrderBook.nlevels (book s)) →
  wf s'.
Proof.
  intros (Hp & Hsb & Hsa) Hpool Hbook He Hother Hp' Hlvl Hx.
  assert (Hget : ∀ j, j ≠ e → OrderPool.get (pool s') j = OrderPool.get (pool s) j).
  { intros j Hj. rewrite Hpool, get_insert, decide_False by done. by destruct (pool s). }
  assert (Hside : ∀ sd', side_ok sd' (pool s) (book s) → side_ok sd' (pool s') (book s')).
  { intros sd' (Hlen & Hlv & Hbest). rewrite Hbook. split_and!.
    - rewrite levels_set_best, levels_set_levels, nlevels_set_best, nlevels_set_levels.
      case_decide; [subst sd'; by rewrite length_insert|done].
    - intros i r. rewrite levels_set_best, levels_set_levels.
      case_decide as Hsd.
      + subst sd'. destruct (decide (i = b)) as [->|Hib].
        * intros Hr. apply lookup_lt_Some in Hr as Hlt. rewrite length_insert in Hlt.
          rewrite list_lookup_insert_eq in Hr by done. by injection Hr as <-.
        * rewrite list_lookup_insert_ne by done. intros Hr.
          eapply level_ok_agree; [by apply Hlv|]. intros e' He'. apply Hget.
          intros ->. eapply Hother; [exact Hr| |exact He']. congruence.
      + intros Hr. eapply level_ok_agree; [by apply Hlv|]. intros e' He'. apply Hget.
        intros ->. eapply Hother; [exact Hr| |exact He']. congruence.
    - rewrite best_set_best, best_set_levels, nlevels_set_best, nlevels_set_levels.
      by case_decide. }
  split; [done|]. split; by apply Hside.
Qed.

Lemma elsewhere_resting (s : Engine.t) (sd : Side) (b : nat) (e : Z) :
  wf s → resting (pool s) sd (Z.of_nat b) e →
  ∀ sd' i r, OrderBook.levels sd' (book s) !! i = Some r →
             (sd', i) ≠ (sd, b) → e ∉ contents r.
Proof.
  intros (_ & Hsb & Hsa) Hr sd' i r Hl Hne Hin.
  assert (level_ok (pool s) sd' i r) as (_ & _ & Hrest & _).
  { destruct sd'; [by apply Hsb|by apply Hsa]. }
  destruct (resting_unique _ _ _ _ _ _ Hr (Hrest e Hin)) as [-> Hi].
  apply Hne. f_equal. lia.
Qed.

Lemma elsewhere_inactive (s : Engine.t) (e : Z) (o : Order) :
  wf s → OrderPool.get (pool s) e = Some o → active o = false →
  ∀ sd' i r, OrderBook.levels sd' (book s) !! i = Some r → e ∉ contents r.
Proof.
  intros (_ & Hsb & Hsa) Hg Ha sd' i r Hl Hin.
  assert (level_ok (pool s) sd' i r) as (_ & _ & Hrest & _).
  { destruct sd'; [by apply Hsb|by apply Hsa]. }
  destruct (Hrest e Hin) as (o' & Ho' & Ha' & _). congruence.
Qed.

Lemma wf_set_best (s s' : Engine.t) (sd : Side) (x : Z) :
  wf s → pool s' = pool s → book s' = OrderBook.set_best sd x (book s) →
  (x = -1 ∨ 0 ≤ x < OrderBook.nlevels (book s)) → wf s'.
Proof.
  intros (Hp & Hsb & Hsa) Hpool Hbook Hx.
  assert (Hside : ∀ sd', side_ok sd' (pool s) (book s) → side_ok sd' (pool s') (book s')).
  { intros sd' (Hlen & Hlv & Hbest). rewrite Hbook, Hpool. split_and!.
    - by rewrite levels_set_best, nlevels_set_best.
    - intros i r. rewrite levels_set_best. apply Hlv.
    - rewrite best_set_best, nlevels_set_best. by case_decide. }
  split; [by rewrite Hpool|]. split; by apply Hside.
Qed.

Lemma side_ok_length (sd : Side) (s : Engine.t) :
  wf s → Z.of_nat (length (OrderBook.levels sd (book s))) = OrderBook.nlevels (book s).
Proof. intros (_ & Hsb & Hsa). destruct sd; [apply Hsb|apply Hsa]. Qed.

(** *** The matching step *)

Lemma matchStep_wf (clock : nat → Z) (opp : Side) (taker taker' : Order) (s s' : Engine.t) :
  wf s → 0 ≤ qty taker →
  matchStep clock opp taker s = Ok taker' s' → wf s'.
Proof.
  intros Hwf Hq H. pose proof (side_ok_length opp s Hwf) as Hlen.
  apply matchStep_Ok in H as (pl & Hpl & H); [|done].
  destruct H as [(He & -> & x & Hx & ->)|(He & e & rest & maker & pl' & x & H)].
  - eapply wf_set_best; [done|done|done|].
    apply next_best_range in Hx. lia.
  - destruct H as (Hc & Hm & _ & Hr1 & Hr2 & Hr3 & _ & _ & Hbook & Hwf' & Htot
                   & Hc' & Hx & Hpool & _).
    pose proof (level_wf _ _ _ _ Hwf Hpl) as (Hrwf & Hnd & Hrest & Hsum & Htq).
    pose proof (vec_get_range _ _ _ Hpl) as Hb.
    pose proof (vec_get_range _ _ _ Hm) as He_range.
    rewrite Hc in Hnd, Hrest. apply NoDup_cons in Hnd as [Hnin Hnd].
    pose proof (Hrest e ltac:(left)) as Hre.
    pose proof Hre as (o & Ho & Hact & Hside & Hprice & Hqty).
    assert (o = maker) as -> by congruence.
    assert (Hget : ∀ j, j ≠ e → OrderPool.get (pool s') j = OrderPool.get (pool s) j).
    { intros j Hj. rewrite Hpool, get_insert, decide_False by done. by destruct (pool s). }
    assert (Hgete : OrderPool.get (pool s') e =
              Some (if decide (qty maker ≤ qty taker)
                    then set_qty 0 (set_active false maker)
                    else set_qty (qty maker - qty maker `min` qty taker) maker)).
    { rewrite Hpool, get_insert, decide_True by done. done. }
    pose proof Hwf as (Hp & _ & _).
    eapply (wf_update s s' opp (Z.to_nat (OrderBook.best opp (book s))) pl' e x);
      [done|exact Hpool|exact Hbook|done|by apply elsewhere_resting| | |].
    + (* the pool *)
      destruct Hp as [Hfnd Hfl]. rewrite Hpool. simpl. split.
      * case_decide; [|by rewrite app_nil_r].
        apply NoDup_app. split_and!; [done| |apply NoDup_singleton].
        intros y Hy ->%list_elem_of_singleton.
        eapply pool_ok_active; [split; eassumption| | |]; done.
      * intros y Hy. rewrite <- Hpool. destruct (decide (y = e)) as [->|Hye].
        -- rewrite Hgete. case_decide as Hcase.
           ++ eexists. split; [done|]. by destruct maker.
           ++ rewrite app_nil_r in Hy.
              exfalso. eapply pool_ok_active; [split; eassumption| | |]; done.
        -- rewrite Hget by done. apply Hfl.
           apply elem_of_app in Hy as [Hy|Hy]; [done|].
           case_decide; [by apply list_elem_of_singleton in Hy|by apply elem_of_nil in Hy].
    + (* the level *)
      split_and!; [done| | | |].
      * rewrite Hc'. case_decide; [done|]. by apply NoDup_cons.
      * intros y Hy. destruct (decide (y = e)) as [->|Hye].
        -- rewrite Hc' in Hy. case_decide as Hcase; [done|].
           eexists. split; [exact Hgete|].
           destruct maker; simpl in *. split_and!; try done; lia.
        -- eapply resting_agree; [by apply Hget|]. apply Hrest.
           rewrite Hc' in Hy. case_decide; [by right|done].
      * rewrite Htot, Hsum. unfold level_sum. rewrite Hc, Hc', sum_qty_cons.
        assert (Hsr : sum_qty (pool s') rest = sum_qty (pool s) rest).
        { apply sum_qty_agree. intros y Hy. apply Hget. by intros ->. }
        unfold qty_at at 1. rewrite Hm. simpl.
        case_decide as Hcase.
        -- rewrite Hsr. lia.
        -- rewrite sum_qty_cons, Hsr. unfold qty_at. rewrite Hgete. simpl. lia.
      * lia.
    + destruct (RingLevel.empty pl').
      * apply next_best_range in Hx. rewrite length_insert in Hx. lia.
      * lia.
Qed.

(** ** The best-price caches *)

Lemma best_ok_sides (b : OrderBook.t) :
  best_ok b ↔
  (∀ sd, is_best sd (OrderBook.levels sd b) (OrderBook.best sd b)) ∧
  (OrderBook.bestBid b ≠ -1 → OrderBook.bestAsk b ≠ -1 →
   OrderBook.bestBid b < OrderBook.bestAsk b).
Proof.
  unfold best_ok. split.
  - intros (Hb & Ha & Hx). split; [|done]. by intros [].
  - intros (H & Hx). split_and!; [apply (H BUY)|apply (H SELL)|done].
Qed.

Lemma nonempty_at_insert (v : list RingLevel.t) (n : nat) (r : RingLevel.t) (i : Z) :
  (n < length v)%nat →
  nonempty_at (<[n := r]> v) i ↔
  if decide (i = Z.of_nat n) then RingLevel.empty r = false else nonempty_at v i.
Proof.
  intros Hn. unfold nonempty_at. case_decide as Hi.
  - subst i. split.
    + intros (r' & Hr' & He). apply vec_get_Some in Hr' as [_ Hr'].
      rewrite Nat2Z.id, list_lookup_insert_eq in Hr' by done. by injection Hr' as <-.
    + intros He. exists r. split; [|done]. apply vec_get_Some. split; [lia|].
      rewrite Nat2Z.id. by apply list_lookup_insert_eq.
  - unfold vec_get. case_decide; [|done].
    rewrite list_lookup_insert_ne by lia. done.
Qed.

Lemma is_best_nonempty (sd : Side) (v : list RingLevel.t) (x i : Z) :
  is_best sd v x → nonempty_at v i →
  x ≠ -1 ∧ nonempty_at v x ∧ match sd with BUY => i ≤ x | SELL => x ≤ i end.
Proof.
  intros Hb Hi. pose proof (nonempty_at_range _ _ Hi).
  destruct sd; simpl in Hb; destruct Hb as [[-> Hall]|[Hne Hbeyond]];
    try (by destruct (Hall i)); pose proof (nonempty_at_range _ _ Hne);
    (split; [lia|]); (split; [done|]).
  - destruct (decide (i ≤ x)); [done|]. destruct (Hbeyond i); [lia|done].
  - destruct (decide (x ≤ i)); [done|]. destruct (Hbeyond i); [lia|done].
Qed.

(** Level [idx] of side [sd] loses orders, no level gains any, and the
    cache of [sd] is refreshed the way [refreshBest] does it. *)
Lemma best_ok_shrink (b b' : OrderBook.t) (sd : Side) (idx : nat) (pl' : RingLevel.t) (x : Z) :
  best_ok b →
  nonempty_at (OrderBook.levels sd b) (Z.of_nat idx) →
  b' = OrderBook.set_best sd x
         (OrderBook.set_levels sd (<[idx := pl']> (OrderBook.levels sd b)) b) →
  (if RingLevel.empty pl'
   then (OrderBook.best sd b = Z.of_nat idx ∧
         next_best sd (<[idx := pl']> (OrderBook.levels sd b)) (Z.of_nat idx) x) ∨
        (OrderBook.best sd b ≠ Z.of_nat idx ∧ x = OrderBook.best sd b)
   else x = OrderBook.best sd b) →
  best_ok b'.
Proof.
  intros Hok Hidx -> Hx. apply best_ok_sides in Hok as [Hbest Hcross].
  pose proof (nonempty_at_range _ _ Hidx) as Hrange.
  assert (Hin : ∀ i, nonempty_at (<[idx := pl']> (OrderBook.levels sd b)) i ↔
                if decide (i = Z.of_nat idx) then RingLevel.empty pl' = false
                else nonempty_at (OrderBook.levels sd b) i).
  { intros i. apply nonempty_at_insert. lia. }
  pose proof (is_best_nonempty _ _ _ _ (Hbest sd) Hidx) as (Hb1 & Hb2 & Hb3).
  assert (Hnew : is_best sd (<[idx := pl']> (OrderBook.levels sd b)) x ∧
                 (x = -1 ∨ match sd with
                           | BUY => x ≤ OrderBook.best sd b
                           | SELL => OrderBook.best sd b ≤ x
                           end)).
  { destruct (RingLevel.empty pl') eqn:He.
    - destruct Hx as [[Hbi Hnext]|[Hbi ->]].
      + destruct sd; simpl in *.
        * destruct (Hbest BUY) as [[? _]|[_ Hbeyond]]; [done|]. simpl in Hbeyond.
          destruct Hnext as [[-> Hall]|(Hx1 & Hx2 & Hx3)].
          -- split; [|by left]. left. split; [done|]. intros i Hi.
             destruct (decide (i ≤ Z.of_nat idx)); [by apply (Hall i)|].
             apply Hin in Hi. rewrite decide_False in Hi by lia.
             apply (Hbeyond i); [lia|done].
          -- split; [|right; lia]. right. split; [done|]. intros i Hi Hne.
             destruct (decide (i ≤ Z.of_nat idx)); [apply (Hx3 i); [lia|done]|].
             apply Hin in Hne. rewrite decide_False in Hne by lia.
             apply (Hbeyond i); [lia|done].
        * destruct (Hbest SELL) as [[? _]|[_ Hbeyond]]; [done|]. simpl in Hbeyond.
          destruct Hnext as [[-> Hall]|(Hx1 & Hx2 & Hx3)].
          -- split; [|by left]. left. split; [done|]. intros i Hi.
             destruct (decide (Z.of_nat idx ≤ i)); [by apply (Hall i)|].
             apply Hin in Hi. rewrite decide_False in Hi by lia.
             apply (Hbeyond i); [lia|done].
          -- split; [|right; lia]. right. split; [done|]. intros i Hi Hne.
             destruct (decide (Z.of_nat idx ≤ i)); [apply (Hx3 i); [lia|done]|].
             apply Hin in Hne. rewrite decide_False in Hne by lia.
             apply (Hbeyond i); [lia|done].
      + split; [|right; destruct sd; lia].
        assert (Hkeep : nonempty_at (<[idx := pl']> (OrderBook.levels sd b))
                                    (OrderBook.best sd b)).
        { apply Hin. by rewrite decide_False. }
        destruct sd; simpl in *.
        * destruct (Hbest BUY) as [[? _]|[_ Hbeyond]]; [done|]. simpl in Hbeyond.
          right. split; [done|]. intros i Hi Hne. apply Hin in Hne.
          case_decide; [congruence|]. by apply (Hbeyond i).
        * destruct (Hbest SELL) as [[? _]|[_ Hbeyond]]; [done|]. simpl in Hbeyond.
          right. split; [done|]. intros i Hi Hne. apply Hin in Hne.
          case_decide; [congruence|]. by apply (Hbeyond i).
    - subst x. split; [|right; destruct sd; lia].
      assert (Hkeep : nonempty_at (<[idx := pl']> (OrderBook.levels sd b))
                                  (OrderBook.best sd b)).
      { apply Hin. by case_decide. }
      destruct sd; simpl in *.
      + destruct (Hbest BUY) as [[? _]|[_ Hbeyond]]; [done|]. simpl in Hbeyond.
        right. split; [done|]. intros i Hi Hne. apply Hin in Hne.
        case_decide; [|by apply (Hbeyond i)]. subst i. lia.
      + destruct (Hbest SELL) as [[? _]|[_ Hbeyond]]; [done|]. simpl in Hbeyond.
        right. split; [done|]. intros i Hi Hne. apply Hin in Hne.
        case_decide; [|by apply (Hbeyond i)]. subst i. lia. }
  destruct Hnew as [Hnew Hmono].
  apply best_ok_sides. split.
  - intros sd'. rewrite levels_set_best, levels_set_levels, best_set_best, best_set_levels.
    case_decide; [by subst sd'|apply Hbest].
  - destruct sd; simpl in *; lia.
Qed.

(** ** Admitting a residual *)

Lemma updateBestAfterAdd_eq (sd : Side) (p : Z) (b : OrderBook.t) :
  OrderBook.updateBestAfterAdd sd p b =
  OrderBook.set_best sd
    (match sd with
     | BUY => if decide (OrderBook.bestBid b < p) then p else OrderBook.bestBid b
     | SELL => if decide (OrderBook.bestAsk b = -1 ∨ p < OrderBook.bestAsk b)
               then p else OrderBook.bestAsk b
     end) b.
Proof.
  unfold OrderBook.updateBestAfterAdd. destruct sd; simpl.
  - case_bool_decide; [by rewrite decide_True|rewrite decide_False by done].
    by destruct b.
  - destruct (bool_decide (OrderBook.bestAsk b = -1)) eqn:H1;
      destruct (bool_decide (p < OrderBook.bestAsk b)) eqn:H2; simpl;
      try apply bool_decide_eq_true in H1; try apply bool_decide_eq_true in H2;
      try apply bool_decide_eq_false in H1; try apply bool_decide_eq_false in H2;
      try (rewrite decide_True by tauto; done).
    rewrite decide_False by tauto. by destruct b.
Qed.

(** Level [p] of side [sd] gains an order that does not cross the other
    side, and the cache of [sd] is moved by [updateBestAfterAdd]. *)
Lemma best_ok_add (b : OrderBook.t) (sd : Side) (p : nat) (pl' : RingLevel.t) :
  best_ok b → (p < length (OrderBook.levels sd b))%nat →
  RingLevel.empty pl' = false →
  (∀ i, i ≠ Z.of_nat p → nonempty_at (<[p := pl']> (OrderBook.levels sd b)) i ↔
                         nonempty_at (OrderBook.levels sd b) i) →
  (OrderBook.best (opposite sd) b = -1 ∨
   match sd with
   | BUY => Z.of_nat p < OrderBook.bestAsk b
   | SELL => OrderBook.bestBid b < Z.of_nat p
   end) →
  best_ok (OrderBook.updateBestAfterAdd sd (Z.of_nat p)
             (OrderBook.set_levels sd (<[p := pl']> (OrderBook.levels sd b)) b)).
Proof.
  intros Hok Hp He Hin Hcross. apply best_ok_sides in Hok as [Hbest Hx].
  assert (Hat : nonempty_at (<[p := pl']> (OrderBook.levels sd b)) (Z.of_nat p)).
  { apply nonempty_at_insert; [done|]. by rewrite decide_True. }
  rewrite updateBestAfterAdd_eq. apply best_ok_sides. split.
  - intros sd'. rewrite levels_set_best, levels_set_levels, best_set_best, best_set_levels.
    case_decide as Hsd; [subst sd'|apply Hbest].
    pose proof (Hbest sd) as Hb. destruct sd; simpl in *.
    + case_decide as Hlt.
      * right. split; [done|]. intros i Hi Hne. apply Hin in Hne; [|lia].
        destruct Hb as [[_ Hall]|[_ Hbeyond]]; [by apply (Hall i)|].
        apply (Hbeyond i); [lia|done].
      * destruct Hb as [[? _]|[Hne Hbeyond]]; [lia|]. right. split.
        -- destruct (decide (OrderBook.bestBid b = Z.of_nat p)) as [->|]; [done|].
           by apply Hin.
        -- intros i Hi Hne'. apply Hin in Hne'; [|lia]. by apply (Hbeyond i).
    + case_decide as Hlt.
      * right. split; [done|]. intros i Hi Hne. apply Hin in Hne; [|lia].
        destruct Hb as [[_ Hall]|[Hne' Hbeyond]]; [by apply (Hall i)|].
        pose proof (nonempty_at_range _ _ Hne').
        apply (Hbeyond i); [lia|done].
      * destruct Hb as [[? _]|[Hne Hbeyond]]; [tauto|]. right. split.
        -- destruct (decide (OrderBook.bestAsk b = Z.of_nat p)) as [->|]; [done|].
           by apply Hin.
        -- intros i Hi Hne'. apply Hin in Hne'; [|lia]. by apply (Hbeyond i).
  - destruct sd; simpl in *; repeat case_decide; lia.
Qed.

Lemma nonempty_at_insert_ne (v : list RingLevel.t) (n : nat) (r : RingLevel.t) (i : Z) :
  i ≠ Z.of_nat n → nonempty_at (<[n := r]> v) i ↔ nonempty_at v i.
Proof.
  intros Hi. unfold nonempty_at, vec_get. case_decide; [|done].
  rewrite list_lookup_insert_ne by lia. done.
Qed.

Lemma addPassive_Ok (sd : Side) (taker : Order) (s s' : Engine.t) :
  addPassive sd taker s = Ok tt s' →
  ∃ idx rest lvl lvl',
    reverse (OrderPool.freeList (pool s)) = idx :: rest ∧
    0 ≤ idx < Z.of_nat (length (OrderPool.pool (pool s))) ∧
    level sd (priceIdx taker) s = Some lvl ∧
    RingLevel.push idx (qty taker) lvl = Val lvl' ∧
    pool s' = OrderPool.mk
      (<[Z.to_nat idx := set_active true (set_engineId idx taker)]> (OrderPool.pool (pool s)))
      (reverse rest) ∧
    book s' = OrderBook.updateBestAfterAdd sd (priceIdx taker)
      (OrderBook.set_levels sd
         (<[Z.to_nat (priceIdx taker) := lvl']> (OrderBook.levels sd (book s))) (book s)) ∧
    clientToEngine s' = <[clientId taker := idx]> (clientToEngine s) ∧
    trades s' = trades s ∧ nextClientId s' = nextClientId s.
Proof.
  unfold addPassive, OrderPool.allocate.
  destruct (reverse (OrderPool.freeList (pool s))) as [|idx rest] eqn:Hfl; [done|].
  destruct (vec_set _ _ _) as [v|] eqn:Hv; [|done].
  apply vec_set_Some in Hv as [Hidx ->]. unfold level. simpl.
  destruct (vec_get _ _) as [lvl|] eqn:Hlvl; simpl; [|done].
  destruct (RingLevel.push _ _ _) as [lvl'| |] eqn:Hpush; simpl; try done.
  destruct (put_level _ _ _ _) as [s2|] eqn:Hs2; simpl; [|done].
  apply put_level_Some in Hs2 as [_ ->]. simpl. intros [= <-].
  exists idx, rest, lvl, lvl'. done.
Qed.

Lemma addPassive_Throw (sd : Side) (taker : Order) (s s' : Engine.t) (m : string) :
  addPassive sd taker s = Throw m s' →
  s' = s ∨
  ∃ idx rest,
    reverse (OrderPool.freeList (pool s)) = idx :: rest ∧
    0 ≤ idx < Z.of_nat (length (OrderPool.pool (pool s))) ∧
    s' = set_pool (OrderPool.mk
      (<[Z.to_nat idx := set_active true (set_engineId idx taker)]> (OrderPool.pool (pool s)))
      (reverse rest)) s.
Proof.
  unfold addPassive, OrderPool.allocate.
  destruct (reverse (OrderPool.freeList (pool s))) as [|idx rest] eqn:Hfl.
  { intros [= _ <-]. by left. }
  destruct (vec_set _ _ _) as [v|] eqn:Hv; [|done].
  apply vec_set_Some in Hv as [Hidx ->]. unfold level. simpl.
  destruct (vec_get _ _) as [lvl|] eqn:Hlvl; simpl; [|done].
  destruct (RingLevel.push _ _ _) as [lvl'| |] eqn:Hpush; simpl; try done.
  - destruct (put_level _ _ _ _) as [s2|] eqn:Hs2; simpl; done.
  - intros [= _ <-]. right. by exists idx, rest.
Qed.

Lemma wf_pool_update (s s' : Engine.t) (e : Z) (o' : Order) (fl' : list Z) :
  wf s →
  pool s' = OrderPool.mk (<[Z.to_nat e := o']> (OrderPool.pool (pool s))) fl' →
  book s' = book s →
  0 ≤ e < Z.of_nat (length (OrderPool.pool (pool s))) →
  (∀ sd' i r, OrderBook.levels sd' (book s) !! i = Some r → e ∉ contents r) →
  pool_ok (pool s') →
  wf s'.
Proof.
  intros (Hp & Hsb & Hsa) Hpool Hbook He Hother Hp'.
  assert (Hget : ∀ j, j ≠ e → OrderPool.get (pool s') j = OrderPool.get (pool s) j).
  { intros j Hj. rewrite Hpool, get_insert, decide_False by done. by destruct (pool s). }
  assert (Hside : ∀ sd', side_ok sd' (pool s) (book s) → side_ok sd' (pool s') (book s')).
  { intros sd' (Hlen & Hlv & Hbest). rewrite Hbook. split_and!; [done| |done].
    intros i r Hr. eapply level_ok_agree; [by apply Hlv|]. intros e' He'. apply Hget.
    intros ->. by eapply Hother. }
  split; [done|]. split; by apply Hside.
Qed.

(** The pool after [allocate]. *)
Lemma pool_ok_allocate (p : OrderPool.t) (idx : Z) (rest : list Z) (o' : Order) :
  pool_ok p → reverse (OrderPool.freeList p) = idx :: rest →
  0 ≤ idx < Z.of_nat (length (OrderPool.pool p)) →
  pool_ok (OrderPool.mk (<[Z.to_nat idx := o']> (OrderPool.pool p)) (reverse rest)) ∧
  ∃ o, OrderPool.get p idx = Some o ∧ active o = false.
Proof.
  intros [Hnd Hfl] Hrev Hidx.
  assert (Heq : OrderPool.freeList p = reverse rest ++ [idx]).
  { rewrite <- (reverse_involutive (OrderPool.freeList p)), Hrev. by rewrite reverse_cons. }
  rewrite Heq in Hnd, Hfl. apply NoDup_app in Hnd as (Hnd & Hdisj & _).
  split.
  - split; [done|]. simpl. intros e He. rewrite get_insert by done.
    rewrite decide_False.
    2:{ intros ->. apply (Hdisj idx He). by apply list_elem_of_singleton. }
    destruct (Hfl e) as (o & Ho & Ha); [apply elem_of_app; by left|].
    exists o. split; [|done]. by destruct p.
  - apply Hfl. apply elem_of_app. right. by apply list_elem_of_singleton.
Qed.

Lemma addPassive_wf (sd : Side) (taker : Order) (s s' : Engine.t) :
  wf s → side taker = sd → 0 < qty taker →
  addPassive sd taker s = Ok tt s' → wf s'.
Proof.
  intros Hwf Hsd Hq H.
  apply addPassive_Ok in H
    as (idx & rest & lvl & lvl' & Hrev & Hidx & Hlvl & Hpush & Hpool & Hbook & _).
  pose proof Hwf as (Hp & _ & _).
  destruct (pool_ok_allocate _ _ _ (set_active true (set_engineId idx taker)) Hp Hrev Hidx)
    as (Hp' & o & Ho & Ha).
  pose proof (level_wf _ _ _ _ Hwf Hlvl) as Hlok.
  pose proof (level_ok_total_nonneg _ _ _ _ Hlok) as Hnn.
  destruct Hlok as (Hrwf & Hnd & Hrest & Hsum & Htq).
  pose proof (vec_get_range _ _ _ Hlvl) as Hprange.
  pose proof (side_ok_length sd s Hwf) as Hlen.
  apply push_Val in Hpush as (Hrwf' & _ & Htot' & Hrange & Hc'); [|done].
  pose proof (elsewhere_inactive s idx o Hwf Ho Ha) as Hnowhere.
  rewrite updateBestAfterAdd_eq in Hbook.
  rewrite <- (set_levels_twice sd (OrderBook.levels sd (book s))) in Hbook.
  assert (Hget : ∀ j, j ≠ idx → OrderPool.get (pool s') j = OrderPool.get (pool s) j).
  { intros j Hj. rewrite Hpool, get_insert, decide_False by done. by destruct (pool s). }
  eapply (wf_update s s' sd (Z.to_nat (priceIdx taker)) lvl' idx);
    [done|exact Hpool| |done| | | |].
  - rewrite Hbook, set_levels_twice. reflexivity.
  - intros sd' i r Hr _. by eapply Hnowhere.
  - by rewrite Hpool.
  - split_and!; [done| | | |lia].
    + rewrite Hc'. apply NoDup_app. split_and!; [done| |apply NoDup_singleton].
      intros y Hy ->%list_elem_of_singleton. apply vec_get_Some in Hlvl as [_ Hlvl].
      by eapply Hnowhere.
    + intros y Hy. rewrite Hc' in Hy. apply elem_of_app in Hy as [Hy|Hy].
      * eapply resting_agree; [|by apply Hrest]. apply Hget. intros ->.
        apply vec_get_Some in Hlvl as [_ Hlvl]. by eapply Hnowhere.
      * apply list_elem_of_singleton in Hy as ->.
        eexists. split; [rewrite Hpool, get_insert, decide_True by done; done|].
        destruct taker; simpl in *. split_and!; try done; lia.
    + rewrite Htot', Hsum. unfold level_sum. rewrite Hc'.
      unfold sum_qty. rewrite fmap_app, foldr_app. simpl.
      assert (Hq' : qty_at (pool s') idx = qty taker).
      { unfold qty_at. rewrite Hpool, get_insert, decide_True by done. by destruct taker. }
      rewrite Hq'.
      assert (Hfold : ∀ l a, foldr Z.add a l = foldr Z.add 0 l + a).
      { clear. induction l as [|x l IH]; intros a; simpl; [lia|]. rewrite IH. lia. }
      rewrite (Hfold _ (qty taker + 0)). fold (sum_qty (pool s') (contents lvl)).
      fold (sum_qty (pool s) (contents lvl)).
      rewrite (sum_qty_agree (pool s) (pool s')); [lia|].
      intros y Hy. apply Hget. intros ->.
      apply vec_get_Some in Hlvl as [_ Hlvl]. by eapply Hnowhere.
  - rewrite best_set_levels || idtac. destruct Hwf as (_ & Hsb & Hsa).
    destruct sd; simpl.
    + destruct Hsb as (_ & _ & Hb). rewrite !nlevels_set_levels || idtac.
      simpl in *. case_decide; lia.
    + destruct Hsa as (_ & _ & Hb). simpl in *. case_decide; lia.
Qed.

(** ** The matching sweeps *)

Lemma is_best_at (sd : Side) (v : list RingLevel.t) (x : Z) :
  is_best sd v x → x ≠ -1 → nonempty_at v x.
Proof. destruct sd; simpl; intros [[-> _]|[? _]]; done. Qed.

Lemma matchStep_best_ok (clock : nat → Z) (opp : Side) (taker taker' : Order)
    (s s' : Engine.t) :
  wf s → best_ok (book s) → OrderBook.best opp (book s) ≠ -1 →
  matchStep clock opp taker s = Ok taker' s' → best_ok (book s').
Proof.
  intros Hwf Hok Hb H.
  apply matchStep_Ok in H as (pl & Hpl & H); [|done].
  pose proof (proj1 (proj1 (best_ok_sides _) Hok) opp) as Hbest.
  pose proof (is_best_at _ _ _ Hbest Hb) as Hne.
  pose proof (nonempty_at_range _ _ Hne) as Hrange.
  destruct H as [(He & _)|(He & e & rest & maker & pl' & x & H)].
  - destruct Hne as (r & Hr & Her). unfold level in Hpl. congruence.
  - destruct H as (_ & _ & _ & _ & _ & _ & _ & _ & Hbook & _ & _ & _ & Hx & _).
    eapply (best_ok_shrink (book s) (book s') opp (Z.to_nat (OrderBook.best opp (book s)))
                           pl' x); [done| |exact Hbook|].
    + by rewrite Z2Nat.id by lia.
    + rewrite Z2Nat.id by lia. destruct (RingLevel.empty pl'); [|done]. by left.
Qed.

Lemma pop_front_not_Exn (q : Z) (r : RingLevel.t) (m : string) :
  RingLevel.empty r = false → RingLevel.pop_front q r ≠ Exn m.
Proof.
  intros He. unfold RingLevel.pop_front. rewrite He.
  destruct (vec_set (RingLevel.data r) (RingLevel.head r) UINT64_MAX); [|done].
  by destruct (i64 (RingLevel.totalQty r - q)).
Qed.

Lemma matchStep_no_throw (clock : nat → Z) (opp : Side) (taker : Order)
    (s s' : Engine.t) (m : string) :
  matchStep clock opp taker s ≠ Throw m s'.
Proof.
  unfold matchStep. intros H.
  repeat match type of H with
  | ubind ?o _ = _ => destruct o; simpl in H; [|discriminate H]
  | (if ?b then _ else _) = _ => destruct b eqn:?; simpl in H
  | match ?o with _ => _ end = _ =>
      let E := fresh "E" in destruct o eqn:E; simpl in H;
      [|by apply pop_front_not_Exn in E|discriminate H]
  | Ok _ _ = _ => discriminate H
  end.
Qed.

Lemma matchStep_taker (clock : nat → Z) (opp : Side) (taker taker' : Order)
    (s s' : Engine.t) :
  matchStep clock opp taker s = Ok taker' s' → taker' = set_qty (qty taker') taker.
Proof.
  unfold matchStep. intros H.
  repeat match type of H with
  | ubind ?o _ = _ => destruct o; simpl in H; [|discriminate H]
  | (if ?b then _ else _) = _ => destruct b eqn:?; simpl in H
  | match ?o with _ => _ end = _ => destruct o; simpl in H; try discriminate H
  | Ok _ _ = Ok _ _ => injection H as <- <-
  end; by destruct taker.
Qed.

Lemma guard_true (priced : bool) (opp : Side) (taker : Order) (s : Engine.t) :
  guard priced opp taker s = true →
  0 < qty taker ∧ OrderBook.best opp (book s) ≠ -1.
Proof.
  unfold guard. intros [[H1 H2]%andb_true_iff _]%andb_true_iff.
  apply bool_decide_eq_true in H1. apply bool_decide_eq_true in H2. done.
Qed.

Lemma sweep_Ok (clock : nat → Z) (fuel : nat) (priced : bool) (opp : Side)
    (taker taker' : Order) (s s' : Engine.t) :
  wf s → best_ok (book s) →
  sweep clock fuel priced opp taker s = Ok taker' s' →
  wf s' ∧ best_ok (book s') ∧ guard priced opp taker' s' = false ∧
  taker' = set_qty (qty taker') taker.
Proof.
  revert taker s. induction fuel as [|fuel IH]; intros taker s Hwf Hok; simpl.
  - destruct (guard priced opp taker s) eqn:Hg; [done|].
    intros [= <- <-]. split_and!; try done. by destruct taker.
  - destruct (guard priced opp taker s) eqn:Hg.
    2:{ intros [= <- <-]. split_and!; try done. by destruct taker. }
    apply guard_true in Hg as [Hq Hb].
    destruct (matchStep clock opp taker s) as [t1 s1| | |] eqn:Hstep; simpl; try done.
    intros H.
    assert (Hq0 : 0 ≤ qty taker) by lia.
    pose proof (matchStep_wf _ _ _ _ _ _ Hwf Hq0 Hstep) as Hwf1.
    pose proof (matchStep_best_ok _ _ _ _ _ _ Hwf Hok Hb Hstep) as Hok1.
    pose proof (matchStep_taker _ _ _ _ _ _ Hstep) as Ht1.
    destruct (IH t1 s1 Hwf1 Hok1 H) as (? & ? & ? & Ht').
    split_and!; try done. rewrite Ht', Ht1. by destruct taker.
Qed.

Lemma sweep_no_throw (clock : nat → Z) (fuel : nat) (priced : bool) (opp : Side)
    (taker : Order) (s s' : Engine.t) (m : string) :
  sweep clock fuel priced opp taker s ≠ Throw m s'.
Proof.
  revert taker s. induction fuel as [|fuel IH]; intros taker s; simpl.
  - by destruct (guard priced opp taker s).
  - destruct (guard priced opp taker s); [|done].
    destruct (matchStep clock opp taker s) as [t1 s1|m1 s1| |] eqn:Hstep; simpl; try done.
    by apply matchStep_no_throw in Hstep.
Qed.

Lemma addPassive_best_ok (sd : Side) (taker : Order) (s s' : Engine.t) :
  wf s → best_ok (book s) →
  (OrderBook.best (opposite sd) (book s) = -1 ∨
   match sd with
   | BUY => priceIdx taker < OrderBook.bestAsk (book s)
   | SELL => OrderBook.bestBid (book s) < priceIdx taker
   end) →
  addPassive sd taker s = Ok tt s' → best_ok (book s').
Proof.
  intros Hwf Hok Hcross H.
  apply addPassive_Ok in H
    as (idx & rest & lvl & lvl' & Hrev & Hidx & Hlvl & Hpush & Hpool & Hbook & _).
  pose proof (level_wf _ _ _ _ Hwf Hlvl) as (Hrwf & _).
  pose proof (vec_get_range _ _ _ Hlvl) as Hprange.
  apply push_Val in Hpush as (Hrwf' & _ & _ & _ & Hc'); [|done].
  rewrite Hbook. rewrite <- (Z2Nat.id (priceIdx taker)) at 1 by lia.
  apply best_ok_add; [done|lia| | |].
  - destruct (RingLevel.empty lvl') eqn:He; [|done].
    apply contents_empty in He; [|done]. rewrite Hc' in He.
    by destruct (contents lvl).
  - intros i Hi. by apply nonempty_at_insert_ne.
  - rewrite Z2Nat.id by lia. done.
Qed.

Lemma guard_false_cross (sd : Side) (taker : Order) (s : Engine.t) :
  guard true (opposite sd) taker s = false → 0 < qty taker →
  OrderBook.best (opposite sd) (book s) = -1 ∨
  match sd with
  | BUY => priceIdx taker < OrderBook.bestAsk (book s)
  | SELL => OrderBook.bestBid (book s) < priceIdx taker
  end.
Proof.
  unfold guard. intros Hg Hq. rewrite bool_decide_eq_true_2 in Hg by done.
  simpl in Hg. destruct (decide (OrderBook.best (opposite sd) (book s) = -1)); [by left|].
  rewrite bool_decide_eq_true_2 in Hg by done. simpl in Hg. right.
  destruct sd; simpl in *; apply bool_decide_eq_false in Hg; lia.
Qed.

Lemma matchAndAdd_keeps (clock : nat → Z) (fuel : nat) (taker : Order) (s : Engine.t) :
  wf s → best_ok (book s) →
  match matchAndAdd clock fuel taker s with
  | Ok _ s' | Throw _ s' => wf s' ∧ best_ok (book s')
  | _ => True
  end.
Proof.
  intros Hwf Hok. unfold matchAndAdd.
  assert (Hgen : ∀ sd, side taker = sd →
    match obind (sweep clock fuel true (opposite sd) taker s) (λ taker' s',
            if bool_decide (0 < qty taker') && bool_decide (type taker' = LIMIT)
            then addPassive sd taker' s' else Ok tt s')
    with
    | Ok _ s' | Throw _ s' => wf s' ∧ best_ok (book s')
    | _ => True
    end).
  { intros sd Hsd.
    destruct (sweep clock fuel true (opposite sd) taker s) as [t1 s1|m s1| |] eqn:Hsw;
      simpl; try done.
    2:{ by apply sweep_no_throw in Hsw. }
    apply sweep_Ok in Hsw as (Hwf1 & Hok1 & Hg & Ht1); [|done|done].
    destruct (bool_decide (0 < qty t1)) eqn:Hq; simpl; [|done].
    apply bool_decide_eq_true in Hq.
    destruct (bool_decide (type t1 = LIMIT)); simpl; [|done].
    assert (Hsd1 : side t1 = sd) by (rewrite Ht1; by destruct taker).
    destruct (addPassive sd t1 s1) as [[] s2|m s2| |] eqn:Hadd; try done.
    - split; [by eapply addPassive_wf|].
      eapply addPassive_best_ok; [done|done| |done]. by apply guard_false_cross.
    - apply addPassive_Throw in Hadd as [->|(idx & rest & Hrev & Hidx & ->)]; [done|].
      split; [|done]. pose proof Hwf1 as (Hp1 & _ & _).
      destruct (pool_ok_allocate _ _ _ (set_active true (set_engineId idx t1)) Hp1 Hrev Hidx)
        as (Hp' & o & Ho & Ha).
      eapply wf_pool_update; [exact Hwf1|done|done|done| |done].
      intros sd' i r Hr. by eapply elsewhere_inactive. }
  destruct (side taker) eqn:Hsd; [apply (Hgen BUY)|apply (Hgen SELL)]; done.
Qed.

Lemma matchMarket_keeps (clock : nat → Z) (fuel : nat) (taker : Order) (s : Engine.t) :
  wf s → best_ok (book s) →
  match matchMarket clock fuel taker s with
  | Ok _ s' | Throw _ s' => wf s' ∧ best_ok (book s')
  | _ => True
  end.
Proof.
  intros Hwf Hok. unfold matchMarket.
  destruct (side taker).
  - destruct (sweep clock fuel false SELL taker s) as [t1 s1|m s1| |] eqn:Hsw;
      simpl; try done.
    + by apply sweep_Ok in Hsw as (? & ? & _).
    + by apply sweep_no_throw in Hsw.
  - destruct (sweep clock fuel false BUY taker s) as [t1 s1|m s1| |] eqn:Hsw;
      simpl; try done.
    + by apply sweep_Ok in Hsw as (? & ? & _).
    + by apply sweep_no_throw in Hsw.
Qed.

(** ** Cancel and replace *)

Lemma set_best_same (sd : Side) (b : OrderBook.t) :
  OrderBook.set_best sd (OrderBook.best sd b) b = b.
Proof. by destruct sd, b. Qed.

Lemma updateBestAfterRemove_Some (sd : Side) (idx : Z) (b b' : OrderBook.t) :
  Z.of_nat (length (OrderBook.levels sd b)) = OrderBook.nlevels b →
  OrderBook.updateBestAfterRemove sd idx b = Some b' →
  ∃ x, b' = OrderBook.set_best sd x b ∧
       ((OrderBook.best sd b = idx ∧ next_best sd (OrderBook.levels sd b) idx x) ∨
        (OrderBook.best sd b ≠ idx ∧ x = OrderBook.best sd b)).
Proof.
  intros Hlen H. destruct (decide (OrderBook.best sd b = idx)) as [Hb|Hb].
  - apply updateBestAfterRemove_at in H as (x & -> & Hx); [|done|done].
    exists x. split; [done|]. by left.
  - exists (OrderBook.best sd b). rewrite set_best_same. split; [|by right].
    unfold OrderBook.updateBestAfterRemove in H.
    destruct sd; simpl in *; rewrite bool_decide_eq_true_2 in H by done; congruence.
Qed.

Lemma NoDup_delete_at {A : Type} (l : list A) (k : nat) (e : A) :
  NoDup l → l !! k = Some e →
  NoDup (delete k l) ∧ (e ∉ delete k l) ∧ ∀ y, y ∈ delete k l → y ∈ l ∧ y ≠ e.
Proof.
  intros Hnd Hk. rewrite delete_take_drop.
  rewrite <- (take_drop_middle l k e Hk) in Hnd.
  apply NoDup_app in Hnd as (Hnd1 & Hdisj & Hnd2).
  apply NoDup_cons in Hnd2 as [Hnin Hnd2].
  assert (He1 : e ∉ take k l).
  { intros Hin. apply (Hdisj e Hin). by left. }
  split_and!.
  - apply NoDup_app. split_and!; [done| |done].
    intros y Hy Hy'. apply (Hdisj y Hy). by right.
  - intros [?|?]%elem_of_app; done.
  - intros y Hy. split.
    + rewrite <- (take_drop_middle l k e Hk). apply elem_of_app.
      apply elem_of_app in Hy as [Hy|Hy]; [by left|]. right. by right.
    + intros ->. apply elem_of_app in Hy as [Hy|Hy]; done.
Qed.

Lemma pool_ok_free (p : OrderPool.t) (e : Z) (o : Order) :
  pool_ok p → OrderPool.get p e = Some o → active o = true →
  pool_ok (OrderPool.mk (<[Z.to_nat e := set_qty 0 (set_active false o)]> (OrderPool.pool p))
                        (OrderPool.freeList p ++ [e])).
Proof.
  intros Hp Hg Ha. pose proof (pool_ok_active _ _ _ Hp Hg Ha) as Hnin.
  pose proof (vec_get_range _ _ _ Hg) as Hr. destruct Hp as [Hnd Hfl]. split; simpl.
  - apply NoDup_app. split_and!; [done| |apply NoDup_singleton].
    by intros y Hy ->%list_elem_of_singleton.
  - intros y Hy. rewrite get_insert by done. case_decide as Hye.
    + eexists. split; [done|]. by destruct o.
    + apply elem_of_app in Hy as [Hy|Hy%list_elem_of_singleton]; [|done].
      destruct (Hfl y Hy) as (o' & Ho' & Ha'). exists o'. split; [|done]. by destruct p.
Qed.

Lemma wf_set_clientToEngine (m : gmap Z Z) (s : Engine.t) :
  wf (set_clientToEngine m s) ↔ wf s.
Proof. done. Qed.

Opaque findPos shiftBack.

Lemma cancel_keeps (cid : Z) (s : Engine.t) :
  wf s → best_ok (book s) →
  match cancel cid s with
  | Ok _ s' | Throw _ s' => wf s' ∧ best_ok (book s')
  | _ => True
  end.
Proof.
  intros Hwf Hok. unfold cancel.
  destruct (clientToEngine s !! cid) as [eid|]; [|done].
  destruct (OrderPool.get (pool s) eid) as [o|] eqn:Ho; simpl; [|done].
  destruct (active o) eqn:Ha; simpl; [|done].
  destruct (level (side o) (priceIdx o) s) as [lvl|] eqn:Hlvl; simpl; [|done].
  pose proof (level_wf _ _ _ _ Hwf Hlvl) as Hlok.
  pose proof Hlok as (Hrwf & Hnd & Hrest & Hsum & Htq).
  pose proof (vec_get_range _ _ _ Hlvl) as Hprange.
  pose proof (vec_get_range _ _ _ Ho) as Herange.
  pose proof (count_range lvl Hrwf) as Hcr.
  pose proof (side_ok_length (side o) s Hwf) as Hlen.
  pose proof Hwf as (Hp & _ & _).
  destruct (findPos_from lvl eid Hrwf (Z.to_nat (count lvl)) 0 (S (length (RingLevel.data lvl))))
    as [(k & Hk & Hfind & Hat & _)|[Hfind Hnin]].
  { lia. }
  { unfold RingLevel.size in Hcr. lia. }
  { intros j ?. lia. }
  - (* found at position k of the queue *)
    simpl in Hfind. rewrite slot_0 in Hfind by done. rewrite Hfind.
    rewrite last_slot by (done || lia).
    destruct (shiftBack_from lvl Hrwf (Z.to_nat (count lvl - 1 - Z.of_nat k)) k
                (S (length (RingLevel.data lvl))) (RingLevel.data lvl))
      as (d' & Hshift & Hlen' & Hsh & Hfr).
    { done. }
    { lia. }
    { unfold RingLevel.size in Hcr. lia. }
    rewrite Hshift.
    destruct (i64 (RingLevel.totalQty lvl - qty o)) as [tq|] eqn:Htq'; simpl; [|done].
    apply i64_Some in Htq' as [-> Htq'].
    set (lvl' := RingLevel.mk d' (RingLevel.head lvl) (slot lvl (count lvl - 1))
                              (RingLevel.totalQty lvl - qty o)).
    destruct (remove_contents lvl d' k (RingLevel.totalQty lvl - qty o) Hrwf Hk Hlen' Hsh Hfr)
      as (Hrwf' & Hsz' & Hc').
    fold lvl' in Hrwf', Hsz', Hc'.
    destruct (put_level (side o) (priceIdx o) lvl' s) as [s1|] eqn:Hs1; simpl; [|done].
    apply put_level_Some in Hs1 as [_ ->]. simpl.
    destruct (OrderPool.free eid (pool s)) as [p|] eqn:Hfree; simpl; [|done].
    rewrite (free_get_eq _ _ _ _ Hfree Ho). simpl.
    apply free_Some in Hfree as (o2 & Ho2 & ->). assert (o2 = o) as -> by congruence.
    destruct (refreshBest _ _ _ _) as [s3|] eqn:Hs3; simpl; [|done].
    unfold refreshBest in Hs3. simpl in Hs3.
    assert (Hbook : ∃ x, book s3 = OrderBook.set_best (side o) x
               (OrderBook.set_levels (side o)
                  (<[Z.to_nat (priceIdx o) := lvl']> (OrderBook.levels (side o) (book s)))
                  (book s)) ∧
             pool s3 = OrderPool.mk
               (<[Z.to_nat eid := set_qty 0 (set_active false o)]> (OrderPool.pool (pool s)))
               (OrderPool.freeList (pool s) ++ [eid]) ∧
             (x = -1 ∨ 0 ≤ x < OrderBook.nlevels (book s)) ∧
             (if RingLevel.empty lvl'
              then (OrderBook.best (side o) (book s) = Z.of_nat (Z.to_nat (priceIdx o)) ∧
                    next_best (side o)
                      (<[Z.to_nat (priceIdx o) := lvl']> (OrderBook.levels (side o) (book s)))
                      (Z.of_nat (Z.to_nat (priceIdx o))) x) ∨
                   (OrderBook.best (side o) (book s) ≠ Z.of_nat (Z.to_nat (priceIdx o)) ∧
                    x = OrderBook.best (side o) (book s))
              else x = OrderBook.best (side o) (book s))).
    { assert (Hbr : OrderBook.best (side o) (book s) = -1 ∨
                    0 ≤ OrderBook.best (side o) (book s) < OrderBook.nlevels (book s)).
      { destruct Hwf as (_ & Hsb & Hsa). destruct (side o); [apply Hsb|apply Hsa]. }
      rewrite Z2Nat.id by lia.
      destruct (RingLevel.empty lvl') eqn:He.
      - destruct (OrderBook.updateBestAfterRemove _ _ _) as [bk|] eqn:Hu; simpl in Hs3; [|done].
        injection Hs3 as <-. simpl.
        apply updateBestAfterRemove_Some in Hu as (x & -> & Hx).
        2:{ rewrite levels_set_levels, decide_True, nlevels_set_levels, length_insert by done.
            done. }
        rewrite best_set_levels, levels_set_levels, decide_True in Hx by done.
        exists x. split_and!; [done|done| |done].
        destruct Hx as [[_ Hx%next_best_range]|[_ ->]]; [|done].
        rewrite length_insert in Hx. lia.
      - injection Hs3 as <-. simpl. exists (OrderBook.best (side o) (book s)).
        split_and!; [|done|done|done].
        rewrite <- (best_set_levels (side o) (side o)
                      (<[Z.to_nat (priceIdx o) := lvl']> (OrderBook.levels (side o) (book s)))).
        by rewrite set_best_same. }
    destruct Hbook as (x & Hbook & Hpool & Hxr & Hx).
    assert (Hre : resting (pool s) (side o) (Z.of_nat (Z.to_nat (priceIdx o))) eid).
    { apply Hrest. by eapply list_elem_of_lookup_2. }
    destruct (NoDup_delete_at _ _ _ Hnd Hat) as (Hnd' & Hnin' & Hsub).
    assert (Hget : ∀ j, j ≠ eid → OrderPool.get (pool s3) j = OrderPool.get (pool s) j).
    { intros j Hj. rewrite Hpool, get_insert, decide_False by done. by destruct (pool s). }
    split.
    + eapply (wf_update s s3 (side o) (Z.to_nat (priceIdx o)) lvl' eid x);
        [done|exact Hpool|exact Hbook|done|by apply elsewhere_resting| | |done].
      * rewrite Hpool. by apply pool_ok_free.
      * split_and!; [done|by rewrite Hc'| | |subst lvl'; cbn [RingLevel.totalQty]; lia].
        -- intros y Hy. rewrite Hc' in Hy. destruct (Hsub y Hy) as [Hy1 Hy2].
           eapply resting_agree; [by apply Hget|by apply Hrest].
        -- cbn [RingLevel.totalQty lvl']. rewrite Hsum. unfold level_sum.
           rewrite (sum_qty_delete _ _ _ _ Hat), Hc'.
           rewrite (sum_qty_agree (pool s) (pool s3)).
           2:{ intros y Hy. apply Hget. by destruct (Hsub y Hy). }
           unfold qty_at at 1. rewrite Ho. simpl. lia.
    + eapply (best_ok_shrink (book s) (book s3) (side o) (Z.to_nat (priceIdx o)) lvl' x);
        [done| |exact Hbook|exact Hx].
      exists lvl. split; [by rewrite Z2Nat.id by lia|].
      destruct (RingLevel.empty lvl) eqn:He; [|done].
      apply contents_empty in He; [|done]. rewrite He in Hat. done.
  - (* not in the ring *)
    simpl in Hfind. rewrite slot_0 in Hfind by done. rewrite Hfind.
    destruct (OrderPool.free eid (pool s)) as [p|] eqn:Hfree; simpl; [|done].
    apply free_Some in Hfree as (o2 & Ho2 & ->). assert (o2 = o) as -> by congruence.
    split; [|done].
    eapply (wf_pool_update s _ eid); [done|reflexivity|done|done| |by apply pool_ok_free].
    intros sd' i r Hr Hin.
    assert (level_ok (pool s) sd' i r) as (_ & _ & Hrest' & _).
    { destruct Hwf as (_ & Hsb & Hsa). destruct sd'; [by apply Hsb|by apply Hsa]. }
    destruct (Hrest' eid Hin) as (o' & Ho' & _ & Hsd & Hpr & _).
    assert (o' = o) as -> by congruence. subst sd'.
    apply vec_get_Some in Hlvl as [_ Hlvl]. rewrite Hpr, Nat2Z.id in Hlvl.
    assert (r = lvl) as -> by congruence. done.
Qed.

Transparent findPos shiftBack.

Lemma cancel_no_throw (cid : Z) (s s' : Engine.t) (m : string) :
  cancel cid s ≠ Throw m s'.
Proof.
  unfold cancel. intros H.
  repeat match type of H with
  | ubind ?o _ = _ => destruct o; simpl in H; [|discriminate H]
  | (if ?b then _ else _) = _ => destruct b eqn:?; simpl in H
  | match ?o with _ => _ end = _ => destruct o; simpl in H; try discriminate H
  | Ok _ _ = _ => discriminate H
  end.
Qed.

(** ** Every reachable state is well formed *)

Lemma new_ring (ringcap : Z) :
  0 < ringcap < 2 ^ 63 →
  ring_wf (RingLevel.new ringcap) ∧ contents (RingLevel.new ringcap) = [] ∧
  RingLevel.empty (RingLevel.new ringcap) = true.
Proof.
  intros Hc.
  assert (Hwf : ring_wf (RingLevel.new ringcap)).
  { unfold ring_wf, RingLevel.size, RingLevel.new. simpl.
    rewrite length_replicate. lia. }
  split; [done|]. split; [|done]. by apply contents_empty.
Qed.

Lemma new_wf (cap levels ringcap : Z) :
  0 ≤ levels → 0 < ringcap < 2 ^ 63 →
  wf (Engine.new cap levels ringcap) ∧ best_ok (book (Engine.new cap levels ringcap)).
Proof.
  intros Hl Hc. destruct (new_ring ringcap Hc) as (Hrwf & Hcont & Hemp).
  assert (Hlv : ∀ (i : nat) r,
            replicate (Z.to_nat levels) (RingLevel.new ringcap) !! i = Some r →
            r = RingLevel.new ringcap).
  { intros i r [-> _]%lookup_replicate. done. }
  assert (Hside : ∀ sd, side_ok sd (pool (Engine.new cap levels ringcap))
                                (book (Engine.new cap levels ringcap))).
  { intros sd. split_and!.
    - destruct sd; simpl; rewrite length_replicate; lia.
    - intros i r Hr. assert (r = RingLevel.new ringcap) as ->.
      { destruct sd; simpl in Hr; by eapply Hlv. }
      split_and!; [done|rewrite Hcont; constructor| |by unfold level_sum; rewrite Hcont|done].
      intros e He. rewrite Hcont in He. by apply elem_of_nil in He.
    - left. by destruct sd. }
  split.
  - split_and!; [|apply Hside|apply Hside]. split; simpl.
    + apply NoDup_fmap_2; [|apply NoDup_seq]. intros i j ?. lia.
    + intros e (i & -> & Hi%elem_of_seq)%list_elem_of_fmap.
      exists Order_default. split; [|done]. unfold OrderPool.get. simpl.
      apply vec_get_Some. split; [lia|]. apply lookup_replicate. split; [done|lia].
  - assert (Hall : all_empty (replicate (Z.to_nat levels) (RingLevel.new ringcap))).
    { intros i (r & [_ Hr]%vec_get_Some & He). apply Hlv in Hr as ->. congruence. }
    split_and!; simpl; [by left|by left|done].
Qed.

Lemma run_keeps (clock : nat → Z) (fuel : nat) (o : op) (s : Engine.t) :
  wf s → best_ok (book s) →
  match run clock fuel o s with
  | Ok _ s' | Throw _ s' => wf s' ∧ best_ok (book s')
  | _ => True
  end.
Proof.
  intros Hwf Hok. destruct o as [cid sd pidx q now tf|cid sd q now|cid|cid p q now]; simpl.
  - by apply matchAndAdd_keeps.
  - by apply matchMarket_keeps.
  - pose proof (cancel_keeps cid s Hwf Hok). by destruct (cancel cid s).
  - unfold replace.
    destruct (clientToEngine s !! cid) as [eid|]; simpl; [|done].
    destruct (OrderPool.get (pool s) eid) as [old|]; simpl; [|done].
    destruct (active old); simpl; [|done].
    pose proof (cancel_keeps cid s Hwf Hok) as Hc.
    destruct (cancel cid s) as [b s1|m s1| |] eqn:Hcancel; simpl; try done.
    destruct Hc as [Hwf1 Hok1].
    destruct (OrderPool.get (pool s1) eid) as [old'|]; simpl; [|done].
    pose proof (matchAndAdd_keeps clock fuel
      (set_tif (tif old') (set_ts (u64 now) (set_qty q (set_priceIdx p (set_type LIMIT
         (set_side (side old') (set_clientId cid Order_default))))))) s1 Hwf1 Hok1) as Hm.
    unfold placeLimit.
    by destruct (matchAndAdd _ _ _ _).
Qed.

Lemma reachable_wf (clock : nat → Z) (s : Engine.t) :
  reachable clock s → wf s ∧ best_ok (book s).
Proof.
  induction 1 as [cap levels ringcap Hl Hc|fuel o s s' _ [Hwf Hok] Hrun
                 |fuel o s s' m _ [Hwf Hok] Hrun].
  - by apply new_wf.
  - pose proof (run_keeps clock fuel o s Hwf Hok) as H. by rewrite Hrun in H.
  - pose proof (run_keeps clock fuel o s Hwf Hok) as H. by rewrite Hrun in H.
Qed.

(** C5. After every completed public operation, [bestBid] is the maximum
    index of a non-empty bids level (-1 if there is none), [bestAsk] the
    minimum index of a non-empty asks level (-1 if there is none), and when
    both are set [bestBid < bestAsk]. *)
Theorem best_caches_after_operation (clock : nat → Z) (fuel : nat) (o : op)
    (s s' : Engine.t) :
  reachable clock s → run clock fuel o s = Ok tt s' →
  is_best_bid (OrderBook.bids (book s')) (OrderBook.bestBid (book s')) ∧
  is_best_ask (OrderBook.asks (book s')) (OrderBook.bestAsk (book s')) ∧
  (OrderBook.bestBid (book s') ≠ -1 → OrderBook.bestAsk (book s') ≠ -1 →
   OrderBook.bestBid (book s') < OrderBook.bestAsk (book s')).
Proof.
  intros Hr Hrun.
  destruct (reachable_wf clock s' (reach_return clock fuel o s s' Hr Hrun)) as [_ Hok].
  exact Hok.
Qed.

(** C6. After every completed public operation, the aggregate quantity of
    every price level equals the sum of the remaining quantities of the
    orders its ring holds. *)
Theorem aggregate_after_operation (clock : nat → Z) (fuel : nat) (o : op)
    (s s' : Engine.t) (sd : Side) (i : nat) (r : RingLevel.t) :
  reachable clock s → run clock fuel o s = Ok tt s' →
  OrderBook.levels sd (book s') !! i = Some r →
  RingLevel.totalQty r = sum_qty (pool s') (contents r).
Proof.
  intros Hr Hrun Hl.
  destruct (reachable_wf clock s' (reach_return clock fuel o s s' Hr Hrun))
    as [(_ & Hsb & Hsa) _].
  assert (level_ok (pool s') sd i r) as (_ & _ & _ & Hsum & _).
  { destruct sd; [by apply Hsb|by apply Hsa]. }
  exact Hsum.
Qed.

Lemma small_engine_reachable : reachable clock0 small_engine.
Proof. apply reach_new; lia. Qed.

Lemma best_caches_after_operation_witness :
  ∃ s', run clock0 1 (PlaceLimit 1 BUY 5 2 0 GFD) small_engine = Ok tt s' ∧
    is_best_bid (OrderBook.bids (book s')) (OrderBook.bestBid (book s')) ∧
    is_best_ask (OrderBook.asks (book s')) (OrderBook.bestAsk (book s')) ∧
    (OrderBook.bestBid (book s') ≠ -1 → OrderBook.bestAsk (book s') ≠ -1 →
     OrderBook.bestBid (book s') < OrderBook.bestAsk (book s')).
Proof.
  eexists.
  match goal with
  | |- run ?c ?f ?o ?s = Ok tt ?s' ∧ _ =>
      assert (H : run c f o s = Ok tt s') by (vm_compute; reflexivity);
      split; [exact H|exact (best_caches_after_operation c f o s s' small_engine_reachable H)]
  end.
Defined.

Lemma aggregate_after_operation_witness :
  ∃ s' r, run clock0 1 (PlaceLimit 1 BUY 5 2 0 GFD) small_engine = Ok tt s' ∧
    OrderBook.levels BUY (book s') !! 5%nat = Some r ∧
    RingLevel.totalQty r = sum_qty (pool s') (contents r).
Proof.
  eexists. eexists.
  match goal with
  | |- run ?c ?f ?o ?s = Ok tt ?s' ∧ ?l !! ?i = Some ?r ∧ _ =>
      assert (H : run c f o s = Ok tt s') by (vm_compute; reflexivity);
      assert (H' : OrderBook.levels BUY (book s') !! i = Some r) by (vm_compute; reflexivity);
      split; [exact H|split; [exact H'|]];
      exact (aggregate_after_operation c f o s s' BUY i r small_engine_reachable H H')
  end.
Defined.

(** ** The sweeps terminate *)

Lemma sum_insert (l : list Z) (i : nat) (a b : Z) :
  l !! i = Some a → foldr Z.add 0 (<[i := b]> l) = foldr Z.add 0 l - a + b.
Proof.
  revert i. induction l as [|x l IH]; intros i Hi; [done|].
  destruct i as [|i]; simpl in *.
  - injection Hi as ->. lia.
  - rewrite (IH i Hi). lia.
Qed.

Lemma sum_nonneg (l : list Z) : (∀ x, x ∈ l → 0 ≤ x) → 0 ≤ foldr Z.add 0 l.
Proof.
  induction l as [|x l IH]; intros H; simpl; [done|].
  pose proof (H x ltac:(left)). pose proof (IH ltac:(intros y Hy; apply H; by right)). lia.
Qed.

Lemma resting_count_nonneg (sd : Side) (s : Engine.t) : 0 ≤ resting_count sd s.
Proof.
  unfold resting_count. apply sum_nonneg.
  intros x (r & -> & _)%list_elem_of_fmap. lia.
Qed.

Lemma resting_count_insert (sd : Side) (s s' : Engine.t) (i : nat) (r r' : RingLevel.t) :
  OrderBook.levels sd (book s) !! i = Some r →
  OrderBook.levels sd (book s') = <[i := r']> (OrderBook.levels sd (book s)) →
  resting_count sd s' =
  resting_count sd s - Z.of_nat (length (contents r)) + Z.of_nat (length (contents r')).
Proof.
  intros Hr Hl. unfold resting_count. rewrite Hl, list_fmap_insert.
  apply sum_insert. by rewrite list_lookup_fmap, Hr.
Qed.

Lemma cache_room_nonneg (sd : Side) (p : OrderPool.t) (b : OrderBook.t) :
  side_ok sd p b → 0 ≤ cache_room sd b.
Proof.
  intros (_ & _ & Hb). unfold cache_room. case_decide; [done|]. destruct sd; lia.
Qed.

(** The cache after a refresh at [idx], where the level at [idx] is empty. *)
Lemma next_best_advances (sd : Side) (v : list RingLevel.t) (idx x : Z) :
  next_best sd v idx x → ¬ nonempty_at v idx → idx ≠ -1 → advances sd idx x.
Proof.
  intros Hx Hidx Hne. split; [done|].
  destruct sd; simpl in Hx; destruct Hx as [[-> _]|(Hr & Hat & _)]; auto; right.
  - destruct (decide (x = idx)) as [->|]; [done|lia].
  - destruct (decide (x = idx)) as [->|]; [done|lia].
Qed.

Lemma advances_room (sd : Side) (b b' : OrderBook.t) :
  OrderBook.nlevels b' = OrderBook.nlevels b →
  (OrderBook.best sd b' = -1 ∨ 0 ≤ OrderBook.best sd b' < OrderBook.nlevels b') →
  advances sd (OrderBook.best sd b) (OrderBook.best sd b') →
  (OrderBook.best sd b = -1 ∨ 0 ≤ OrderBook.best sd b < OrderBook.nlevels b) →
  cache_room sd b' < cache_room sd b.
Proof.
  intros Hn Hr' [Hne Hadv] Hr. unfold cache_room. rewrite Hn in *.
  repeat case_decide; destruct sd; lia.
Qed.

Lemma side_ok_best (sd : Side) (s : Engine.t) :
  wf s →
  OrderBook.best sd (book s) = -1 ∨
  0 ≤ OrderBook.best sd (book s) < OrderBook.nlevels (book s).
Proof. intros (_ & Hsb & Hsa). destruct sd; [apply Hsb|apply Hsa]. Qed.

Lemma level_ok_head_le_total (p : OrderPool.t) (sd : Side) (i : nat) (r : RingLevel.t)
    (e : Z) (rest : list Z) :
  level_ok p sd i r → contents r = e :: rest →
  0 < qty_at p e ≤ RingLevel.totalQty r.
Proof.
  intros (_ & _ & Hrest & -> & _) Hc. unfold level_sum. rewrite Hc in *.
  rewrite sum_qty_cons.
  pose proof (resting_qty _ _ _ _ (Hrest e ltac:(left))).
  assert (0 ≤ sum_qty p rest); [|lia].
  apply sum_qty_nonneg. intros y Hy.
  pose proof (resting_qty _ _ _ _ (Hrest y ltac:(by right))). lia.
Qed.

Lemma i64_in_range (z : Z) : - 2 ^ 63 ≤ z < 2 ^ 63 → i64 z = Some z.
Proof. intros H. by apply i64_Some. Qed.

Lemma refreshBest_is_Some (sd : Side) (idx : Z) (pl : RingLevel.t) (s : Engine.t) :
  Z.of_nat (length (OrderBook.levels sd (book s))) = OrderBook.nlevels (book s) →
  0 ≤ idx < OrderBook.nlevels (book s) →
  is_Some (refreshBest sd idx pl s).
Proof.
  intros Hlen Hidx. unfold refreshBest. destruct (RingLevel.empty pl); [|done].
  destruct (updateBestAfterRemove_is_Some sd idx (book s) Hlen Hidx) as [bk ->]. done.
Qed.

(** Under the invariant an iteration runs into no undefined behaviour. *)
Lemma matchStep_runs (clock : nat → Z) (priced : bool) (opp : Side) (taker : Order)
    (s : Engine.t) :
  wf s → guard priced opp taker s = true → qty taker < 2 ^ 63 →
  ∃ taker' s', matchStep clock opp taker s = Ok taker' s'.
Proof.
  intros Hwf [Hq Hb]%guard_true Hq'.
  pose proof (side_ok_best opp s Hwf) as Hbr.
  pose proof (side_ok_length opp s Hwf) as Hlen.
  unfold matchStep.
  destruct (vec_get_is_Some (OrderBook.levels opp (book s)) (OrderBook.best opp (book s)))
    as [pl Hpl]; [lia|].
  unfold level at 1. rewrite Hpl. simpl.
  assert (Hlvl : level opp (OrderBook.best opp (book s)) s = Some pl) by done.
  pose proof (level_wf _ _ _ _ Hwf Hlvl) as Hlok.
  pose proof Hlok as (Hrwf & Hnd & Hrest & Hsum & Htq).
  destruct (RingLevel.empty pl) eqn:He.
  { destruct (updateBestAfterRemove_is_Some opp (OrderBook.best opp (book s)) (book s))
      as [bk ->]; [done|lia|]. simpl. eauto. }
  destruct (front_contents pl Hrwf He) as (e & rest & Hf & Hc).
  rewrite Hf. simpl.
  destruct (Hrest e) as (maker & Hm & Hact & _ & _ & Hmq); [rewrite Hc; left|].
  rewrite Hm. simpl.
  pose proof (level_ok_head_le_total _ _ _ _ _ _ Hlok Hc) as Hhead.
  unfold qty_at in Hhead. rewrite Hm in Hhead. simpl in Hhead.
  pose proof (vec_get_range _ _ _ Hm) as Her.
  rewrite !i64_in_range by lia. simpl.
  unfold put_order, OrderPool.put. simpl.
  rewrite (vec_set_of_get _ _ maker) by done. simpl.
  unfold put_level at 1. simpl. rewrite (vec_set_of_get _ _ pl) by done. simpl.
  case_bool_decide as Hcons.
  - unfold RingLevel.pop_front.
    replace (RingLevel.empty (RingLevel.set_totalQty
               (RingLevel.totalQty pl - qty maker `min` qty taker) pl)) with false by done.
    cbn [RingLevel.set_totalQty RingLevel.data RingLevel.head RingLevel.totalQty].
    destruct Hrwf as (HW & Hh & Ht).
    destruct (vec_set (RingLevel.data pl) (RingLevel.head pl) UINT64_MAX) as [d'|] eqn:Hd.
    2:{ unfold vec_set in Hd. unfold RingLevel.size in Hh. case_decide; [done|lia]. }
    rewrite i64_in_range by lia. simpl.
    unfold put_level. simpl. rewrite levels_set_levels, decide_True by done.
    unfold vec_set. rewrite length_insert. rewrite decide_True by lia. simpl.
    unfold OrderPool.free, OrderPool.get. simpl.
    unfold vec_get at 1. rewrite decide_True by lia.
    rewrite list_lookup_insert_eq by lia. simpl.
    unfold vec_set. rewrite length_insert, decide_True by lia. simpl.
    unfold vec_get. rewrite decide_True by lia.
    rewrite list_lookup_insert_eq by (rewrite length_insert; lia). simpl.
    match goal with
    | |- context [refreshBest ?a ?b ?c ?d] =>
        destruct (refreshBest_is_Some a b c d) as [s6 ->]
    end.
    + simpl. rewrite set_levels_twice, levels_set_levels, decide_True by done.
      rewrite nlevels_set_levels, !length_insert. done.
    + simpl. rewrite set_levels_twice, nlevels_set_levels. lia.
    + simpl. eauto.
  - match goal with
    | |- context [refreshBest ?a ?b ?c ?d] =>
        destruct (refreshBest_is_Some a b c d) as [s6 ->]
    end.
    + simpl. rewrite levels_set_levels, decide_True by done.
      rewrite nlevels_set_levels, !length_insert. done.
    + simpl. rewrite nlevels_set_levels. lia.
    + simpl. eauto.
Qed.

Lemma empty_not_nonempty (v : list RingLevel.t) (i : Z) (pl : RingLevel.t) :
  vec_get v i = Some pl → RingLevel.empty pl = true → ¬ nonempty_at v i.
Proof. intros Hpl He (r & Hr & Her). congruence. Qed.

(** What one iteration achieves. *)
Lemma matchStep_measure (clock : nat → Z) (priced : bool) (opp : Side)
    (taker t1 : Order) (s s1 : Engine.t) :
  wf s → guard priced opp taker s = true →
  matchStep clock opp taker s = Ok t1 s1 →
  0 ≤ qty t1 ≤ qty taker ∧
  (qty t1 < qty taker ∨ resting_count opp s1 < resting_count opp s ∨
   advances opp (OrderBook.best opp (book s)) (OrderBook.best opp (book s1))) ∧
  (qty t1 = 0 ∨
   resting_count opp s1 + cache_room opp (book s1) <
   resting_count opp s + cache_room opp (book s)).
Proof.
  intros Hwf [Hq Hb]%guard_true Hstep.
  assert (Hq0 : 0 ≤ qty taker) by lia.
  pose proof (matchStep_wf _ _ _ _ _ _ Hwf Hq0 Hstep) as Hwf1.
  pose proof (side_ok_best opp s Hwf) as Hbr.
  pose proof (side_ok_best opp s1 Hwf1) as Hbr1.
  pose proof (side_ok_length opp s Hwf) as Hlen.
  apply matchStep_Ok in Hstep as (pl & Hpl & H); [|done].
  destruct H as [(He & -> & x & Hx & ->)|(He & e & rest & maker & pl' & x & H)].
  - (* an empty level under the cache *)
    assert (Hadv : advances opp (OrderBook.best opp (book s)) x).
    { eapply next_best_advances; [done| |done]. by eapply empty_not_nonempty. }
    simpl in *. rewrite best_set_best, decide_True in * by done.
    split; [lia|]. split; [auto|]. right.
    assert (resting_count opp (set_book (OrderBook.set_best opp x (book s)) s)
            = resting_count opp s) as ->.
    { unfold resting_count. simpl. by rewrite levels_set_best. }
    assert (cache_room opp (OrderBook.set_best opp x (book s)) < cache_room opp (book s));
      [|lia].
    apply advances_room; [by rewrite nlevels_set_best| | |done];
      by rewrite best_set_best, decide_True.
  - destruct H as (Hc & Hm & -> & _ & _ & _ & _ & _ & Hbook & Hwf' & _ & Hc' & Hx & _).
    pose proof (level_wf _ _ _ _ Hwf Hpl) as Hlok.
    pose proof (level_ok_head_le_total _ _ _ _ _ _ Hlok Hc) as Hhead.
    unfold qty_at in Hhead. rewrite Hm in Hhead. simpl in Hhead. simpl.
    split; [lia|]. split; [left; lia|].
    destruct (decide (qty maker ≤ qty taker)) as [Hle|Hgt]; [right|left; lia].
    assert (Hlv : OrderBook.levels opp (book s1) =
              <[Z.to_nat (OrderBook.best opp (book s)) := pl']> (OrderBook.levels opp (book s))).
    { by rewrite Hbook, levels_set_best, levels_set_levels, decide_True. }
    pose proof Hpl as [_ Hpl']%vec_get_Some.
    rewrite (resting_count_insert opp s s1 _ pl pl' Hpl' Hlv), Hc, Hc'. simpl.
    assert (Hn : OrderBook.nlevels (book s1) = OrderBook.nlevels (book s)).
    { by rewrite Hbook, nlevels_set_best, nlevels_set_levels. }
    assert (Hb1 : OrderBook.best opp (book s1) = x).
    { by rewrite Hbook, best_set_best, decide_True. }
    assert (cache_room opp (book s1) ≤ cache_room opp (book s)); [|lia].
    destruct (RingLevel.empty pl') eqn:He'.
    + assert (cache_room opp (book s1) < cache_room opp (book s)); [|lia].
      apply advances_room; [done|done| |done]. rewrite Hb1.
      eapply next_best_advances; [done| |done].
      intros Hne. apply nonempty_at_insert in Hne.
      * rewrite decide_True in Hne by lia. congruence.
      * apply lookup_lt_Some in Hpl'. done.
    + unfold cache_room. rewrite Hb1, Hn, Hx. done.
Qed.

Lemma sweep_guard_false (clock : nat → Z) (fuel : nat) (priced : bool) (opp : Side)
    (taker : Order) (s : Engine.t) :
  guard priced opp taker s = false → sweep clock fuel priced opp taker s = Ok taker s.
Proof. intros Hg. destruct fuel; simpl; by rewrite Hg. Qed.

Lemma sweep_runs (clock : nat → Z) (priced : bool) (opp : Side) :
  ∀ (n : nat) (taker : Order) (s : Engine.t),
    wf s → qty taker < 2 ^ 63 →
    resting_count opp s + cache_room opp (book s) ≤ Z.of_nat n →
    ∀ fuel, (n < fuel)%nat →
      ∃ taker' s', sweep clock fuel priced opp taker s = Ok taker' s'.
Proof.
  induction n as [|n IH]; intros taker s Hwf Hq HM fuel Hfuel.
  - destruct fuel as [|fuel]; [lia|]. simpl.
    destruct (guard priced opp taker s) eqn:Hg; [|eauto].
    destruct (matchStep_runs clock priced opp taker s Hwf Hg Hq) as (t1 & s1 & Hstep).
    rewrite Hstep. simpl.
    destruct (matchStep_measure _ _ _ _ _ _ _ Hwf Hg Hstep) as (Hq1 & _ & [Hz|Hlt]).
    + rewrite sweep_guard_false; [eauto|]. unfold guard.
      rewrite bool_decide_eq_false_2 by lia. done.
    + assert (Hq0 : 0 ≤ qty taker) by (apply guard_true in Hg; lia).
      pose proof (matchStep_wf _ _ _ _ _ _ Hwf Hq0 Hstep) as Hwf1.
      pose proof (resting_count_nonneg opp s1).
      assert (0 ≤ cache_room opp (book s1)).
      { destruct Hwf1 as (_ & Hsb & Hsa). destruct opp; by eapply cache_room_nonneg. }
      lia.
  - destruct fuel as [|fuel]; [lia|]. simpl.
    destruct (guard priced opp taker s) eqn:Hg; [|eauto].
    destruct (matchStep_runs clock priced opp taker s Hwf Hg Hq) as (t1 & s1 & Hstep).
    rewrite Hstep. simpl.
    destruct (matchStep_measure _ _ _ _ _ _ _ Hwf Hg Hstep) as (Hq1 & _ & [Hz|Hlt]).
    + rewrite sweep_guard_false; [eauto|]. unfold guard.
      rewrite bool_decide_eq_false_2 by lia. done.
    + assert (Hq0 : 0 ≤ qty taker) by (apply guard_true in Hg; lia).
      pose proof (matchStep_wf _ _ _ _ _ _ Hwf Hq0 Hstep) as Hwf1.
      apply IH; [done|lia|lia|lia].
Qed.

Lemma addPassive_not_OutOfFuel (sd : Side) (taker : Order) (s : Engine.t) :
  addPassive sd taker s ≠ OutOfFuel.
Proof.
  unfold addPassive.
  destruct (OrderPool.allocate taker (pool s)) as [[eid p]| |]; try done.
  destruct (level sd (priceIdx taker) (set_pool p s)) as [lvl|]; simpl; [|done].
  destruct (RingLevel.push eid (qty taker) lvl); simpl; try done.
  by destruct (put_level _ _ _ _).
Qed.

(** C10. In a state whose resting orders all have positive remaining
    quantity (a well-formed state), the matching sweeps of [placeLimit] and
    [placeMarket] terminate. With fuel [sweep_bound] or more a sweep returns,
    and so [placeLimit] and [placeMarket] never run out of fuel; and every
    iteration runs and strictly decreases the taker's remaining quantity,
    or removes a maker from the opposite side, or strictly advances the
    opposite best cache towards the sentinel -1. *)
Theorem sweeps_terminate (clock : nat → Z) (priced : bool) (opp : Side)
    (taker : Order) (s : Engine.t) :
  wf s → qty taker < 2 ^ 63 →
  (∀ fuel, (sweep_bound opp s ≤ fuel)%nat →
     ∃ taker' s', sweep clock fuel priced opp taker s = Ok taker' s') ∧
  (∀ fuel, (sweep_bound opp s ≤ fuel)%nat → side taker = opposite opp →
     matchAndAdd clock fuel taker s ≠ OutOfFuel ∧
     matchMarket clock fuel taker s ≠ OutOfFuel) ∧
  (guard priced opp taker s = true →
   ∃ taker' s', matchStep clock opp taker s = Ok taker' s' ∧ wf s' ∧
     (qty taker' < qty taker ∨ resting_count opp s' < resting_count opp s ∨
      advances opp (OrderBook.best opp (book s)) (OrderBook.best opp (book s')))).
Proof.
  intros Hwf Hq.
  assert (Hruns : ∀ pr fuel, (sweep_bound opp s ≤ fuel)%nat →
            ∃ taker' s', sweep clock fuel pr opp taker s = Ok taker' s').
  { intros pr fuel Hfuel. unfold sweep_bound in Hfuel.
    pose proof (resting_count_nonneg opp s).
    assert (0 ≤ cache_room opp (book s)).
    { destruct Hwf as (_ & Hsb & Hsa). destruct opp; by eapply cache_room_nonneg. }
    apply (sweep_runs clock pr opp
             (Z.to_nat (resting_count opp s + cache_room opp (book s))));
      [done|done|lia|lia]. }
  split; [apply Hruns|]. split.
  - intros fuel Hfuel Hsd. unfold matchAndAdd, matchMarket. rewrite Hsd.
    destruct (Hruns true fuel Hfuel) as (t1 & s1 & H1).
    destruct (Hruns false fuel Hfuel) as (t2 & s2 & H2).
    destruct opp; simpl; rewrite H1, H2; simpl; (split; [|done]);
      case_match; try done; apply addPassive_not_OutOfFuel.
  - intros Hg.
    destruct (matchStep_runs clock priced opp taker s Hwf Hg Hq) as (t1 & s1 & Hstep).
    exists t1, s1. split; [done|].
    destruct (matchStep_measure _ _ _ _ _ _ _ Hwf Hg Hstep) as (_ & Hprog & _).
    split; [|done]. apply guard_true in Hg as [? _].
    eapply matchStep_wf; [done| |done]. lia.
Qed.

Lemma sweeps_terminate_witness :
  ∃ s0, run clock0 1 (PlaceLimit 1 SELL 3 3 0 GFD) small_engine = Ok tt s0 ∧
    let taker := mkOrder 30 0 BUY LIMIT GFD 3 10 0 false in
    (∀ fuel, (sweep_bound SELL s0 ≤ fuel)%nat →
       ∃ taker' s', sweep clock0 fuel true SELL taker s0 = Ok taker' s') ∧
    (∀ fuel, (sweep_bound SELL s0 ≤ fuel)%nat → side taker = opposite SELL →
       matchAndAdd clock0 fuel taker s0 ≠ OutOfFuel ∧
       matchMarket clock0 fuel taker s0 ≠ OutOfFuel) ∧
    (guard true SELL taker s0 = true →
     ∃ taker' s', matchStep clock0 SELL taker s0 = Ok taker' s' ∧ wf s' ∧
       (qty taker' < qty taker ∨ resting_count SELL s' < resting_count SELL s0 ∨
        advances SELL (OrderBook.best SELL (book s0)) (OrderBook.best SELL (book s')))).
Proof.
  eexists.
  match goal with
  | |- run ?c ?f ?o ?s = Ok tt ?s' ∧ _ =>
      assert (H : run c f o s = Ok tt s') by (vm_compute; reflexivity);
      split; [exact H|];
      apply (sweeps_terminate c true SELL (mkOrder 30 0 BUY LIMIT GFD 3 10 0 false) s'
               (proj1 (reachable_wf c s' (reach_return c f o s s' small_engine_reachable H))))
  end.
  reflexivity.
Defined.

(** ** Price/time priority *)

Lemma concat_all_nil {A : Type} (ls : list (list A)) :
  (∀ x, x ∈ ls → x = []) → concat ls = [].
Proof.
  induction ls as [|x ls IH]; intros H; simpl; [done|].
  rewrite (H x) by left. apply IH. intros y Hy. apply H. by right.
Qed.

Lemma by_priority_split (sd : Side) (l : list RingLevel.t) (n : nat) (pl : RingLevel.t) :
  l !! n = Some pl →
  ∃ before after,
    by_priority sd l = before ++ pl :: after ∧
    (∀ x, by_priority sd (<[n := x]> l) = before ++ x :: after) ∧
    (∀ r, r ∈ before →
       ∃ i, l !! i = Some r ∧ match sd with BUY => (n < i)%nat | SELL => (i < n)%nat end).
Proof.
  intros Hn. pose proof (lookup_lt_Some _ _ _ Hn) as Hlt.
  pose proof (take_drop_middle l n pl Hn) as Hmid.
  destruct sd; cbn [by_priority].
  - exists (reverse (drop (S n) l)), (reverse (take n l)). split_and!.
    + rewrite <- Hmid at 1. rewrite reverse_app, reverse_cons, <- app_assoc. done.
    + intros x. rewrite insert_take_drop by done.
      rewrite reverse_app, reverse_cons, <- app_assoc. done.
    + intros r Hr. rewrite elem_of_reverse in Hr.
      apply list_elem_of_lookup_1 in Hr as [i Hi]. rewrite lookup_drop in Hi. exists (S n + i)%nat. split; [done|lia].
  - exists (take n l), (drop (S n) l). split_and!.
    + by rewrite Hmid.
    + intros x. by rewrite insert_take_drop.
    + intros r [i Hi]%list_elem_of_lookup_1.
      apply lookup_take_Some in Hi as [Hi ?]. by exists i.
Qed.

(** The head of the priority queue is the head of the level under the
    cache, and an update of that level changes the front of the queue. *)
Lemma queue_split (opp : Side) (s : Engine.t) (pl : RingLevel.t) :
  wf s → best_ok (book s) → OrderBook.best opp (book s) ≠ -1 →
  level opp (OrderBook.best opp (book s)) s = Some pl →
  ∃ tailq,
    queue opp s = contents pl ++ tailq ∧
    ∀ s1 pl',
      OrderBook.levels opp (book s1) =
        <[Z.to_nat (OrderBook.best opp (book s)) := pl']> (OrderBook.levels opp (book s)) →
      queue opp s1 = contents pl' ++ tailq.
Proof.
  intros Hwf Hok Hb Hpl.
  pose proof (proj1 (proj1 (best_ok_sides _) Hok) opp) as Hbest.
  pose proof (vec_get_range _ _ _ Hpl) as Hrange.
  apply vec_get_Some in Hpl as [_ Hpl].
  destruct (by_priority_split opp _ _ _ Hpl) as (before & after & Hsplit & Hins & Hbefore).
  assert (Hnil : concat (contents <$> before) = []).
  { apply concat_all_nil. intros x (r & -> & Hr)%list_elem_of_fmap.
    destruct (Hbefore r Hr) as (i & Hi & Hin).
    assert (level_ok (pool s) opp i r) as (Hrwf & _).
    { destruct Hwf as (_ & Hsb & Hsa). destruct opp; [by apply Hsb|by apply Hsa]. }
    apply contents_empty; [done|].
    destruct (RingLevel.empty r) eqn:He; [done|]. exfalso.
    assert (Hne : nonempty_at (OrderBook.levels opp (book s)) (Z.of_nat i)).
    { exists r. split; [|done]. apply vec_get_Some. split; [lia|]. by rewrite Nat2Z.id. }
    destruct opp; simpl in *; destruct Hbest as [[? _]|[_ Hbeyond]]; try done;
      (apply (Hbeyond (Z.of_nat i)); [lia|done]). }
  exists (concat (contents <$> after)). split.
  - unfold queue. rewrite Hsplit, fmap_app, concat_app, Hnil. done.
  - intros s1 pl' Hl. unfold queue. rewrite Hl, Hins, fmap_app, concat_app, Hnil. done.
Qed.

Lemma cid_at_insert (v : list Order) (fl fl' : list Z) (e e' : Z) (o o' : Order) :
  OrderPool.get (OrderPool.mk v fl) e = Some o → clientId o' = clientId o →
  cid_at (OrderPool.mk (<[Z.to_nat e := o']> v) fl') e' = cid_at (OrderPool.mk v fl) e'.
Proof.
  intros Hg Hc. pose proof (vec_get_range _ _ _ Hg) as Hr. unfold cid_at.
  rewrite get_insert by done. case_decide as He.
  - subst e'. rewrite Hg. done.
  - done.
Qed.

(** One iteration matches the head of the priority queue. *)
Lemma matchStep_queue (clock : nat → Z) (priced : bool) (opp : Side)
    (taker t1 : Order) (s s1 : Engine.t) :
  wf s → best_ok (book s) → guard priced opp taker s = true →
  matchStep clock opp taker s = Ok t1 s1 →
  ∃ e rest tr,
    queue opp s = e :: rest ∧
    trades s1 = trades s ++ [tr] ∧
    Trade.makerClient tr = cid_at (pool s) e ∧
    Trade.takerClient tr = clientId taker ∧
    (queue opp s1 = rest ∨ queue opp s1 = e :: rest) ∧
    (∀ e', cid_at (pool s1) e' = cid_at (pool s) e').
Proof.
  intros Hwf Hok [Hq Hb]%guard_true Hstep.
  pose proof (proj1 (proj1 (best_ok_sides _) Hok) opp) as Hbest.
  pose proof (is_best_at _ _ _ Hbest Hb) as Hne.
  apply matchStep_Ok in Hstep as (pl & Hpl & H); [|done].
  destruct H as [(He & _)|(He & e & rest & maker & pl' & x & H)].
  { destruct Hne as (r & Hr & Her). unfold level in Hpl. congruence. }
  destruct H as (Hc & Hm & _ & _ & _ & _ & Htr & _ & Hbook & _ & _ & Hc' & _ & Hpool & _).
  destruct (queue_split opp s pl Hwf Hok Hb Hpl) as (tailq & Hqs & Hqs').
  assert (Hlv : OrderBook.levels opp (book s1) =
            <[Z.to_nat (OrderBook.best opp (book s)) := pl']> (OrderBook.levels opp (book s))).
  { by rewrite Hbook, levels_set_best, levels_set_levels, decide_True. }
  rewrite Hc in Hqs. eexists e, (rest ++ tailq), _. split_and!.
  - done.
  - exact Htr.
  - simpl. unfold cid_at. by rewrite Hm.
  - done.
  - rewrite (Hqs' s1 pl' Hlv), Hc'. case_decide; [by left|by right].
  - intros e'. rewrite Hpool. destruct (pool s) as [v fl] eqn:Hp. simpl in *.
    eapply cid_at_insert; [done|]. case_decide; by destruct maker.
Qed.

Lemma consumes_trans (q es1 q1 es2 q2 : list Z) :
  consumes q es1 q1 → consumes q1 es2 q2 → consumes q (es1 ++ es2) q2.
Proof.
  induction 1 as [q|e q es q' _ IH|e q es q' _ IH]; intros H2; simpl.
  - done.
  - apply consumes_part. by apply IH.
  - apply consumes_full. by apply IH.
Qed.

Lemma consumes_elem (q es q' : list Z) :
  consumes q es q' → (∀ e, e ∈ es → e ∈ q) ∧ (∀ e, e ∈ q' → e ∈ q).
Proof.
  induction 1 as [q|e q es q' _ [IH1 IH2]|e q es q' _ [IH1 IH2]].
  - split; [|done]. intros e He. by apply elem_of_nil in He.
  - split; [|done]. intros y [->|Hy]%elem_of_cons; [left|by apply IH1].
  - split.
    + intros y [->|Hy]%elem_of_cons; [left|right; by apply IH1].
    + intros y Hy. right. by apply IH2.
Qed.

(** A sweep consumes the priority queue of the swept side from its head. *)
Lemma sweep_queue (clock : nat → Z) (fuel : nat) (priced : bool) (opp : Side)
    (taker taker' : Order) (s s' : Engine.t) :
  wf s → best_ok (book s) →
  sweep clock fuel priced opp taker s = Ok taker' s' →
  ∃ es nt,
    consumes (queue opp s) es (queue opp s') ∧
    trades s' = trades s ++ nt ∧
    Trade.makerClient <$> nt = cid_at (pool s) <$> es ∧
    (∀ e', cid_at (pool s') e' = cid_at (pool s) e').
Proof.
  revert taker s. induction fuel as [|fuel IH]; intros taker s Hwf Hok; simpl.
  - destruct (guard priced opp taker s) eqn:Hg; [done|]. intros [= <- <-].
    exists [], []. split_and!; [constructor|by rewrite app_nil_r|done|done].
  - destruct (guard priced opp taker s) eqn:Hg.
    2:{ intros [= <- <-]. exists [], [].
        split_and!; [constructor|by rewrite app_nil_r|done|done]. }
    destruct (matchStep clock opp taker s) as [t1 s1| | |] eqn:Hstep; simpl; try done.
    intros H. pose proof Hg as [Hq Hb]%guard_true.
    assert (Hq0 : 0 ≤ qty taker) by lia.
    pose proof (matchStep_wf _ _ _ _ _ _ Hwf Hq0 Hstep) as Hwf1.
    pose proof (matchStep_best_ok _ _ _ _ _ _ Hwf Hok Hb Hstep) as Hok1.
    destruct (matchStep_queue _ _ _ _ _ _ _ Hwf Hok Hg Hstep)
      as (e & rest & tr & Hqe & Htr & Hmk & _ & Hq1 & Hcid1).
    destruct (IH t1 s1 Hwf1 Hok1 H) as (es & nt & Hcons & Hnt & Hmap & Hcid).
    exists (e :: es), (tr :: nt). split_and!.
    + rewrite Hqe. destruct Hq1 as [Hq1|Hq1]; rewrite Hq1 in Hcons.
      * by apply consumes_full.
      * by apply consumes_part.
    + rewrite Hnt, Htr, <- app_assoc. done.
    + rewrite !fmap_cons, Hmap, Hmk. f_equal. apply list_fmap_ext. intros ? y _. apply Hcid1.
    + intros e'. by rewrite Hcid, Hcid1.
Qed.

Lemma queue_elem (sd : Side) (s : Engine.t) (e : Z) :
  e ∈ queue sd s → ∃ i r, OrderBook.levels sd (book s) !! i = Some r ∧ e ∈ contents r.
Proof.
  unfold queue. rewrite list_elem_of_In, in_concat. intros (q & Hq & He).
  apply list_elem_of_In, list_elem_of_fmap in Hq as (r & -> & Hr).
  assert (r ∈ OrderBook.levels sd (book s)) as [i Hi]%list_elem_of_lookup_1.
  { destruct sd; simpl in Hr; [by rewrite elem_of_reverse in Hr|done]. }
  exists i, r. split; [done|]. by apply list_elem_of_In.
Qed.

Lemma opposite_involutive (sd : Side) : opposite (opposite sd) = sd.
Proof. by destruct sd. Qed.

Lemma opposite_ne (sd : Side) : opposite sd ≠ sd.
Proof. by destruct sd. Qed.

(** Admission leaves the other side and the trade log alone, and takes a
    slot that no ring holds. *)
Lemma addPassive_queue (sd : Side) (taker : Order) (s s' : Engine.t) :
  wf s → addPassive sd taker s = Ok tt s' →
  queue (opposite sd) s' = queue (opposite sd) s ∧ trades s' = trades s ∧
  ∀ e', e' ∈ queue (opposite sd) s → cid_at (pool s') e' = cid_at (pool s) e'.
Proof.
  intros Hwf H.
  apply addPassive_Ok in H
    as (idx & rest & lvl & lvl' & Hrev & Hidx & Hlvl & Hpush & Hpool & Hbook & _ & Htr & _).
  pose proof Hwf as (Hp & _ & _).
  destruct (pool_ok_allocate _ _ _ (set_active true (set_engineId idx taker)) Hp Hrev Hidx)
    as (_ & o & Ho & Ha).
  split_and!; [|done|].
  - unfold queue. rewrite Hbook, updateBestAfterAdd_eq, levels_set_best, levels_set_levels.
    rewrite decide_False by apply opposite_ne. done.
  - intros e' (i & r & Hr & He)%queue_elem. unfold cid_at.
    rewrite Hpool, get_insert by done. rewrite decide_False; [by destruct (pool s)|].
    intros ->. by eapply (elsewhere_inactive s idx o Hwf Ho Ha).
Qed.

(** Admission appends at the tail of the level: a ring holds its orders in
    the order of their admission. *)
Lemma addPassive_appends (sd : Side) (taker : Order) (s s' : Engine.t) :
  wf s → addPassive sd taker s = Ok tt s' →
  ∃ idx lvl lvl',
    level sd (priceIdx taker) s = Some lvl ∧ level sd (priceIdx taker) s' = Some lvl' ∧
    contents lvl' = contents lvl ++ [idx] ∧ cid_at (pool s') idx = clientId taker.
Proof.
  intros Hwf H.
  apply addPassive_Ok in H
    as (idx & rest & lvl & lvl' & Hrev & Hidx & Hlvl & Hpush & Hpool & Hbook & _).
  pose proof (level_wf _ _ _ _ Hwf Hlvl) as (Hrwf & _).
  pose proof (vec_get_range _ _ _ Hlvl) as Hprange.
  apply push_Val in Hpush as (_ & _ & _ & _ & Hc'); [|done].
  exists idx, lvl, lvl'. split_and!; [done| |done|].
  - unfold level. rewrite Hbook, updateBestAfterAdd_eq, levels_set_best, levels_set_levels.
    rewrite decide_True by done. apply vec_get_Some. split; [lia|].
    apply list_lookup_insert_eq. lia.
  - unfold cid_at. rewrite Hpool, get_insert, decide_True by done. by destruct taker.
Qed.

Lemma run_taker_queue (clock : nat → Z) (fuel : nat) (msd : Side) (o : op)
    (s s' : Engine.t) :
  wf s → best_ok (book s) → is_taker (opposite msd) o →
  run clock fuel o s = Ok tt s' →
  ∃ es nt,
    consumes (queue msd s) es (queue msd s') ∧
    trades s' = trades s ++ nt ∧
    Trade.makerClient <$> nt = cid_at (pool s) <$> es ∧
    (∀ e', e' ∈ queue msd s' → cid_at (pool s') e' = cid_at (pool s) e').
Proof.
  intros Hwf Hok Ht Hrun.
  assert (Hgen : ∀ (pr : bool) taker (k : Order → Engine.t → outcome unit),
    (∀ t1 s1 s2, wf s1 → k t1 s1 = Ok tt s2 →
       queue msd s2 = queue msd s1 ∧ trades s2 = trades s1 ∧
       ∀ e', e' ∈ queue msd s1 → cid_at (pool s2) e' = cid_at (pool s1) e') →
    obind (sweep clock fuel pr msd taker s) k = Ok tt s' →
    ∃ es nt,
      consumes (queue msd s) es (queue msd s') ∧
      trades s' = trades s ++ nt ∧
      Trade.makerClient <$> nt = cid_at (pool s) <$> es ∧
      (∀ e', e' ∈ queue msd s' → cid_at (pool s') e' = cid_at (pool s) e')).
  { intros pr taker k Hk H.
    destruct (sweep clock fuel pr msd taker s) as [t1 s1| | |] eqn:Hsw; simpl in H; try done.
    pose proof (sweep_Ok _ _ _ _ _ _ _ _ Hwf Hok Hsw) as (Hwf1 & _).
    destruct (sweep_queue _ _ _ _ _ _ _ _ Hwf Hok Hsw) as (es & nt & Hcons & Hnt & Hmap & Hcid).
    destruct (Hk t1 s1 s' Hwf1 H) as (Hq & Htr & Hcid').
    exists es, nt. rewrite Hq, Htr. split_and!; try done.
    intros e' He'. rewrite Hcid' by done. apply Hcid. }
  destruct o as [cid sd pidx q now tf|cid sd q now| |]; simpl in *; try done; subst sd.
  - unfold placeLimit, matchAndAdd in Hrun. simpl in Hrun.
    destruct msd; simpl in Hrun; eapply Hgen; try exact Hrun;
      intros t1 s1 s2 Hwf1 Hk; cbv beta in Hk; (case_match; [|by injection Hk as <-]).
    + by eapply (addPassive_queue SELL).
    + by eapply (addPassive_queue BUY).
  - unfold placeMarket, matchMarket in Hrun. simpl in Hrun.
    destruct msd; simpl in Hrun; eapply Hgen; try exact Hrun;
      intros t1 s1 s2 _ [= <-]; done.
Qed.

Lemma run_all_queue (clock : nat → Z) (msd : Side) (ops : list (nat * op)) :
  ∀ s s',
    wf s → best_ok (book s) → Forall (λ fo, is_taker (opposite msd) fo.2) ops →
    run_all clock ops s = Ok tt s' →
    ∃ es nt,
      consumes (queue msd s) es (queue msd s') ∧
      trades s' = trades s ++ nt ∧
      Trade.makerClient <$> nt = cid_at (pool s) <$> es ∧
      (∀ e', e' ∈ queue msd s' → cid_at (pool s') e' = cid_at (pool s) e').
Proof.
  induction ops as [|[fuel o] ops IH]; intros s s' Hwf Hok Hops Hrun; simpl in Hrun.
  - injection Hrun as <-. exists [], [].
    split_and!; [constructor|by rewrite app_nil_r|done|done].
  - apply Forall_cons in Hops as [Ho Hops]. simpl in Ho.
    destruct (run clock fuel o s) as [[] s1| | |] eqn:Hrun1; simpl in Hrun; try done.
    pose proof (run_keeps clock fuel o s Hwf Hok) as Hk. rewrite Hrun1 in Hk.
    destruct Hk as [Hwf1 Hok1].
    destruct (run_taker_queue _ _ _ _ _ _ Hwf Hok Ho Hrun1)
      as (es1 & nt1 & Hc1 & Hn1 & Hm1 & Hcid1).
    destruct (IH s1 s' Hwf1 Hok1 Hops Hrun) as (es2 & nt2 & Hc2 & Hn2 & Hm2 & Hcid2).
    destruct (consumes_elem _ _ _ Hc2) as [Hin2 Hsub2].
    exists (es1 ++ es2), (nt1 ++ nt2). split_and!.
    + by eapply consumes_trans.
    + by rewrite Hn2, Hn1, <- app_assoc.
    + rewrite !fmap_app, Hm1, Hm2. f_equal.
      apply list_fmap_ext. intros ? e He. apply Hcid1, Hin2.
      by eapply list_elem_of_lookup_2.
    + intros e' He'. rewrite Hcid2 by done. apply Hcid1. by apply Hsub2.
Qed.

Lemma single_queue_queue (sd : Side) (p : nat) (q : list Z) (s : Engine.t) :
  single_queue sd p q s → queue sd s = q.
Proof.
  intros (r & Hr & Hc & Hothers).
  pose proof (take_drop_middle _ _ _ Hr) as Hmid.
  assert (Hnil : ∀ l, (∀ x, x ∈ l → ∃ i, OrderBook.levels sd (book s) !! i = Some x ∧ i ≠ p) →
             concat (contents <$> l) = []).
  { intros l Hl. apply concat_all_nil. intros x (r' & -> & Hr')%list_elem_of_fmap.
    destruct (Hl r' Hr') as (i & Hi & Hne). by eapply Hothers. }
  assert (Htake : concat (contents <$> take p (OrderBook.levels sd (book s))) = []).
  { apply Hnil. intros x [i Hi]%list_elem_of_lookup_1.
    apply lookup_take_Some in Hi as [Hi ?]. exists i. split; [done|lia]. }
  assert (Hdrop : concat (contents <$> drop (S p) (OrderBook.levels sd (book s))) = []).
  { apply Hnil. intros x [i Hi]%list_elem_of_lookup_1.
    rewrite lookup_drop in Hi. exists (S p + i)%nat. split; [done|lia]. }
  unfold queue. rewrite <- Hmid. destruct sd; cbn [by_priority OrderBook.levels] in *.
  - rewrite reverse_app, reverse_cons, <- app_assoc, !fmap_app, !concat_app.
    rewrite !fmap_reverse. simpl.
    rewrite Hc, app_nil_r.
    assert (Hrev : ∀ l : list (list Z), concat l = [] → concat (reverse l) = []).
    { intros l Hl. apply concat_all_nil. intros x Hx. rewrite elem_of_reverse in Hx.
      clear -Hl Hx. induction l as [|y l IH]; [by apply elem_of_nil in Hx|].
      simpl in Hl. apply app_eq_nil in Hl as [-> Hl].
      apply elem_of_cons in Hx as [->|Hx]; [done|by apply IH]. }
    rewrite (Hrev _ Hdrop), (Hrev _ Htake). by rewrite app_nil_r.
  - rewrite fmap_app, concat_app, fmap_cons. cbn [concat].
    rewrite Htake, Hdrop, Hc. by rewrite app_nil_r.
Qed.

(** ** The engine of the source, and what holds of every residual *)

(** The engine built by [Engine()] of the source is a fresh engine: all
    that is proved of reachable states holds of it and of its successors. *)
Lemma source_engine_reachable (clock : nat → Z) :
  reachable clock (Engine.new ORDER_POOL_CAPACITY PRICE_LEVELS RING_CAPACITY_PER_LEVEL).
Proof. apply reach_new; unfold PRICE_LEVELS, RING_CAPACITY_PER_LEVEL; lia. Qed.

(** Whatever the time in force is, a limit order that leaves its sweep with
    quantity left is admitted: it gets a pool slot, is appended to the ring
    of its level and enters the client index. *)
Lemma residual_rests (clock : nat → Z) (fuel : nat) (cid : Z) (sd : Side)
    (pidx q now : Z) (tf : TimeInForce) (s s1 s' : Engine.t) (t1 : Order) :
  wf s → best_ok (book s) →
  sweep clock fuel true (opposite sd)
    (mkOrder cid 0 sd LIMIT tf pidx q (u64 now) false) s = Ok t1 s1 →
  0 < qty t1 →
  placeLimit clock fuel cid sd pidx q now tf s = Ok tt s' →
  ∃ idx lvl lvl',
    clientToEngine s' !! cid = Some idx ∧
    OrderPool.get (pool s') idx
      = Some (mkOrder cid idx sd LIMIT tf pidx (qty t1) (u64 now) true) ∧
    level sd pidx s1 = Some lvl ∧ level sd pidx s' = Some lvl' ∧
    contents lvl' = contents lvl ++ [idx].
Proof.
  intros Hwf Hok Hsw Hq Hrun.
  pose proof (sweep_Ok _ _ _ _ _ _ _ _ Hwf Hok Hsw) as (Hwf1 & _ & _ & Ht1).
  simpl in Ht1.
  assert (Hadd : addPassive sd t1 s1 = Ok tt s').
  { unfold placeLimit in Hrun.
    change (set_tif tf _) with (mkOrder cid 0 sd LIMIT tf pidx q (u64 now) false) in Hrun.
    unfold matchAndAdd in Hrun. cbn [side] in Hrun.
    assert (Hlim : type t1 = LIMIT) by (by rewrite Ht1).
    destruct sd; cbn [opposite] in *; rewrite Hsw in Hrun; cbn [obind] in Hrun;
      rewrite !bool_decide_eq_true_2 in Hrun by done; exact Hrun. }
  destruct (addPassive_appends sd t1 s1 s' Hwf1 Hadd) as (idx & lvl & lvl' & Hl & Hl' & Hc & _).
  apply addPassive_Ok in Hadd as (idx' & rest & lvl0 & lvl0' & _ & Hidx & Hl0 & Hpush
                                  & Hpool & Hbook & Hcte & _).
  assert (Hp1 : priceIdx t1 = pidx) by (by rewrite Ht1).
  rewrite Hp1 in *.
  assert (lvl0 = lvl) as -> by congruence.
  pose proof (level_wf _ _ _ _ Hwf1 Hl) as (Hrwf & _).
  apply push_Val in Hpush as (_ & _ & _ & _ & Hc0); [|done].
  assert (idx' = idx) as ->.
  { assert (Hl0' : level sd pidx s' = Some lvl0').
    { pose proof (vec_get_range _ _ _ Hl) as Hr. unfold level.
      rewrite Hbook, updateBestAfterAdd_eq, levels_set_best, levels_set_levels.
      rewrite decide_True by done. apply vec_get_Some. split; [lia|].
      apply list_lookup_insert_eq. lia. }
    assert (lvl0' = lvl') as -> by congruence.
    rewrite Hc0 in Hc. by apply app_inj_tail in Hc as [_ ->]. }
  exists idx, lvl, lvl'. split_and!; try done.
  - rewrite Hcte. rewrite Ht1. simpl. apply lookup_insert_eq.
  - rewrite Hpool, get_insert, decide_True by done. rewrite Ht1. done.
Qed.

(** No order is turned away: when the opposite best price crosses the
    limit, in range or not, a completed [placeLimit] has traded. *)
Lemma crossing_order_trades (clock : nat → Z) (fuel : nat) (cid : Z) (sd : Side)
    (pidx q now : Z) (tf : TimeInForce) (s s' : Engine.t) :
  wf s → best_ok (book s) →
  guard true (opposite sd) (mkOrder cid 0 sd LIMIT tf pidx q (u64 now) false) s = true →
  placeLimit clock fuel cid sd pidx q now tf s = Ok tt s' →
  ∃ tr nt, trades s' = trades s ++ tr :: nt ∧ Trade.takerClient tr = cid.
Proof.
  intros Hwf Hok Hg Hrun. unfold placeLimit in Hrun.
  change (set_tif tf _) with (mkOrder cid 0 sd LIMIT tf pidx q (u64 now) false) in Hrun.
  set (taker := mkOrder cid 0 sd LIMIT tf pidx q (u64 now) false) in *.
  assert (Hrun' : obind (sweep clock fuel true (opposite sd) taker s) (λ t1 s1,
            if bool_decide (0 < qty t1) && bool_decide (type t1 = LIMIT)
            then addPassive sd t1 s1 else Ok tt s1) = Ok tt s').
  { unfold matchAndAdd in Hrun. by destruct sd. }
  clear Hrun.
  assert (Hsw : ∃ t1 s1, sweep clock fuel true (opposite sd) taker s = Ok t1 s1 ∧
                  ∃ tr nt, trades s1 = trades s ++ tr :: nt ∧ Trade.takerClient tr = cid ∧
                  wf s1).
  { destruct fuel as [|fuel].
    - simpl in Hrun'. by rewrite Hg in Hrun'.
    - destruct (sweep clock (S fuel) true (opposite sd) taker s) as [t1 s1| | |] eqn:Hsw;
        try done.
      exists t1, s1. split; [done|].
      simpl in Hsw. rewrite Hg in Hsw.
      destruct (matchStep clock (opposite sd) taker s) as [t0 s0| | |] eqn:Hstep;
        simpl in Hsw; try done.
      pose proof (guard_true _ _ _ _ Hg) as [Hq Hb].
      assert (Hq0 : 0 ≤ qty taker) by lia.
      pose proof (matchStep_wf _ _ _ _ _ _ Hwf Hq0 Hstep) as Hwf0.
      pose proof (matchStep_best_ok _ _ _ _ _ _ Hwf Hok Hb Hstep) as Hok0.
      destruct (matchStep_queue _ true _ _ _ _ _ Hwf Hok Hg Hstep)
        as (e & rest & tr & _ & Htr & _ & Htk & _).
      destruct (sweep_queue _ _ _ _ _ _ _ _ Hwf0 Hok0 Hsw) as (es & nt & _ & Hnt & _).
      pose proof (sweep_Ok _ _ _ _ _ _ _ _ Hwf0 Hok0 Hsw) as (Hwf1 & _).
      exists tr, nt. rewrite Hnt, Htr, <- app_assoc. done. }
  destruct Hsw as (t1 & s1 & Hsw & tr & nt & Htr & Htk & Hwf1).
  exists tr, nt. split; [|done].
  rewrite Hsw in Hrun'. simpl in Hrun'. rename Hrun' into Hk.
  case_match.
  - apply addPassive_Ok in Hk as (_ & _ & _ & _ & _ & _ & _ & _ & _ & _ & _ & -> & _).
    done.
  - by injection Hk as <-.
Qed.

(** C2 on the code: an IOC buy of 10 at level 2 against a resting sell of 3
    trades 3, and its residual of 7 is not discarded: it gets pool slot 0,
    rests at bid level 2 and is entered in the client index
    ([residual_rests] shows it for every state and every time in force). *)
Lemma IOC_residual_rests :
  ∃ s0 s1,
    final (placeLimit clock0 1 1 SELL 2 3 0 GFD small_engine) = Some s0 ∧
    placeLimit clock0 1 20 BUY 2 10 0 IOC s0 = Ok tt s1 ∧
    trades s1 = [Trade.mk 20 1 3 2 0] ∧
    clientToEngine s1 !! 20 = Some 0 ∧
    OrderPool.get (pool s1) 0 = Some (mkOrder 20 0 BUY LIMIT IOC 2 7 0 true) ∧
    (RingLevel.front <$> level BUY 2 s1) = Some (Some 0) ∧
    (RingLevel.empty <$> level BUY 2 s1) = Some false ∧
    OrderBook.bestBid (book s1) = 2.
Proof.
  eexists. eexists.
  repeat match goal with |- _ ∧ _ => split; [vm_compute; reflexivity|] end.
  vm_compute. reflexivity.
Qed.

(** C3 on the code: no operation validates its arguments ([validIdx] is never
    called). A buy at price index 8 of an 8-level book, outside [0, 8), is
    not rejected: it trades against the resting sell and changes the state
    ([crossing_order_trades] shows it for every state and every price
    index). A non-positive quantity leaves the state as it is, and reports
    nothing. *)
Lemma out_of_range_price_trades :
  ∃ s0 s1,
    final (placeLimit clock0 1 1 SELL 3 5 0 GFD small_engine) = Some s0 ∧
    validIdx 8 s0 = false ∧
    trades s0 = [] ∧ OrderBook.bestAsk (book s0) = 3 ∧
    placeLimit clock0 1 2 BUY 8 5 0 GFD s0 = Ok tt s1 ∧
    trades s1 = [Trade.mk 2 1 5 3 0] ∧ OrderBook.bestAsk (book s1) = -1 ∧
    placeLimit clock0 1 2 BUY 3 0 0 GFD s0 = Ok tt s0.
Proof.
  eexists. eexists.
  repeat match goal with |- _ ∧ _ => split; [vm_compute; reflexivity|] end.
  vm_compute. reflexivity.
Qed.

(** ** The scenarios of the specification, on the small engine *)

(** Scenario 1, simple cross: one trade, the book is empty again. *)
Example scenario_simple_cross :
  ∃ s0 s1,
    run clock0 1 (PlaceLimit 1 SELL 5 10 0 GFD) small_engine = Ok tt s0 ∧
    run clock0 1 (PlaceLimit 2 BUY 5 10 0 GFD) s0 = Ok tt s1 ∧
    trades s1 = [Trade.mk 2 1 10 5 0] ∧
    OrderBook.bestBid (book s1) = -1 ∧ OrderBook.bestAsk (book s1) = -1 ∧
    queue SELL s1 = [] ∧ queue BUY s1 = [].
Proof.
  eexists. eexists.
  repeat match goal with |- _ ∧ _ => split; [vm_compute; reflexivity|] end.
  vm_compute. reflexivity.
Qed.

(** Scenario 2, partial fill: the residual of a GFD order rests. *)
Example scenario_partial_fill :
  ∃ s0 s1,
    run clock0 1 (PlaceLimit 1 SELL 1 4 0 GFD) small_engine = Ok tt s0 ∧
    run clock0 1 (PlaceLimit 10 BUY 1 10 0 GFD) s0 = Ok tt s1 ∧
    trades s1 = [Trade.mk 10 1 4 1 0] ∧
    OrderBook.bestBid (book s1) = 1 ∧ OrderBook.bestAsk (book s1) = -1 ∧
    (RingLevel.totalQty <$> level BUY 1 s1) = Some 6.
Proof.
  eexists. eexists.
  repeat match goal with |- _ ∧ _ => split; [vm_compute; reflexivity|] end.
  vm_compute. reflexivity.
Qed.

(** Scenario 5, a market order sweeps several levels. *)
Example scenario_market_sweep :
  ∃ s0 s1,
    run_all clock0 [(1%nat, PlaceLimit 1 SELL 0 2 0 GFD); (1%nat, PlaceLimit 2 SELL 1 3 0 GFD);
                    (1%nat, PlaceLimit 3 SELL 2 5 0 GFD)] small_engine = Ok tt s0 ∧
    run clock0 3 (PlaceMarket 40 BUY 8 0) s0 = Ok tt s1 ∧
    trades s1 = [Trade.mk 40 1 2 0 0; Trade.mk 40 2 3 1 0; Trade.mk 40 3 3 2 0] ∧
    OrderBook.bestAsk (book s1) = 2 ∧
    (RingLevel.totalQty <$> level SELL 2 s1) = Some 2.
Proof.
  eexists. eexists.
  repeat match goal with |- _ ∧ _ => split; [vm_compute; reflexivity|] end.
  vm_compute. reflexivity.
Qed.

(** Scenario 6, cancel restores the best bid and frees the slot. *)
Example scenario_cancel_restores_best :
  ∃ s0 s1,
    run_all clock0 [(1%nat, PlaceLimit 1 BUY 4 1 0 GFD); (1%nat, PlaceLimit 2 BUY 5 1 0 GFD)]
      small_engine = Ok tt s0 ∧
    OrderBook.bestBid (book s0) = 5 ∧
    cancel 2 s0 = Ok true s1 ∧
    OrderBook.bestBid (book s1) = 4 ∧ clientToEngine s1 !! 2 = None ∧
    length (OrderPool.freeList (pool s1)) = S (length (OrderPool.freeList (pool s0))).
Proof.
  eexists. eexists.
  repeat match goal with |- _ ∧ _ => split; [vm_compute; reflexivity|] end.
  vm_compute. reflexivity.
Qed.

(** * Properties of the components *)

(** ** The order pool *)

Lemma allocate_Val (o : Order) (p p' : OrderPool.t) (idx : Z) :
  OrderPool.allocate o p = Val (idx, p') ↔
  ∃ rest, reverse (OrderPool.freeList p) = idx :: rest ∧
    0 ≤ idx < Z.of_nat (length (OrderPool.pool p)) ∧
    p' = OrderPool.mk
           (<[Z.to_nat idx := set_active true (set_engineId idx o)]> (OrderPool.pool p))
           (reverse rest).
Proof.
  unfold OrderPool.allocate.
  destruct (reverse (OrderPool.freeList p)) as [|i rest] eqn:Hfl.
  { split; [done|]. by intros (rest & ? & _). }
  destruct (vec_set _ _ _) as [v|] eqn:Hv.
  - apply vec_set_Some in Hv as [Hi ->]. split.
    + intros [= -> <-]. by exists rest.
    + intros (rest' & [= -> ->] & _ & ->). done.
  - split; [done|]. intros (rest' & [= -> ->] & Hr & _).
    unfold vec_set in Hv. by rewrite decide_True in Hv.
Qed.

Lemma allocate_Exn (o : Order) (p : OrderPool.t) (m : string) :
  OrderPool.allocate o p = Exn m ↔
  OrderPool.freeList p = [] ∧ m = "Order pool exhausted"%string.
Proof.
  unfold OrderPool.allocate.
  destruct (reverse (OrderPool.freeList p)) as [|i rest] eqn:Hfl.
  - apply (f_equal reverse) in Hfl. rewrite reverse_involutive in Hfl.
    split; [by intros [= <-]|by intros [_ ->]].
  - assert (OrderPool.freeList p ≠ []) by (by intros Hn; rewrite Hn in Hfl).
    destruct (vec_set _ _ _); split; (done || by intros [? _]).
Qed.

Lemma back_of_list {A : Type} (l rest : list A) (x : A) :
  reverse l = x :: rest → l = reverse rest ++ [x].
Proof.
  intros H. apply (f_equal reverse) in H.
  by rewrite reverse_involutive, reverse_cons in H.
Qed.

(** X1. [allocate] takes the slot at the back of the free list, stores the
    order there with [engineId] the slot index and [active] set, and leaves
    every other slot and the size of the pool as they are. *)
Theorem allocate_stores (o : Order) (p p' : OrderPool.t) (idx : Z) :
  OrderPool.allocate o p = Val (idx, p') →
  OrderPool.freeList p = OrderPool.freeList p' ++ [idx] ∧
  OrderPool.get p' idx =
    Some (mkOrder (clientId o) idx (side o) (type o) (tif o) (priceIdx o) (qty o) (ts o) true) ∧
  (∀ j, j ≠ idx → OrderPool.get p' j = OrderPool.get p j) ∧
  length (OrderPool.pool p') = length (OrderPool.pool p).
Proof.
  intros (rest & Hfl & Hidx & ->)%allocate_Val. cbn [OrderPool.freeList OrderPool.pool].
  split_and!.
  - by apply back_of_list.
  - by rewrite get_insert, decide_True.
  - intros j Hj. rewrite get_insert, decide_False by done. by destruct p.
  - by rewrite length_insert.
Qed.

Lemma allocate_stores_witness :
  let p := OrderPool.new 2 in
  let o := mkOrder 7 0 SELL LIMIT IOC 3 5 9 false in
  ∃ p', OrderPool.allocate o p = Val (0, p') ∧
    OrderPool.freeList p = OrderPool.freeList p' ++ [0] ∧
    OrderPool.get p' 0 = Some (mkOrder 7 0 SELL LIMIT IOC 3 5 9 true) ∧
    (∀ j, j ≠ 0 → OrderPool.get p' j = OrderPool.get p j) ∧
    length (OrderPool.pool p') = length (OrderPool.pool p).
Proof.
  intros p o. eexists.
  assert (H : OrderPool.allocate o p =
              Val (0, OrderPool.mk [mkOrder 7 0 SELL LIMIT IOC 3 5 9 true; Order_default] [1]))
    by (vm_compute; reflexivity).
  split; [exact H|exact (allocate_stores o p _ 0 H)].
Defined.

(** X2. The free list is a stack: freeing the slot just allocated puts the
    free list back as it was, leaves the slot with its order cleared ([qty]
    0, not [active]), and the next [allocate] hands out the same slot. *)
Theorem allocate_free_reuses_slot (o o2 : Order) (p p1 : OrderPool.t) (idx : Z) :
  OrderPool.allocate o p = Val (idx, p1) →
  ∃ p2 p3,
    OrderPool.free idx p1 = Some p2 ∧
    OrderPool.freeList p2 = OrderPool.freeList p ∧
    OrderPool.get p2 idx =
      Some (mkOrder (clientId o) idx (side o) (type o) (tif o) (priceIdx o) 0 (ts o) false) ∧
    (∀ j, j ≠ idx → OrderPool.get p2 j = OrderPool.get p j) ∧
    OrderPool.allocate o2 p2 = Val (idx, p3).
Proof.
  intros (rest & Hfl & Hidx & ->)%allocate_Val.
  pose proof (back_of_list _ _ _ Hfl) as Hfl'.
  eexists. eexists. split_and!.
  - apply free_Some. eexists. split; [|reflexivity].
    by rewrite get_insert, decide_True.
  - cbn [OrderPool.freeList OrderPool.pool]. done.
  - cbn [OrderPool.freeList OrderPool.pool].
    rewrite list_insert_insert_eq. by rewrite get_insert, decide_True.
  - intros j Hj. cbn [OrderPool.freeList OrderPool.pool].
    rewrite list_insert_insert_eq. rewrite get_insert, decide_False by done. by destruct p.
  - apply allocate_Val. exists rest. cbn [OrderPool.freeList OrderPool.pool].
    split; [by rewrite <- Hfl', Hfl|]. split; [by rewrite !length_insert|reflexivity].
Qed.

Lemma allocate_free_reuses_slot_witness :
  let p := OrderPool.new 2 in
  let o := mkOrder 7 0 SELL LIMIT IOC 3 5 9 false in
  let o2 := mkOrder 8 0 BUY LIMIT GFD 4 1 10 false in
  ∃ p1 p2 p3,
    OrderPool.allocate o p = Val (0, p1) ∧
    OrderPool.free 0 p1 = Some p2 ∧
    OrderPool.freeList p2 = OrderPool.freeList p ∧
    OrderPool.get p2 0 = Some (mkOrder 7 0 SELL LIMIT IOC 3 0 9 false) ∧
    (∀ j, j ≠ 0 → OrderPool.get p2 j = OrderPool.get p j) ∧
    OrderPool.allocate o2 p2 = Val (0, p3).
Proof.
  intros p o o2.
  assert (H : OrderPool.allocate o p =
              Val (0, OrderPool.mk [mkOrder 7 0 SELL LIMIT IOC 3 5 9 true; Order_default] [1]))
    by (vm_compute; reflexivity).
  destruct (allocate_free_reuses_slot o o2 p _ 0 H) as (p2 & p3 & H2).
  eexists. exists p2, p3. split; [exact H|exact H2].
Defined.

Lemma new_pool_free (cap : Z) :
  reverse (OrderPool.freeList (OrderPool.new cap)) = Z.of_nat <$> seq 0 (Z.to_nat cap).
Proof.
  unfold OrderPool.new. cbn [OrderPool.freeList].
  apply list_eq. intros i.
  destruct (decide (i < Z.to_nat cap)%nat) as [Hi|Hi].
  - rewrite reverse_lookup by (rewrite length_map, length_seq; lia).
    rewrite length_map, length_seq.
    change (map ?f ?l) with (f <$> l).
    rewrite !list_lookup_fmap, !lookup_seq_lt by lia. simpl. f_equal. lia.
  - rewrite !lookup_ge_None_2; [done| |].
    + rewrite length_fmap, length_seq. lia.
    + rewrite length_reverse, length_map, length_seq. lia.
Qed.

Lemma allocate_each_seq (n : nat) (os : list Order) :
  ∀ (p : OrderPool.t) (k m : nat),
    length (OrderPool.pool p) = n →
    reverse (OrderPool.freeList p) = Z.of_nat <$> seq k m →
    (k + m = n)%nat → (length os ≤ m)%nat →
    ∃ p', allocate_each os p = Val (Z.of_nat <$> seq k (length os), p') ∧
          length (OrderPool.pool p') = n ∧
          reverse (OrderPool.freeList p') =
            Z.of_nat <$> seq (k + length os) (m - length os).
Proof.
  induction os as [|o os IH]; intros p k m Hn Hfl Hkm Hlen.
  - exists p. simpl. rewrite Nat.add_0_r, Nat.sub_0_r. done.
  - simpl in Hlen. destruct m as [|m]; [lia|].
    simpl in Hfl.
    set (p1 := OrderPool.mk
                 (<[Z.to_nat (Z.of_nat k) :=
                      set_active true (set_engineId (Z.of_nat k) o)]> (OrderPool.pool p))
                 (reverse (Z.of_nat <$> seq (S k) m))).
    assert (Ha : OrderPool.allocate o p = Val (Z.of_nat k, p1)).
    { apply allocate_Val. eexists. split; [exact Hfl|]. split; [lia|done]. }
    destruct (IH p1 (S k) m) as (p' & Hp' & Hn' & Hfl').
    { subst p1. cbn [OrderPool.pool]. by rewrite length_insert. }
    { subst p1. cbn [OrderPool.freeList]. by rewrite reverse_involutive. }
    { lia. }
    { lia. }
    exists p'. cbn [allocate_each]. rewrite Ha, Hp'. split_and!; [done|done|].
    rewrite Hfl'. cbn [length]. f_equal. f_equal; lia.
Qed.

(** X3. A fresh pool of capacity [cap] hands out the engine ids 0, 1, 2, ...
    in this order, one for each [allocate]; once [cap] orders are allocated
    the next [allocate] throws "Order pool exhausted". *)
Theorem fresh_pool_serves_capacity (cap : Z) (os : list Order) :
  Z.of_nat (length os) ≤ cap →
  ∃ p, allocate_each os (OrderPool.new cap) = Val (Z.of_nat <$> seq 0 (length os), p) ∧
       Z.of_nat (length (OrderPool.freeList p)) = cap - Z.of_nat (length os) ∧
       (Z.of_nat (length os) = cap →
        ∀ o, OrderPool.allocate o p = Exn "Order pool exhausted").
Proof.
  intros Hlen.
  destruct (allocate_each_seq (Z.to_nat cap) os (OrderPool.new cap) 0 (Z.to_nat cap))
    as (p & Hp & _ & Hfl).
  { unfold OrderPool.new. cbn [OrderPool.pool]. by rewrite length_replicate. }
  { apply new_pool_free. }
  { lia. }
  { lia. }
  exists p. split; [done|].
  assert (Hl : length (OrderPool.freeList p) = (Z.to_nat cap - length os)%nat).
  { rewrite <- (length_reverse (OrderPool.freeList p)), Hfl, length_fmap, length_seq. done. }
  split; [lia|].
  intros Hfull o. apply allocate_Exn. split; [|done].
  apply nil_length_inv. lia.
Qed.

Lemma fresh_pool_serves_capacity_witness :
  let os := [mkOrder 7 0 SELL LIMIT IOC 3 5 9 false; mkOrder 8 0 BUY LIMIT GFD 4 1 10 false] in
  ∃ p, allocate_each os (OrderPool.new 2) = Val ([0; 1], p) ∧
       Z.of_nat (length (OrderPool.freeList p)) = 2 - 2 ∧
       (Z.of_nat (length os) = 2 → ∀ o, OrderPool.allocate o p = Exn "Order pool exhausted").
Proof.
  intros os. apply (fresh_pool_serves_capacity 2 os). simpl. lia.
Defined.

(** ** The ring of a price level *)

Lemma push_Exn (e q : Z) (r : RingLevel.t) (m : string) :
  RingLevel.push e q r = Exn m ↔
  RingLevel.full r = true ∧ m = "Price level ring full"%string.
Proof.
  unfold RingLevel.push. destruct (RingLevel.full r).
  - split; [by intros [= <-]|by intros [_ ->]].
  - repeat case_match; split; (done || by intros [? _]).
Qed.

Lemma pop_front_Exn (q : Z) (r : RingLevel.t) (m : string) :
  RingLevel.pop_front q r = Exn m ↔
  RingLevel.empty r = true ∧ m = "pop from empty level"%string.
Proof.
  unfold RingLevel.pop_front. destruct (RingLevel.empty r).
  - split; [by intros [= <-]|by intros [_ ->]].
  - repeat case_match; split; (done || by intros [? _]).
Qed.

Lemma push_runs (e q : Z) (r : RingLevel.t) :
  ring_wf r → RingLevel.full r = false →
  - 2 ^ 63 ≤ RingLevel.totalQty r + q < 2 ^ 63 →
  ∃ r', RingLevel.push e q r = Val r'.
Proof.
  intros (Hsz & Hh & Ht) Hf Hq. unfold RingLevel.push. rewrite Hf.
  unfold vec_set. rewrite decide_True by (unfold RingLevel.size in *; lia).
  rewrite i64_in_range by done. eauto.
Qed.

(** X4. A ring is a first-in first-out queue of engine ids: [push] appends
    at the tail and adds the quantity to [totalQty], [pop_front] removes
    the entry that [front] shows and subtracts the quantity, and [empty]
    holds exactly of the ring with no entry. *)
Theorem ring_is_fifo (r : RingLevel.t) :
  ring_wf r →
  (RingLevel.empty r = true ↔ contents r = []) ∧
  (∀ e q r', RingLevel.push e q r = Val r' →
     ring_wf r' ∧ contents r' = contents r ++ [e] ∧
     RingLevel.totalQty r' = RingLevel.totalQty r + q) ∧
  (∀ q r', RingLevel.pop_front q r = Val r' →
     ring_wf r' ∧ (∃ x, RingLevel.front r = Some x ∧ contents r = x :: contents r') ∧
     RingLevel.totalQty r' = RingLevel.totalQty r - q).
Proof.
  intros Hwf. split; [by apply contents_empty|]. split.
  - intros e q r' H. by apply push_Val in H as (? & _ & ? & _ & ?).
  - intros q r' H. by apply pop_front_Val in H as (? & _ & ? & _ & ?).
Qed.

Lemma ring_is_fifo_witness :
  let r := RingLevel.mk [11; UINT64_MAX; UINT64_MAX; 10] 3 1 7 in
  ring_wf r ∧
  (RingLevel.empty r = true ↔ contents r = []) ∧
  (∀ e q r', RingLevel.push e q r = Val r' →
     ring_wf r' ∧ contents r' = contents r ++ [e] ∧
     RingLevel.totalQty r' = RingLevel.totalQty r + q) ∧
  (∀ q r', RingLevel.pop_front q r = Val r' →
     ring_wf r' ∧ (∃ x, RingLevel.front r = Some x ∧ contents r = x :: contents r') ∧
     RingLevel.totalQty r' = RingLevel.totalQty r - q).
Proof.
  intros r.
  assert (Hwf : ring_wf r) by (unfold ring_wf, RingLevel.size; simpl; lia).
  split; [exact Hwf|exact (ring_is_fifo r Hwf)].
Defined.

(** X5. A ring whose buffer has [size] slots holds at most [size - 1]
    entries: [push] throws "Price level ring full" exactly when it holds
    that many (4095 for the rings of the source), and [pop_front] throws
    "pop from empty level" exactly when it holds none. *)
Theorem ring_holds_one_less_than_size (r : RingLevel.t) :
  ring_wf r →
  Z.of_nat (length (contents r)) ≤ RingLevel.size r - 1 ∧
  (∀ e q, RingLevel.push e q r = Exn "Price level ring full" ↔
          Z.of_nat (length (contents r)) = RingLevel.size r - 1) ∧
  (RingLevel.size r = RING_CAPACITY_PER_LEVEL →
   ∀ e q, RingLevel.push e q r = Exn "Price level ring full" ↔
          length (contents r) = 4095%nat) ∧
  (∀ q, RingLevel.pop_front q r = Exn "pop from empty level" ↔ contents r = []).
Proof.
  intros Hwf.
  pose proof (count_range r Hwf) as Hcr. pose proof (length_contents r Hwf) as Hl.
  assert (Hpush : ∀ e q, RingLevel.push e q r = Exn "Price level ring full" ↔
                         Z.of_nat (length (contents r)) = RingLevel.size r - 1).
  { intros e q. rewrite push_Exn, full_count, bool_decide_eq_true, Hl by done.
    split; [by intros [? _]|done]. }
  split; [lia|]. split; [done|]. split.
  - intros Hsz e q. rewrite Hpush, Hsz. unfold RING_CAPACITY_PER_LEVEL. lia.
  - intros q. rewrite pop_front_Exn, contents_empty by done. split; [by intros [? _]|done].
Qed.

Lemma ring_holds_one_less_than_size_witness :
  let r := RingLevel.mk [11; 12; UINT64_MAX; 10] 3 2 7 in
  ring_wf r ∧ contents r = [10; 11; 12] ∧
  RingLevel.push 13 1 r = Exn "Price level ring full" ∧
  Z.of_nat (length (contents r)) ≤ RingLevel.size r - 1.
Proof.
  intros r.
  assert (Hwf : ring_wf r) by (unfold ring_wf, RingLevel.size; simpl; lia).
  destruct (ring_holds_one_less_than_size r Hwf) as (Hle & Hpush & _).
  split; [exact Hwf|]. split; [reflexivity|]. split; [|exact Hle].
  apply Hpush. reflexivity.
Defined.

Lemma push_each_appends (es : list (Z * Z)) :
  ∀ r, ring_wf r →
    Z.of_nat (length (contents r)) + Z.of_nat (length es) ≤ RingLevel.size r - 1 →
    Forall (λ eq : Z * Z, 0 ≤ eq.2) es →
    - 2 ^ 63 ≤ RingLevel.totalQty r →
    RingLevel.totalQty r + foldr Z.add 0 (es.*2) < 2 ^ 63 →
    ∃ r', push_each es r = Val r' ∧ ring_wf r' ∧ RingLevel.size r' = RingLevel.size r ∧
          contents r' = contents r ++ es.*1 ∧
          RingLevel.totalQty r' = RingLevel.totalQty r + foldr Z.add 0 (es.*2).
Proof.
  induction es as [|[e q] es IH]; intros r Hwf Hlen Hpos Hlo Hhi.
  - exists r. simpl. rewrite app_nil_r, Z.add_0_r. done.
  - apply Forall_cons in Hpos as [Hq Hpos].
    rewrite fmap_cons in Hhi. cbn [foldr snd length] in Hq, Hlen, Hhi.
    assert (Hsum : 0 ≤ foldr Z.add 0 (es.*2)).
    { apply sum_nonneg. intros x (y & -> & Hy)%list_elem_of_fmap.
      by apply (proj1 (Forall_forall _ _) Hpos). }
    pose proof (length_contents r Hwf) as Hl.
    destruct (push_runs e q r Hwf) as (r1 & Hr1).
    { rewrite full_count by done. apply bool_decide_eq_false. lia. }
    { lia. }
    pose proof (push_Val _ _ _ _ Hwf Hr1) as (Hwf1 & Hsz1 & Htq1 & _ & Hc1).
    destruct (IH r1 Hwf1) as (r' & Hr' & Hwf' & Hsz' & Hc' & Htq').
    { rewrite Hc1, length_app, Hsz1. simpl. lia. }
    { done. }
    { lia. }
    { lia. }
    exists r'. cbn [push_each]. rewrite Hr1. split_and!; [done|done|congruence| |].
    + rewrite Hc', Hc1, <- app_assoc. done.
    + rewrite Htq', Htq1, fmap_cons. cbn [foldr snd]. lia.
Qed.

(** X6. The ring built by [RingLevel()] with a buffer of [cap] slots is
    empty and takes [cap - 1] pushes: the entries are queued in the order
    pushed, [totalQty] is the sum of their quantities, and one more [push]
    throws "Price level ring full". *)
Theorem fresh_ring_takes_cap_minus_one (cap : Z) (es : list (Z * Z)) :
  0 < cap < 2 ^ 63 → Z.of_nat (length es) = cap - 1 →
  Forall (λ eq : Z * Z, 0 ≤ eq.2) es → foldr Z.add 0 (es.*2) < 2 ^ 63 →
  contents (RingLevel.new cap) = [] ∧
  ∃ r, push_each es (RingLevel.new cap) = Val r ∧
       contents r = es.*1 ∧ RingLevel.totalQty r = foldr Z.add 0 (es.*2) ∧
       ∀ e q, RingLevel.push e q r = Exn "Price level ring full".
Proof.
  intros Hcap Hlen Hpos Hsum.
  destruct (new_ring cap Hcap) as (Hwf & Hc & _). split; [done|].
  assert (Hsz : RingLevel.size (RingLevel.new cap) = cap).
  { unfold RingLevel.size, RingLevel.new. simpl. rewrite length_replicate. lia. }
  destruct (push_each_appends es (RingLevel.new cap) Hwf) as (r & Hr & Hwf' & Hsz' & Hc' & Htq').
  { rewrite Hc, Hsz. simpl. lia. }
  { done. }
  { simpl. lia. }
  { simpl. lia. }
  exists r. rewrite Hc in Hc'. simpl in Hc', Htq'. split_and!; [done|done|done|].
  intros e q. apply push_Exn. split; [|done].
  rewrite full_count by done. apply bool_decide_eq_true.
  rewrite <- (length_contents r Hwf'), Hc', length_fmap, Hsz', Hsz. lia.
Qed.

Lemma fresh_ring_takes_cap_minus_one_witness :
  let es := [(10, 3); (11, 4); (12, 0)] in
  contents (RingLevel.new 4) = [] ∧
  ∃ r, push_each es (RingLevel.new 4) = Val r ∧
       contents r = [10; 11; 12] ∧ RingLevel.totalQty r = 7 ∧
       ∀ e q, RingLevel.push e q r = Exn "Price level ring full".
Proof.
  intros es. apply (fresh_ring_takes_cap_minus_one 4 es).
  - lia.
  - reflexivity.
  - repeat constructor; simpl; lia.
  - simpl. lia.
Defined.

(** ** The best-price caches of the book *)

(** X7. [updateBestAfterRemove(s, idx)] never touches the levels or the
    cache of the other side. When the cache of [s] is not [idx] the book is
    left as it is; when it is [idx], the cache moves to the nearest
    non-empty level from [idx] away from the top of the book (down for
    bids, up for asks), or to -1 if there is none, and is then the best
    price of the side provided no level better than [idx] holds an order. *)
Theorem updateBestAfterRemove_restores_cache (sd : Side) (idx : Z) (b : OrderBook.t) :
  Z.of_nat (length (OrderBook.levels sd b)) = OrderBook.nlevels b →
  0 ≤ idx < OrderBook.nlevels b →
  ∃ b', OrderBook.updateBestAfterRemove sd idx b = Some b' ∧
    OrderBook.bids b' = OrderBook.bids b ∧ OrderBook.asks b' = OrderBook.asks b ∧
    OrderBook.best (opposite sd) b' = OrderBook.best (opposite sd) b ∧
    (OrderBook.best sd b ≠ idx → b' = b) ∧
    (OrderBook.best sd b = idx →
     next_best sd (OrderBook.levels sd b) idx (OrderBook.best sd b') ∧
     ((∀ j, match sd with BUY => idx < j | SELL => j < idx end →
            ¬ nonempty_at (OrderBook.levels sd b) j) →
      is_best sd (OrderBook.levels sd b') (OrderBook.best sd b'))).
Proof.
  intros Hlen Hidx.
  destruct (updateBestAfterRemove_is_Some sd idx b Hlen Hidx) as [b' Hb'].
  exists b'. split; [done|].
  destruct (updateBestAfterRemove_Some sd idx b b' Hlen Hb') as (x & -> & Hx).
  split_and!.
  - by destruct sd.
  - by destruct sd.
  - by destruct sd.
  - intros Hne. destruct Hx as [[? _]|[_ ->]]; [done|]. apply set_best_same.
  - intros Heq. destruct Hx as [[_ Hx]|[? _]]; [|done].
    rewrite best_set_best, decide_True, levels_set_best by done. split; [done|].
    intros Hbetter. destruct sd; simpl in *.
    + destruct Hx as [[-> Hall]|(Hr & Hne & Hall)].
      * left. split; [done|]. intros j Hj.
        destruct (decide (j ≤ idx)); [by apply (Hall j)|apply (Hbetter j); [lia|done]].
      * right. split; [done|]. intros j Hj Hne'.
        destruct (decide (j ≤ idx)); [apply (Hall j); [lia|done]|apply (Hbetter j); [lia|done]].
    + destruct Hx as [[-> Hall]|(Hr & Hne & Hall)].
      * left. split; [done|]. intros j Hj.
        destruct (decide (idx ≤ j)); [by apply (Hall j)|apply (Hbetter j); [lia|done]].
      * right. split; [done|]. intros j Hj Hne'.
        destruct (decide (idx ≤ j)); [apply (Hall j); [lia|done]|apply (Hbetter j); [lia|done]].
Qed.

Lemma updateBestAfterRemove_restores_cache_witness :
  let e := RingLevel.new 4 in
  let r := RingLevel.mk [10; UINT64_MAX; UINT64_MAX; UINT64_MAX] 0 1 5 in
  let b := OrderBook.mk 4 [e; r; e; e] [e; e; e; e] 3 (-1) in
  ∃ b', OrderBook.updateBestAfterRemove BUY 3 b = Some b' ∧
    OrderBook.bids b' = OrderBook.bids b ∧ OrderBook.asks b' = OrderBook.asks b ∧
    OrderBook.best SELL b' = OrderBook.best SELL b ∧
    OrderBook.bestBid b' = 1 ∧
    is_best BUY (OrderBook.levels BUY b') (OrderBook.best BUY b').
Proof.
  intros e r b.
  destruct (updateBestAfterRemove_restores_cache BUY 3 b) as (b' & Hb' & H1 & H2 & H3 & _ & H5).
  { reflexivity. }
  { simpl. lia. }
  exists b'. split; [exact Hb'|]. split; [exact H1|]. split; [exact H2|]. split; [exact H3|].
  split.
  - vm_compute in Hb'. injection Hb' as <-. reflexivity.
  - apply H5; [reflexivity|].
    intros j Hj (x & Hx & _). unfold vec_get in Hx.
    rewrite decide_True in Hx by lia.
    apply lookup_lt_Some in Hx. simpl in Hx. lia.
Defined.

(** X8. [updateBestAfterAdd(s, idx)] keeps the cache of [s] right when level
    [idx] has just received an order: if the cache was the best price of the
    side before, it is the best price of the side with level [idx]
    non-empty. For bids the cache becomes the larger of the old cache and
    [idx]; for asks [idx] if the cache was -1, the smaller otherwise. *)
Theorem updateBestAfterAdd_keeps_cache (sd : Side) (p : nat) (pl : RingLevel.t)
    (b : OrderBook.t) :
  is_best sd (OrderBook.levels sd b) (OrderBook.best sd b) →
  (p < length (OrderBook.levels sd b))%nat → RingLevel.empty pl = false →
  let b' := OrderBook.updateBestAfterAdd sd (Z.of_nat p)
              (OrderBook.set_levels sd (<[p := pl]> (OrderBook.levels sd b)) b) in
  is_best sd (OrderBook.levels sd b') (OrderBook.best sd b') ∧
  OrderBook.best sd b' =
    match sd with
    | BUY => Z.max (OrderBook.bestBid b) (Z.of_nat p)
    | SELL => if decide (OrderBook.bestAsk b = -1) then Z.of_nat p
              else Z.min (OrderBook.bestAsk b) (Z.of_nat p)
    end.
Proof.
  intros Hb Hp He b'. subst b'.
  assert (Hat : nonempty_at (<[p := pl]> (OrderBook.levels sd b)) (Z.of_nat p)).
  { apply nonempty_at_insert; [done|]. by rewrite decide_True. }
  assert (Hin : ∀ i, i ≠ Z.of_nat p →
            nonempty_at (<[p := pl]> (OrderBook.levels sd b)) i ↔
            nonempty_at (OrderBook.levels sd b) i).
  { intros i Hi. by apply nonempty_at_insert_ne. }
  rewrite updateBestAfterAdd_eq.
  rewrite levels_set_best, levels_set_levels, best_set_best, best_set_levels.
  rewrite !decide_True by done.
  destruct sd; simpl in *.
  - case_decide as Hlt.
    + split; [|lia]. right. split; [done|]. intros i Hi Hne. apply Hin in Hne; [|lia].
      destruct Hb as [[_ Hall]|[_ Hbeyond]]; [by apply (Hall i)|].
      apply (Hbeyond i); [lia|done].
    + split; [|lia]. destruct Hb as [[? _]|[Hne Hbeyond]]; [lia|]. right. split.
      * destruct (decide (OrderBook.bestBid b = Z.of_nat p)) as [->|]; [done|].
        by apply Hin.
      * intros i Hi Hne'. apply Hin in Hne'; [|lia]. by apply (Hbeyond i).
  - case_decide as Hlt.
    + split; [|repeat case_decide; lia]. right. split; [done|].
      intros i Hi Hne. apply Hin in Hne; [|lia].
      destruct Hb as [[_ Hall]|[Hne' Hbeyond]]; [by apply (Hall i)|].
      pose proof (nonempty_at_range _ _ Hne').
      apply (Hbeyond i); [lia|done].
    + split; [|repeat case_decide; lia].
      destruct Hb as [[? _]|[Hne Hbeyond]]; [tauto|]. right. split.
      * destruct (decide (OrderBook.bestAsk b = Z.of_nat p)) as [->|]; [done|].
        by apply Hin.
      * intros i Hi Hne'. apply Hin in Hne'; [|lia]. by apply (Hbeyond i).
Qed.

Lemma updateBestAfterAdd_keeps_cache_witness :
  let e := RingLevel.new 4 in
  let r := RingLevel.mk [10; UINT64_MAX; UINT64_MAX; UINT64_MAX] 0 1 5 in
  let b := OrderBook.mk 4 [e; e; e; e] [e; e; e; e] (-1) (-1) in
  let b' := OrderBook.updateBestAfterAdd SELL 2
              (OrderBook.set_levels SELL (<[2%nat := r]> (OrderBook.levels SELL b)) b) in
  is_best SELL (OrderBook.levels SELL b') (OrderBook.best SELL b') ∧
  OrderBook.best SELL b' = 2.
Proof.
  intros e r b.
  apply (updateBestAfterAdd_keeps_cache SELL 2 r b).
  - left. split; [reflexivity|]. intros i (x & Hx & Hne). unfold vec_get in Hx.
    case_decide; [|done].
    apply list_elem_of_lookup_2 in Hx. simpl in Hx.
    repeat (apply elem_of_cons in Hx as [->|Hx]; [done|]). by apply elem_of_nil in Hx.
  - simpl. lia.
  - reflexivity.
Defined.

(** * Properties of the engine *)

(** ** What a sweep trades *)

Lemma sum_all_zero (l : list Z) : (∀ x, x ∈ l → x = 0) → foldr Z.add 0 l = 0.
Proof.
  induction l as [|x l IH]; intros H; simpl; [done|].
  rewrite (H x) by left. rewrite IH; [done|]. intros y Hy. apply H. by right.
Qed.

Lemma side_level_ok (sd : Side) (s : Engine.t) (i : nat) (r : RingLevel.t) :
  wf s → OrderBook.levels sd (book s) !! i = Some r → level_ok (pool s) sd i r.
Proof. intros (_ & Hb & Ha) Hr. destruct sd; [by apply Hb|by apply Ha]. Qed.

Lemma empty_level_total (p : OrderPool.t) (sd : Side) (i : nat) (r : RingLevel.t) :
  level_ok p sd i r → RingLevel.empty r = true → RingLevel.totalQty r = 0.
Proof.
  intros (Hwf & _ & _ & Hs & _) He. apply contents_empty in He; [|done].
  rewrite Hs. unfold level_sum. by rewrite He.
Qed.

Lemma totals_zero_where_empty (sd : Side) (s : Engine.t) (l : list RingLevel.t) :
  wf s →
  (∀ r, r ∈ l → ∃ i : nat, OrderBook.levels sd (book s) !! i = Some r ∧
                 ¬ nonempty_at (OrderBook.levels sd (book s)) (Z.of_nat i)) →
  foldr Z.add 0 (RingLevel.totalQty <$> l) = 0.
Proof.
  intros Hwf H. apply sum_all_zero. intros x (r & -> & Hr)%list_elem_of_fmap.
  destruct (H r Hr) as (i & Hi & Hne).
  apply (empty_level_total (pool s) sd i); [by apply side_level_ok|].
  destruct (RingLevel.empty r) eqn:He; [done|]. exfalso. apply Hne.
  exists r. split; [|done]. apply vec_get_Some. split; [lia|]. by rewrite Nat2Z.id.
Qed.

Lemma is_best_empty_beyond (sd : Side) (v : list RingLevel.t) (x i : Z) :
  is_best sd v x →
  x = -1 ∨ match sd with BUY => x < i | SELL => i < x end →
  ¬ nonempty_at v i.
Proof.
  intros Hb Hi.
  assert (Hm : ¬ nonempty_at v (-1)) by (intros ?%nonempty_at_range; lia).
  destruct sd; simpl in *.
  - destruct Hb as [[_ Hall]|[Hne Hb]]; [apply Hall|].
    destruct Hi as [->|Hi]; [done|by apply Hb].
  - destruct Hb as [[_ Hall]|[Hne Hb]]; [apply Hall|].
    destruct Hi as [->|Hi]; [done|by apply Hb].
Qed.

Lemma guard_false_reach (priced : bool) (opp : Side) (taker : Order) (s : Engine.t) :
  guard priced opp taker s = false → 0 < qty taker →
  OrderBook.best opp (book s) = -1 ∨
  crossing priced opp (OrderBook.best opp (book s)) (priceIdx taker) = false.
Proof.
  unfold guard. intros Hg Hq. rewrite bool_decide_eq_true_2 in Hg by done.
  simpl in Hg. case_bool_decide as Hb; simpl in Hg; [by right|].
  left. destruct (decide (OrderBook.best opp (book s) = -1)); [done|tauto].
Qed.

Lemma sweepable_zero (priced : bool) (opp : Side) (taker : Order) (s : Engine.t) :
  wf s → best_ok (book s) →
  guard priced opp taker s = false → 0 < qty taker →
  sweepable priced opp (priceIdx taker) s = 0.
Proof.
  intros Hwf Hok Hg Hq.
  apply best_ok_sides in Hok as [Hbest _]. pose proof (Hbest opp) as Hb.
  pose proof (guard_false_reach _ _ _ _ Hg Hq) as Hr.
  unfold sweepable. destruct priced.
  - destruct opp; simpl in *.
    + (* bids swept by a sell *)
      apply (totals_zero_where_empty BUY s); [done|].
      intros r (j & Hj)%list_elem_of_lookup. rewrite lookup_drop in Hj.
      eexists. split; [exact Hj|]. apply (is_best_empty_beyond BUY _ _ _ Hb).
      destruct Hr as [Hr|Hr]; [by left|right].
      apply bool_decide_eq_false in Hr. simpl. lia.
    + apply (totals_zero_where_empty SELL s); [done|].
      intros r (j & [Hj Hlt]%lookup_take_Some)%list_elem_of_lookup.
      eexists. split; [exact Hj|]. apply (is_best_empty_beyond SELL _ _ _ Hb).
      destruct Hr as [Hr|Hr]; [by left|right].
      apply bool_decide_eq_false in Hr. simpl. lia.
  - destruct Hr as [Hr|Hr]; [|done].
    apply (totals_zero_where_empty opp s); [done|].
    intros r (j & Hj)%list_elem_of_lookup.
    eexists. split; [exact Hj|]. apply (is_best_empty_beyond opp _ _ _ Hb). by left.
Qed.

Lemma sweepable_step (priced : bool) (opp : Side) (p : Z) (s s1 : Engine.t)
    (b : nat) (pl pl' : RingLevel.t) :
  OrderBook.levels opp (book s) !! b = Some pl →
  OrderBook.levels opp (book s1) = <[b := pl']> (OrderBook.levels opp (book s)) →
  crossing priced opp (Z.of_nat b) p = true →
  sweepable priced opp p s1 =
  sweepable priced opp p s - RingLevel.totalQty pl + RingLevel.totalQty pl'.
Proof.
  intros Hpl Hlv Hc. unfold sweepable, available, executable. destruct priced.
  - destruct opp; simpl in *; apply bool_decide_eq_true in Hc.
    + rewrite Hlv, drop_insert_ge by lia. rewrite list_fmap_insert.
      apply sum_insert. rewrite list_lookup_fmap, lookup_drop.
      replace (Z.to_nat p + (b - Z.to_nat p))%nat with b by lia. by rewrite Hpl.
    + rewrite Hlv, take_insert_lt by lia. rewrite list_fmap_insert.
      apply sum_insert. rewrite list_lookup_fmap.
      assert (take (Z.to_nat (p + 1)) (OrderBook.asks (book s)) !! b = Some pl) as ->; [|done].
      apply lookup_take_Some. split; [done|lia].
  - rewrite Hlv, list_fmap_insert. apply sum_insert. by rewrite list_lookup_fmap, Hpl.
Qed.

Lemma sweepable_same (priced : bool) (opp : Side) (p : Z) (s s1 : Engine.t) :
  OrderBook.levels opp (book s1) = OrderBook.levels opp (book s) →
  sweepable priced opp p s1 = sweepable priced opp p s.
Proof.
  intros Hlv. unfold sweepable, available, executable.
  destruct priced; [|by rewrite Hlv]. destruct opp; simpl in *; by rewrite Hlv.
Qed.

Lemma traded_app (l1 l2 : list Trade.t) : traded (l1 ++ l2) = traded l1 + traded l2.
Proof.
  unfold traded. induction l1 as [|x l1 IH]; [done|].
  rewrite <- app_comm_cons, !fmap_cons. cbn [foldr]. rewrite IH. lia.
Qed.

(** One iteration of a matching loop, seen from outside. *)
Lemma matchStep_facts (clock : nat → Z) (priced : bool) (opp : Side)
    (taker t1 : Order) (s s1 : Engine.t) :
  wf s → guard priced opp taker s = true →
  matchStep clock opp taker s = Ok t1 s1 →
  ∃ nt, trades s1 = trades s ++ nt ∧
    Forall (trade_ok priced opp (clientId taker) (priceIdx taker)
              (OrderBook.nlevels (book s))) nt ∧
    traded nt = qty taker - qty t1 ∧ 0 ≤ qty t1 ∧
    sweepable priced opp (priceIdx taker) s1 =
      sweepable priced opp (priceIdx taker) s - traded nt ∧
    OrderBook.levels (opposite opp) (book s1) = OrderBook.levels (opposite opp) (book s) ∧
    OrderBook.best (opposite opp) (book s1) = OrderBook.best (opposite opp) (book s) ∧
    OrderBook.nlevels (book s1) = OrderBook.nlevels (book s) ∧
    clientToEngine s1 ⊆ clientToEngine s ∧
    (∃ fr, OrderPool.freeList (pool s1) = OrderPool.freeList (pool s) ++ fr) ∧
    length (OrderPool.pool (pool s1)) = length (OrderPool.pool (pool s)) ∧
    nextClientId s1 = nextClientId s ∧
    available opp s1 = available opp s - traded nt ∧
    (∀ e o, OrderPool.get (pool s) e = Some o → active o = true → side o ≠ opp →
            OrderPool.get (pool s1) e = Some o).
Proof.
  intros Hwf Hg Hstep.
  pose proof (guard_true _ _ _ _ Hg) as [Hq Hbne].
  pose proof (matchStep_Ok _ _ _ _ _ _ Hwf Hstep) as (pl & Hpl & Hcase). simpl in Hcase.
  pose proof (vec_get_range _ _ _ Hpl) as Hbr.
  pose proof (side_ok_length opp s Hwf) as Hlen.
  assert (Hopp : opposite opp ≠ opp) by apply opposite_ne.
  destruct Hcase as [(He & -> & x & Hx & ->)|(He & e & rest & maker & pl' & x & Hc & Hm & Hrest)].
  - exists []. rewrite app_nil_r. simpl.
    rewrite levels_set_best, best_set_best, decide_False, nlevels_set_best by done.
    split_and!; try done; try lia.
    + unfold traded. simpl. lia.
    + unfold traded. simpl. rewrite Z.sub_0_r. apply sweepable_same. simpl.
      by rewrite levels_set_best.
    + by exists []; rewrite app_nil_r.
    + unfold traded, available. simpl. rewrite Z.sub_0_r. by rewrite levels_set_best.
  - simpl in Hrest.
    destruct Hrest as (-> & Htq & Hmq & Htot & Htr & Hncid & Hbook & Hrwf' & Htq' & Hc'
                       & Hx & Hpool & Hcte).
    pose proof (level_wf _ _ _ _ Hwf Hpl) as Hlok.
    pose proof Hlok as (_ & _ & Hres & _).
    destruct (Hres e) as (o & Ho & Hact & Hsd & Hpr & Hqo).
    { rewrite Hc. by left. }
    assert (o = maker) as -> by congruence.
    rewrite Z2Nat.id in Hpr by lia.
    set (fill := Z.min (qty maker) (qty taker)) in *.
    assert (Hfill : 0 < fill) by (subst fill; lia).
    eexists. split; [exact Htr|]. cbn [qty set_qty].
    apply vec_get_Some in Hpl as [_ Hpl].
    assert (Hcross : crossing priced opp (OrderBook.best opp (book s)) (priceIdx taker) = true).
    { unfold guard in Hg. by apply andb_true_iff in Hg as [_ ?]. }
    split_and!.
    + constructor; [|constructor]. unfold trade_ok. simpl.
      rewrite Hpr. split_and!; try done; lia.
    + unfold traded. simpl. lia.
    + subst fill. lia.
    + unfold traded. simpl. rewrite Z.add_0_r.
      rewrite (sweepable_step priced opp (priceIdx taker) s s1
                 (Z.to_nat (OrderBook.best opp (book s))) pl pl'); [lia|done| |].
      * by rewrite Hbook, levels_set_best, levels_set_levels, decide_True.
      * by rewrite Z2Nat.id by lia.
    + by rewrite Hbook, levels_set_best, levels_set_levels, decide_False.
    + by rewrite Hbook, best_set_best, decide_False, best_set_levels.
    + by rewrite Hbook, nlevels_set_best, nlevels_set_levels.
    + rewrite Hcte. case_decide; [apply delete_subseteq|done].
    + rewrite Hpool. simpl. eauto.
    + rewrite Hpool. simpl. by rewrite length_insert.
    + done.
    + unfold traded. simpl. rewrite Z.add_0_r.
      pose proof (sweepable_step false opp 0 s s1
                    (Z.to_nat (OrderBook.best opp (book s))) pl pl') as Hav.
      unfold sweepable in Hav. rewrite Hav; [lia|done| |done].
      by rewrite Hbook, levels_set_best, levels_set_levels, decide_True.
    + intros e' o' Ho' Ha' Hs'. rewrite Hpool.
      pose proof (vec_get_range _ _ _ Hm) as Her.
      rewrite get_insert by done. destruct (decide (e' = e)) as [->|Hd].
      * assert (o' = maker) as -> by congruence. done.
      * by destruct (pool s).
Qed.

(** A whole sweep, seen from outside. *)
Lemma sweep_facts (clock : nat → Z) (priced : bool) (opp : Side) (fuel : nat) :
  ∀ (taker taker' : Order) (s s' : Engine.t),
  wf s → best_ok (book s) →
  sweep clock fuel priced opp taker s = Ok taker' s' →
  ∃ nt, trades s' = trades s ++ nt ∧
    Forall (trade_ok priced opp (clientId taker) (priceIdx taker)
              (OrderBook.nlevels (book s))) nt ∧
    traded nt = qty taker - qty taker' ∧
    (qty taker' = qty taker ∨ 0 ≤ qty taker') ∧
    sweepable priced opp (priceIdx taker) s' =
      sweepable priced opp (priceIdx taker) s - traded nt ∧
    (0 < qty taker' → sweepable priced opp (priceIdx taker) s' = 0) ∧
    OrderBook.levels (opposite opp) (book s') = OrderBook.levels (opposite opp) (book s) ∧
    OrderBook.best (opposite opp) (book s') = OrderBook.best (opposite opp) (book s) ∧
    OrderBook.nlevels (book s') = OrderBook.nlevels (book s) ∧
    clientToEngine s' ⊆ clientToEngine s ∧
    (∃ fr, OrderPool.freeList (pool s') = OrderPool.freeList (pool s) ++ fr) ∧
    length (OrderPool.pool (pool s')) = length (OrderPool.pool (pool s)) ∧
    nextClientId s' = nextClientId s ∧
    available opp s' = available opp s - traded nt ∧
    (∀ e o, OrderPool.get (pool s) e = Some o → active o = true → side o ≠ opp →
            OrderPool.get (pool s') e = Some o).
Proof.
  induction fuel as [|fuel IH]; intros taker taker' s s' Hwf Hok Hsw.
  - simpl in Hsw. destruct (guard priced opp taker s) eqn:Hg; [done|].
    injection Hsw as <- <-. exists []. rewrite app_nil_r.
    split_and!; try done.
    + unfold traded. simpl. lia.
    + by left.
    + unfold traded. simpl. lia.
    + intros Hq. by apply sweepable_zero.
    + by exists []; rewrite app_nil_r.
    + unfold traded. simpl. lia.
  - simpl in Hsw. destruct (guard priced opp taker s) eqn:Hg.
    + destruct (matchStep clock opp taker s) as [t1 s1| | |] eqn:Hstep; try done.
      simpl in Hsw.
      pose proof (guard_true _ _ _ _ Hg) as [Hq Hbne].
      pose proof (matchStep_facts _ _ _ _ _ _ _ Hwf Hg Hstep)
        as (nt1 & Htr1 & Hok1 & Hsum1 & Hq1 & Hsw1 & Hlv1 & Hb1 & Hn1 & Hcte1 & [fr1 Hfl1] & Hlen1
            & Hnc1 & Hav1 & Hfr1).
      assert (Hwf1 : wf s1) by (eapply matchStep_wf; [done| |done]; lia).
      assert (Hok1' : best_ok (book s1)).
      { eapply matchStep_best_ok; [exact Hwf|exact Hok|exact Hbne|exact Hstep]. }
      pose proof (matchStep_taker _ _ _ _ _ _ Hstep) as Ht1.
      destruct (IH _ _ _ _ Hwf1 Hok1' Hsw)
        as (nt2 & Htr2 & Hok2 & Hsum2 & Hq2 & Hsw2 & Hz2 & Hlv2 & Hb2 & Hn2 & Hcte2 & [fr2 Hfl2] & Hlen2
            & Hnc2 & Hav2 & Hfr2).
      assert (Hcid : clientId t1 = clientId taker) by (by rewrite Ht1).
      assert (Hpid : priceIdx t1 = priceIdx taker) by (by rewrite Ht1).
      rewrite Hcid, Hpid, Hn1 in *.
      exists (nt1 ++ nt2). rewrite traded_app. split_and!.
      * by rewrite Htr2, Htr1, app_assoc.
      * apply Forall_app. done.
      * lia.
      * right. lia.
      * lia.
      * done.
      * congruence.
      * congruence.
      * congruence.
      * by etrans.
      * exists (fr1 ++ fr2). by rewrite Hfl2, Hfl1, app_assoc.
      * congruence.
      * congruence.
      * lia.
      * intros e o Ho Ha Hsd. apply Hfr2; [|done|done]. by apply Hfr1.
    + injection Hsw as <- <-. exists []. rewrite app_nil_r.
      split_and!; try done.
      * unfold traded. simpl. lia.
      * by left.
      * unfold traded. simpl. lia.
      * intros Hq. by apply sweepable_zero.
      * by exists []; rewrite app_nil_r.
      * unfold traded. simpl. lia.
Qed.

(** ** Limit and market orders *)

Lemma placeLimit_eq (clock : nat → Z) (fuel : nat) (cid : Z) (sd : Side)
    (pidx q now : Z) (tf : TimeInForce) (s : Engine.t) :
  placeLimit clock fuel cid sd pidx q now tf s =
  obind (sweep clock fuel true (opposite sd) (limit_taker cid sd pidx q now tf) s)
    (λ t1 s1, if bool_decide (0 < qty t1) && bool_decide (type t1 = LIMIT)
              then addPassive sd t1 s1 else Ok tt s1).
Proof. unfold placeLimit, matchAndAdd. by destruct sd. Qed.

Lemma placeMarket_eq (clock : nat → Z) (fuel : nat) (cid : Z) (sd : Side)
    (q now : Z) (s : Engine.t) :
  placeMarket clock fuel cid sd q now s =
  obind (sweep clock fuel false (opposite sd) (market_taker cid sd q now) s)
    (λ _ s1, Ok tt s1).
Proof. unfold placeMarket, matchMarket. by destruct sd. Qed.

Lemma traded_nonneg (priced : bool) (opp : Side) (cid p n : Z) (nt : list Trade.t) :
  Forall (trade_ok priced opp cid p n) nt → 0 ≤ traded nt.
Proof.
  unfold traded. induction 1 as [|tr nt (_ & Hq & _) _ IH]; [done|].
  rewrite fmap_cons. cbn [foldr]. lia.
Qed.

Lemma sweepable_nonneg (priced : bool) (opp : Side) (p : Z) (s : Engine.t) :
  wf s → 0 ≤ sweepable priced opp p s.
Proof.
  intros Hwf.
  assert (H : ∀ sd (l : list RingLevel.t),
            (∀ r, r ∈ l → r ∈ OrderBook.levels sd (book s)) →
            0 ≤ foldr Z.add 0 (RingLevel.totalQty <$> l)).
  { intros sd l Hl. apply sum_nonneg. intros x (r & -> & Hr)%list_elem_of_fmap.
    apply Hl, list_elem_of_lookup in Hr as [i Hi].
    eapply level_ok_total_nonneg, side_level_ok; done. }
  unfold sweepable, available, executable. destruct priced; [|by apply (H opp)].
  destruct opp; simpl.
  - apply (H BUY). intros r (j & Hj)%list_elem_of_lookup. rewrite lookup_drop in Hj.
    by eapply list_elem_of_lookup_2.
  - apply (H SELL). intros r (j & [Hj _]%lookup_take_Some)%list_elem_of_lookup.
    by eapply list_elem_of_lookup_2.
Qed.

Lemma addPassive_trades (sd : Side) (taker : Order) (s s' : Engine.t) :
  left_by (addPassive sd taker s) = Some s' → trades s' = trades s.
Proof.
  destruct (addPassive sd taker s) as [[] s2|m s2| |] eqn:Ha; simpl; try done; intros [= <-].
  - by apply addPassive_Ok in Ha as (? & ? & ? & ? & _ & _ & _ & _ & _ & _ & _ & ? & _).
  - apply addPassive_Throw in Ha as [->|(? & ? & _ & _ & ->)]; done.
Qed.

(** What [placeLimit] leaves behind is what its sweep leaves behind, with
    the residual queued or not. *)
Lemma placeLimit_left (clock : nat → Z) (fuel : nat) (cid : Z) (sd : Side)
    (pidx q now : Z) (tf : TimeInForce) (s s' : Engine.t) :
  left_by (placeLimit clock fuel cid sd pidx q now tf s) = Some s' →
  ∃ t1 s1, sweep clock fuel true (opposite sd) (limit_taker cid sd pidx q now tf) s = Ok t1 s1 ∧
           trades s' = trades s1.
Proof.
  rewrite placeLimit_eq.
  destruct (sweep _ _ _ _ _ _) as [t1 s1|m s1| |] eqn:Hsw; simpl; try done.
  - intros H. exists t1, s1. split; [done|].
    destruct (_ && _); [by eapply addPassive_trades|]. simpl in H. by injection H as <-.
  - by apply sweep_no_throw in Hsw.
Qed.

Lemma fill_amount (q q1 tr sw sw1 : Z) :
  tr = q - q1 → q1 = q ∨ 0 ≤ q1 → sw1 = sw - tr → (0 < q1 → sw1 = 0) →
  0 ≤ tr → 0 ≤ sw1 →
  tr = Z.max 0 (Z.min q sw).
Proof. lia. Qed.

Lemma limit_order_fills_aux (clock : nat → Z) (fuel : nat) (cid : Z) (sd : Side)
    (pidx q now : Z) (tf : TimeInForce) (s s' : Engine.t) :
  wf s → best_ok (book s) →
  left_by (placeLimit clock fuel cid sd pidx q now tf s) = Some s' →
  ∃ t1 s1 nt,
    sweep clock fuel true (opposite sd) (limit_taker cid sd pidx q now tf) s = Ok t1 s1 ∧
    trades s' = trades s ++ nt ∧
    traded nt = Z.max 0 (Z.min q (executable sd pidx s)) ∧
    qty t1 = q - traded nt.
Proof.
  intros Hwf Hok (t1 & s1 & Hsw & Htr)%placeLimit_left.
  destruct (sweep_facts _ _ _ _ _ _ _ _ Hwf Hok Hsw)
    as (nt & Hnt & Hall & Hsum & Hq & Hsw1 & Hz & _).
  pose proof (sweep_Ok _ _ _ _ _ _ _ _ Hwf Hok Hsw) as (Hwf1 & _).
  exists t1, s1, nt. split; [done|]. split; [congruence|].
  cbn [limit_taker qty priceIdx] in *.
  unfold sweepable in *. rewrite opposite_involutive in *.
  split; [|lia].
  eapply fill_amount; try done.
  - by eapply traded_nonneg.
  - pose proof (sweepable_nonneg true (opposite sd) pidx s1 Hwf1) as H.
    unfold sweepable in H. by rewrite opposite_involutive in H.
Qed.

(** X9. A limit order executes as much as it can and no more: whether
    [placeLimit] returns or throws, the quantities of the trades it appends
    add up to the smaller of the order's quantity and the aggregate quantity
    of the opposite levels on or through its price (to nothing when the
    quantity is not positive). *)
Theorem limit_order_fills (clock : nat → Z) (fuel : nat) (cid : Z) (sd : Side)
    (pidx q now : Z) (tf : TimeInForce) (s s' : Engine.t) :
  reachable clock s →
  left_by (placeLimit clock fuel cid sd pidx q now tf s) = Some s' →
  ∃ nt, trades s' = trades s ++ nt ∧
        traded nt = Z.max 0 (Z.min q (executable sd pidx s)).
Proof.
  intros [Hwf Hok]%reachable_wf Hleft.
  destruct (limit_order_fills_aux _ _ _ _ _ _ _ _ _ _ Hwf Hok Hleft)
    as (_ & _ & nt & _ & Htr & Hsum & _).
  by exists nt.
Qed.

Lemma limit_order_fills_witness :
  ∃ s0 s',
    run clock0 1 (PlaceLimit 1 SELL 3 3 0 GFD) small_engine = Ok tt s0 ∧
    left_by (placeLimit clock0 1 30 BUY 3 10 0 GFD s0) = Some s' ∧
    executable BUY 3 s0 = 3 ∧
    ∃ nt, trades s' = trades s0 ++ nt ∧ traded nt = Z.max 0 (Z.min 10 (executable BUY 3 s0)).
Proof.
  eexists. eexists.
  match goal with
  | |- run ?c ?f ?o ?s = Ok tt ?s0 ∧ left_by (placeLimit ?c1 ?f1 ?cid ?sd ?p ?q ?n ?tf _) = Some ?s' ∧ _ =>
      assert (H0 : run c f o s = Ok tt s0) by (vm_compute; reflexivity);
      assert (H1 : left_by (placeLimit c1 f1 cid sd p q n tf s0) = Some s')
        by (vm_compute; reflexivity);
      split; [exact H0|]; split; [exact H1|]; split; [vm_compute; reflexivity|];
      exact (limit_order_fills c1 f1 cid sd p q n tf s0 s'
               (reach_return c f o s s0 small_engine_reachable H0) H1)
  end.
Defined.

(** X10. A limit order never trades through its limit: whether [placeLimit]
    returns or throws, every trade it appends carries the order's client id
    as taker and a positive quantity, and is priced at a level of the book
    at or below the limit for a buy, at or above it for a sell. *)
Theorem limit_price_respected (clock : nat → Z) (fuel : nat) (cid : Z) (sd : Side)
    (pidx q now : Z) (tf : TimeInForce) (s s' : Engine.t) :
  reachable clock s →
  left_by (placeLimit clock fuel cid sd pidx q now tf s) = Some s' →
  ∃ nt, trades s' = trades s ++ nt ∧
    Forall (λ tr, Trade.takerClient tr = cid ∧ 0 < Trade.qty tr ∧
                  0 ≤ Trade.priceIdx tr < OrderBook.nlevels (book s) ∧
                  match sd with
                  | BUY => Trade.priceIdx tr ≤ pidx
                  | SELL => pidx ≤ Trade.priceIdx tr
                  end) nt.
Proof.
  intros [Hwf Hok]%reachable_wf (t1 & s1 & Hsw & Htr)%placeLimit_left.
  destruct (sweep_facts _ _ _ _ _ _ _ _ Hwf Hok Hsw) as (nt & Hnt & Hall & _).
  exists nt. split; [congruence|].
  eapply Forall_impl; [exact Hall|].
  intros tr (Hc & Hq & Hr & Hx). cbn [limit_taker clientId priceIdx] in *.
  split_and!; try done; try lia.
  destruct sd; simpl in Hx; by apply bool_decide_eq_true in Hx.
Qed.

Lemma limit_price_respected_witness :
  ∃ s0 s1 s',
    run clock0 1 (PlaceLimit 1 SELL 2 3 0 GFD) small_engine = Ok tt s0 ∧
    run clock0 1 (PlaceLimit 2 SELL 5 3 0 GFD) s0 = Ok tt s1 ∧
    left_by (placeLimit clock0 2 30 BUY 4 10 0 GFD s1) = Some s' ∧
    trades s' = trades s1 ++ [Trade.mk 30 1 3 2 0] ∧
    ∃ nt, trades s' = trades s1 ++ nt ∧
      Forall (λ tr, Trade.takerClient tr = 30 ∧ 0 < Trade.qty tr ∧
                    0 ≤ Trade.priceIdx tr < OrderBook.nlevels (book s1) ∧
                    Trade.priceIdx tr ≤ 4) nt.
Proof.
  eexists. eexists. eexists.
  match goal with
  | |- run ?c ?f ?o ?s = Ok tt ?s0 ∧ run _ ?f' ?o' _ = Ok tt ?s1 ∧
       left_by (placeLimit ?c1 ?f1 ?cid ?sd ?p ?q ?n ?tf _) = Some ?s' ∧ _ =>
      assert (H0 : run c f o s = Ok tt s0) by (vm_compute; reflexivity);
      assert (H1 : run c f' o' s0 = Ok tt s1) by (vm_compute; reflexivity);
      assert (H2 : left_by (placeLimit c1 f1 cid sd p q n tf s1) = Some s')
        by (vm_compute; reflexivity);
      split; [exact H0|]; split; [exact H1|]; split; [exact H2|];
      split; [vm_compute; reflexivity|];
      exact (limit_price_respected c1 f1 cid sd p q n tf s1 s'
               (reach_return c f' o' s0 s1
                  (reach_return c f o s s0 small_engine_reachable H0) H1) H2)
  end.
Defined.

(** X11. A market order executes the smaller of its quantity and the whole
    opposite side, which loses exactly that quantity, and never rests:
    [placeMarket] does not throw, leaves the levels and the cache of the
    order's own side as they are, allocates no pool slot (the free list
    only grows, by the makers it fills) and adds no entry to the client
    index. What is left of the order is dropped. *)
Theorem market_order_fills_and_never_rests (clock : nat → Z) (fuel : nat) (cid : Z)
    (sd : Side) (q now : Z) (s s' : Engine.t) :
  reachable clock s →
  left_by (placeMarket clock fuel cid sd q now s) = Some s' →
  placeMarket clock fuel cid sd q now s = Ok tt s' ∧
  (∃ nt, trades s' = trades s ++ nt ∧
         traded nt = Z.max 0 (Z.min q (available (opposite sd) s)) ∧
         available (opposite sd) s' = available (opposite sd) s - traded nt ∧
         Forall (λ tr, Trade.takerClient tr = cid ∧ 0 < Trade.qty tr) nt) ∧
  OrderBook.levels sd (book s') = OrderBook.levels sd (book s) ∧
  OrderBook.best sd (book s') = OrderBook.best sd (book s) ∧
  clientToEngine s' ⊆ clientToEngine s ∧
  (∃ fr, OrderPool.freeList (pool s') = OrderPool.freeList (pool s) ++ fr).
Proof.
  intros [Hwf Hok]%reachable_wf. rewrite placeMarket_eq.
  destruct (sweep _ _ _ _ _ _) as [t1 s1|m s1| |] eqn:Hsw; simpl; try done.
  2:{ by apply sweep_no_throw in Hsw. }
  intros [= <-]. split; [done|].
  destruct (sweep_facts _ _ _ _ _ _ _ _ Hwf Hok Hsw)
    as (nt & Hnt & Hall & Hsum & Hq & Hsw1 & Hz & Hlv & Hb & _ & Hcte & Hfl & _ & _ & Hav & _).
  pose proof (sweep_Ok _ _ _ _ _ _ _ _ Hwf Hok Hsw) as (Hwf1 & _).
  rewrite opposite_involutive in Hlv, Hb.
  split_and!; try done.
  exists nt. split; [done|]. split; [|split].
  - cbn [market_taker qty priceIdx] in *. unfold sweepable in *.
    eapply fill_amount; try done.
    + by eapply traded_nonneg.
    + apply (sweepable_nonneg false (opposite sd) 0 s1 Hwf1).
  - done.
  - eapply Forall_impl; [exact Hall|]. by intros tr (? & ? & _).
Qed.

Lemma market_order_fills_and_never_rests_witness :
  ∃ s0 s',
    run clock0 1 (PlaceLimit 1 SELL 3 3 0 GFD) small_engine = Ok tt s0 ∧
    left_by (placeMarket clock0 2 30 BUY 10 0 s0) = Some s' ∧
    available SELL s0 = 3 ∧
    placeMarket clock0 2 30 BUY 10 0 s0 = Ok tt s' ∧
    (∃ nt, trades s' = trades s0 ++ nt ∧
           traded nt = Z.max 0 (Z.min 10 (available (opposite BUY) s0)) ∧
           available (opposite BUY) s' = available (opposite BUY) s0 - traded nt ∧
           Forall (λ tr, Trade.takerClient tr = 30 ∧ 0 < Trade.qty tr) nt) ∧
    OrderBook.levels BUY (book s') = OrderBook.levels BUY (book s0) ∧
    OrderBook.best BUY (book s') = OrderBook.best BUY (book s0) ∧
    clientToEngine s' ⊆ clientToEngine s0 ∧
    (∃ fr, OrderPool.freeList (pool s') = OrderPool.freeList (pool s0) ++ fr).
Proof.
  eexists. eexists.
  match goal with
  | |- run ?c ?f ?o ?s = Ok tt ?s0 ∧ left_by (placeMarket ?c1 ?f1 ?cid ?sd ?q ?n _) = Some ?s' ∧ _ =>
      assert (H0 : run c f o s = Ok tt s0) by (vm_compute; reflexivity);
      assert (H1 : left_by (placeMarket c1 f1 cid sd q n s0) = Some s')
        by (vm_compute; reflexivity);
      split; [exact H0|]; split; [exact H1|]; split; [vm_compute; reflexivity|];
      exact (market_order_fills_and_never_rests c1 f1 cid sd q n s0 s'
               (reach_return c f o s s0 small_engine_reachable H0) H1)
  end.
Defined.

Lemma addPassive_rests (sd : Side) (t1 : Order) (s1 s' : Engine.t) :
  wf s1 → addPassive sd t1 s1 = Ok tt s' →
  ∃ idx lvl lvl',
    clientToEngine s' !! clientId t1 = Some idx ∧
    OrderPool.get (pool s') idx = Some (set_active true (set_engineId idx t1)) ∧
    OrderPool.freeList (pool s1) = OrderPool.freeList (pool s') ++ [idx] ∧
    level sd (priceIdx t1) s1 = Some lvl ∧ level sd (priceIdx t1) s' = Some lvl' ∧
    contents lvl' = contents lvl ++ [idx] ∧
    RingLevel.totalQty lvl' = RingLevel.totalQty lvl + qty t1.
Proof.
  intros Hwf1 Hadd.
  apply addPassive_Ok in Hadd as (idx & rest & lvl & lvl' & Hfl & Hidx & Hl & Hpush
                                  & Hpool & Hbook & Hcte & _).
  pose proof (level_wf _ _ _ _ Hwf1 Hl) as (Hrwf & _).
  apply push_Val in Hpush as (_ & _ & Htq & _ & Hc); [|done].
  exists idx, lvl, lvl'. split_and!; try done.
  - rewrite Hcte. apply lookup_insert_eq.
  - by rewrite Hpool, get_insert, decide_True.
  - rewrite Hpool. simpl. by apply back_of_list.
  - pose proof (vec_get_range _ _ _ Hl) as Hr. unfold level.
    rewrite Hbook, updateBestAfterAdd_eq, levels_set_best, levels_set_levels.
    rewrite decide_True by done. apply vec_get_Some. split; [lia|].
    apply list_lookup_insert_eq. lia.
Qed.

(** A [placeLimit] that returns, taken apart: the sweep, and the residual
    it leaves to be queued. *)
Lemma placeLimit_Ok_inv (clock : nat → Z) (fuel : nat) (cid : Z) (sd : Side)
    (pidx q now : Z) (tf : TimeInForce) (s s' : Engine.t) :
  wf s → best_ok (book s) →
  placeLimit clock fuel cid sd pidx q now tf s = Ok tt s' →
  ∃ t1 s1,
    sweep clock fuel true (opposite sd) (limit_taker cid sd pidx q now tf) s = Ok t1 s1 ∧
    wf s1 ∧
    t1 = set_qty (q - Z.max 0 (Z.min q (executable sd pidx s)))
                 (limit_taker cid sd pidx q now tf) ∧
    (if decide (0 < qty t1) then addPassive sd t1 s1 = Ok tt s' else s' = s1).
Proof.
  intros Hwf Hok Hrun.
  assert (Hleft : left_by (placeLimit clock fuel cid sd pidx q now tf s) = Some s')
    by (by rewrite Hrun).
  destruct (limit_order_fills_aux clock fuel cid sd pidx q now tf s s' Hwf Hok Hleft)
    as (t1 & s1 & nt & Hsw & _ & Hsum & Hrem).
  pose proof (sweep_Ok _ _ _ _ _ _ _ _ Hwf Hok Hsw) as (Hwf1 & _ & _ & Ht1).
  exists t1, s1. split; [done|]. split; [done|]. split.
  { rewrite Ht1. f_equal. lia. }
  rewrite placeLimit_eq, Hsw in Hrun. cbn [obind] in Hrun.
  assert (Htype : type t1 = LIMIT) by (by rewrite Ht1).
  rewrite (bool_decide_eq_true_2 (type t1 = LIMIT)), andb_true_r in Hrun by done.
  case_decide.
  - by rewrite bool_decide_eq_true_2 in Hrun by done.
  - rewrite bool_decide_eq_false_2 in Hrun by done. by injection Hrun as <-.
Qed.

Lemma placeLimit_remainder (clock : nat → Z) (fuel : nat) (cid : Z) (sd : Side)
    (pidx q now : Z) (tf : TimeInForce) (s s' : Engine.t) :
  wf s → best_ok (book s) →
  placeLimit clock fuel cid sd pidx q now tf s = Ok tt s' →
  let rem := q - Z.max 0 (Z.min q (executable sd pidx s)) in
  (rem ≤ 0 →
   OrderBook.levels sd (book s') = OrderBook.levels sd (book s) ∧
   clientToEngine s' ⊆ clientToEngine s ∧
   ∃ fr, OrderPool.freeList (pool s') = OrderPool.freeList (pool s) ++ fr) ∧
  (0 < rem →
   ∃ idx lvl lvl',
     clientToEngine s' !! cid = Some idx ∧
     OrderPool.get (pool s') idx = Some (mkOrder cid idx sd LIMIT tf pidx rem (u64 now) true) ∧
     level sd pidx s = Some lvl ∧ level sd pidx s' = Some lvl' ∧
     contents lvl' = contents lvl ++ [idx] ∧
     RingLevel.totalQty lvl' = RingLevel.totalQty lvl + rem).
Proof.
  intros Hwf Hok Hrun rem.
  destruct (placeLimit_Ok_inv _ _ _ _ _ _ _ _ _ _ Hwf Hok Hrun)
    as (t1 & s1 & Hsw & Hwf1 & Ht1 & Hadd).
  fold rem in Ht1.
  destruct (sweep_facts _ _ _ _ _ _ _ _ Hwf Hok Hsw)
    as (_ & _ & _ & _ & _ & _ & _ & Hlv & _ & _ & Hcte & Hfl & _).
  rewrite opposite_involutive in Hlv.
  assert (Hq1 : qty t1 = rem) by (by rewrite Ht1).
  rewrite Hq1 in Hadd.
  split.
  - intros Hle. rewrite decide_False in Hadd by lia. by subst s'.
  - intros Hlt. rewrite decide_True in Hadd by lia.
    destruct (addPassive_rests sd t1 s1 s' Hwf1 Hadd)
      as (idx & lvl & lvl' & Hc & Hg & _ & Hl & Hl' & Hcont & Htq).
    assert (Hcid : clientId t1 = cid) by (by rewrite Ht1).
    assert (Hpid : priceIdx t1 = pidx) by (by rewrite Ht1).
    rewrite Hcid, Hpid in *.
    exists idx, lvl, lvl'. split_and!; try done.
    + rewrite Hg, Ht1. done.
    + unfold level in *. by rewrite <- Hlv.
    + by rewrite Htq, Hq1.
Qed.

(** X12. What a limit order does not execute rests, whatever its time in
    force: when [placeLimit] returns, a positive remainder (the quantity
    less what was executed) is queued at the tail of the ring of the
    order's level with that quantity, in a fresh pool slot entered in the
    client index; with no remainder the order's own side, the free slots
    and the client index gain nothing. *)
Theorem limit_order_remainder (clock : nat → Z) (fuel : nat) (cid : Z) (sd : Side)
    (pidx q now : Z) (tf : TimeInForce) (s s' : Engine.t) :
  reachable clock s →
  placeLimit clock fuel cid sd pidx q now tf s = Ok tt s' →
  let rem := q - Z.max 0 (Z.min q (executable sd pidx s)) in
  (rem ≤ 0 →
   OrderBook.levels sd (book s') = OrderBook.levels sd (book s) ∧
   clientToEngine s' ⊆ clientToEngine s ∧
   ∃ fr, OrderPool.freeList (pool s') = OrderPool.freeList (pool s) ++ fr) ∧
  (0 < rem →
   ∃ idx lvl lvl',
     clientToEngine s' !! cid = Some idx ∧
     OrderPool.get (pool s') idx = Some (mkOrder cid idx sd LIMIT tf pidx rem (u64 now) true) ∧
     level sd pidx s = Some lvl ∧ level sd pidx s' = Some lvl' ∧
     contents lvl' = contents lvl ++ [idx] ∧
     RingLevel.totalQty lvl' = RingLevel.totalQty lvl + rem).
Proof.
  intros [Hwf Hok]%reachable_wf Hrun. by apply (placeLimit_remainder clock fuel).
Qed.

Lemma limit_order_remainder_witness :
  ∃ s0 s',
    run clock0 1 (PlaceLimit 1 SELL 3 3 0 GFD) small_engine = Ok tt s0 ∧
    placeLimit clock0 1 30 BUY 3 10 0 IOC s0 = Ok tt s' ∧
    executable BUY 3 s0 = 3 ∧
    let rem := 10 - Z.max 0 (Z.min 10 (executable BUY 3 s0)) in
    (rem ≤ 0 →
     OrderBook.levels BUY (book s') = OrderBook.levels BUY (book s0) ∧
     clientToEngine s' ⊆ clientToEngine s0 ∧
     ∃ fr, OrderPool.freeList (pool s') = OrderPool.freeList (pool s0) ++ fr) ∧
    (0 < rem →
     ∃ idx lvl lvl',
       clientToEngine s' !! 30 = Some idx ∧
       OrderPool.get (pool s') idx = Some (mkOrder 30 idx BUY LIMIT IOC 3 rem (u64 0) true) ∧
       level BUY 3 s0 = Some lvl ∧ level BUY 3 s' = Some lvl' ∧
       contents lvl' = contents lvl ++ [idx] ∧
       RingLevel.totalQty lvl' = RingLevel.totalQty lvl + rem).
Proof.
  eexists. eexists.
  match goal with
  | |- run ?c ?f ?o ?s = Ok tt ?s0 ∧ placeLimit ?c1 ?f1 ?cid ?sd ?p ?q ?n ?tf _ = Ok tt ?s' ∧ _ =>
      assert (H0 : run c f o s = Ok tt s0) by (vm_compute; reflexivity);
      assert (H1 : placeLimit c1 f1 cid sd p q n tf s0 = Ok tt s')
        by (vm_compute; reflexivity);
      split; [exact H0|]; split; [exact H1|]; split; [vm_compute; reflexivity|];
      exact (limit_order_remainder c1 f1 cid sd p q n tf s0 s'
               (reach_return c f o s s0 small_engine_reachable H0) H1)
  end.
Defined.

Lemma nonpositive_sweep (clock : nat → Z) (fuel : nat) (priced : bool) (opp : Side)
    (taker : Order) (s : Engine.t) :
  qty taker ≤ 0 → sweep clock fuel priced opp taker s = Ok taker s.
Proof.
  intros Hq. apply sweep_guard_false. unfold guard.
  by rewrite bool_decide_eq_false_2 by lia.
Qed.

Lemma nonpositive_placeLimit (clock : nat → Z) (fuel : nat) (cid : Z) (sd : Side)
    (pidx q now : Z) (tf : TimeInForce) (s : Engine.t) :
  q ≤ 0 → placeLimit clock fuel cid sd pidx q now tf s = Ok tt s.
Proof.
  intros Hq. rewrite placeLimit_eq, nonpositive_sweep by done. cbn [obind limit_taker qty].
  by rewrite bool_decide_eq_false_2 by lia.
Qed.

(** X13. A quantity that is zero or negative is not rejected, it is
    ignored: [placeLimit] and [placeMarket] return with the engine as it
    was, whatever the price, in any state. [replace] of an active order then
    only cancels it, and still returns true. *)
Theorem nonpositive_quantity_is_ignored (clock : nat → Z) (fuel : nat) (cid : Z)
    (sd : Side) (pidx q now : Z) (tf : TimeInForce) (s : Engine.t) :
  q ≤ 0 →
  placeLimit clock fuel cid sd pidx q now tf s = Ok tt s ∧
  placeMarket clock fuel cid sd q now s = Ok tt s ∧
  (∀ eid o, clientToEngine s !! cid = Some eid → OrderPool.get (pool s) eid = Some o →
            active o = true →
            replace clock fuel cid pidx q now s = obind (cancel cid s) (λ _ s1, Ok true s1)).
Proof.
  intros Hq. split; [by apply nonpositive_placeLimit|]. split.
  - by rewrite placeMarket_eq, nonpositive_sweep.
  - intros eid o Hc Hg Ha. rewrite replace_unfold. unfold cancel_then_new.
    rewrite Hc, Hg, Ha. destruct (cancel cid s) as [b s1| | |]; simpl; try done.
    by rewrite nonpositive_placeLimit.
Qed.

Lemma nonpositive_quantity_is_ignored_witness :
  ∃ s0,
    run clock0 1 (PlaceLimit 7 SELL 3 3 0 GFD) small_engine = Ok tt s0 ∧
    placeLimit clock0 1 8 BUY 3 (-5) 0 GFD s0 = Ok tt s0 ∧
    placeMarket clock0 1 8 BUY 0 0 s0 = Ok tt s0 ∧
    replace clock0 1 7 4 0 0 s0 = obind (cancel 7 s0) (λ _ s1, Ok true s1).
Proof.
  eexists.
  match goal with
  | |- run ?c ?f ?o ?s = Ok tt ?s0 ∧ _ =>
      assert (H0 : run c f o s = Ok tt s0) by (vm_compute; reflexivity);
      split; [exact H0|]
  end.
  split; [apply (nonpositive_quantity_is_ignored clock0 1 8 BUY 3 (-5) 0 GFD); lia|].
  split; [apply (nonpositive_quantity_is_ignored clock0 1 8 BUY 3 0 0 GFD); lia|].
  eapply (nonpositive_quantity_is_ignored clock0 1 7 SELL 4 0 0 GFD); [lia| | |];
    vm_compute; reflexivity.
Defined.

(** ** Cancelling *)

Lemma level_after (sd opp : Side) (i x : Z) (b : nat) (pl' : RingLevel.t) (s s' : Engine.t) :
  book s' = OrderBook.set_best opp x
              (OrderBook.set_levels opp (<[b := pl']> (OrderBook.levels opp (book s))) (book s)) →
  (b < length (OrderBook.levels opp (book s)))%nat →
  level sd i s' = if decide (sd = opp ∧ i = Z.of_nat b) then Some pl' else level sd i s.
Proof.
  intros Hbook Hb. unfold level. rewrite Hbook, levels_set_best, levels_set_levels.
  destruct (decide (sd = opp)) as [->|Hsd].
  - case_decide as Hi.
    + destruct Hi as [_ ->]. apply vec_get_Some. split; [lia|].
      rewrite Nat2Z.id. by apply list_lookup_insert_eq.
    + unfold vec_get. case_decide; [|done].
      apply list_lookup_insert_ne. intros ->. apply Hi. split; [done|lia].
  - rewrite decide_False by (by intros [? _]). done.
Qed.

Opaque findPos shiftBack.

(** The cancel of an order that is queued in the ring of its level. *)
Lemma cancel_found (cid eid : Z) (o : Order) (lvl : RingLevel.t) (s : Engine.t) :
  wf s → clientToEngine s !! cid = Some eid → OrderPool.get (pool s) eid = Some o →
  active o = true → level (side o) (priceIdx o) s = Some lvl → eid ∈ contents lvl →
  ∃ s' k lvl' x,
    cancel cid s = Ok true s' ∧
    contents lvl !! k = Some eid ∧
    contents lvl' = delete k (contents lvl) ∧ ring_wf lvl' ∧
    RingLevel.totalQty lvl' = RingLevel.totalQty lvl - qty o ∧
    book s' = OrderBook.set_best (side o) x
                (OrderBook.set_levels (side o)
                   (<[Z.to_nat (priceIdx o) := lvl']> (OrderBook.levels (side o) (book s)))
                   (book s)) ∧
    pool s' = OrderPool.mk
                (<[Z.to_nat eid := set_qty 0 (set_active false o)]> (OrderPool.pool (pool s)))
                (OrderPool.freeList (pool s) ++ [eid]) ∧
    clientToEngine s' = delete cid (clientToEngine s) ∧
    trades s' = trades s ∧ nextClientId s' = nextClientId s.
Proof.
  intros Hwf Hc Ho Ha Hlvl Hin. unfold cancel. rewrite Hc, Ho. cbn [ubind]. rewrite Ha.
  cbn [negb]. rewrite Hlvl. cbn [ubind].
  pose proof (level_wf _ _ _ _ Hwf Hlvl) as Hlok.
  pose proof Hlok as (Hrwf & Hnd & Hrest & Hsum & Htq).
  pose proof (vec_get_range _ _ _ Hlvl) as Hprange.
  pose proof (vec_get_range _ _ _ Ho) as Herange.
  pose proof (count_range lvl Hrwf) as Hcr.
  pose proof (side_ok_length (side o) s Hwf) as Hlen.
  destruct (findPos_from lvl eid Hrwf (Z.to_nat (count lvl)) 0 (S (length (RingLevel.data lvl))))
    as [(k & Hk & Hfind & Hat & _)|[_ Hnin]]; [lia|unfold RingLevel.size in Hcr; lia|
                                               intros j ?; lia| |done].
  simpl in Hfind. rewrite slot_0 in Hfind by done. rewrite Hfind.
  rewrite last_slot by (done || lia).
  destruct (shiftBack_from lvl Hrwf (Z.to_nat (count lvl - 1 - Z.of_nat k)) k
              (S (length (RingLevel.data lvl))) (RingLevel.data lvl))
    as (d' & Hshift & Hlen' & Hsh & Hfr); [done|lia|unfold RingLevel.size in Hcr; lia|].
  rewrite Hshift.
  assert (Hre : resting (pool s) (side o) (Z.of_nat (Z.to_nat (priceIdx o))) eid)
    by (by apply Hrest).
  assert (Hqo : 0 < qty o < 2 ^ 63).
  { destruct Hre as (o' & Ho' & _ & _ & _ & ?). by assert (o' = o) as -> by congruence. }
  assert (Hge : qty o ≤ RingLevel.totalQty lvl).
  { rewrite Hsum. unfold level_sum. rewrite (sum_qty_delete _ _ _ _ Hat).
    unfold qty_at at 1. rewrite Ho. simpl.
    assert (0 ≤ sum_qty (pool s) (delete k (contents lvl))); [|lia].
    apply sum_qty_nonneg. intros y Hy.
    destruct (NoDup_delete_at _ _ _ Hnd Hat) as (_ & _ & Hsub).
    destruct (Hsub y Hy) as [Hy' _]. apply Hrest, resting_qty in Hy'. lia. }
  rewrite i64_in_range by lia. cbn [ubind].
  set (lvl' := RingLevel.mk d' (RingLevel.head lvl) (slot lvl (count lvl - 1))
                            (RingLevel.totalQty lvl - qty o)).
  destruct (remove_contents lvl d' k (RingLevel.totalQty lvl - qty o) Hrwf Hk Hlen' Hsh Hfr)
    as (Hrwf' & Hsz' & Hc').
  fold lvl' in Hrwf', Hsz', Hc'.
  destruct (put_level (side o) (priceIdx o) lvl' s) as [s1|] eqn:Hs1.
  2:{ unfold put_level, vec_set in Hs1. rewrite decide_True in Hs1 by done. done. }
  apply put_level_Some in Hs1 as [_ ->]. cbn [ubind].
  destruct (OrderPool.free eid (pool (set_book _ s))) as [p|] eqn:Hfree.
  2:{ simpl in Hfree. unfold OrderPool.free in Hfree. rewrite Ho in Hfree. simpl in Hfree.
      unfold vec_set in Hfree. rewrite decide_True in Hfree by done. done. }
  simpl in Hfree. cbn [ubind].
  cbn [pool set_book set_clientToEngine set_pool].
  rewrite (free_get_eq _ _ _ _ Hfree Ho). cbn [ubind side priceIdx set_qty set_active].
  apply free_Some in Hfree as (o2 & Ho2 & ->). assert (o2 = o) as -> by congruence.
  match goal with
  | |- context [refreshBest ?a ?b ?c ?d] => destruct (refreshBest a b c d) as [s3|] eqn:Hs3
  end.
  2:{ destruct (refreshBest_is_Some (side o) (priceIdx o) lvl'
                  (set_clientToEngine (delete cid (clientToEngine s))
                     (set_pool
                        (OrderPool.mk
                           (<[Z.to_nat eid := set_qty 0 (set_active false o)]>
                              (OrderPool.pool (pool s)))
                           (OrderPool.freeList (pool s) ++ [eid]))
                        (set_book
                           (OrderBook.set_levels (side o)
                              (<[Z.to_nat (priceIdx o) := lvl']>
                                 (OrderBook.levels (side o) (book s))) (book s)) s))))
        as [s3 Hs3'].
      - simpl. rewrite levels_set_levels, decide_True, nlevels_set_levels, length_insert by done.
        done.
      - simpl. rewrite nlevels_set_levels. lia.
      - simpl in Hs3, Hs3'. congruence. }
  cbn [ubind]. exists s3, k, lvl'.
  unfold refreshBest in Hs3. cbn [book set_book set_clientToEngine set_pool] in Hs3.
  destruct (RingLevel.empty lvl') eqn:He.
  - destruct (OrderBook.updateBestAfterRemove _ _ _) as [bk|] eqn:Hu; simpl in Hs3; [|done].
    injection Hs3 as <-.
    apply updateBestAfterRemove_Some in Hu as (x & -> & Hx).
    2:{ rewrite levels_set_levels, decide_True, nlevels_set_levels, length_insert by done.
        done. }
    exists x. done.
  - injection Hs3 as <-. exists (OrderBook.best (side o) (book s)).
    split_and!; try done. simpl.
    rewrite <- (best_set_levels (side o) (side o)
                  (<[Z.to_nat (priceIdx o) := lvl']> (OrderBook.levels (side o) (book s)))).
    by rewrite set_best_same.
Qed.

(** A cancel that returns false has changed neither the book nor the trades. *)
Lemma cancel_false (cid : Z) (s s' : Engine.t) :
  cancel cid s = Ok false s' →
  book s' = book s ∧ trades s' = trades s ∧ nextClientId s' = nextClientId s ∧
  clientToEngine s' = delete cid (clientToEngine s).
Proof.
  unfold cancel.
  destruct (clientToEngine s !! cid) as [eid|] eqn:Hc.
  2:{ intros [= <-]. split_and!; try done. by rewrite delete_id. }
  destruct (OrderPool.get (pool s) eid) as [o|]; simpl; [|done].
  destruct (active o); simpl; [|by intros [= <-]].
  destruct (level _ _ _) as [lvl|]; cbn [ubind]; [|done]. cbv zeta.
  destruct (findPos _ _ _ _) as [[pos|]| |]; try done.
  - destruct (shiftBack _ _ _ _ _) as [d| |]; try done.
    destruct (i64 _); simpl; [|done].
    destruct (put_level _ _ _ _); simpl; [|done].
    destruct (OrderPool.free _ _); simpl; [|done].
    destruct (OrderPool.get _ _); simpl; [|done].
    destruct (refreshBest _ _ _ _); simpl; done.
  - destruct (OrderPool.free _ _); simpl; [|done]. by intros [= <-].
Qed.

Transparent findPos shiftBack.

(** ** The client index *)

Lemma index_ok_step (e : Z) (s s' : Engine.t) :
  index_ok s →
  (∀ y, y ≠ e → OrderPool.get (pool s') y = OrderPool.get (pool s) y) →
  (∀ sd i lv y, level sd i s = Some lv → y ∈ contents lv → y ≠ e →
                ∃ lv', level sd i s' = Some lv' ∧ y ∈ contents lv') →
  (∀ c y, clientToEngine s' !! c = Some y → y ≠ e → clientToEngine s !! c = Some y) →
  (∀ c, clientToEngine s' !! c = Some e →
        ∃ o lv, OrderPool.get (pool s') e = Some o ∧ active o = true ∧ clientId o = c ∧
                level (side o) (priceIdx o) s' = Some lv ∧ e ∈ contents lv) →
  index_ok s'.
Proof.
  intros Hi Hpool Hlv Hcte He c y Hc.
  destruct (decide (y = e)) as [->|Hy]; [by apply He|].
  destruct (Hi c y (Hcte c y Hc Hy)) as (o & lv & Ho & Ha & Hcid & Hl & Hin).
  destruct (Hlv _ _ _ _ Hl Hin Hy) as (lv' & Hl' & Hin').
  exists o, lv'. rewrite Hpool by done. done.
Qed.

Lemma elem_of_delete_at {A : Type} (l : list A) (k : nat) (e y : A) :
  l !! k = Some e → y ∈ l → y ≠ e → y ∈ delete k l.
Proof.
  intros Hk Hy Hne. rewrite delete_take_drop.
  rewrite <- (take_drop_middle l k e Hk) in Hy.
  apply elem_of_app in Hy as [Hy|Hy]; [apply elem_of_app; by left|].
  apply elem_of_cons in Hy as [->|Hy]; [done|]. apply elem_of_app. by right.
Qed.

Lemma free_slot_not_indexed (s : Engine.t) (idx c : Z) :
  wf s → index_ok s → idx ∈ OrderPool.freeList (pool s) →
  clientToEngine s !! c ≠ Some idx.
Proof.
  intros (Hp & _) Hi Hfree Hc.
  destruct (Hi c idx Hc) as (o & _ & Ho & Ha & _).
  destruct Hp as [_ Hp]. destruct (Hp idx Hfree) as (o' & Ho' & Ha'). congruence.
Qed.

Lemma matchStep_index (clock : nat → Z) (opp : Side) (taker t1 : Order) (s s1 : Engine.t) :
  wf s → index_ok s → matchStep clock opp taker s = Ok t1 s1 → index_ok s1.
Proof.
  intros Hwf Hi Hstep.
  pose proof (matchStep_Ok _ _ _ _ _ _ Hwf Hstep) as (pl & Hpl & Hcase). simpl in Hcase.
  pose proof (vec_get_range _ _ _ Hpl) as Hbr.
  destruct Hcase as [(He & -> & x & Hx & ->)|(He & e & rest & maker & pl' & x & Hc & Hm & Hrest)].
  - intros c y Hcy. destruct (Hi c y Hcy) as (o & lv & H). exists o, lv.
    unfold level in *. simpl. by rewrite levels_set_best.
  - simpl in Hrest.
    destruct Hrest as (_ & _ & _ & _ & _ & _ & Hbook & _ & _ & Hc' & _ & Hpool & Hcte).
    pose proof (level_wf _ _ _ _ Hwf Hpl) as (_ & _ & Hres & _).
    destruct (Hres e) as (o & Ho & Hact & Hsd & Hpr & Hqo).
    { rewrite Hc. by left. }
    assert (o = maker) as -> by congruence.
    pose proof (vec_get_range _ _ _ Hm) as Her.
    assert (Hlvl : ∀ sd i, level sd i s1 =
              if decide (sd = opp ∧ i = Z.of_nat (Z.to_nat (OrderBook.best opp (book s))))
              then Some pl' else level sd i s).
    { intros sd i. apply (level_after _ _ _ x); [done|lia]. }
    apply (index_ok_step e s s1 Hi).
    + intros y Hy. rewrite Hpool, get_insert, decide_False by done. by destruct (pool s).
    + intros sd i lv y Hl Hin Hy. rewrite Hlvl.
      destruct (decide (sd = opp ∧ _)) as [[-> ->]|Hd]; [|by exists lv].
      rewrite Z2Nat.id in Hl by lia.
      assert (lv = pl) as -> by congruence.
      exists pl'. split; [done|]. rewrite Hc in Hin.
      apply elem_of_cons in Hin as [->|Hin]; [done|].
      rewrite Hc'. destruct (decide (qty maker ≤ qty taker)); [done|by right].
    + intros c y Hcy Hy. rewrite Hcte in Hcy.
      destruct (decide (qty maker ≤ qty taker)); [|done].
      by apply lookup_delete_Some in Hcy as [_ ?].
    + intros c Hce. rewrite Hcte in Hce.
      assert (Hce' : clientToEngine s !! c = Some e).
      { destruct (decide (qty maker ≤ qty taker)); [|done].
        by apply lookup_delete_Some in Hce as [_ ?]. }
      destruct (Hi c e Hce') as (o & lv & Ho' & _ & Hcid & _).
      assert (o = maker) as -> by congruence.
      destruct (decide (qty maker ≤ qty taker)) as [Hfull|Hfull].
      { apply lookup_delete_Some in Hce as [Hne _]. done. }
      exists (set_qty (qty maker - Z.min (qty maker) (qty taker)) maker), pl'.
      split_and!; try done.
      * by rewrite Hpool, get_insert, decide_True.
      * cbn [side priceIdx set_qty]. rewrite Hlvl, Hsd, Hpr. by rewrite decide_True.
      * rewrite Hc'. by left.
Qed.

Lemma sweep_index (clock : nat → Z) (priced : bool) (opp : Side) (fuel : nat) :
  ∀ (taker taker' : Order) (s s' : Engine.t),
  wf s → best_ok (book s) → index_ok s →
  sweep clock fuel priced opp taker s = Ok taker' s' → index_ok s'.
Proof.
  induction fuel as [|fuel IH]; intros taker taker' s s' Hwf Hok Hi Hsw; simpl in Hsw.
  - destruct (guard priced opp taker s); [done|]. by injection Hsw as <- <-.
  - destruct (guard priced opp taker s) eqn:Hg; [|by injection Hsw as <- <-].
    destruct (matchStep clock opp taker s) as [t1 s1| | |] eqn:Hstep; try done.
    simpl in Hsw. pose proof (guard_true _ _ _ _ Hg) as [Hq Hbne].
    eapply (IH t1 taker' s1 s'); [| | |done].
    + eapply matchStep_wf; [done| |done]. lia.
    + eapply matchStep_best_ok; [exact Hwf|exact Hok|exact Hbne|exact Hstep].
    + by eapply matchStep_index.
Qed.

Lemma addPassive_index (sd : Side) (t : Order) (s s' : Engine.t) :
  wf s → index_ok s → side t = sd →
  left_by (addPassive sd t s) = Some s' → index_ok s'.
Proof.
  intros Hwf Hi Hsd Hleft.
  destruct (addPassive sd t s) as [[] s2|m s2| |] eqn:Ha; simpl in Hleft; try done;
    injection Hleft as ->.
  - pose proof (addPassive_rests sd t s s' Hwf Ha)
      as (idx' & lvl0 & lvl0' & _ & _ & _ & Hl0 & Hl0' & Hc0 & _).
    apply addPassive_Ok in Ha as (idx & rest & lvl & lvl' & Hfl & Hidx & Hl & Hpush
                                  & Hpool & Hbook & Hcte & _).
    assert (Hfree : idx ∈ OrderPool.freeList (pool s)).
    { apply back_of_list in Hfl. rewrite Hfl. apply elem_of_app. right. by left. }
    pose proof (level_wf _ _ _ _ Hwf Hl) as (Hrwf & _).
    apply push_Val in Hpush as (_ & _ & _ & _ & Hc); [|done].
    pose proof (vec_get_range _ _ _ Hl) as Hpr.
    rewrite updateBestAfterAdd_eq in Hbook.
    assert (Hlvl : ∀ sd' i, level sd' i s' =
              if decide (sd' = sd ∧ i = Z.of_nat (Z.to_nat (priceIdx t)))
              then Some lvl' else level sd' i s).
    { intros sd' i. eapply level_after; [exact Hbook|lia]. }
    apply (index_ok_step idx s s' Hi).
    + intros y Hy. rewrite Hpool, get_insert, decide_False by done. by destruct (pool s).
    + intros sd' i lv y Hlv Hin Hy. rewrite Hlvl.
      destruct (decide (sd' = sd ∧ _)) as [[-> ->]|Hd]; [|by exists lv].
      rewrite Z2Nat.id in Hlv by lia.
      assert (lv = lvl) as -> by congruence.
      exists lvl'. split; [done|]. rewrite Hc. apply elem_of_app. by left.
    + intros c y Hcy Hy. rewrite Hcte in Hcy.
      apply lookup_insert_Some in Hcy as [[_ ?]|[_ ?]]; done.
    + intros c Hce. rewrite Hcte in Hce.
      apply lookup_insert_Some in Hce as [[<- _]|[_ Hce]].
      2:{ by apply free_slot_not_indexed in Hce. }
      exists (set_active true (set_engineId idx t)), lvl'. split_and!; try done.
      * by rewrite Hpool, get_insert, decide_True.
      * cbn [side priceIdx set_active set_engineId]. rewrite Hlvl, Hsd.
        rewrite decide_True; [done|]. split; [done|lia].
      * rewrite Hc. apply elem_of_app. right. by left.
  - apply addPassive_Throw in Ha as [->|(idx & rest & Hfl & Hidx & ->)]; [done|].
    assert (Hfree : idx ∈ OrderPool.freeList (pool s)).
    { apply back_of_list in Hfl. rewrite Hfl. apply elem_of_app. right. by left. }
    apply (index_ok_step idx s _ Hi).
    + intros y Hy. simpl. rewrite get_insert, decide_False by done. by destruct (pool s).
    + intros sd' i lv y Hlv Hin Hy. by exists lv.
    + intros c y Hcy Hy. done.
    + intros c Hce. simpl in Hce. by apply free_slot_not_indexed in Hce.
Qed.

Lemma placeLimit_index (clock : nat → Z) (fuel : nat) (cid : Z) (sd : Side)
    (pidx q now : Z) (tf : TimeInForce) (s s' : Engine.t) :
  wf s → best_ok (book s) → index_ok s →
  left_by (placeLimit clock fuel cid sd pidx q now tf s) = Some s' → index_ok s'.
Proof.
  intros Hwf Hok Hi. rewrite placeLimit_eq.
  destruct (sweep _ _ _ _ _ _) as [t1 s1|m s1| |] eqn:Hsw; simpl; try done.
  2:{ by apply sweep_no_throw in Hsw. }
  pose proof (sweep_Ok _ _ _ _ _ _ _ _ Hwf Hok Hsw) as (Hwf1 & _ & _ & Ht1).
  pose proof (sweep_index _ _ _ _ _ _ _ _ Hwf Hok Hi Hsw) as Hi1.
  destruct (_ && _).
  - apply addPassive_index; [done|done|by rewrite Ht1].
  - simpl. by intros [= <-].
Qed.

Lemma cancel_index (cid : Z) (b : bool) (s s' : Engine.t) :
  wf s → index_ok s → cancel cid s = Ok b s' → index_ok s'.
Proof.
  intros Hwf Hi Hcan.
  destruct (clientToEngine s !! cid) as [eid|] eqn:Hc.
  2:{ unfold cancel in Hcan. rewrite Hc in Hcan. by injection Hcan as <- <-. }
  destruct (Hi cid eid Hc) as (o & lvl & Ho & Ha & Hcid & Hl & Hin).
  destruct (cancel_found cid eid o lvl s Hwf Hc Ho Ha Hl Hin)
    as (s'' & k & lvl' & x & Hcan' & Hk & Hc' & _ & _ & Hbook & Hpool & Hcte & _).
  rewrite Hcan' in Hcan. injection Hcan as <- <-.
  pose proof (vec_get_range _ _ _ Hl) as Hpr.
  pose proof (vec_get_range _ _ _ Ho) as Her.
  assert (Hlvl : ∀ sd' i, level sd' i s'' =
            if decide (sd' = side o ∧ i = Z.of_nat (Z.to_nat (priceIdx o)))
            then Some lvl' else level sd' i s).
  { intros sd' i. eapply level_after; [exact Hbook|lia]. }
  apply (index_ok_step eid s s'' Hi).
  - intros y Hy. rewrite Hpool, get_insert, decide_False by done. by destruct (pool s).
  - intros sd' i lv y Hlv Hiny Hy. rewrite Hlvl.
    destruct (decide (sd' = side o ∧ _)) as [[-> ->]|Hd]; [|by exists lv].
    rewrite Z2Nat.id in Hlv by lia.
    assert (lv = lvl) as -> by congruence.
    exists lvl'. split; [done|]. rewrite Hc'. by eapply elem_of_delete_at.
  - intros c y Hcy Hy. rewrite Hcte in Hcy. by apply lookup_delete_Some in Hcy as [_ ?].
  - intros c Hce. rewrite Hcte in Hce. apply lookup_delete_Some in Hce as [Hne Hce].
    destruct (Hi c eid Hce) as (o' & _ & Ho' & _ & Hcid' & _). congruence.
Qed.

Lemma run_index (clock : nat → Z) (fuel : nat) (o : op) (s s' : Engine.t) :
  wf s → best_ok (book s) → index_ok s →
  left_by (run clock fuel o s) = Some s' → index_ok s'.
Proof.
  intros Hwf Hok Hi. destruct o as [cid sd pidx q now tf|cid sd q now|cid|cid p q now]; simpl.
  - by apply placeLimit_index.
  - rewrite placeMarket_eq.
    destruct (sweep _ _ _ _ _ _) as [t1 s1|m s1| |] eqn:Hsw; simpl; try done.
    + intros [= <-]. by eapply sweep_index.
    + by apply sweep_no_throw in Hsw.
  - destruct (cancel cid s) as [b s1|m s1| |] eqn:Hcan; simpl; try done.
    + intros [= <-]. by eapply cancel_index.
    + by apply cancel_no_throw in Hcan.
  - rewrite replace_unfold. unfold cancel_then_new.
    destruct (clientToEngine s !! cid) as [eid|]; simpl; [|by intros [= <-]].
    destruct (OrderPool.get (pool s) eid) as [old|]; simpl; [|done].
    destruct (active old); simpl; [|by intros [= <-]].
    destruct (cancel cid s) as [b s1|m s1| |] eqn:Hcan; simpl; try done.
    2:{ by apply cancel_no_throw in Hcan. }
    pose proof (cancel_keeps cid s Hwf Hok) as Hk. rewrite Hcan in Hk. destruct Hk as [Hwf1 Hok1].
    pose proof (cancel_index _ _ _ _ Hwf Hi Hcan) as Hi1.
    intros Hleft. apply (placeLimit_index clock fuel cid (side old) p q now (tif old) s1);
      [done|done|done|].
    by destruct (placeLimit _ _ _ _ _ _ _ _ _).
Qed.

Lemma reachable_index (clock : nat → Z) (s : Engine.t) :
  reachable clock s → index_ok s.
Proof.
  induction 1 as [cap levels ringcap Hl Hr|fuel o s s' Hs IH Hrun|fuel o s s' m Hs IH Hrun].
  - intros c y Hc. simpl in Hc. by rewrite lookup_empty in Hc.
  - pose proof (reachable_wf _ _ Hs) as [Hwf Hok].
    apply (run_index clock fuel o s s' Hwf Hok IH). by rewrite Hrun.
  - pose proof (reachable_wf _ _ Hs) as [Hwf Hok].
    apply (run_index clock fuel o s s' Hwf Hok IH). by rewrite Hrun.
Qed.

(** X14. The client index is sound in every state the engine goes through:
    an entry [cid -> eid] always points at a pool slot that holds an active
    order of client [cid] with a positive quantity, queued in the ring of
    its side and price level; no two client ids share a slot. *)
Theorem client_index_is_sound (clock : nat → Z) (s : Engine.t) (cid eid : Z) :
  reachable clock s → clientToEngine s !! cid = Some eid →
  (∃ o lvl, OrderPool.get (pool s) eid = Some o ∧ active o = true ∧ clientId o = cid ∧
            0 < qty o ∧ level (side o) (priceIdx o) s = Some lvl ∧ eid ∈ contents lvl) ∧
  (∀ cid', clientToEngine s !! cid' = Some eid → cid' = cid).
Proof.
  intros Hs Hc. pose proof (reachable_index _ _ Hs) as Hi.
  pose proof (reachable_wf _ _ Hs) as [Hwf _].
  destruct (Hi cid eid Hc) as (o & lvl & Ho & Ha & Hcid & Hl & Hin). split.
  - exists o, lvl. split_and!; try done.
    pose proof (level_wf _ _ _ _ Hwf Hl) as (_ & _ & Hres & _).
    destruct (Hres eid Hin) as (o' & Ho' & _ & _ & _ & Hq).
    assert (o' = o) as -> by congruence. lia.
  - intros cid' Hc'. destruct (Hi cid' eid Hc') as (o' & _ & Ho' & _ & Hcid' & _). congruence.
Qed.

Lemma client_index_is_sound_witness :
  ∃ s0,
    run clock0 1 (PlaceLimit 7 SELL 3 5 0 GFD) small_engine = Ok tt s0 ∧
    clientToEngine s0 !! 7 = Some 0 ∧
    (∃ o lvl, OrderPool.get (pool s0) 0 = Some o ∧ active o = true ∧ clientId o = 7 ∧
              0 < qty o ∧ level (side o) (priceIdx o) s0 = Some lvl ∧ 0 ∈ contents lvl) ∧
    (∀ cid', clientToEngine s0 !! cid' = Some 0 → cid' = 7).
Proof.
  eexists.
  match goal with
  | |- run ?c ?f ?o ?s = Ok tt ?s0 ∧ _ =>
      assert (H0 : run c f o s = Ok tt s0) by (vm_compute; reflexivity);
      assert (H1 : clientToEngine s0 !! 7 = Some 0) by (vm_compute; reflexivity);
      split; [exact H0|]; split; [exact H1|];
      exact (client_index_is_sound c s0 7 0
               (reach_return c f o s s0 small_engine_reachable H0) H1)
  end.
Defined.

Lemma cancel_indexed (s : Engine.t) (cid eid : Z) :
  wf s → index_ok s → clientToEngine s !! cid = Some eid →
  ∃ s' o lvl lvl' k,
    cancel cid s = Ok true s' ∧
    OrderPool.get (pool s) eid = Some o ∧ clientId o = cid ∧
    level (side o) (priceIdx o) s = Some lvl ∧ contents lvl !! k = Some eid ∧
    level (side o) (priceIdx o) s' = Some lvl' ∧
    contents lvl' = delete k (contents lvl) ∧
    RingLevel.totalQty lvl' = RingLevel.totalQty lvl - qty o ∧
    (∀ sd i, (sd, i) ≠ (side o, priceIdx o) → level sd i s' = level sd i s) ∧
    OrderPool.get (pool s') eid = Some (set_qty 0 (set_active false o)) ∧
    (∀ j, j ≠ eid → OrderPool.get (pool s') j = OrderPool.get (pool s) j) ∧
    OrderPool.freeList (pool s') = OrderPool.freeList (pool s) ++ [eid] ∧
    clientToEngine s' = delete cid (clientToEngine s) ∧
    trades s' = trades s.
Proof.
  intros Hwf Hi Hc.
  destruct (Hi cid eid Hc) as (o & lvl & Ho & Ha & Hcid & Hl & Hin).
  destruct (cancel_found cid eid o lvl s Hwf Hc Ho Ha Hl Hin)
    as (s' & k & lvl' & x & Hcan & Hk & Hc' & _ & Htq & Hbook & Hpool & Hcte & Htr & _).
  pose proof (vec_get_range _ _ _ Hl) as Hpr.
  pose proof (vec_get_range _ _ _ Ho) as Her.
  assert (Hlvl : ∀ sd' i, level sd' i s' =
            if decide (sd' = side o ∧ i = Z.of_nat (Z.to_nat (priceIdx o)))
            then Some lvl' else level sd' i s).
  { intros sd' i. eapply level_after; [exact Hbook|lia]. }
  exists s', o, lvl, lvl', k. split_and!; try done.
  - rewrite Hlvl, decide_True; [done|]. split; [done|lia].
  - intros sd i Hne. rewrite Hlvl, decide_False; [done|].
    intros [-> ->]. apply Hne. f_equal. lia.
  - by rewrite Hpool, get_insert, decide_True.
  - intros j Hj. rewrite Hpool, get_insert, decide_False by done. by destruct (pool s).
  - by rewrite Hpool.
Qed.

(** X15. In every state the engine goes through [cancel] returns, and it
    returns true exactly when the client id is in the client index: of the
    three ways the code has to return false, only the missing key is ever
    taken; an indexed order is never found inactive or absent from its
    ring. *)
Theorem cancel_true_iff_indexed (clock : nat → Z) (s : Engine.t) (cid : Z) :
  reachable clock s →
  ∃ b s', cancel cid s = Ok b s' ∧
          (b = true ↔ is_Some (clientToEngine s !! cid)) ∧
          (b = false → s' = s).
Proof.
  intros Hs. pose proof (reachable_index _ _ Hs) as Hi.
  pose proof (reachable_wf _ _ Hs) as [Hwf _].
  destruct (clientToEngine s !! cid) as [eid|] eqn:Hc.
  - destruct (cancel_indexed s cid eid Hwf Hi Hc) as (s' & ? & ? & ? & ? & Hcan & _).
    exists true, s'. split; [done|]. split; [|done]. split; [by eexists|done].
  - exists false, s. unfold cancel. rewrite Hc. split; [done|]. split; [|done].
    split; [done|]. by intros [? ?].
Qed.

Lemma cancel_true_iff_indexed_witness :
  ∃ s0,
    run clock0 1 (PlaceLimit 7 SELL 3 5 0 GFD) small_engine = Ok tt s0 ∧
    (∃ s', cancel 7 s0 = Ok true s') ∧ cancel 8 s0 = Ok false s0 ∧
    ∃ b s', cancel 7 s0 = Ok b s' ∧
            (b = true ↔ is_Some (clientToEngine s0 !! 7)) ∧ (b = false → s' = s0).
Proof.
  eexists.
  match goal with
  | |- run ?c ?f ?o ?s = Ok tt ?s0 ∧ _ =>
      assert (H0 : run c f o s = Ok tt s0) by (vm_compute; reflexivity);
      split; [exact H0|]; split; [eexists; vm_compute; reflexivity|];
      split; [vm_compute; reflexivity|];
      exact (cancel_true_iff_indexed c s0 7
               (reach_return c f o s s0 small_engine_reachable H0))
  end.
Defined.

(** X16. Cancelling an indexed order takes exactly that order out of the
    book: [cancel] returns true, the order's engine id is removed from the
    queue of its level while the others keep their order, the level's
    [totalQty] drops by the order's remaining quantity, no other level
    changes, the pool slot is cleared ([qty] 0, not [active]) and pushed on
    the free list, the entry leaves the client index, and no trade is
    made. *)
Theorem cancel_removes_the_order (clock : nat → Z) (s : Engine.t) (cid eid : Z) :
  reachable clock s → clientToEngine s !! cid = Some eid →
  ∃ s' o lvl lvl' k,
    cancel cid s = Ok true s' ∧
    OrderPool.get (pool s) eid = Some o ∧ clientId o = cid ∧
    level (side o) (priceIdx o) s = Some lvl ∧ contents lvl !! k = Some eid ∧
    level (side o) (priceIdx o) s' = Some lvl' ∧
    contents lvl' = delete k (contents lvl) ∧
    RingLevel.totalQty lvl' = RingLevel.totalQty lvl - qty o ∧
    (∀ sd i, (sd, i) ≠ (side o, priceIdx o) → level sd i s' = level sd i s) ∧
    OrderPool.get (pool s') eid = Some (set_qty 0 (set_active false o)) ∧
    (∀ j, j ≠ eid → OrderPool.get (pool s') j = OrderPool.get (pool s) j) ∧
    OrderPool.freeList (pool s') = OrderPool.freeList (pool s) ++ [eid] ∧
    clientToEngine s' = delete cid (clientToEngine s) ∧
    trades s' = trades s.
Proof.
  intros Hs Hc. pose proof (reachable_index _ _ Hs) as Hi.
  pose proof (reachable_wf _ _ Hs) as [Hwf _].
  by apply cancel_indexed.
Qed.

Lemma cancel_removes_the_order_witness :
  ∃ s0 s1,
    run clock0 1 (PlaceLimit 7 SELL 3 5 0 GFD) small_engine = Ok tt s0 ∧
    run clock0 1 (PlaceLimit 8 SELL 3 2 0 GFD) s0 = Ok tt s1 ∧
    clientToEngine s1 !! 7 = Some 0 ∧
    ∃ s' o lvl lvl' k,
      cancel 7 s1 = Ok true s' ∧
      OrderPool.get (pool s1) 0 = Some o ∧ clientId o = 7 ∧
      level (side o) (priceIdx o) s1 = Some lvl ∧ contents lvl !! k = Some 0 ∧
      level (side o) (priceIdx o) s' = Some lvl' ∧
      contents lvl' = delete k (contents lvl) ∧
      RingLevel.totalQty lvl' = RingLevel.totalQty lvl - qty o ∧
      (∀ sd i, (sd, i) ≠ (side o, priceIdx o) → level sd i s' = level sd i s1) ∧
      OrderPool.get (pool s') 0 = Some (set_qty 0 (set_active false o)) ∧
      (∀ j, j ≠ 0 → OrderPool.get (pool s') j = OrderPool.get (pool s1) j) ∧
      OrderPool.freeList (pool s') = OrderPool.freeList (pool s1) ++ [0] ∧
      clientToEngine s' = delete 7 (clientToEngine s1) ∧
      trades s' = trades s1.
Proof.
  eexists. eexists.
  match goal with
  | |- run ?c ?f ?o ?s = Ok tt ?s0 ∧ run _ ?f' ?o' _ = Ok tt ?s1 ∧ _ =>
      assert (H0 : run c f o s = Ok tt s0) by (vm_compute; reflexivity);
      assert (H1 : run c f' o' s0 = Ok tt s1) by (vm_compute; reflexivity);
      assert (H2 : clientToEngine s1 !! 7 = Some 0) by (vm_compute; reflexivity);
      split; [exact H0|]; split; [exact H1|]; split; [exact H2|];
      exact (cancel_removes_the_order c s1 7 0
               (reach_return c f' o' s0 s1
                  (reach_return c f o s s0 small_engine_reachable H0) H1) H2)
  end.
Defined.

(** ** Exceptions and undefined behaviour *)

Lemma sweep_returns (clock : nat → Z) (priced : bool) (opp : Side) (taker : Order)
    (s : Engine.t) (fuel : nat) :
  wf s → qty taker < 2 ^ 63 → (sweep_bound opp s ≤ fuel)%nat →
  ∃ t1 s1, sweep clock fuel priced opp taker s = Ok t1 s1.
Proof.
  intros Hwf Hq Hfuel. unfold sweep_bound in Hfuel.
  pose proof (resting_count_nonneg opp s).
  assert (0 ≤ cache_room opp (book s)).
  { destruct Hwf as (_ & Hsb & Hsa). destruct opp; by eapply cache_room_nonneg. }
  apply (sweep_runs clock priced opp
           (Z.to_nat (resting_count opp s + cache_room opp (book s))));
    [done|done|lia|lia].
Qed.

Lemma free_back_in_range (s : Engine.t) (idx : Z) (rest : list Z) :
  wf s → reverse (OrderPool.freeList (pool s)) = idx :: rest →
  idx ∈ OrderPool.freeList (pool s) ∧ (idx ∉ reverse rest) ∧
  0 ≤ idx < Z.of_nat (length (OrderPool.pool (pool s))) ∧
  ∃ o, OrderPool.get (pool s) idx = Some o ∧ active o = false.
Proof.
  intros ([Hnd Hp] & _) Hfl. apply back_of_list in Hfl.
  assert (Hin : idx ∈ OrderPool.freeList (pool s)).
  { rewrite Hfl. apply elem_of_app. right. by left. }
  destruct (Hp idx Hin) as (o & Ho & Ha).
  split; [done|]. split.
  - rewrite Hfl in Hnd. apply NoDup_app in Hnd as (_ & Hd & _).
    intros Hr. apply (Hd idx Hr). by left.
  - split; [by eapply vec_get_range|by exists o].
Qed.

Lemma addPassive_Throw_msg (sd : Side) (t : Order) (s s' : Engine.t) (m : string) :
  wf s → addPassive sd t s = Throw m s' →
  (m = "Order pool exhausted"%string ∧ OrderPool.freeList (pool s) = [] ∧ s' = s) ∨
  (m = "Price level ring full"%string ∧
   ∃ idx lvl,
     level sd (priceIdx t) s = Some lvl ∧ RingLevel.full lvl = true ∧
     OrderPool.freeList (pool s) = OrderPool.freeList (pool s') ++ [idx] ∧
     (idx ∉ OrderPool.freeList (pool s')) ∧
     OrderPool.get (pool s') idx = Some (set_active true (set_engineId idx t)) ∧
     (∀ j, j ≠ idx → OrderPool.get (pool s') j = OrderPool.get (pool s) j) ∧
     book s' = book s ∧ clientToEngine s' = clientToEngine s ∧ trades s' = trades s ∧
     (∀ sd' i r, OrderBook.levels sd' (book s') !! i = Some r → idx ∉ contents r)).
Proof.
  intros Hwf. unfold addPassive.
  destruct (OrderPool.allocate t (pool s)) as [[idx p]|m'|] eqn:Ha; [| |done].
  2:{ apply allocate_Exn in Ha as [Hfl ->]. intros [= <- <-]. by left. }
  apply allocate_Val in Ha as (rest & Hfl & Hidx & ->).
  destruct (free_back_in_range s idx rest Hwf Hfl) as (Hin & Hnin & _ & o & Ho & Hact).
  destruct (level sd (priceIdx t) (set_pool _ s)) as [lvl|] eqn:Hl; cbn [ubind]; [|done].
  destruct (RingLevel.push _ _ _) as [lvl'|m'|] eqn:Hpush; [| |done].
  { destruct (put_level _ _ _ _); cbn [ubind]; done. }
  apply push_Exn in Hpush as [Hfull ->]. intros [= <- <-]. right. split; [done|].
  exists idx, lvl. cbn [pool book clientToEngine trades set_pool OrderPool.freeList].
  split_and!; try done.
  - by apply back_of_list.
  - by rewrite get_insert, decide_True.
  - intros j Hj. rewrite get_insert, decide_False by done. by destruct (pool s).
  - intros sd' i r Hr. by eapply elsewhere_inactive.
Qed.

(** X17. A [placeLimit] that throws is not undone. It throws only once its
    sweep is over, with a residual to queue: the trades made stay, and the
    book and client index are as the sweep left them. With the message
    "Order pool exhausted" the free list was empty and nothing else
    changed; with "Price level ring full" the ring of the order's level
    was full, and the slot taken from the free list stays allocated to the
    residual, in no ring and under no client id. *)
Theorem limit_order_throw_is_not_atomic (clock : nat → Z) (fuel : nat) (cid : Z)
    (sd : Side) (pidx q now : Z) (tf : TimeInForce) (s s' : Engine.t) (m : string) :
  reachable clock s →
  placeLimit clock fuel cid sd pidx q now tf s = Throw m s' →
  ∃ t1 s1,
    sweep clock fuel true (opposite sd) (limit_taker cid sd pidx q now tf) s = Ok t1 s1 ∧
    0 < qty t1 ∧ trades s' = trades s1 ∧ book s' = book s1 ∧
    clientToEngine s' = clientToEngine s1 ∧
    ((m = "Order pool exhausted"%string ∧ OrderPool.freeList (pool s1) = [] ∧ s' = s1) ∨
     (m = "Price level ring full"%string ∧
      ∃ idx lvl,
        level sd pidx s1 = Some lvl ∧ RingLevel.full lvl = true ∧
        OrderPool.freeList (pool s1) = OrderPool.freeList (pool s') ++ [idx] ∧
        (idx ∉ OrderPool.freeList (pool s')) ∧
        OrderPool.get (pool s') idx =
          Some (mkOrder cid idx sd LIMIT tf pidx (qty t1) (u64 now) true) ∧
        (∀ sd' i r, OrderBook.levels sd' (book s') !! i = Some r → idx ∉ contents r) ∧
        (∀ c, clientToEngine s' !! c ≠ Some idx))).
Proof.
  intros Hs Hrun.
  pose proof (reachable_wf _ _ Hs) as [Hwf Hok].
  pose proof (reachable_index _ _ Hs) as Hi.
  rewrite placeLimit_eq in Hrun.
  destruct (sweep _ _ _ _ _ _) as [t1 s1|m1 s1| |] eqn:Hsw; simpl in Hrun; try done.
  2:{ by apply sweep_no_throw in Hsw. }
  pose proof (sweep_Ok _ _ _ _ _ _ _ _ Hwf Hok Hsw) as (Hwf1 & _ & _ & Ht1).
  pose proof (sweep_index _ _ _ _ _ _ _ _ Hwf Hok Hi Hsw) as Hi1.
  exists t1, s1. split; [done|].
  destruct (bool_decide (0 < qty t1)) eqn:Hq; simpl in Hrun; [|done].
  apply bool_decide_eq_true in Hq.
  destruct (bool_decide (type t1 = LIMIT)); [|done].
  apply addPassive_Throw_msg in Hrun
    as [(-> & Hfl & ->)|(-> & idx & lvl & Hl & Hfull & Hfl & Hnin & Hg & _ & Hb & Hc & Htr & Hno)];
    [| |done].
  - split_and!; try done. by left.
  - split_and!; try done. right. split; [done|].
    assert (Hcid : clientId t1 = cid) by (by rewrite Ht1).
    assert (Hpid : priceIdx t1 = pidx) by (by rewrite Ht1).
    rewrite Hpid in Hl.
    exists idx, lvl. split_and!; try done.
    + rewrite Hg, Ht1. done.
    + intros c. rewrite Hc. apply free_slot_not_indexed; [done|done|].
      rewrite Hfl. apply elem_of_app. right. by left.
Qed.

Lemma limit_order_throw_is_not_atomic_witness :
  ∃ s0 s1 s2 s',
    run clock0 1 (PlaceLimit 1 SELL 3 5 0 GFD) small_engine = Ok tt s0 ∧
    run clock0 1 (PlaceLimit 2 SELL 3 5 0 GFD) s0 = Ok tt s1 ∧
    run clock0 1 (PlaceLimit 3 SELL 3 5 0 GFD) s1 = Ok tt s2 ∧
    placeLimit clock0 1 4 SELL 3 5 0 GFD s2 = Throw "Price level ring full" s' ∧
    ∃ t1 s3,
      sweep clock0 1 true (opposite SELL) (limit_taker 4 SELL 3 5 0 GFD) s2 = Ok t1 s3 ∧
      0 < qty t1 ∧ trades s' = trades s3 ∧ book s' = book s3 ∧
      clientToEngine s' = clientToEngine s3 ∧
      (("Price level ring full"%string = "Order pool exhausted"%string ∧
        OrderPool.freeList (pool s3) = [] ∧ s' = s3) ∨
       ("Price level ring full"%string = "Price level ring full"%string ∧
        ∃ idx lvl,
          level SELL 3 s3 = Some lvl ∧ RingLevel.full lvl = true ∧
          OrderPool.freeList (pool s3) = OrderPool.freeList (pool s') ++ [idx] ∧
          (idx ∉ OrderPool.freeList (pool s')) ∧
          OrderPool.get (pool s') idx =
            Some (mkOrder 4 idx SELL LIMIT GFD 3 (qty t1) (u64 0) true) ∧
          (∀ sd' i r, OrderBook.levels sd' (book s') !! i = Some r → idx ∉ contents r) ∧
          (∀ c, clientToEngine s' !! c ≠ Some idx))).
Proof.
  eexists. eexists. eexists. eexists.
  match goal with
  | |- run ?c ?f ?o ?s = Ok tt ?s0 ∧ run _ ?f1 ?o1 _ = Ok tt ?s1 ∧
       run _ ?f2 ?o2 _ = Ok tt ?s2 ∧
       placeLimit ?c3 ?f3 ?cid ?sd ?p ?q ?n ?tf _ = Throw ?m ?s' ∧ _ =>
      assert (H0 : run c f o s = Ok tt s0) by (vm_compute; reflexivity);
      assert (H1 : run c f1 o1 s0 = Ok tt s1) by (vm_compute; reflexivity);
      assert (H2 : run c f2 o2 s1 = Ok tt s2) by (vm_compute; reflexivity);
      assert (H3 : placeLimit c3 f3 cid sd p q n tf s2 = Throw m s')
        by (vm_compute; reflexivity);
      split; [exact H0|]; split; [exact H1|]; split; [exact H2|]; split; [exact H3|];
      exact (limit_order_throw_is_not_atomic c3 f3 cid sd p q n tf s2 s' m
               (reach_return c f2 o2 s1 s2
                  (reach_return c f1 o1 s0 s1
                     (reach_return c f o s s0 small_engine_reachable H0) H1) H2) H3)
  end.
Defined.

Lemma residual_positive (clock : nat → Z) (fuel : nat) (opp : Side) (taker t1 : Order)
    (s s1 : Engine.t) :
  wf s → best_ok (book s) →
  sweep clock fuel true opp taker s = Ok t1 s1 →
  0 < qty taker → sweepable true opp (priceIdx taker) s < qty taker →
  0 < qty t1 ≤ qty taker.
Proof.
  intros Hwf Hok Hsw Hq Hlt.
  destruct (sweep_facts _ _ _ _ _ _ _ _ Hwf Hok Hsw)
    as (nt & _ & Hall & Hsum & Hq1 & Hsw1 & _).
  pose proof (sweep_Ok _ _ _ _ _ _ _ _ Hwf Hok Hsw) as (Hwf1 & _).
  pose proof (traded_nonneg _ _ _ _ _ _ Hall).
  pose proof (sweepable_nonneg true opp (priceIdx taker) s1 Hwf1). lia.
Qed.

(** X18. A price index outside the book is not checked, and is an
    out-of-bounds access as soon as the order has a residual to rest: in a
    state the engine goes through, a [placeLimit] whose price index fails
    [validIdx], whose quantity exceeds what it can execute, and which finds
    a free pool slot, indexes the level vector outside its bounds, which
    is undefined behaviour. *)
Theorem out_of_range_residual_is_undefined (clock : nat → Z) (fuel : nat) (cid : Z)
    (sd : Side) (pidx q now : Z) (tf : TimeInForce) (s : Engine.t) :
  reachable clock s → validIdx pidx s = false →
  0 < q < 2 ^ 63 → executable sd pidx s < q →
  OrderPool.freeList (pool s) ≠ [] →
  (sweep_bound (opposite sd) s ≤ fuel)%nat →
  placeLimit clock fuel cid sd pidx q now tf s = Undefined.
Proof.
  intros Hs Hv Hq Hex Hfl Hfuel.
  pose proof (reachable_wf _ _ Hs) as [Hwf Hok].
  destruct (sweep_returns clock true (opposite sd) (limit_taker cid sd pidx q now tf) s fuel)
    as (t1 & s1 & Hsw); [done|simpl; lia|done|].
  pose proof (sweep_Ok _ _ _ _ _ _ _ _ Hwf Hok Hsw) as (Hwf1 & _ & _ & Ht1).
  destruct (sweep_facts _ _ _ _ _ _ _ _ Hwf Hok Hsw)
    as (_ & _ & _ & _ & _ & _ & _ & Hlv & _ & Hn & _ & [fr Hfr] & _).
  destruct (residual_positive _ _ _ _ _ _ _ Hwf Hok Hsw) as [Hq1 _].
  { simpl. lia. }
  { unfold sweepable. rewrite opposite_involutive. simpl. lia. }
  rewrite placeLimit_eq, Hsw. cbn [obind].
  rewrite !bool_decide_eq_true_2 by (done || by rewrite Ht1). cbn [andb].
  unfold addPassive.
  destruct (reverse (OrderPool.freeList (pool s1))) as [|idx rest] eqn:Hrev.
  { apply (f_equal reverse) in Hrev. rewrite reverse_involutive, Hfr in Hrev.
    by destruct (OrderPool.freeList (pool s)). }
  destruct (free_back_in_range s1 idx rest Hwf1 Hrev) as (_ & _ & Hidx & _).
  assert (Ha : OrderPool.allocate t1 (pool s1) =
               Val (idx, OrderPool.mk
                      (<[Z.to_nat idx := set_active true (set_engineId idx t1)]>
                         (OrderPool.pool (pool s1))) (reverse rest))).
  { apply allocate_Val. by exists rest. }
  rewrite Ha.
  assert (Hl : level sd (priceIdx t1)
                 (set_pool (OrderPool.mk
                      (<[Z.to_nat idx := set_active true (set_engineId idx t1)]>
                         (OrderPool.pool (pool s1))) (reverse rest)) s1) = None).
  { assert (Hpid : priceIdx t1 = pidx) by (by rewrite Ht1). rewrite Hpid.
    unfold level. cbn [book set_pool].
    destruct (vec_get _ _) as [r|] eqn:Hr; [|done].
    apply vec_get_range in Hr. rewrite side_ok_length, Hn in Hr by done.
    unfold validIdx in Hv. apply andb_false_iff in Hv as [Hv|Hv];
      apply bool_decide_eq_false in Hv; lia. }
  by rewrite Hl.
Qed.

Lemma out_of_range_residual_is_undefined_witness :
  reachable clock0 small_engine ∧ validIdx 8 small_engine = false ∧
  executable BUY 8 small_engine = 0 ∧
  placeLimit clock0 1 2 BUY 8 5 0 GFD small_engine = Undefined.
Proof.
  split; [exact small_engine_reachable|]. split; [reflexivity|]. split; [reflexivity|].
  apply (out_of_range_residual_is_undefined clock0 1 2 BUY 8 5 0 GFD small_engine).
  - exact small_engine_reachable.
  - reflexivity.
  - lia.
  - vm_compute. reflexivity.
  - vm_compute. discriminate.
  - vm_compute. lia.
Defined.

Lemma addPassive_defined (sd : Side) (t : Order) (s : Engine.t) :
  wf s → 0 ≤ priceIdx t < OrderBook.nlevels (book s) → 0 < qty t →
  (∀ lvl, level sd (priceIdx t) s = Some lvl → RingLevel.totalQty lvl + qty t < 2 ^ 63) →
  is_Some (left_by (addPassive sd t s)).
Proof.
  intros Hwf Hp Hq Hroom. unfold addPassive.
  destruct (OrderPool.allocate t (pool s)) as [[idx p]|m'|] eqn:Ha; [|done|].
  2:{ exfalso. unfold OrderPool.allocate in Ha.
      destruct (reverse (OrderPool.freeList (pool s))) as [|idx rest] eqn:Hrev; [done|].
      destruct (free_back_in_range s idx rest Hwf Hrev) as (_ & _ & Hidx & _).
      unfold vec_set in Ha. by rewrite decide_True in Ha. }
  assert (Hlv : is_Some (level sd (priceIdx t) s)).
  { apply vec_get_is_Some. rewrite side_ok_length by done. done. }
  destruct Hlv as [lvl Hl].
  assert (Hl' : level sd (priceIdx t) (set_pool p s) = Some lvl) by done.
  rewrite Hl'. cbn [ubind].
  pose proof (level_wf _ _ _ _ Hwf Hl) as Hlok. pose proof Hlok as (Hrwf & _).
  pose proof (level_ok_total_nonneg _ _ _ _ Hlok).
  destruct (RingLevel.full lvl) eqn:Hfull.
  { assert (RingLevel.push idx (qty t) lvl = Exn "Price level ring full") as ->; [|done].
    by apply push_Exn. }
  destruct (push_runs idx (qty t) lvl Hrwf Hfull) as [lvl' Hpush].
  { specialize (Hroom lvl Hl). lia. }
  rewrite Hpush.
  destruct (put_level sd (priceIdx t) lvl' (set_pool p s)) as [s2|] eqn:Hs2; [done|].
  unfold put_level, vec_set in Hs2. cbn [book set_pool] in Hs2.
  rewrite decide_True in Hs2; [done|]. rewrite side_ok_length by done. done.
Qed.

(** X19. With a valid price index there is no undefined behaviour: in a
    state the engine goes through, a [placeLimit] whose price index passes
    [validIdx], whose quantity is below 2^63 and does not take the
    aggregate of its level to 2^63, either returns or throws one of the
    two exceptions of the pool and the ring. *)
Theorem valid_limit_order_is_defined (clock : nat → Z) (fuel : nat) (cid : Z)
    (sd : Side) (pidx q now : Z) (tf : TimeInForce) (s : Engine.t) :
  reachable clock s → validIdx pidx s = true → q < 2 ^ 63 →
  (∀ lvl, level sd pidx s = Some lvl → RingLevel.totalQty lvl + q < 2 ^ 63) →
  (sweep_bound (opposite sd) s ≤ fuel)%nat →
  (∃ s', placeLimit clock fuel cid sd pidx q now tf s = Ok tt s') ∨
  (∃ s', placeLimit clock fuel cid sd pidx q now tf s = Throw "Order pool exhausted" s') ∨
  (∃ s', placeLimit clock fuel cid sd pidx q now tf s = Throw "Price level ring full" s').
Proof.
  intros Hs Hv Hq Hroom Hfuel.
  pose proof (reachable_wf _ _ Hs) as [Hwf Hok].
  destruct (sweep_returns clock true (opposite sd) (limit_taker cid sd pidx q now tf) s fuel)
    as (t1 & s1 & Hsw); [done|done|done|].
  pose proof (sweep_Ok _ _ _ _ _ _ _ _ Hwf Hok Hsw) as (Hwf1 & _ & _ & Ht1).
  destruct (sweep_facts _ _ _ _ _ _ _ _ Hwf Hok Hsw)
    as (nt & _ & Hall & Hsum & _ & _ & _ & Hlv & _ & Hn & _).
  pose proof (traded_nonneg _ _ _ _ _ _ Hall) as Hnn.
  rewrite opposite_involutive in Hlv. cbn [limit_taker qty] in Hsum.
  rewrite placeLimit_eq, Hsw. cbn [obind].
  destruct (bool_decide (0 < qty t1) && bool_decide (type t1 = LIMIT)) eqn:Hb;
    [|left; by eexists].
  apply andb_true_iff in Hb as [Hq1%bool_decide_eq_true _].
  assert (Hpid : priceIdx t1 = pidx) by (by rewrite Ht1).
  destruct (addPassive_defined sd t1 s1) as [s' Hs']; [done| |done| |].
  - rewrite Hpid, Hn. unfold validIdx in Hv. apply andb_true_iff in Hv as [Hv1 Hv2].
    apply bool_decide_eq_true in Hv1, Hv2. lia.
  - intros lvl Hl. rewrite Hpid in Hl. unfold level in Hl. rewrite Hlv in Hl.
    specialize (Hroom lvl Hl). lia.
  - destruct (addPassive sd t1 s1) as [[] s2|m s2| |] eqn:Ha; try done.
    + left. by eexists.
    + right. apply addPassive_Throw_msg in Ha as [(-> & _)|(-> & _)]; [| |done].
      * left. by eexists.
      * right. by eexists.
Qed.

Lemma valid_limit_order_is_defined_witness :
  (∃ s', placeLimit clock0 1 2 BUY 7 5 0 GFD small_engine = Ok tt s') ∨
  (∃ s', placeLimit clock0 1 2 BUY 7 5 0 GFD small_engine = Throw "Order pool exhausted" s') ∨
  (∃ s', placeLimit clock0 1 2 BUY 7 5 0 GFD small_engine = Throw "Price level ring full" s').
Proof.
  apply (valid_limit_order_is_defined clock0 1 2 BUY 7 5 0 GFD small_engine).
  - exact small_engine_reachable.
  - reflexivity.
  - lia.
  - intros lvl Hl. vm_compute in Hl. injection Hl as <-. simpl. lia.
  - vm_compute. lia.
Defined.

(** ** The trade log and the resting quantity *)

Lemma addPassive_book (sd : Side) (t : Order) (s s' : Engine.t) :
  left_by (addPassive sd t s) = Some s' →
  OrderBook.nlevels (book s') = OrderBook.nlevels (book s) ∧
  OrderBook.levels (opposite sd) (book s') = OrderBook.levels (opposite sd) (book s).
Proof.
  destruct (addPassive sd t s) as [[] s2|m s2| |] eqn:Ha; simpl; try done; intros [= <-].
  - apply addPassive_Ok in Ha as (? & ? & ? & ? & _ & _ & _ & _ & _ & -> & _).
    rewrite updateBestAfterAdd_eq, nlevels_set_best, nlevels_set_levels.
    rewrite levels_set_best, levels_set_levels, decide_False by apply opposite_ne. done.
  - apply addPassive_Throw in Ha as [->|(? & ? & _ & _ & ->)]; done.
Qed.

Lemma placeLimit_log (clock : nat → Z) (fuel : nat) (cid : Z) (sd : Side)
    (pidx q now : Z) (tf : TimeInForce) (s s' : Engine.t) :
  wf s → best_ok (book s) →
  left_by (placeLimit clock fuel cid sd pidx q now tf s) = Some s' →
  ∃ nt, trades s' = trades s ++ nt ∧
        Forall (trade_ok true (opposite sd) cid pidx (OrderBook.nlevels (book s))) nt ∧
        OrderBook.nlevels (book s') = OrderBook.nlevels (book s).
Proof.
  intros Hwf Hok Hleft.
  pose proof Hleft as (t1 & s1 & Hsw & Htr)%placeLimit_left.
  destruct (sweep_facts _ _ _ _ _ _ _ _ Hwf Hok Hsw) as (nt & Hnt & Hall & _ & _ & _ & _ & _ & _ & Hn & _).
  exists nt. split; [congruence|]. split; [done|].
  rewrite placeLimit_eq, Hsw in Hleft. cbn [obind] in Hleft.
  destruct (_ && _).
  - apply addPassive_book in Hleft as [-> _]. done.
  - simpl in Hleft. by injection Hleft as <-.
Qed.

Lemma run_log (clock : nat → Z) (fuel : nat) (o : op) (s s' : Engine.t) :
  wf s → best_ok (book s) → index_ok s →
  left_by (run clock fuel o s) = Some s' →
  ∃ nt, trades s' = trades s ++ nt ∧
        Forall (λ tr, 0 < Trade.qty tr ∧
                      0 ≤ Trade.priceIdx tr < OrderBook.nlevels (book s)) nt ∧
        OrderBook.nlevels (book s') = OrderBook.nlevels (book s).
Proof.
  intros Hwf Hok Hi.
  assert (Hweak : ∀ pr opp c p n nt, Forall (trade_ok pr opp c p n) nt →
            Forall (λ tr, 0 < Trade.qty tr ∧ 0 ≤ Trade.priceIdx tr < n) nt).
  { intros pr opp c p n nt H. eapply Forall_impl; [exact H|]. by intros tr (_ & ? & ? & _). }
  assert (Hcancel : ∀ cid b s1, cancel cid s = Ok b s1 →
            trades s1 = trades s ∧ OrderBook.nlevels (book s1) = OrderBook.nlevels (book s)).
  { intros cid b s1 Hcan.
    destruct (clientToEngine s !! cid) as [eid|] eqn:Hc.
    - destruct (Hi cid eid Hc) as (o1 & lv & Ho & Ha & _ & Hl & Hin).
      destruct (cancel_found cid eid o1 lv s Hwf Hc Ho Ha Hl Hin)
        as (s3 & ? & ? & ? & Hcan3 & _ & _ & _ & _ & Hbook & _ & _ & Htr & _).
      rewrite Hcan3 in Hcan. injection Hcan as <- <-.
      by rewrite Hbook, nlevels_set_best, nlevels_set_levels.
    - unfold cancel in Hcan. rewrite Hc in Hcan. by injection Hcan as <- <-. }
  destruct o as [cid sd pidx q now tf|cid sd q now|cid|cid p q now]; simpl.
  - intros Hleft. destruct (placeLimit_log _ _ _ _ _ _ _ _ _ _ Hwf Hok Hleft)
      as (nt & ? & ? & ?). exists nt. eauto.
  - rewrite placeMarket_eq.
    destruct (sweep _ _ _ _ _ _) as [t1 s1|m s1| |] eqn:Hsw; simpl; try done.
    2:{ by apply sweep_no_throw in Hsw. }
    intros [= <-].
    destruct (sweep_facts _ _ _ _ _ _ _ _ Hwf Hok Hsw)
      as (nt & Hnt & Hall & _ & _ & _ & _ & _ & _ & Hn & _).
    exists nt. eauto.
  - destruct (cancel cid s) as [b s1|m s1| |] eqn:Hcan; simpl; try done.
    2:{ by apply cancel_no_throw in Hcan. }
    intros [= <-]. destruct (Hcancel _ _ _ Hcan) as [Htr Hn].
    exists []. rewrite app_nil_r. done.
  - rewrite replace_unfold. unfold cancel_then_new.
    destruct (clientToEngine s !! cid) as [eid|]; simpl.
    2:{ intros [= <-]. exists []. by rewrite app_nil_r. }
    destruct (OrderPool.get (pool s) eid) as [old|]; simpl; [|done].
    destruct (active old); simpl.
    2:{ intros [= <-]. exists []. by rewrite app_nil_r. }
    destruct (cancel cid s) as [b s1|m s1| |] eqn:Hcan; simpl; try done.
    2:{ by apply cancel_no_throw in Hcan. }
    pose proof (cancel_keeps cid s Hwf Hok) as Hk. rewrite Hcan in Hk. destruct Hk as [Hwf1 Hok1].
    destruct (Hcancel _ _ _ Hcan) as [Htr Hn].
    intros Hleft.
    destruct (placeLimit_log clock fuel cid (side old) p q now (tif old) s1 s' Hwf1 Hok1)
      as (nt & Hnt & Hall & Hn').
    { by destruct (placeLimit _ _ _ _ _ _ _ _ _). }
    exists nt. rewrite Hnt, Htr, Hn', Hn. split; [done|]. split; [|done].
    rewrite Hn in Hall. eauto.
Qed.

Lemma reachable_log (clock : nat → Z) (s : Engine.t) :
  reachable clock s →
  Forall (λ tr, 0 < Trade.qty tr ∧ 0 ≤ Trade.priceIdx tr < OrderBook.nlevels (book s))
         (trades s).
Proof.
  assert (Hstep : ∀ fuel o s s', reachable clock s →
            Forall (λ tr, 0 < Trade.qty tr ∧
                          0 ≤ Trade.priceIdx tr < OrderBook.nlevels (book s)) (trades s) →
            left_by (run clock fuel o s) = Some s' →
            Forall (λ tr, 0 < Trade.qty tr ∧
                          0 ≤ Trade.priceIdx tr < OrderBook.nlevels (book s')) (trades s')).
  { intros fuel o s0 s' Hs IH Hleft.
    pose proof (reachable_wf _ _ Hs) as [Hwf Hok].
    pose proof (reachable_index _ _ Hs) as Hi.
    destruct (run_log clock fuel o s0 s' Hwf Hok Hi Hleft) as (nt & -> & Hall & ->).
    apply Forall_app. done. }
  induction 1 as [cap levels ringcap Hl Hr|fuel o s s' Hs IH Hrun|fuel o s s' m Hs IH Hrun].
  - constructor.
  - apply (Hstep fuel o s s' Hs IH). by rewrite Hrun.
  - apply (Hstep fuel o s s' Hs IH). by rewrite Hrun.
Qed.

(** X20. The trade log is append-only and holds only real trades: in every
    state the engine goes through each logged trade has a positive
    quantity and the price index of a level of the book, and an operation,
    whether it returns or throws, leaves the log it found as a prefix of
    the log it leaves. *)
Theorem trade_log_is_append_only (clock : nat → Z) (s : Engine.t) :
  reachable clock s →
  Forall (λ tr, 0 < Trade.qty tr ∧ 0 ≤ Trade.priceIdx tr < OrderBook.nlevels (book s))
         (trades s) ∧
  (∀ fuel o s', left_by (run clock fuel o s) = Some s' → trades s `prefix_of` trades s').
Proof.
  intros Hs. split; [by apply (reachable_log clock)|].
  intros fuel o s' Hleft.
  pose proof (reachable_wf _ _ Hs) as [Hwf Hok].
  pose proof (reachable_index _ _ Hs) as Hi.
  destruct (run_log clock fuel o s s' Hwf Hok Hi Hleft) as (nt & -> & _).
  by exists nt.
Qed.

Lemma trade_log_is_append_only_witness :
  ∃ s0 s1,
    run clock0 1 (PlaceLimit 1 SELL 3 3 0 GFD) small_engine = Ok tt s0 ∧
    run clock0 1 (PlaceLimit 30 BUY 3 10 0 GFD) s0 = Ok tt s1 ∧
    trades s1 = [Trade.mk 30 1 3 3 0] ∧
    Forall (λ tr, 0 < Trade.qty tr ∧ 0 ≤ Trade.priceIdx tr < OrderBook.nlevels (book s1))
           (trades s1) ∧
    (∀ fuel o s', left_by (run clock0 fuel o s1) = Some s' → trades s1 `prefix_of` trades s').
Proof.
  eexists. eexists.
  match goal with
  | |- run ?c ?f ?o ?s = Ok tt ?s0 ∧ run _ ?f1 ?o1 _ = Ok tt ?s1 ∧ _ =>
      assert (H0 : run c f o s = Ok tt s0) by (vm_compute; reflexivity);
      assert (H1 : run c f1 o1 s0 = Ok tt s1) by (vm_compute; reflexivity);
      split; [exact H0|]; split; [exact H1|]; split; [vm_compute; reflexivity|];
      exact (trade_log_is_append_only c s1
               (reach_return c f1 o1 s0 s1
                  (reach_return c f o s s0 small_engine_reachable H0) H1))
  end.
Defined.

(** ** Quantity, replace, and client ids used twice *)

Lemma addPassive_available (sd : Side) (t : Order) (s s' : Engine.t) :
  wf s → addPassive sd t s = Ok tt s' →
  available sd s' = available sd s + qty t ∧
  available (opposite sd) s' = available (opposite sd) s.
Proof.
  intros Hwf Ha.
  assert (Hleft : left_by (addPassive sd t s) = Some s') by (by rewrite Ha).
  destruct (addPassive_book _ _ _ _ Hleft) as [_ Hopp].
  split; [|unfold available; by rewrite Hopp].
  apply addPassive_Ok in Ha as (idx & rest & lvl & lvl' & _ & _ & Hl & Hpush & _ & Hbook & _).
  pose proof (level_wf _ _ _ _ Hwf Hl) as (Hrwf & _).
  apply push_Val in Hpush as (_ & _ & Htq & _); [|done].
  unfold available.
  rewrite Hbook, updateBestAfterAdd_eq, levels_set_best, levels_set_levels.
  rewrite decide_True, list_fmap_insert by done.
  apply vec_get_Some in Hl as [_ Hl].
  rewrite (sum_insert _ _ (RingLevel.totalQty lvl)); [lia|].
  by rewrite list_lookup_fmap, Hl.
Qed.

(** X21. Matching conserves quantity: when a limit order has been placed,
    the opposite side of the book holds less by exactly the quantity
    traded, and the order's own side holds more by exactly what the order
    had left: its quantity, if positive, less the quantity traded. *)
Theorem limit_order_conserves_quantity (clock : nat → Z) (fuel : nat) (cid : Z)
    (sd : Side) (pidx q now : Z) (tf : TimeInForce) (s s' : Engine.t) :
  reachable clock s →
  placeLimit clock fuel cid sd pidx q now tf s = Ok tt s' →
  ∃ nt, trades s' = trades s ++ nt ∧
    available (opposite sd) s' = available (opposite sd) s - traded nt ∧
    available sd s' = available sd s + (Z.max 0 q - traded nt).
Proof.
  intros [Hwf Hok]%reachable_wf Hrun.
  destruct (placeLimit_Ok_inv _ _ _ _ _ _ _ _ _ _ Hwf Hok Hrun)
    as (t1 & s1 & Hsw & Hwf1 & Ht1 & Hadd).
  destruct (sweep_facts _ _ _ _ _ _ _ _ Hwf Hok Hsw)
    as (nt & Hnt & Hall & Hsum & Hq & _ & _ & Hlv & _ & _ & _ & _ & _ & _ & Hav & _).
  pose proof (traded_nonneg _ _ _ _ _ _ Hall) as Hnn.
  rewrite opposite_involutive in Hlv. cbn [limit_taker qty] in Hsum, Hq.
  assert (Hown : available sd s1 = available sd s) by (unfold available; by rewrite Hlv).
  exists nt. case_decide as Hpos.
  - destruct (addPassive_available sd t1 s1 s' Hwf1 Hadd) as [Hs Ho].
    pose proof (addPassive_trades sd t1 s1 s') as Htr. rewrite Hadd in Htr.
    rewrite Htr by done. split; [done|]. split; lia.
  - subst s'. split; [done|]. split; lia.
Qed.

Lemma limit_order_conserves_quantity_witness :
  ∃ s0 s',
    run clock0 1 (PlaceLimit 1 SELL 3 3 0 GFD) small_engine = Ok tt s0 ∧
    placeLimit clock0 1 30 BUY 3 10 0 GFD s0 = Ok tt s' ∧
    available SELL s0 = 3 ∧ available BUY s0 = 0 ∧
    available SELL s' = 0 ∧ available BUY s' = 7 ∧
    ∃ nt, trades s' = trades s0 ++ nt ∧
      available (opposite BUY) s' = available (opposite BUY) s0 - traded nt ∧
      available BUY s' = available BUY s0 + (Z.max 0 10 - traded nt).
Proof.
  eexists. eexists.
  match goal with
  | |- run ?c ?f ?o ?s = Ok tt ?s0 ∧ placeLimit ?c1 ?f1 ?cid ?sd ?p ?q ?n ?tf _ = Ok tt ?s' ∧ _ =>
      assert (H0 : run c f o s = Ok tt s0) by (vm_compute; reflexivity);
      assert (H1 : placeLimit c1 f1 cid sd p q n tf s0 = Ok tt s')
        by (vm_compute; reflexivity);
      split; [exact H0|]; split; [exact H1|];
      do 4 (split; [vm_compute; reflexivity|]);
      exact (limit_order_conserves_quantity c1 f1 cid sd p q n tf s0 s'
               (reach_return c f o s s0 small_engine_reachable H0) H1)
  end.
Defined.

(** X22. [replace] of an indexed order always cancels it and returns true,
    and the new order is a new arrival: it is matched like any limit order
    against the book without the old one, and what is left of it is queued
    behind every order already at its level, even at the old price and
    with a smaller quantity; when nothing is left the client id is no
    longer in the index. *)
Theorem replace_requeues_at_the_tail (clock : nat → Z) (fuel : nat)
    (cid eid p q now : Z) (s s' : Engine.t) (b : bool) :
  reachable clock s → clientToEngine s !! cid = Some eid →
  replace clock fuel cid p q now s = Ok b s' →
  b = true ∧
  ∃ o s1,
    OrderPool.get (pool s) eid = Some o ∧ cancel cid s = Ok true s1 ∧
    placeLimit clock fuel cid (side o) p q now (tif o) s1 = Ok tt s' ∧
    let rem := q - Z.max 0 (Z.min q (executable (side o) p s1)) in
    (rem ≤ 0 → clientToEngine s' !! cid = None) ∧
    (0 < rem →
     ∃ idx lvl lvl',
       clientToEngine s' !! cid = Some idx ∧
       OrderPool.get (pool s') idx =
         Some (mkOrder cid idx (side o) LIMIT (tif o) p rem (u64 now) true) ∧
       level (side o) p s1 = Some lvl ∧ level (side o) p s' = Some lvl' ∧
       contents lvl' = contents lvl ++ [idx]).
Proof.
  intros Hs Hc Hrep.
  pose proof (reachable_wf _ _ Hs) as [Hwf Hok].
  pose proof (reachable_index _ _ Hs) as Hi.
  destruct (cancel_indexed s cid eid Hwf Hi Hc)
    as (s1 & o & lvl0 & lvl0' & k & Hcan & Ho & _ & _ & _ & _ & _ & _ & _ & _ & _ & _ & Hcte & _).
  destruct (Hi cid eid Hc) as (o' & _ & Ho' & Ha & _).
  assert (o' = o) as -> by congruence.
  rewrite replace_unfold in Hrep. unfold cancel_then_new in Hrep.
  rewrite Hc, Ho, Ha, Hcan in Hrep. cbn [obind] in Hrep.
  destruct (placeLimit clock fuel cid (side o) p q now (tif o) s1) as [[] s2| | |] eqn:Hpl;
    simpl in Hrep; try done.
  injection Hrep as <- <-. split; [done|].
  pose proof (cancel_keeps cid s Hwf Hok) as Hk. rewrite Hcan in Hk. destruct Hk as [Hwf1 Hok1].
  exists o, s1. split; [done|]. split; [done|]. split; [done|].
  destruct (placeLimit_remainder clock fuel cid (side o) p q now (tif o) s1 s2 Hwf1 Hok1 Hpl)
    as [Hnone Hrest].
  split.
  - intros Hle. destruct (Hnone Hle) as (_ & Hsub & _).
    destruct (clientToEngine s2 !! cid) as [x|] eqn:Hx; [|done].
    pose proof (lookup_weaken _ _ _ _ Hx Hsub) as Hx'.
    rewrite Hcte in Hx'. by rewrite lookup_delete_eq in Hx'.
  - intros Hlt. destruct (Hrest Hlt) as (idx & lvl & lvl' & ? & ? & ? & ? & ? & _).
    by exists idx, lvl, lvl'.
Qed.

Lemma replace_requeues_at_the_tail_witness :
  ∃ s0 s1 s',
    run clock0 1 (PlaceLimit 7 SELL 3 5 0 GFD) small_engine = Ok tt s0 ∧
    run clock0 1 (PlaceLimit 8 SELL 3 2 0 GFD) s0 = Ok tt s1 ∧
    clientToEngine s1 !! 7 = Some 0 ∧
    replace clock0 1 7 3 4 0 s1 = Ok true s' ∧
    (contents <$> level SELL 3 s1) = Some [0; 1] ∧
    (contents <$> level SELL 3 s') = Some [1; 0] ∧
    true = true ∧
    ∃ o s2,
      OrderPool.get (pool s1) 0 = Some o ∧ cancel 7 s1 = Ok true s2 ∧
      placeLimit clock0 1 7 (side o) 3 4 0 (tif o) s2 = Ok tt s' ∧
      let rem := 4 - Z.max 0 (Z.min 4 (executable (side o) 3 s2)) in
      (rem ≤ 0 → clientToEngine s' !! 7 = None) ∧
      (0 < rem →
       ∃ idx lvl lvl',
         clientToEngine s' !! 7 = Some idx ∧
         OrderPool.get (pool s') idx =
           Some (mkOrder 7 idx (side o) LIMIT (tif o) 3 rem (u64 0) true) ∧
         level (side o) 3 s2 = Some lvl ∧ level (side o) 3 s' = Some lvl' ∧
         contents lvl' = contents lvl ++ [idx]).
Proof.
  eexists. eexists. eexists.
  match goal with
  | |- run ?c ?f ?o ?s = Ok tt ?s0 ∧ run _ ?f1 ?o1 _ = Ok tt ?s1 ∧ _ ∧
       replace ?c2 ?f2 ?cid ?p ?q ?n _ = Ok ?b ?s' ∧ _ =>
      assert (H0 : run c f o s = Ok tt s0) by (vm_compute; reflexivity);
      assert (H1 : run c f1 o1 s0 = Ok tt s1) by (vm_compute; reflexivity);
      assert (H2 : clientToEngine s1 !! 7 = Some 0) by (vm_compute; reflexivity);
      assert (H3 : replace c2 f2 cid p q n s1 = Ok b s') by (vm_compute; reflexivity);
      split; [exact H0|]; split; [exact H1|]; split; [exact H2|]; split; [exact H3|];
      do 2 (split; [vm_compute; reflexivity|]);
      exact (replace_requeues_at_the_tail c2 f2 cid 0 p q n s1 s' b
               (reach_return c f1 o1 s0 s1
                  (reach_return c f o s s0 small_engine_reachable H0) H1) H2 H3)
  end.
Defined.

(** X23. The client index holds one order per client id, the last one
    queued. When a limit order rests under a client id that already has
    a resting order on the same side, the index entry moves to the new
    order: the earlier order stays in its slot and in the queue of its
    level, but no entry of the index points at it any more, so that
    neither [cancel] nor [replace] can reach it. *)
Theorem reused_client_id_orphans_order (clock : nat → Z) (fuel : nat)
    (cid eid p q now : Z) (tf : TimeInForce) (o : Order) (s s' : Engine.t) :
  reachable clock s →
  clientToEngine s !! cid = Some eid → OrderPool.get (pool s) eid = Some o →
  placeLimit clock fuel cid (side o) p q now tf s = Ok tt s' →
  0 < q - Z.max 0 (Z.min q (executable (side o) p s)) →
  (∃ idx, clientToEngine s' !! cid = Some idx ∧ idx ≠ eid) ∧
  OrderPool.get (pool s') eid = Some o ∧
  (∃ lvl', level (side o) (priceIdx o) s' = Some lvl' ∧ eid ∈ contents lvl') ∧
  (∀ c, clientToEngine s' !! c ≠ Some eid).
Proof.
  intros Hs Hc Ho Hrun Hrem.
  pose proof (reachable_wf _ _ Hs) as [Hwf Hok].
  pose proof (reachable_index _ _ Hs) as Hi.
  destruct (Hi cid eid Hc) as (o' & lvl & Ho' & Ha & Hcid & Hl & Hin).
  assert (o' = o) as -> by congruence.
  destruct (placeLimit_Ok_inv _ _ _ _ _ _ _ _ _ _ Hwf Hok Hrun)
    as (t1 & s1 & Hsw & Hwf1 & Ht1 & Hadd).
  assert (Hq1 : qty t1 = q - Z.max 0 (Z.min q (executable (side o) p s)))
    by (by rewrite Ht1).
  rewrite decide_True in Hadd by lia.
  destruct (sweep_facts _ _ _ _ _ _ _ _ Hwf Hok Hsw)
    as (_ & _ & _ & _ & _ & _ & _ & Hlv & _ & _ & Hcte & _ & _ & _ & _ & Hframe).
  rewrite opposite_involutive in Hlv.
  assert (Ho1 : OrderPool.get (pool s1) eid = Some o).
  { apply Hframe; [done|done|]. intros Heq. by apply (opposite_ne (side o)). }
  assert (Hl1 : level (side o) (priceIdx o) s1 = Some lvl).
  { unfold level in *. by rewrite Hlv. }
  apply addPassive_Ok in Hadd as (idx & rest & lvl2 & lvl2' & Hfl & Hidx & Hl2 & Hpush
                                  & Hpool & Hbook & Hcte' & _).
  destruct (free_back_in_range s1 idx rest Hwf1 Hfl) as (_ & _ & _ & oi & Hoi & Hai).
  assert (Hne : idx ≠ eid) by (intros ->; congruence).
  assert (Hcid1 : clientId t1 = cid) by (by rewrite Ht1).
  assert (Hpid1 : priceIdx t1 = p) by (by rewrite Ht1).
  rewrite Hcid1 in Hcte'. rewrite Hpid1 in *.
  pose proof (level_wf _ _ _ _ Hwf1 Hl2) as (Hrwf & _).
  apply push_Val in Hpush as (_ & _ & _ & _ & Hc2); [|done].
  pose proof (vec_get_range _ _ _ Hl2) as Hpr.
  rewrite updateBestAfterAdd_eq in Hbook.
  split_and!.
  - exists idx. split; [|done]. rewrite Hcte'. apply lookup_insert_eq.
  - rewrite Hpool, get_insert, decide_False by done. by destruct (pool s1).
  - rewrite (level_after _ _ _ _ _ _ _ _ Hbook) by lia.
    destruct (decide (side o = side o ∧ _)) as [[_ Heq]|_]; [|by exists lvl].
    exists lvl2'. split; [done|]. rewrite Hc2. apply elem_of_app. left.
    rewrite Heq, Z2Nat.id in Hl1 by lia. by assert (lvl2 = lvl) as -> by congruence.
  - intros c Hce. rewrite Hcte' in Hce.
    apply lookup_insert_Some in Hce as [[_ ?]|[Hnc Hce]]; [done|].
    pose proof (lookup_weaken _ _ _ _ Hce Hcte) as Hce'.
    destruct (Hi c eid Hce') as (o2 & _ & Ho2 & _ & Hcid2 & _). congruence.
Qed.

Lemma reused_client_id_orphans_order_witness :
  ∃ s0 s',
    run clock0 1 (PlaceLimit 7 SELL 3 5 0 GFD) small_engine = Ok tt s0 ∧
    clientToEngine s0 !! 7 = Some 0 ∧
    OrderPool.get (pool s0) 0 = Some (mkOrder 7 0 SELL LIMIT GFD 3 5 0 true) ∧
    placeLimit clock0 1 7 SELL 4 2 0 GFD s0 = Ok tt s' ∧
    (∃ idx, clientToEngine s' !! 7 = Some idx ∧ idx ≠ 0) ∧
    OrderPool.get (pool s') 0 = Some (mkOrder 7 0 SELL LIMIT GFD 3 5 0 true) ∧
    (∃ lvl', level SELL 3 s' = Some lvl' ∧ 0 ∈ contents lvl') ∧
    (∀ c, clientToEngine s' !! c ≠ Some 0).
Proof.
  eexists. eexists.
  match goal with
  | |- run ?c ?f ?o ?s = Ok tt ?s0 ∧ _ ∧ OrderPool.get _ _ = Some ?ord ∧
       placeLimit ?c1 ?f1 ?cid ?sd ?p ?q ?n ?tf _ = Ok tt ?s' ∧ _ =>
      assert (H0 : run c f o s = Ok tt s0) by (vm_compute; reflexivity);
      assert (H1 : clientToEngine s0 !! 7 = Some 0) by (vm_compute; reflexivity);
      assert (H2 : OrderPool.get (pool s0) 0 = Some ord) by (vm_compute; reflexivity);
      assert (H3 : placeLimit c1 f1 cid (side ord) p q n tf s0 = Ok tt s')
        by (vm_compute; reflexivity);
      split; [exact H0|]; split; [exact H1|]; split; [exact H2|]; split; [exact H3|];
      apply (reused_client_id_orphans_order c1 f1 cid 0 p q n tf ord s0 s'
               (reach_return c f o s s0 small_engine_reachable H0) H1 H2 H3);
      vm_compute; reflexivity
  end.
Defined.

(** ** Price order of the trades, and the state of the book and the pool *)

Lemma no_better_refl (opp : Side) (a : Z) : no_better opp a a.
Proof. destruct opp; simpl; lia. Qed.

Lemma no_better_trans (opp : Side) (a b c : Z) :
  no_better opp a b → no_better opp b c → no_better opp a c.
Proof. destruct opp; simpl; lia. Qed.

Lemma next_best_no_better (opp : Side) (v : list RingLevel.t) (b x : Z) :
  next_best opp v b x → x = -1 ∨ no_better opp b x.
Proof. destruct opp; simpl; intros [[-> _]|(? & _)]; auto; right; lia. Qed.

Lemma matchStep_price (clock : nat → Z) (priced : bool) (opp : Side)
    (taker t1 : Order) (s s1 : Engine.t) :
  wf s → best_ok (book s) → guard priced opp taker s = true →
  matchStep clock opp taker s = Ok t1 s1 →
  (∃ tr, trades s1 = trades s ++ [tr] ∧
         Trade.priceIdx tr = OrderBook.best opp (book s)) ∧
  (OrderBook.best opp (book s1) = -1 ∨
   no_better opp (OrderBook.best opp (book s)) (OrderBook.best opp (book s1))).
Proof.
  intros Hwf Hok Hg Hstep.
  pose proof (guard_true _ _ _ _ Hg) as [Hq Hbne].
  pose proof (matchStep_Ok _ _ _ _ _ _ Hwf Hstep) as (pl & Hpl & Hcase). simpl in Hcase.
  pose proof (vec_get_range _ _ _ Hpl) as Hbr.
  destruct Hcase as [(He & _)|(He & e & rest & maker & pl' & x & Hc & Hm & Hrest)].
  { exfalso. apply best_ok_sides in Hok as [Hbest _].
    destruct (is_best_at opp _ _ (Hbest opp) Hbne) as (r & Hr & Hne).
    unfold level in Hpl. congruence. }
  simpl in Hrest.
  destruct Hrest as (_ & _ & _ & _ & Htr & _ & Hbook & _ & _ & _ & Hx & _).
  pose proof (level_wf _ _ _ _ Hwf Hpl) as (_ & _ & Hres & _).
  destruct (Hres e) as (o & Ho & _ & _ & Hpr & _).
  { rewrite Hc. by left. }
  assert (o = maker) as -> by congruence.
  rewrite Z2Nat.id in Hpr by lia.
  split.
  - eexists. split; [exact Htr|]. done.
  - rewrite Hbook, best_set_best, decide_True by done.
    destruct (RingLevel.empty pl').
    + by eapply next_best_no_better.
    + subst x. right. apply no_better_refl.
Qed.

Lemma sweep_price_order (clock : nat → Z) (priced : bool) (opp : Side) (fuel : nat) :
  ∀ (taker taker' : Order) (s s' : Engine.t),
  wf s → best_ok (book s) →
  sweep clock fuel priced opp taker s = Ok taker' s' →
  ∃ nt, trades s' = trades s ++ nt ∧
    Forall (λ tr, no_better opp (OrderBook.best opp (book s)) (Trade.priceIdx tr)) nt ∧
    (∀ (i j : nat) ti tj, (i < j)%nat → nt !! i = Some ti → nt !! j = Some tj →
       no_better opp (Trade.priceIdx ti) (Trade.priceIdx tj)) ∧
    (∀ tr, head nt = Some tr → Trade.priceIdx tr = OrderBook.best opp (book s)).
Proof.
  induction fuel as [|fuel IH]; intros taker taker' s s' Hwf Hok Hsw; simpl in Hsw.
  - destruct (guard priced opp taker s); [done|]. injection Hsw as <- <-.
    exists []. rewrite app_nil_r. split_and!; try done; constructor.
  - destruct (guard priced opp taker s) eqn:Hg.
    2:{ injection Hsw as <- <-. exists []. rewrite app_nil_r.
        split_and!; try done; constructor. }
    destruct (matchStep clock opp taker s) as [t1 s1| | |] eqn:Hstep; try done.
    simpl in Hsw. pose proof (guard_true _ _ _ _ Hg) as [Hq Hbne].
    destruct (matchStep_price _ _ _ _ _ _ _ Hwf Hok Hg Hstep) as [(tr & Htr & Hp) Hb1].
    assert (Hwf1 : wf s1) by (eapply matchStep_wf; [done| |done]; lia).
    assert (Hok1 : best_ok (book s1)).
    { eapply matchStep_best_ok; [exact Hwf|exact Hok|exact Hbne|exact Hstep]. }
    destruct (IH _ _ _ _ Hwf1 Hok1 Hsw) as (nt2 & Htr2 & Hall2 & Hsort2 & _).
    assert (Hall : Forall (λ tr', no_better opp (OrderBook.best opp (book s))
                                    (Trade.priceIdx tr')) nt2).
    { destruct Hb1 as [Hm1|Hnb].
      - assert (nt2 = []) as ->; [|constructor].
        rewrite sweep_guard_false in Hsw.
        + injection Hsw as _ <-. rewrite <- (app_nil_r (trades s1)) in Htr2 at 1.
          by apply app_inv_head in Htr2.
        + unfold guard. rewrite (bool_decide_eq_false_2 (_ ≠ -1)) by (intros ?; done).
          by rewrite andb_false_r.
      - eapply Forall_impl; [exact Hall2|]. intros tr' Htr'. by eapply no_better_trans. }
    exists (tr :: nt2). split_and!.
    + rewrite Htr2, Htr, <- app_assoc. done.
    + constructor; [rewrite Hp; apply no_better_refl|done].
    + intros [|i] [|j] ti tj Hij Hi Hj; simpl in Hi, Hj; try lia.
      * injection Hi as <-. rewrite Hp.
        apply (proj1 (Forall_forall _ _) Hall). by eapply list_elem_of_lookup_2.
      * apply (Hsort2 i j); [lia|done|done].
    + intros tr' [= <-]. done.
Qed.

(** X24. An order is filled at the best prices first: the trades that a
    limit or market order appends to the log, whether the operation returns
    or throws, start at the best price of the opposite side and are in
    price order, never decreasing for a buy and never increasing for a
    sell. *)
Theorem trades_are_priced_best_first (clock : nat → Z) (fuel : nat) (sd : Side)
    (o : op) (s s' : Engine.t) :
  reachable clock s → is_taker sd o →
  left_by (run clock fuel o s) = Some s' →
  ∃ nt, trades s' = trades s ++ nt ∧
    (∀ (i j : nat) ti tj, (i < j)%nat → nt !! i = Some ti → nt !! j = Some tj →
       match sd with
       | BUY => Trade.priceIdx ti ≤ Trade.priceIdx tj
       | SELL => Trade.priceIdx tj ≤ Trade.priceIdx ti
       end) ∧
    (∀ tr, head nt = Some tr →
           Trade.priceIdx tr = OrderBook.best (opposite sd) (book s)).
Proof.
  intros [Hwf Hok]%reachable_wf Htk Hleft.
  assert (Hsw : ∃ priced taker t1 s1,
            sweep clock fuel priced (opposite sd) taker s = Ok t1 s1 ∧ trades s' = trades s1).
  { destruct o as [cid sd' pidx q now tf|cid sd' q now|cid|cid p q now]; simpl in Htk;
      try done; subst sd'; simpl in Hleft.
    - apply placeLimit_left in Hleft as (t1 & s1 & Hsw & Htr). eauto 6.
    - rewrite placeMarket_eq in Hleft.
      destruct (sweep _ _ _ _ _ _) as [t1 s1|m s1| |] eqn:Hsw; simpl in Hleft; try done.
      + injection Hleft as <-. eauto 6.
      + by apply sweep_no_throw in Hsw. }
  destruct Hsw as (priced & taker & t1 & s1 & Hsw & Htr).
  destruct (sweep_price_order _ _ _ _ _ _ _ _ Hwf Hok Hsw) as (nt & Hnt & _ & Hsort & Hhead).
  exists nt. split; [congruence|]. split; [|done].
  intros i j ti tj Hij Hi Hj. specialize (Hsort i j ti tj Hij Hi Hj).
  by destruct sd.
Qed.

Lemma trades_are_priced_best_first_witness :
  ∃ s0 s1 s',
    run clock0 1 (PlaceLimit 1 SELL 5 3 0 GFD) small_engine = Ok tt s0 ∧
    run clock0 1 (PlaceLimit 2 SELL 2 3 0 GFD) s0 = Ok tt s1 ∧
    left_by (run clock0 4 (PlaceMarket 30 BUY 5 0) s1) = Some s' ∧
    (Trade.priceIdx <$> trades s') = [2; 5] ∧
    ∃ nt, trades s' = trades s1 ++ nt ∧
      (∀ (i j : nat) ti tj, (i < j)%nat → nt !! i = Some ti → nt !! j = Some tj →
         Trade.priceIdx ti ≤ Trade.priceIdx tj) ∧
      (∀ tr, head nt = Some tr →
             Trade.priceIdx tr = OrderBook.best (opposite BUY) (book s1)).
Proof.
  eexists. eexists. eexists.
  match goal with
  | |- run ?c ?f ?o ?s = Ok tt ?s0 ∧ run _ ?f1 ?o1 _ = Ok tt ?s1 ∧
       left_by (run _ ?f2 ?o2 _) = Some ?s' ∧ _ =>
      assert (H0 : run c f o s = Ok tt s0) by (vm_compute; reflexivity);
      assert (H1 : run c f1 o1 s0 = Ok tt s1) by (vm_compute; reflexivity);
      assert (H2 : left_by (run c f2 o2 s1) = Some s') by (vm_compute; reflexivity);
      split; [exact H0|]; split; [exact H1|]; split; [exact H2|];
      split; [vm_compute; reflexivity|];
      exact (trades_are_priced_best_first c f2 BUY o2 s1 s'
               (reach_return c f1 o1 s0 s1
                  (reach_return c f o s s0 small_engine_reachable H0) H1)
               eq_refl H2)
  end.
Defined.

(** X25. The book only queues live orders: in every state the engine goes
    through, each ring has its cursors inside its buffer and an aggregate
    in [0, 2^63), holds no engine id twice, and each id it holds is the
    slot of an active order of that side and that price level with a
    positive quantity, which is not on the free list and is queued in no
    other ring. *)
Theorem queued_orders_are_live (clock : nat → Z) (s : Engine.t) (sd : Side) (i : nat)
    (r : RingLevel.t) :
  reachable clock s → OrderBook.levels sd (book s) !! i = Some r →
  ring_wf r ∧ NoDup (contents r) ∧ 0 ≤ RingLevel.totalQty r < 2 ^ 63 ∧
  (∀ e, e ∈ contents r →
     (∃ o, OrderPool.get (pool s) e = Some o ∧ active o = true ∧ side o = sd ∧
           priceIdx o = Z.of_nat i ∧ 0 < qty o) ∧
     (e ∉ OrderPool.freeList (pool s)) ∧
     (∀ sd' i' r', OrderBook.levels sd' (book s) !! i' = Some r' →
                   (sd', i') ≠ (sd, i) → e ∉ contents r')).
Proof.
  intros [Hwf _]%reachable_wf Hr.
  pose proof (side_level_ok sd s i r Hwf Hr) as Hlok.
  pose proof Hlok as (Hrwf & Hnd & Hres & _ & Hlt).
  pose proof (level_ok_total_nonneg _ _ _ _ Hlok).
  split_and!; try done.
  intros e He. pose proof (Hres e He) as Hre.
  destruct Hre as (o & Ho & Ha & Hsd & Hpr & Hq).
  split_and!.
  - exists o. split_and!; try done. lia.
  - destruct Hwf as (Hp & _). by eapply pool_ok_active.
  - apply (elsewhere_resting s sd i e Hwf). by exists o.
Qed.

Lemma queued_orders_are_live_witness :
  ∃ s0 r,
    run clock0 1 (PlaceLimit 7 SELL 3 5 0 GFD) small_engine = Ok tt s0 ∧
    OrderBook.levels SELL (book s0) !! 3%nat = Some r ∧ contents r = [0] ∧
    ring_wf r ∧ NoDup (contents r) ∧ 0 ≤ RingLevel.totalQty r < 2 ^ 63 ∧
    (∀ e, e ∈ contents r →
       (∃ o, OrderPool.get (pool s0) e = Some o ∧ active o = true ∧ side o = SELL ∧
             priceIdx o = Z.of_nat 3 ∧ 0 < qty o) ∧
       (e ∉ OrderPool.freeList (pool s0)) ∧
       (∀ sd' i' r', OrderBook.levels sd' (book s0) !! i' = Some r' →
                     (sd', i') ≠ (SELL, 3%nat) → e ∉ contents r')).
Proof.
  eexists. eexists.
  match goal with
  | |- run ?c ?f ?o ?s = Ok tt ?s0 ∧ OrderBook.levels _ _ !! _ = Some ?r ∧ _ =>
      assert (H0 : run c f o s = Ok tt s0) by (vm_compute; reflexivity);
      assert (H1 : OrderBook.levels SELL (book s0) !! 3%nat = Some r)
        by (vm_compute; reflexivity);
      split; [exact H0|]; split; [exact H1|]; split; [vm_compute; reflexivity|];
      exact (queued_orders_are_live c s0 SELL 3 r
               (reach_return c f o s s0 small_engine_reachable H0) H1)
  end.
Defined.

Lemma free_complete_step (p : OrderPool.t) (e : Z) (o' : Order) (fl' : list Z) :
  free_complete p → 0 ≤ e < Z.of_nat (length (OrderPool.pool p)) →
  (∀ y, y ∈ OrderPool.freeList p → y ≠ e → y ∈ fl') →
  (active o' = false → e ∈ fl') →
  free_complete (OrderPool.mk (<[Z.to_nat e := o']> (OrderPool.pool p)) fl').
Proof.
  intros Hf He Hfl Ho y oy Hy Ha. rewrite get_insert in Hy by done.
  destruct (decide (y = e)) as [->|Hne].
  - injection Hy as <-. by apply Ho.
  - apply Hfl; [|done]. apply (Hf y oy); [|done]. by destruct p.
Qed.

Lemma matchStep_free_complete (clock : nat → Z) (opp : Side) (taker t1 : Order)
    (s s1 : Engine.t) :
  wf s → free_complete (pool s) → matchStep clock opp taker s = Ok t1 s1 →
  free_complete (pool s1).
Proof.
  intros Hwf Hf Hstep.
  pose proof (matchStep_Ok _ _ _ _ _ _ Hwf Hstep) as (pl & Hpl & Hcase). simpl in Hcase.
  destruct Hcase as [(He & -> & x & Hx & ->)|(He & e & rest & maker & pl' & x & Hc & Hm & Hrest)];
    [done|].
  simpl in Hrest.
  destruct Hrest as (_ & _ & _ & _ & _ & _ & _ & _ & _ & _ & _ & Hpool & _).
  pose proof (vec_get_range _ _ _ Hm) as Her.
  pose proof (level_wf _ _ _ _ Hwf Hpl) as (_ & _ & Hres & _).
  destruct (Hres e) as (o & Ho & Hact & _).
  { rewrite Hc. by left. }
  assert (o = maker) as -> by congruence.
  rewrite Hpool. apply free_complete_step; [done|done| |].
  - intros y Hy _. apply elem_of_app. by left.
  - destruct (decide (qty maker ≤ qty taker)); simpl; [|congruence].
    intros _. apply elem_of_app. right. by left.
Qed.

Lemma sweep_free_complete (clock : nat → Z) (priced : bool) (opp : Side) (fuel : nat) :
  ∀ (taker taker' : Order) (s s' : Engine.t),
  wf s → best_ok (book s) → free_complete (pool s) →
  sweep clock fuel priced opp taker s = Ok taker' s' → free_complete (pool s').
Proof.
  induction fuel as [|fuel IH]; intros taker taker' s s' Hwf Hok Hf Hsw; simpl in Hsw.
  - destruct (guard priced opp taker s); [done|]. by injection Hsw as <- <-.
  - destruct (guard priced opp taker s) eqn:Hg; [|by injection Hsw as <- <-].
    destruct (matchStep clock opp taker s) as [t1 s1| | |] eqn:Hstep; try done.
    simpl in Hsw. pose proof (guard_true _ _ _ _ Hg) as [Hq Hbne].
    eapply (IH t1 taker' s1 s'); [| | |done].
    + eapply matchStep_wf; [done| |done]. lia.
    + eapply matchStep_best_ok; [exact Hwf|exact Hok|exact Hbne|exact Hstep].
    + by eapply matchStep_free_complete.
Qed.

Lemma addPassive_free_complete (sd : Side) (t : Order) (s s' : Engine.t) :
  wf s → free_complete (pool s) →
  left_by (addPassive sd t s) = Some s' → free_complete (pool s').
Proof.
  intros Hwf Hf Hleft.
  assert (Hgen : ∀ idx rest,
            reverse (OrderPool.freeList (pool s)) = idx :: rest →
            0 ≤ idx < Z.of_nat (length (OrderPool.pool (pool s))) →
            free_complete (OrderPool.mk
              (<[Z.to_nat idx := set_active true (set_engineId idx t)]>
                 (OrderPool.pool (pool s))) (reverse rest))).
  { intros idx rest Hfl Hidx. apply free_complete_step; [done|done| |done].
    intros y Hy Hne. apply back_of_list in Hfl. rewrite Hfl in Hy.
    apply elem_of_app in Hy as [Hy|Hy]; [done|].
    apply elem_of_cons in Hy as [->|Hy]; [done|]. by apply elem_of_nil in Hy. }
  destruct (addPassive sd t s) as [[] s2|m s2| |] eqn:Ha; simpl in Hleft; try done;
    injection Hleft as ->.
  - apply addPassive_Ok in Ha as (idx & rest & ? & ? & Hfl & Hidx & _ & _ & -> & _).
    by apply Hgen.
  - apply addPassive_Throw in Ha as [->|(idx & rest & Hfl & Hidx & ->)]; [done|].
    by apply Hgen.
Qed.

Lemma placeLimit_free_complete (clock : nat → Z) (fuel : nat) (cid : Z) (sd : Side)
    (pidx q now : Z) (tf : TimeInForce) (s s' : Engine.t) :
  wf s → best_ok (book s) → free_complete (pool s) →
  left_by (placeLimit clock fuel cid sd pidx q now tf s) = Some s' →
  free_complete (pool s').
Proof.
  intros Hwf Hok Hf. rewrite placeLimit_eq.
  destruct (sweep _ _ _ _ _ _) as [t1 s1|m s1| |] eqn:Hsw; simpl; try done.
  2:{ by apply sweep_no_throw in Hsw. }
  pose proof (sweep_Ok _ _ _ _ _ _ _ _ Hwf Hok Hsw) as (Hwf1 & _).
  pose proof (sweep_free_complete _ _ _ _ _ _ _ _ Hwf Hok Hf Hsw) as Hf1.
  destruct (_ && _).
  - by apply addPassive_free_complete.
  - simpl. by intros [= <-].
Qed.

Lemma cancel_free_complete (cid : Z) (b : bool) (s s' : Engine.t) :
  wf s → index_ok s → free_complete (pool s) →
  cancel cid s = Ok b s' → free_complete (pool s').
Proof.
  intros Hwf Hi Hf Hcan.
  destruct (clientToEngine s !! cid) as [eid|] eqn:Hc.
  2:{ unfold cancel in Hcan. rewrite Hc in Hcan. by injection Hcan as <- <-. }
  destruct (Hi cid eid Hc) as (o & lvl & Ho & Ha & _ & Hl & Hin).
  destruct (cancel_found cid eid o lvl s Hwf Hc Ho Ha Hl Hin)
    as (s'' & ? & ? & ? & Hcan' & _ & _ & _ & _ & _ & Hpool & _).
  rewrite Hcan' in Hcan. injection Hcan as <- <-.
  pose proof (vec_get_range _ _ _ Ho) as Her.
  rewrite Hpool. apply free_complete_step; [done|done| |].
  - intros y Hy _. apply elem_of_app. by left.
  - intros _. apply elem_of_app. right. by left.
Qed.

Lemma run_free_complete (clock : nat → Z) (fuel : nat) (o : op) (s s' : Engine.t) :
  wf s → best_ok (book s) → index_ok s → free_complete (pool s) →
  left_by (run clock fuel o s) = Some s' → free_complete (pool s').
Proof.
  intros Hwf Hok Hi Hf. destruct o as [cid sd pidx q now tf|cid sd q now|cid|cid p q now]; simpl.
  - by apply placeLimit_free_complete.
  - rewrite placeMarket_eq.
    destruct (sweep _ _ _ _ _ _) as [t1 s1|m s1| |] eqn:Hsw; simpl; try done.
    + intros [= <-]. by eapply sweep_free_complete.
    + by apply sweep_no_throw in Hsw.
  - destruct (cancel cid s) as [b s1|m s1| |] eqn:Hcan; simpl; try done.
    + intros [= <-]. by eapply cancel_free_complete.
    + by apply cancel_no_throw in Hcan.
  - rewrite replace_unfold. unfold cancel_then_new.
    destruct (clientToEngine s !! cid) as [eid|]; simpl; [|by intros [= <-]].
    destruct (OrderPool.get (pool s) eid) as [old|]; simpl; [|done].
    destruct (active old); simpl; [|by intros [= <-]].
    destruct (cancel cid s) as [b s1|m s1| |] eqn:Hcan; simpl; try done.
    2:{ by apply cancel_no_throw in Hcan. }
    pose proof (cancel_keeps cid s Hwf Hok) as Hk. rewrite Hcan in Hk. destruct Hk as [Hwf1 Hok1].
    pose proof (cancel_free_complete _ _ _ _ Hwf Hi Hf Hcan) as Hf1.
    intros Hleft. apply (placeLimit_free_complete clock fuel cid (side old) p q now (tif old) s1);
      [done|done|done|].
    by destruct (placeLimit _ _ _ _ _ _ _ _ _).
Qed.

Lemma new_free_complete (cap : Z) : free_complete (OrderPool.new cap).
Proof.
  intros e o He _. apply vec_get_range in He.
  unfold OrderPool.new in *. cbn [OrderPool.pool OrderPool.freeList] in *.
  rewrite length_replicate in He.
  change (map ?f ?l) with (f <$> l). apply list_elem_of_fmap.
  exists (Z.to_nat (cap - 1 - e)). split; [lia|]. apply elem_of_seq. lia.
Qed.

Lemma reachable_free_complete (clock : nat → Z) (s : Engine.t) :
  reachable clock s → free_complete (pool s).
Proof.
  induction 1 as [cap levels ringcap Hl Hr|fuel o s s' Hs IH Hrun|fuel o s s' m Hs IH Hrun].
  - apply new_free_complete.
  - pose proof (reachable_wf _ _ Hs) as [Hwf Hok].
    apply (run_free_complete clock fuel o s s' Hwf Hok (reachable_index _ _ Hs) IH).
    by rewrite Hrun.
  - pose proof (reachable_wf _ _ Hs) as [Hwf Hok].
    apply (run_free_complete clock fuel o s s' Hwf Hok (reachable_index _ _ Hs) IH).
    by rewrite Hrun.
Qed.

(** X26. The free list is exact: in every state the engine goes through it
    lists, without repetition, the slots of the pool that hold no active
    order, all of them and no others. So [allocate] never hands out a slot
    that holds a live order, and no slot given back is lost. *)
Theorem free_list_is_exact (clock : nat → Z) (s : Engine.t) :
  reachable clock s →
  NoDup (OrderPool.freeList (pool s)) ∧
  (∀ e, e ∈ OrderPool.freeList (pool s) → is_Some (OrderPool.get (pool s) e)) ∧
  (∀ e o, OrderPool.get (pool s) e = Some o →
          (e ∈ OrderPool.freeList (pool s) ↔ active o = false)).
Proof.
  intros Hs. pose proof (reachable_wf _ _ Hs) as [([Hnd Hp] & _) _].
  pose proof (reachable_free_complete _ _ Hs) as Hf.
  split; [done|]. split.
  - intros e He. destruct (Hp e He) as (o & -> & _). by eexists.
  - intros e o Ho. split.
    + intros He. destruct (Hp e He) as (o' & Ho' & Ha). congruence.
    + by apply Hf.
Qed.

Lemma free_list_is_exact_witness :
  ∃ s0 s1,
    run clock0 1 (PlaceLimit 7 SELL 3 5 0 GFD) small_engine = Ok tt s0 ∧
    run clock0 1 (PlaceLimit 8 BUY 3 5 0 GFD) s0 = Ok tt s1 ∧
    OrderPool.freeList (pool s0) = [3; 2; 1] ∧
    OrderPool.freeList (pool s1) = [3; 2; 1; 0] ∧
    NoDup (OrderPool.freeList (pool s1)) ∧
    (∀ e, e ∈ OrderPool.freeList (pool s1) → is_Some (OrderPool.get (pool s1) e)) ∧
    (∀ e o, OrderPool.get (pool s1) e = Some o →
            (e ∈ OrderPool.freeList (pool s1) ↔ active o = false)).
Proof.
  eexists. eexists.
  match goal with
  | |- run ?c ?f ?o ?s = Ok tt ?s0 ∧ run _ ?f1 ?o1 _ = Ok tt ?s1 ∧ _ =>
      assert (H0 : run c f o s = Ok tt s0) by (vm_compute; reflexivity);
      assert (H1 : run c f1 o1 s0 = Ok tt s1) by (vm_compute; reflexivity);
      split; [exact H0|]; split; [exact H1|];
      do 2 (split; [vm_compute; reflexivity|]);
      exact (free_list_is_exact c s1
               (reach_return c f1 o1 s0 s1
                  (reach_return c f o s s0 small_engine_reachable H0) H1))
  end.
Defined.

(** ** Client ids that are not reused *)

Lemma complete_shrink (s s1 : Engine.t) (e : Z) :
  index_complete s →
  (∀ sd i r1 y, OrderBook.levels sd (book s1) !! i = Some r1 → y ∈ contents r1 →
                ∃ r, OrderBook.levels sd (book s) !! i = Some r ∧ y ∈ contents r) →
  (∀ y, y ≠ e → OrderPool.get (pool s1) y = OrderPool.get (pool s) y) →
  (∀ o1, OrderPool.get (pool s1) e = Some o1 → queued e s1 →
         ∃ o, OrderPool.get (pool s) e = Some o ∧ clientId o1 = clientId o ∧
              clientToEngine s1 !! clientId o = Some e) →
  (∀ c y, y ≠ e → clientToEngine s !! c = Some y → clientToEngine s1 !! c = Some y) →
  index_complete s1 ∧ ∀ cid, unused cid s → unused cid s1.
Proof.
  intros Hcp Hsub Hpool He Hcte. split.
  - intros sd i r1 y o1 Hr1 Hy Ho1.
    destruct (decide (y = e)) as [->|Hne].
    + destruct (He o1 Ho1) as (o & Ho & -> & Hc); [by exists sd, i, r1|done].
    + destruct (Hsub _ _ _ _ Hr1 Hy) as (r & Hr & Hyr).
      rewrite Hpool in Ho1 by done. apply Hcte; [done|]. by eapply Hcp.
  - intros cid Hun sd i r1 y o1 Hr1 Hy Ho1.
    destruct (Hsub _ _ _ _ Hr1 Hy) as (r & Hr & Hyr).
    destruct (decide (y = e)) as [->|Hne].
    + destruct (He o1 Ho1) as (o & Ho & -> & _); [by exists sd, i, r1|].
      by eapply Hun.
    + rewrite Hpool in Ho1 by done. by eapply Hun.
Qed.

Lemma levels_after (sd opp : Side) (x : Z) (b i : nat) (pl' r1 : RingLevel.t)
    (s s' : Engine.t) :
  book s' = OrderBook.set_best opp x
              (OrderBook.set_levels opp (<[b := pl']> (OrderBook.levels opp (book s))) (book s)) →
  OrderBook.levels sd (book s') !! i = Some r1 →
  (sd = opp ∧ i = b ∧ r1 = pl') ∨ OrderBook.levels sd (book s) !! i = Some r1.
Proof.
  intros Hbook Hr1. rewrite Hbook, levels_set_best, levels_set_levels in Hr1.
  case_decide as Hsd; [subst sd|by right].
  destruct (decide (i = b)) as [->|Hne].
  - apply list_lookup_insert_Some in Hr1 as [(_ & -> & _)|[? _]]; [by left|done].
  - rewrite list_lookup_insert_ne in Hr1 by done. by right.
Qed.

Lemma matchStep_complete (clock : nat → Z) (opp : Side) (taker t1 : Order) (s s1 : Engine.t) :
  wf s → index_complete s → matchStep clock opp taker s = Ok t1 s1 →
  index_complete s1 ∧ ∀ cid, unused cid s → unused cid s1.
Proof.
  intros Hwf Hcp Hstep.
  pose proof (matchStep_Ok _ _ _ _ _ _ Hwf Hstep) as (pl & Hpl & Hcase). simpl in Hcase.
  pose proof (vec_get_range _ _ _ Hpl) as Hbr.
  destruct Hcase as [(He & -> & x & Hx & ->)|(He & e & rest & maker & pl' & x & Hc & Hm & Hrest)].
  { split.
    - intros sd i r y o Hr Hy Ho. simpl in *. rewrite levels_set_best in Hr. by eapply Hcp.
    - intros cid Hun sd i r y o Hr Hy Ho. simpl in *. rewrite levels_set_best in Hr.
      by eapply Hun. }
  simpl in Hrest.
  destruct Hrest as (_ & _ & _ & _ & _ & _ & Hbook & _ & _ & Hc' & _ & Hpool & Hcte).
  pose proof (level_wf _ _ _ _ Hwf Hpl) as (_ & Hnd & Hres & _).
  assert (Hin : e ∈ contents pl) by (rewrite Hc; by left).
  pose proof (Hres e Hin) as Hre.
  pose proof (vec_get_range _ _ _ Hm) as Her.
  apply vec_get_Some in Hpl as [_ Hpl].
  pose proof (Hcp _ _ _ _ _ Hpl Hin Hm) as Hce.
  apply (complete_shrink s s1 e Hcp).
  - intros sd i r1 y Hr1 Hy.
    destruct (levels_after _ _ _ _ _ _ _ _ _ Hbook Hr1) as [(-> & -> & ->)|Hold];
      [|by exists r1].
    exists pl. split; [done|]. rewrite Hc' in Hy. rewrite Hc.
    destruct (decide (qty maker ≤ qty taker)); [by right|done].
  - intros y Hy. rewrite Hpool, get_insert, decide_False by done. by destruct (pool s).
  - intros o1 Ho1 (sd & i & r1 & Hr1 & Hy).
    rewrite Hpool, get_insert, decide_True in Ho1 by done.
    destruct (decide (qty maker ≤ qty taker)) as [Hfull|Hpart].
    + exfalso.
      destruct (levels_after _ _ _ _ _ _ _ _ _ Hbook Hr1) as [(-> & -> & ->)|Hold].
      * rewrite Hc' in Hy. rewrite Hc in Hnd. apply NoDup_cons in Hnd as [Hnin _]. done.
      * destruct (decide ((sd, i) = (opp, Z.to_nat (OrderBook.best opp (book s)))))
          as [[= -> ->]|Hne].
        -- rewrite Hbook, levels_set_best, levels_set_levels, decide_True in Hr1 by done.
           rewrite list_lookup_insert_eq in Hr1 by (by eapply lookup_lt_Some).
           injection Hr1 as <-. rewrite Hc' in Hy.
           rewrite Hc in Hnd. apply NoDup_cons in Hnd as [Hnin _]. done.
        -- by apply (elsewhere_resting s opp _ e Hwf Hre sd i r1 Hold Hne).
    + injection Ho1 as <-. exists maker. split; [done|]. split; [done|]. by rewrite Hcte.
  - intros c y Hy Hcy. rewrite Hcte.
    destruct (decide (qty maker ≤ qty taker)); [|done].
    rewrite lookup_delete_ne; [done|]. intros <-. congruence.
Qed.

Lemma sweep_complete (clock : nat → Z) (priced : bool) (opp : Side) (fuel : nat) :
  ∀ (taker taker' : Order) (s s' : Engine.t),
  wf s → best_ok (book s) → index_complete s →
  sweep clock fuel priced opp taker s = Ok taker' s' →
  index_complete s' ∧ ∀ cid, unused cid s → unused cid s'.
Proof.
  induction fuel as [|fuel IH]; intros taker taker' s s' Hwf Hok Hcp Hsw; simpl in Hsw.
  - destruct (guard priced opp taker s); [done|]. by injection Hsw as <- <-.
  - destruct (guard priced opp taker s) eqn:Hg; [|by injection Hsw as <- <-].
    destruct (matchStep clock opp taker s) as [t1 s1| | |] eqn:Hstep; try done.
    simpl in Hsw. pose proof (guard_true _ _ _ _ Hg) as [Hq Hbne].
    destruct (matchStep_complete _ _ _ _ _ _ Hwf Hcp Hstep) as [Hcp1 Hun1].
    destruct (IH t1 taker' s1 s') as [Hcp' Hun']; [| |done|done|].
    + eapply matchStep_wf; [done| |done]. lia.
    + eapply matchStep_best_ok; [exact Hwf|exact Hok|exact Hbne|exact Hstep].
    + split; [done|]. intros cid Hun. by apply Hun', Hun1.
Qed.

Lemma addPassive_complete (sd : Side) (t : Order) (s s' : Engine.t) :
  wf s → index_complete s → unused (clientId t) s →
  left_by (addPassive sd t s) = Some s' → index_complete s'.
Proof.
  intros Hwf Hcp Hun Hleft.
  destruct (addPassive sd t s) as [[] s2|m s2| |] eqn:Ha; simpl in Hleft; try done;
    injection Hleft as ->.
  - apply addPassive_Ok in Ha as (idx & rest & lvl & lvl' & Hfl & Hidx & Hl & Hpush
                                  & Hpool & Hbook & Hcte & _).
    pose proof (level_wf _ _ _ _ Hwf Hl) as (Hrwf & _).
    apply push_Val in Hpush as (_ & _ & _ & _ & Hc); [|done].
    apply vec_get_Some in Hl as [_ Hl].
    rewrite updateBestAfterAdd_eq in Hbook.
    intros sd' i r1 y o1 Hr1 Hy Ho1. rewrite Hcte.
    rewrite Hpool, get_insert in Ho1 by done.
    destruct (decide (y = idx)) as [->|Hne].
    + injection Ho1 as <-. simpl. apply lookup_insert_eq.
    + assert (Hold : ∃ r, OrderBook.levels sd' (book s) !! i = Some r ∧ y ∈ contents r).
      { destruct (levels_after _ _ _ _ _ _ _ _ _ Hbook Hr1) as [(-> & -> & ->)|Hold];
          [|by exists r1].
        exists lvl. split; [done|]. rewrite Hc in Hy.
        apply elem_of_app in Hy as [Hy|Hy]; [done|].
        apply elem_of_cons in Hy as [->|Hy]; [done|]. by apply elem_of_nil in Hy. }
      destruct Hold as (r & Hr & Hyr).
      assert (Ho : OrderPool.get (pool s) y = Some o1) by (by destruct (pool s)).
      rewrite lookup_insert_ne; [by eapply Hcp|].
      intros Heq. by apply (Hun _ _ _ _ _ Hr Hyr Ho).
  - apply addPassive_Throw in Ha as [->|(idx & rest & Hfl & Hidx & ->)]; [done|].
    destruct (free_back_in_range s idx rest Hwf Hfl) as (_ & _ & _ & oi & Hoi & Hai).
    intros sd' i r1 y o1 Hr1 Hy Ho1. simpl in *.
    assert (Hne : y ≠ idx).
    { intros ->. by apply (elsewhere_inactive s idx oi Hwf Hoi Hai sd' i r1 Hr1). }
    rewrite get_insert, decide_False in Ho1 by done.
    eapply Hcp; [done|done|]. by destruct (pool s).
Qed.

Lemma placeLimit_complete (clock : nat → Z) (fuel : nat) (cid : Z) (sd : Side)
    (pidx q now : Z) (tf : TimeInForce) (s s' : Engine.t) :
  wf s → best_ok (book s) → index_complete s → unused cid s →
  left_by (placeLimit clock fuel cid sd pidx q now tf s) = Some s' → index_complete s'.
Proof.
  intros Hwf Hok Hcp Hun. rewrite placeLimit_eq.
  destruct (sweep _ _ _ _ _ _) as [t1 s1|m s1| |] eqn:Hsw; simpl; try done.
  2:{ by apply sweep_no_throw in Hsw. }
  pose proof (sweep_Ok _ _ _ _ _ _ _ _ Hwf Hok Hsw) as (Hwf1 & _ & _ & Ht1).
  destruct (sweep_complete _ _ _ _ _ _ _ _ Hwf Hok Hcp Hsw) as [Hcp1 Hun1].
  destruct (_ && _).
  - apply addPassive_complete; [done|done|]. rewrite Ht1. simpl. by apply Hun1.
  - simpl. by intros [= <-].
Qed.

Lemma cancel_complete (cid : Z) (b : bool) (s s' : Engine.t) :
  wf s → index_ok s → index_complete s → cancel cid s = Ok b s' →
  index_complete s' ∧ (is_Some (clientToEngine s !! cid) → unused cid s').
Proof.
  intros Hwf Hi Hcp Hcan.
  destruct (clientToEngine s !! cid) as [eid|] eqn:Hc.
  2:{ unfold cancel in Hcan. rewrite Hc in Hcan. injection Hcan as <- <-.
      split; [done|]. by intros [? ?]. }
  destruct (Hi cid eid Hc) as (o & lvl & Ho & Ha & Hcid & Hl & Hin).
  destruct (cancel_found cid eid o lvl s Hwf Hc Ho Ha Hl Hin)
    as (s'' & k & lvl' & x & Hcan' & Hk & Hc' & _ & _ & Hbook & Hpool & Hcte & _).
  rewrite Hcan' in Hcan. injection Hcan as <- <-.
  pose proof (vec_get_range _ _ _ Hl) as Hpr.
  pose proof (vec_get_range _ _ _ Ho) as Her.
  pose proof (level_wf _ _ _ _ Hwf Hl) as (_ & Hnd & Hres & _).
  pose proof (Hres eid Hin) as Hre.
  destruct (NoDup_delete_at _ _ _ Hnd Hk) as (_ & Hnin & Hsub).
  apply vec_get_Some in Hl as [_ Hl].
  assert (Hgone : ¬ queued eid s'').
  { intros (sd & i & r1 & Hr1 & Hy).
    destruct (levels_after _ _ _ _ _ _ _ _ _ Hbook Hr1) as [(-> & -> & ->)|Hold].
    - by rewrite Hc' in Hy.
    - destruct (decide ((sd, i) = (side o, Z.to_nat (priceIdx o)))) as [[= -> ->]|Hne].
      + rewrite Hbook, levels_set_best, levels_set_levels, decide_True in Hr1 by done.
        rewrite list_lookup_insert_eq in Hr1 by (by eapply lookup_lt_Some).
        injection Hr1 as <-. by rewrite Hc' in Hy.
      + by apply (elsewhere_resting s (side o) _ eid Hwf Hre sd i r1 Hold Hne). }
  destruct (complete_shrink s s'' eid Hcp) as [Hcp' Hun'].
  - intros sd i r1 y Hr1 Hy.
    destruct (levels_after _ _ _ _ _ _ _ _ _ Hbook Hr1) as [(-> & -> & ->)|Hold];
      [|by exists r1].
    exists lvl. split; [done|]. rewrite Hc' in Hy. by destruct (Hsub y Hy).
  - intros y Hy. rewrite Hpool, get_insert, decide_False by done. by destruct (pool s).
  - intros o1 _ Hq. done.
  - intros c y Hy Hcy. rewrite Hcte. rewrite lookup_delete_ne; [done|]. intros <-. congruence.
  - split; [done|]. intros _ sd i r1 y o1 Hr1 Hy Ho1 Heq.
    assert (Hne : y ≠ eid) by (intros ->; apply Hgone; by exists sd, i, r1).
    pose proof (Hcp' _ _ _ _ _ Hr1 Hy Ho1) as Hidx.
    rewrite Heq, Hcte, lookup_delete_eq in Hidx. done.
Qed.

Lemma run_complete (clock : nat → Z) (fuel : nat) (o : op) (s s' : Engine.t) :
  wf s → best_ok (book s) → index_ok s → index_complete s → fresh_op o s →
  left_by (run clock fuel o s) = Some s' → index_complete s'.
Proof.
  intros Hwf Hok Hi Hcp Hfr.
  destruct o as [cid sd pidx q now tf|cid sd q now|cid|cid p q now]; simpl in *.
  - by apply placeLimit_complete.
  - rewrite placeMarket_eq.
    destruct (sweep _ _ _ _ _ _) as [t1 s1|m s1| |] eqn:Hsw; simpl; try done.
    + intros [= <-]. by eapply sweep_complete.
    + by apply sweep_no_throw in Hsw.
  - destruct (cancel cid s) as [b s1|m s1| |] eqn:Hcan; simpl; try done.
    + intros [= <-]. by eapply cancel_complete.
    + by apply cancel_no_throw in Hcan.
  - rewrite replace_unfold. unfold cancel_then_new.
    destruct (clientToEngine s !! cid) as [eid|] eqn:Hc; simpl; [|by intros [= <-]].
    destruct (OrderPool.get (pool s) eid) as [old|]; simpl; [|done].
    destruct (active old); simpl; [|by intros [= <-]].
    destruct (cancel cid s) as [b s1|m s1| |] eqn:Hcan; simpl; try done.
    2:{ by apply cancel_no_throw in Hcan. }
    pose proof (cancel_keeps cid s Hwf Hok) as Hk. rewrite Hcan in Hk. destruct Hk as [Hwf1 Hok1].
    destruct (cancel_complete _ _ _ _ Hwf Hi Hcp Hcan) as [Hcp1 Hun1].
    intros Hleft. apply (placeLimit_complete clock fuel cid (side old) p q now (tif old) s1);
      [done|done|done| |].
    + apply Hun1. rewrite Hc. by eexists.
    + by destruct (placeLimit _ _ _ _ _ _ _ _ _).
Qed.

Lemma reachable_fresh_reachable (clock : nat → Z) (s : Engine.t) :
  reachable_fresh clock s → reachable clock s.
Proof.
  induction 1 as [cap levels ringcap Hl Hr|fuel o s s' Hs IH Hfr Hleft].
  - by apply reach_new.
  - destruct (run clock fuel o s) as [[] s1|m s1| |] eqn:Hrun; simpl in Hleft; try done;
      injection Hleft as <-.
    + by eapply reach_return.
    + by eapply reach_throw.
Qed.

Lemma reachable_fresh_complete (clock : nat → Z) (s : Engine.t) :
  reachable_fresh clock s → index_complete s.
Proof.
  induction 1 as [cap levels ringcap Hl Hr|fuel o s s' Hs IH Hfr Hleft].
  - intros sd i r e o Hr' He.
    assert (r = RingLevel.new ringcap) as ->.
    { destruct sd; simpl in Hr'; by apply lookup_replicate in Hr' as [-> _]. }
    destruct (new_ring ringcap Hr) as (_ & Hc & _). rewrite Hc in He.
    by apply elem_of_nil in He.
  - pose proof (reachable_fresh_reachable _ _ Hs) as Hreach.
    pose proof (reachable_wf _ _ Hreach) as [Hwf Hok].
    by apply (run_complete clock fuel o s s' Hwf Hok (reachable_index _ _ Hreach) IH Hfr).
Qed.

Lemma queue_holds (sd : Side) (s : Engine.t) (i : nat) (r : RingLevel.t) (e : Z) :
  OrderBook.levels sd (book s) !! i = Some r → e ∈ contents r → e ∈ queue sd s.
Proof.
  intros Hr He. unfold queue. rewrite list_elem_of_In, in_concat.
  exists (contents r). split; [|by apply list_elem_of_In].
  apply list_elem_of_In, list_elem_of_fmap. exists r. split; [done|].
  apply list_elem_of_lookup_2 in Hr.
  destruct sd; simpl; [by rewrite elem_of_reverse|done].
Qed.

(** A check of [unused] that can be evaluated. *)
Lemma unused_by_check (cid : Z) (s : Engine.t) :
  forallb (λ e, negb (cid_at (pool s) e =? cid)) (queue BUY s ++ queue SELL s) = true →
  unused cid s.
Proof.
  intros Hall sd i r e o Hr He Ho Heq.
  assert (Hin : e ∈ queue BUY s ++ queue SELL s).
  { apply elem_of_app. destruct sd; [left|right]; by eapply queue_holds. }
  rewrite forallb_forall in Hall. apply list_elem_of_In in Hin.
  specialize (Hall e Hin). unfold cid_at in Hall. rewrite Ho in Hall. simpl in Hall.
  apply negb_true_iff, Z.eqb_neq in Hall. done.
Qed.

(** X27. When the caller never places a limit order under a client id that
    a resting order still carries (ids drawn from a counter, as the demo
    driver does), the client index is also complete: every order queued in
    the book is indexed under its client id, so that [cancel] with that id
    returns true and takes that very order out of the book. *)
Theorem fresh_ids_make_every_order_cancellable (clock : nat → Z) (s : Engine.t)
    (sd : Side) (i : nat) (r : RingLevel.t) (e : Z) :
  reachable_fresh clock s →
  OrderBook.levels sd (book s) !! i = Some r → e ∈ contents r →
  ∃ o s',
    OrderPool.get (pool s) e = Some o ∧
    clientToEngine s !! clientId o = Some e ∧
    cancel (clientId o) s = Ok true s' ∧
    ¬ queued e s' ∧
    clientToEngine s' !! clientId o = None.
Proof.
  intros Hs Hr He.
  pose proof (reachable_fresh_reachable _ _ Hs) as Hreach.
  pose proof (reachable_wf _ _ Hreach) as [Hwf Hok].
  pose proof (reachable_index _ _ Hreach) as Hi.
  pose proof (reachable_fresh_complete _ _ Hs) as Hcp.
  pose proof (side_level_ok sd s i r Hwf Hr) as (_ & _ & Hres & _).
  destruct (Hres e He) as (o & Ho & _).
  pose proof (Hcp _ _ _ _ _ Hr He Ho) as Hc.
  destruct (cancel_indexed s (clientId o) e Hwf Hi Hc)
    as (s' & o' & lvl & lvl' & k & Hcan & Ho' & _ & _ & _ & _ & _ & _ & _ & Hg' & _ & _ & Hcte & _).
  exists o, s'. split_and!; try done.
  - intros (sd' & i' & r' & Hr' & He').
    pose proof (reach_return clock 0 (Cancel (clientId o)) s s' Hreach) as Hreach'.
    simpl in Hreach'. rewrite Hcan in Hreach'. specialize (Hreach' eq_refl).
    pose proof (reachable_wf _ _ Hreach') as [Hwf' _].
    pose proof (side_level_ok sd' s' i' r' Hwf' Hr') as (_ & _ & Hres' & _).
    destruct (Hres' e He') as (o2 & Ho2 & Ha2 & _).
    assert (o' = o) as -> by congruence.
    rewrite Hg' in Ho2. injection Ho2 as <-. done.
  - rewrite Hcte. apply lookup_delete_eq.
Qed.

Lemma fresh_ids_make_every_order_cancellable_witness :
  ∃ s0 s1 r,
    left_by (run clock0 1 (PlaceLimit 1 SELL 3 5 0 GFD) small_engine) = Some s0 ∧
    left_by (run clock0 1 (PlaceLimit 2 SELL 3 4 0 GFD) s0) = Some s1 ∧
    OrderBook.levels SELL (book s1) !! 3%nat = Some r ∧ contents r = [0; 1] ∧
    ∃ o s',
      OrderPool.get (pool s1) 0 = Some o ∧
      clientToEngine s1 !! clientId o = Some 0 ∧
      cancel (clientId o) s1 = Ok true s' ∧
      ¬ queued 0 s' ∧
      clientToEngine s' !! clientId o = None.
Proof.
  eexists. eexists. eexists.
  match goal with
  | |- left_by (run ?c ?f ?o ?s) = Some ?s0 ∧ left_by (run _ ?f1 ?o1 _) = Some ?s1 ∧
       _ !! _ = Some ?r ∧ _ =>
      assert (H0 : left_by (run c f o s) = Some s0) by (vm_compute; reflexivity);
      assert (H1 : left_by (run c f1 o1 s0) = Some s1) by (vm_compute; reflexivity);
      assert (H2 : OrderBook.levels SELL (book s1) !! 3%nat = Some r)
        by (vm_compute; reflexivity);
      assert (F0 : fresh_op o s) by (apply unused_by_check; vm_compute; reflexivity);
      assert (F1 : fresh_op o1 s0) by (apply unused_by_check; vm_compute; reflexivity);
      split; [exact H0|]; split; [exact H1|]; split; [exact H2|];
      split; [vm_compute; reflexivity|];
      apply (fresh_ids_make_every_order_cancellable c s1 SELL 3 r 0
               (fresh_step c f1 o1 s0 s1
                  (fresh_step c f o s s0
                     (fresh_new c 4 8 4 ltac:(lia) ltac:(lia)) F0 H0) F1 H1) H2);
      vm_compute; left
  end.
Defined.

(** ** Price/time priority as a function of the queue *)

Lemma NoDup_concat {A : Type} (ls : list (list A)) :
  (∀ l, l ∈ ls → NoDup l) →
  (∀ i j a b x, ls !! i = Some a → ls !! j = Some b → x ∈ a → x ∈ b → i = j) →
  NoDup (concat ls).
Proof.
  induction ls as [|l ls IH]; intros Hnd Hdis; simpl; [constructor|].
  apply NoDup_app. split_and!.
  - apply Hnd. left.
  - intros x Hx Hc. apply list_elem_of_In, in_concat in Hc as (b & Hb & Hxb).
    apply list_elem_of_In, list_elem_of_lookup_1 in Hb as [j Hj].
    apply list_elem_of_In in Hxb.
    by specialize (Hdis 0%nat (S j) l b x eq_refl Hj Hx Hxb).
  - apply IH.
    + intros l' Hl'. apply Hnd. by right.
    + intros i j a b x Hi Hj Ha Hb.
      by injection (Hdis (S i) (S j) a b x Hi Hj Ha Hb).
Qed.

(** No order is queued twice. *)
Lemma queue_NoDup (sd : Side) (s : Engine.t) : wf s → NoDup (queue sd s).
Proof.
  intros Hwf.
  assert (Hlv : ∀ i r, OrderBook.levels sd (book s) !! i = Some r → level_ok (pool s) sd i r).
  { destruct Hwf as (_ & Hsb & Hsa). destruct sd; [apply Hsb|apply Hsa]. }
  assert (Hidx : ∀ i j a b x,
            OrderBook.levels sd (book s) !! i = Some a →
            OrderBook.levels sd (book s) !! j = Some b →
            x ∈ contents a → x ∈ contents b → i = j).
  { intros i j a b x Hi Hj Ha Hb.
    destruct (decide (i = j)) as [|Hne]; [done|]. exfalso.
    destruct (Hlv i a Hi) as (_ & _ & Hres & _).
    apply (elsewhere_resting s sd i x Hwf (Hres x Ha) sd j b Hj); [congruence|done]. }
  unfold queue. apply NoDup_concat.
  - intros l (r & -> & Hr)%list_elem_of_fmap.
    assert (r ∈ OrderBook.levels sd (book s)) as [i Hi]%list_elem_of_lookup_1.
    { destruct sd; simpl in Hr; [by rewrite elem_of_reverse in Hr|done]. }
    by destruct (Hlv i r Hi) as (_ & Hnd & _).
  - intros i j a b x Hi Hj Ha Hb.
    rewrite list_lookup_fmap in Hi, Hj.
    destruct (by_priority sd (OrderBook.levels sd (book s)) !! i) as [ri|] eqn:Hri; [|done].
    destruct (by_priority sd (OrderBook.levels sd (book s)) !! j) as [rj|] eqn:Hrj; [|done].
    injection Hi as <-. injection Hj as <-.
    destruct sd; cbn [by_priority] in Hri, Hrj.
    + pose proof (lookup_lt_Some _ _ _ Hri) as Hli.
      pose proof (lookup_lt_Some _ _ _ Hrj) as Hlj.
      rewrite length_reverse in Hli, Hlj.
      rewrite reverse_lookup in Hri, Hrj by done.
      pose proof (Hidx _ _ _ _ _ Hri Hrj Ha Hb). lia.
    + by eapply Hidx.
Qed.

Lemma queue_no_best (sd : Side) (s : Engine.t) :
  wf s → best_ok (book s) → OrderBook.best sd (book s) = -1 → queue sd s = [].
Proof.
  intros Hwf Hok Hb.
  pose proof (proj1 (proj1 (best_ok_sides _) Hok) sd) as Hbest.
  assert (Hall : all_empty (OrderBook.levels sd (book s))).
  { destruct sd; simpl in *; destruct Hbest as [[_ ?]|[(r & Hr & _) _]]; try done;
      rewrite Hb in Hr; apply vec_get_range in Hr; lia. }
  unfold queue. apply concat_all_nil. intros x (r & -> & Hr)%list_elem_of_fmap.
  assert (r ∈ OrderBook.levels sd (book s)) as [i Hi]%list_elem_of_lookup_1.
  { destruct sd; simpl in Hr; [by rewrite elem_of_reverse in Hr|done]. }
  assert (level_ok (pool s) sd i r) as (Hrwf & _).
  { destruct Hwf as (_ & Hsb & Hsa). destruct sd; [by apply Hsb|by apply Hsa]. }
  apply contents_empty; [done|].
  destruct (RingLevel.empty r) eqn:He; [done|]. exfalso.
  apply (Hall (Z.of_nat i)). exists r. split; [|done].
  apply vec_get_Some. split; [lia|]. by rewrite Nat2Z.id.
Qed.

(** The head of the priority queue is the head of the level under the
    cache, where it rests. *)
Lemma queue_head (sd : Side) (s : Engine.t) :
  wf s → best_ok (book s) → OrderBook.best sd (book s) ≠ -1 →
  ∃ pl e r0 tailq o,
    level sd (OrderBook.best sd (book s)) s = Some pl ∧
    contents pl = e :: r0 ∧ queue sd s = e :: r0 ++ tailq ∧
    OrderPool.get (pool s) e = Some o ∧ priceIdx o = OrderBook.best sd (book s) ∧
    0 < qty o ∧
    ∀ s1 pl',
      OrderBook.levels sd (book s1) =
        <[Z.to_nat (OrderBook.best sd (book s)) := pl']> (OrderBook.levels sd (book s)) →
      queue sd s1 = contents pl' ++ tailq.
Proof.
  intros Hwf Hok Hb.
  pose proof (proj1 (proj1 (best_ok_sides _) Hok) sd) as Hbest.
  destruct (is_best_at _ _ _ Hbest Hb) as (pl & Hpl & Hne).
  destruct (queue_split sd s pl Hwf Hok Hb Hpl) as (tailq & Hq & Hq').
  pose proof (level_wf _ _ _ _ Hwf Hpl) as (Hrwf & _ & Hres & _).
  pose proof (vec_get_range _ _ _ Hpl) as Hr.
  destruct (contents pl) as [|e r0] eqn:Hc.
  { apply contents_empty in Hc; [congruence|done]. }
  destruct (Hres e) as (o & Ho & _ & _ & Hp & Hqty); [left|].
  exists pl, e, r0, tailq, o. split_and!; try done; lia.
Qed.

Lemma heads_best_wf (sd : Side) (s : Engine.t) :
  wf s → best_ok (book s) → heads_best sd s.
Proof.
  intros Hwf Hok. split; [apply (proj1 (proj1 (best_ok_sides _) Hok) sd)|].
  destruct (decide (OrderBook.best sd (book s) = -1)) as [Hb|Hb].
  - rewrite (queue_no_best sd s Hwf Hok Hb), Hb. done.
  - destruct (queue_head sd s Hwf Hok Hb) as (pl & e & r0 & tailq & o & Hpl & Hc & Hq & _).
    rewrite Hq, Hpl. simpl. by rewrite Hc.
Qed.

Lemma maker_view_get (p : OrderPool.t) (e : Z) (o : Order) :
  OrderPool.get p e = Some o →
  maker_view p e = mk_maker e (clientId o) (priceIdx o) (qty o).
Proof. intros H. unfold maker_view, cid_at, price_at, qty_at. by rewrite H. Qed.

Lemma maker_view_ext (p p' : OrderPool.t) (l : list Z) :
  (∀ y, y ∈ l → OrderPool.get p' y = OrderPool.get p y) →
  maker_view p' <$> l = maker_view p <$> l.
Proof.
  intros H. apply list_fmap_ext. intros i y Hy.
  unfold maker_view, cid_at, price_at, qty_at. rewrite H; [done|].
  by eapply list_elem_of_lookup_2.
Qed.

(** One iteration of a sweep fills the head of the priority queue, at the
    price of the cached level, by the smaller of the two quantities; the
    head leaves the queue when it is filled and stays at the head, with what
    is left, when it is not. *)
Lemma matchStep_priority (clock : nat → Z) (priced : bool) (opp : Side)
    (taker t1 : Order) (s s1 : Engine.t) :
  wf s → best_ok (book s) → guard priced opp taker s = true →
  matchStep clock opp taker s = Ok t1 s1 →
  ∃ m rest tr,
    book_queue opp s = m :: rest ∧
    m_price m = OrderBook.best opp (book s) ∧ 0 < m_qty m ∧
    trades s1 = trades s ++ [tr] ∧
    fill_of tr = (clientId taker, m_cid m, m_price m, Z.min (m_qty m) (qty taker)) ∧
    t1 = set_qty (qty taker - Z.min (m_qty m) (qty taker)) taker ∧
    book_queue opp s1 =
      (if decide (m_qty m ≤ qty taker) then rest
       else mk_maker (m_eid m) (m_cid m) (m_price m) (m_qty m - qty taker) :: rest).
Proof.
  intros Hwf Hok Hg Hstep. pose proof Hg as [Hq Hb]%guard_true.
  destruct (queue_head opp s Hwf Hok Hb)
    as (pl0 & e0 & r0 & tailq & o & Hpl0 & Hc0 & Hqs & Ho & Hpo & Hqo & Hupd).
  pose proof (queue_NoDup opp s Hwf) as Hnd. rewrite Hqs in Hnd.
  apply NoDup_cons in Hnd as [Hnotin _].
  apply matchStep_Ok in Hstep as (pl & Hpl & H); [|done].
  rewrite Hpl0 in Hpl. injection Hpl as <-.
  destruct H as [(He & _)|(He & e & rest & maker & pl' & x & H)].
  { apply contents_empty in He; [congruence|].
    by destruct (level_wf _ _ _ _ Hwf Hpl0) as (? & _). }
  destruct H as (Hc & Hm & Ht1 & _ & _ & _ & Htr & _ & Hbook & _ & _ & Hc' & _ & Hpool & _).
  rewrite Hc0 in Hc. injection Hc as <- <-.
  rewrite Ho in Hm. injection Hm as <-.
  assert (Hlv : OrderBook.levels opp (book s1) =
            <[Z.to_nat (OrderBook.best opp (book s)) := pl']> (OrderBook.levels opp (book s))).
  { by rewrite Hbook, levels_set_best, levels_set_levels, decide_True. }
  pose proof (vec_get_range _ _ _ Ho) as Hre.
  assert (Hget : ∀ y, OrderPool.get (pool s1) y =
            if decide (y = e0)
            then Some (if decide (qty o ≤ qty taker)
                       then set_qty 0 (set_active false o)
                       else set_qty (qty o - Z.min (qty o) (qty taker)) o)
            else OrderPool.get (pool s) y).
  { intros y. rewrite Hpool. destruct (pool s) as [v fl]. simpl in *.
    by rewrite get_insert. }
  assert (Hrest : maker_view (pool s1) <$> (r0 ++ tailq) = maker_view (pool s) <$> (r0 ++ tailq)).
  { apply maker_view_ext. intros y Hy. rewrite Hget, decide_False; [done|].
    intros ->. done. }
  exists (maker_view (pool s) e0), (maker_view (pool s) <$> (r0 ++ tailq)),
    (Trade.mk (clientId taker) (clientId o) (Z.min (qty o) (qty taker)) (priceIdx o)
              (u64 (clock (length (trades s))))).
  rewrite (maker_view_get _ _ _ Ho). cbn [m_eid m_cid m_price m_qty].
  split_and!; try done.
  - unfold book_queue. by rewrite Hqs, fmap_cons, (maker_view_get _ _ _ Ho).
  - unfold book_queue. rewrite (Hupd s1 pl' Hlv), Hc'.
    destruct (decide (qty o ≤ qty taker)) as [Hle|Hgt].
    + done.
    + rewrite <- app_comm_cons, fmap_cons, Hrest. f_equal.
      pose proof (Hget e0) as Hg0. rewrite decide_True in Hg0 by done.
      rewrite (maker_view_get _ _ _ Hg0). destruct o. simpl in *.
      f_equal. lia.
Qed.

Lemma guard_head (priced : bool) (opp : Side) (taker : Order) (s : Engine.t)
    (m : maker) (rest : list maker) :
  wf s → best_ok (book s) → book_queue opp s = m :: rest →
  guard priced opp taker s =
  bool_decide (0 < qty taker) && crossing priced opp (m_price m) (priceIdx taker).
Proof.
  intros Hwf Hok Hq. unfold guard.
  destruct (decide (OrderBook.best opp (book s) = -1)) as [Hb|Hb].
  { unfold book_queue in Hq. by rewrite (queue_no_best opp s Hwf Hok Hb) in Hq. }
  destruct (queue_head opp s Hwf Hok Hb)
    as (pl0 & e0 & r0 & tailq & o & _ & _ & Hqs & Ho & Hpo & _).
  unfold book_queue in Hq. rewrite Hqs, fmap_cons, (maker_view_get _ _ _ Ho) in Hq.
  injection Hq as <- _. simpl. rewrite Hpo, (bool_decide_eq_true_2 _ Hb).
  by rewrite andb_true_r.
Qed.

(** A sweep is matching by price/time priority: its trades are the fills of
    the priority queue of the swept side, in order, and it leaves the queue
    and the taker's quantity that matching by priority leaves. *)
Lemma sweep_priority (clock : nat → Z) (priced : bool) (opp : Side) (fuel : nat) :
  ∀ (taker t1 : Order) (s s1 : Engine.t),
    wf s → best_ok (book s) →
    sweep clock fuel priced opp taker s = Ok t1 s1 →
    ∃ nt,
      trades s1 = trades s ++ nt ∧
      fill_of <$> nt =
        fill_for (clientId taker) <$>
          (priority_match priced opp (priceIdx taker) (qty taker) (book_queue opp s)).1.1 ∧
      book_queue opp s1 =
        (priority_match priced opp (priceIdx taker) (qty taker) (book_queue opp s)).1.2 ∧
      qty t1 = (priority_match priced opp (priceIdx taker) (qty taker) (book_queue opp s)).2.
Proof.
  assert (Hstop : ∀ taker s, wf s → best_ok (book s) → guard priced opp taker s = false →
            priority_match priced opp (priceIdx taker) (qty taker) (book_queue opp s) =
            ([], book_queue opp s, qty taker)).
  { intros taker s Hwf Hok Hg. destruct (book_queue opp s) as [|m rest] eqn:Hq; [done|].
    simpl. by rewrite <- (guard_head priced opp taker s m rest Hwf Hok Hq), Hg. }
  induction fuel as [|fuel IH]; intros taker t1 s s1 Hwf Hok; simpl.
  - destruct (guard priced opp taker s) eqn:Hg; [done|]. intros [= <- <-].
    exists []. rewrite (Hstop taker s Hwf Hok Hg). by rewrite app_nil_r.
  - destruct (guard priced opp taker s) eqn:Hg.
    2:{ intros [= <- <-]. exists []. rewrite (Hstop taker s Hwf Hok Hg).
        by rewrite app_nil_r. }
    destruct (matchStep clock opp taker s) as [t2 s2| | |] eqn:Hstep; simpl; try done.
    intros Hsw. pose proof Hg as [Hq Hb]%guard_true.
    assert (Hq0 : 0 ≤ qty taker) by lia.
    pose proof (matchStep_wf _ _ _ _ _ _ Hwf Hq0 Hstep) as Hwf2.
    pose proof (matchStep_best_ok _ _ _ _ _ _ Hwf Hok Hb Hstep) as Hok2.
    destruct (matchStep_priority _ _ _ _ _ _ _ Hwf Hok Hg Hstep)
      as (m & rest & tr & Hbq & Hpm & Hqm & Htr & Hfill & Ht2 & Hbq2).
    rewrite Hbq. cbn [priority_match].
    rewrite <- (guard_head priced opp taker s m rest Hwf Hok Hbq), Hg.
    destruct (decide (m_qty m ≤ qty taker)) as [Hle|Hgt].
    + rewrite (bool_decide_eq_true_2 _ Hle).
      destruct (IH t2 t1 s2 s1 Hwf2 Hok2 Hsw) as (nt & Hnt & Hf & Hq1 & Ht1).
      rewrite Hbq2 in Hf, Hq1, Ht1.
      assert (Hqt2 : qty t2 = qty taker - m_qty m).
      { rewrite Ht2. destruct taker; simpl in *. lia. }
      assert (Hpt2 : priceIdx t2 = priceIdx taker) by (rewrite Ht2; by destruct taker).
      assert (Hct2 : clientId t2 = clientId taker) by (rewrite Ht2; by destruct taker).
      rewrite Hqt2, Hpt2, Hct2 in *.
      destruct (priority_match priced opp (priceIdx taker) (qty taker - m_qty m) rest)
        as [[fs q'] tq'].
      exists (tr :: nt). cbn [fst snd] in *. split_and!; try done.
      * rewrite Hnt, Htr, <- app_assoc. done.
      * rewrite !fmap_cons, Hf, Hfill. unfold fill_for at 2.
        by rewrite Z.min_l by done.
    + rewrite (bool_decide_eq_false_2 _ Hgt). cbn [fst snd].
      assert (Hqt2 : qty t2 = 0).
      { rewrite Ht2. destruct taker; simpl in *. lia. }
      rewrite sweep_guard_false in Hsw.
      2:{ unfold guard. rewrite Hqt2. done. }
      injection Hsw as <- <-.
      exists [tr]. split_and!; try done.
      rewrite !fmap_cons, Hfill. unfold fill_for. simpl.
      by rewrite Z.min_r by lia.
Qed.

(** Resting an order leaves the queue of the other side as it is. *)
Lemma addPassive_book_queue (sd : Side) (taker : Order) (s s' : Engine.t) :
  wf s → addPassive sd taker s = Ok tt s' →
  book_queue (opposite sd) s' = book_queue (opposite sd) s ∧ trades s' = trades s.
Proof.
  intros Hwf H. destruct (addPassive_queue sd taker s s' Hwf H) as (Hq & Htr & _).
  split; [|done].
  apply addPassive_Ok in H
    as (idx & rest & lvl & lvl' & Hrev & Hidx & Hlvl & Hpush & Hpool & _).
  pose proof Hwf as (Hp & _ & _).
  destruct (pool_ok_allocate _ _ _ (set_active true (set_engineId idx taker)) Hp Hrev Hidx)
    as (_ & o & Ho & Ha).
  unfold book_queue. rewrite Hq. apply maker_view_ext.
  intros y (i & r & Hr & He)%queue_elem.
  rewrite Hpool, get_insert by done. rewrite decide_False; [by destruct (pool s)|].
  intros ->. by eapply (elsewhere_inactive s idx o Hwf Ho Ha).
Qed.

(** A new order is matched against the other side by price/time priority. *)
Lemma run_priority (clock : nat → Z) (fuel : nat) (msd : Side) (o : op)
    (s s' : Engine.t) :
  wf s → best_ok (book s) → is_taker (opposite msd) o →
  run clock fuel o s = Ok tt s' →
  ∃ nt,
    trades s' = trades s ++ nt ∧
    fill_of <$> nt = (priority_match_all msd [o] (book_queue msd s)).1 ∧
    book_queue msd s' = (priority_match_all msd [o] (book_queue msd s)).2.
Proof.
  intros Hwf Hok Ht Hrun.
  destruct o as [cid sd pidx q now tf|cid sd q now| |]; simpl in Ht; try done; subst sd.
  - simpl in Hrun. rewrite placeLimit_eq, opposite_involutive in Hrun.
    destruct (sweep clock fuel true msd (limit_taker cid (opposite msd) pidx q now tf) s)
      as [t1 s1| | |] eqn:Hsw; simpl in Hrun; try done.
    pose proof (sweep_Ok _ _ _ _ _ _ _ _ Hwf Hok Hsw) as (Hwf1 & _).
    destruct (sweep_priority _ _ _ _ _ _ _ _ Hwf Hok Hsw) as (nt & Hnt & Hf & Hq & _).
    cbn [limit_taker priceIdx qty clientId] in Hf, Hq.
    assert (Hk : book_queue msd s' = book_queue msd s1 ∧ trades s' = trades s1).
    { case_match.
      - rewrite <- (opposite_involutive msd) at 1 2.
        by eapply addPassive_book_queue.
      - by injection Hrun as <-. }
    destruct Hk as [Hq' Htr']. exists nt. rewrite Hq', Htr'.
    cbn [priority_match_all taker_of].
    destruct (priority_match true msd pidx q (book_queue msd s)) as [[fs q1] tq1].
    cbn [fst snd] in *. by rewrite app_nil_r.
  - simpl in Hrun. rewrite placeMarket_eq, opposite_involutive in Hrun.
    destruct (sweep clock fuel false msd (market_taker cid (opposite msd) q now) s)
      as [t1 s1| | |] eqn:Hsw; simpl in Hrun; try done.
    injection Hrun as <-.
    destruct (sweep_priority _ _ _ _ _ _ _ _ Hwf Hok Hsw) as (nt & Hnt & Hf & Hq & _).
    cbn [market_taker priceIdx qty clientId] in Hf, Hq.
    exists nt. cbn [priority_match_all taker_of].
    destruct (priority_match false msd (-1) q (book_queue msd s)) as [[fs q1] tq1].
    cbn [fst snd] in *. by rewrite app_nil_r.
Qed.

Lemma run_all_priority (clock : nat → Z) (msd : Side) (ops : list (nat * op)) :
  ∀ s s',
    wf s → best_ok (book s) → Forall (λ fo, is_taker (opposite msd) fo.2) ops →
    run_all clock ops s = Ok tt s' →
    ∃ nt,
      trades s' = trades s ++ nt ∧
      fill_of <$> nt = (priority_match_all msd ops.*2 (book_queue msd s)).1 ∧
      book_queue msd s' = (priority_match_all msd ops.*2 (book_queue msd s)).2.
Proof.
  induction ops as [|[fuel o] ops IH]; intros s s' Hwf Hok Hops Hrun; simpl in Hrun.
  - injection Hrun as <-. exists []. by rewrite app_nil_r.
  - apply Forall_cons in Hops as [Ho Hops]. simpl in Ho.
    destruct (run clock fuel o s) as [[] s1| | |] eqn:Hrun1; simpl in Hrun; try done.
    pose proof (run_keeps clock fuel o s Hwf Hok) as Hk. rewrite Hrun1 in Hk.
    destruct Hk as [Hwf1 Hok1].
    destruct (run_priority _ _ _ _ _ _ Hwf Hok Ho Hrun1) as (nt1 & Hn1 & Hf1 & Hq1).
    destruct (IH s1 s' Hwf1 Hok1 Hops Hrun) as (nt2 & Hn2 & Hf2 & Hq2).
    exists (nt1 ++ nt2). rewrite fmap_cons. cbn [snd].
    cbn [priority_match_all] in Hf1, Hq1 |- *.
    destruct (taker_of o) as [[[[priced cid] p] tq]|] eqn:Hto.
    2:{ destruct o; simpl in *; done. }
    destruct (priority_match priced msd p tq (book_queue msd s)) as [[fs q1] tq1].
    cbn [fst snd] in Hf1, Hq1. rewrite app_nil_r in Hf1.
    rewrite Hq1 in Hf2, Hq2.
    destruct (priority_match_all msd ops.*2 q1) as [fs' q'].
    cbn [fst snd] in *. split_and!.
    + by rewrite Hn2, Hn1, <- app_assoc.
    + by rewrite fmap_app, Hf1, Hf2.
    + done.
Qed.

(** C4. Price/time priority. The makers of a side are queued by priority:
    the best level first (asks by increasing index, bids by decreasing
    index), each level from its FIFO head to its tail, which is the order of
    admission ([addPassive] appends at the tail). In every reachable state
    the head of that queue is the FIFO head of the level under the cache,
    which is the best level that holds an order. Every sweep of the side
    with enough fuel returns, and is matching by price/time priority: it
    fills the head of the queue for as long as the taker has quantity left
    and the head's price is within its limit, a filled head leaves, a head
    filled in part stays at the head; its trades are these fills, in order,
    and it leaves the queue and the taker's quantity that matching by
    priority leaves. The same holds of any sequence of new orders of the
    opposite side, limit or market: the trades they emit are the fills of
    the queue in priority order, each match against the head. In
    particular, when the makers rest in a single queue [q] at one level, the
    takers consume [q] in the makers' admission order. *)
Theorem price_time_priority (clock : nat → Z) (msd : Side) (priced : bool)
    (taker : Order) (fuel : nat) (ops : list (nat * op)) (s s' : Engine.t) :
  reachable clock s →
  qty taker < 2 ^ 63 → (sweep_bound msd s ≤ fuel)%nat →
  Forall (λ fo, is_taker (opposite msd) fo.2) ops →
  run_all clock ops s = Ok tt s' →
  heads_best msd s ∧
  (∃ t1 s1 nt,
     sweep clock fuel priced msd taker s = Ok t1 s1 ∧
     trades s1 = trades s ++ nt ∧
     fill_of <$> nt =
       fill_for (clientId taker) <$>
         (priority_match priced msd (priceIdx taker) (qty taker) (book_queue msd s)).1.1 ∧
     book_queue msd s1 =
       (priority_match priced msd (priceIdx taker) (qty taker) (book_queue msd s)).1.2 ∧
     qty t1 =
       (priority_match priced msd (priceIdx taker) (qty taker) (book_queue msd s)).2) ∧
  (∃ es nt,
     trades s' = trades s ++ nt ∧
     Trade.makerClient <$> nt = cid_at (pool s) <$> es ∧
     consumes (queue msd s) es (queue msd s') ∧
     fill_of <$> nt = (priority_match_all msd ops.*2 (book_queue msd s)).1 ∧
     book_queue msd s' = (priority_match_all msd ops.*2 (book_queue msd s)).2) ∧
  (∀ p q, single_queue msd p q s → queue msd s = q) ∧
  (∀ sd o s1 s2, wf s1 → addPassive sd o s1 = Ok tt s2 →
     ∃ idx lvl lvl',
       level sd (priceIdx o) s1 = Some lvl ∧ level sd (priceIdx o) s2 = Some lvl' ∧
       contents lvl' = contents lvl ++ [idx] ∧ cid_at (pool s2) idx = clientId o).
Proof.
  intros [Hwf Hok]%reachable_wf Hqty Hfuel Hops Hrun. split_and!.
  - by apply heads_best_wf.
  - destruct (sweep_returns clock priced msd taker s fuel Hwf Hqty Hfuel) as (t1 & s1 & Hsw).
    destruct (sweep_priority _ _ _ _ _ _ _ _ Hwf Hok Hsw) as (nt & Hnt & Hf & Hq & Ht).
    by exists t1, s1, nt.
  - destruct (run_all_queue clock msd ops s s' Hwf Hok Hops Hrun)
      as (es & nt & Hc & Hn & Hm & _).
    destruct (run_all_priority clock msd ops s s' Hwf Hok Hops Hrun)
      as (nt' & Hn' & Hf & Hq).
    rewrite Hn in Hn'. apply app_inv_head in Hn' as <-.
    by exists es, nt.
  - intros p q. apply single_queue_queue.
  - intros sd o s1 s2. apply addPassive_appends.
Qed.

Lemma price_time_priority_witness :
  let ops := [(2%nat, PlaceLimit 10 BUY 3 3 0 GFD); (2%nat, PlaceMarket 11 BUY 1 0)] in
  let taker := limit_taker 12 BUY 3 3 0 GFD in
  ∃ s1 s2 s',
    run clock0 1 (PlaceLimit 1 SELL 3 2 0 GFD) small_engine = Ok tt s1 ∧
    run clock0 1 (PlaceLimit 2 SELL 3 2 0 GFD) s1 = Ok tt s2 ∧
    qty taker < 2 ^ 63 ∧ (sweep_bound SELL s2 ≤ 20)%nat ∧
    Forall (λ fo, is_taker (opposite SELL) fo.2) ops ∧
    run_all clock0 ops s2 = Ok tt s' ∧
    book_queue SELL s2 = [mk_maker 0 1 3 2; mk_maker 1 2 3 2] ∧
    priority_match_all SELL ops.*2 (book_queue SELL s2) =
      ([(10, 1, 3, 2); (10, 2, 3, 1); (11, 2, 3, 1)], []) ∧
    fill_of <$> trades s' = [(10, 1, 3, 2); (10, 2, 3, 1); (11, 2, 3, 1)] ∧
    heads_best SELL s2 ∧
    (∃ t1 s1 nt,
       sweep clock0 20 true SELL taker s2 = Ok t1 s1 ∧
       trades s1 = trades s2 ++ nt ∧
       fill_of <$> nt =
         fill_for (clientId taker) <$>
           (priority_match true SELL (priceIdx taker) (qty taker) (book_queue SELL s2)).1.1 ∧
       book_queue SELL s1 =
         (priority_match true SELL (priceIdx taker) (qty taker) (book_queue SELL s2)).1.2 ∧
       qty t1 =
         (priority_match true SELL (priceIdx taker) (qty taker) (book_queue SELL s2)).2) ∧
    (∃ es nt,
       trades s' = trades s2 ++ nt ∧
       Trade.makerClient <$> nt = cid_at (pool s2) <$> es ∧
       consumes (queue SELL s2) es (queue SELL s') ∧
       fill_of <$> nt = (priority_match_all SELL ops.*2 (book_queue SELL s2)).1 ∧
       book_queue SELL s' = (priority_match_all SELL ops.*2 (book_queue SELL s2)).2) ∧
    (∀ p q, single_queue SELL p q s2 → queue SELL s2 = q) ∧
    (∀ sd o s1 s2, wf s1 → addPassive sd o s1 = Ok tt s2 →
       ∃ idx lvl lvl',
         level sd (priceIdx o) s1 = Some lvl ∧ level sd (priceIdx o) s2 = Some lvl' ∧
         contents lvl' = contents lvl ++ [idx] ∧ cid_at (pool s2) idx = clientId o).
Proof.
  intros ops taker. eexists. eexists. eexists.
  match goal with
  | |- run ?c ?f1 ?o1 ?s0 = Ok tt ?s1 ∧ run _ ?f2 ?o2 _ = Ok tt ?s2 ∧ _ ∧ _ ∧ _ ∧
       run_all _ _ _ = Ok tt ?s' ∧ _ =>
      assert (H1 : run c f1 o1 s0 = Ok tt s1) by (vm_compute; reflexivity);
      assert (H2 : run c f2 o2 s1 = Ok tt s2) by (vm_compute; reflexivity);
      assert (H3 : run_all c ops s2 = Ok tt s') by (vm_compute; reflexivity);
      assert (H4 : qty taker < 2 ^ 63) by (vm_compute; reflexivity);
      assert (H5 : (sweep_bound SELL s2 ≤ 20)%nat)
        by (apply Nat.leb_le; vm_compute; reflexivity);
      assert (H6 : Forall (λ fo, is_taker (opposite SELL) fo.2) ops)
        by (repeat constructor);
      split; [exact H1|split; [exact H2|split; [exact H4|split; [exact H5|
        split; [exact H6|split; [exact H3|]]]]]];
      split; [vm_compute; reflexivity|split; [vm_compute; reflexivity|
        split; [vm_compute; reflexivity|]]];
      exact (price_time_priority c SELL true taker 20 ops s2 s'
               (reach_return c f2 o2 s1 s2
                  (reach_return c f1 o1 s0 s1 small_engine_reachable H1) H2)
               H4 H5 H6 H3)
  end.
Defined.
